(** * Order matching engine: order book, matcher and engine

    A shallow embedding of [internal/models/models.go],
    [internal/engine/orderbook.go], [internal/engine/matcher.go], the engine
    ([Engine.PlaceOrder], [Engine.CancelOrder], the book queries) and the
    depth check of the HTTP handler [handleOrderBook].

    Modelling conventions.
    - [decimal.Decimal] values are exact numbers; every operation the engine
      uses on them ([Sub], [Add], [IsZero], [LessThan], [GreaterThanOrEqual],
      [LessThanOrEqual], [GreaterThan]) is exact, and [String()] is the same
      for numerically equal values.  They are modelled as integers of a common
      smallest unit, and the map key [price.String()] as the number itself.
    - [*models.Order] is a pointer.  Resting orders are shared between the
      book and the matcher's result, so orders live in a heap (a list indexed
      by address) and books and results hold addresses.  Dereferencing an
      address that is not allocated is Go's nil dereference: a panic.
    - [time.Now()] is an input.
    - Calls run one after the other: the mutexes are not modelled.

    The file has three parts: the program, the invariants and relations the
    statements are written with, and the properties. *)

From stdpp Require Import gmap strings list fin_maps sorting pretty.

Open Scope Z_scope.

(** ** Outcomes: a return value, a panic, or an exhausted loop budget *)

Inductive exec (A : Type) : Type :=
  | Ret (a : A)
  | Panic
  | OutOfFuel.
Arguments Ret {A} a.
Arguments Panic {A}.
Arguments OutOfFuel {A}.

Definition exec_bind {A B} (f : A → exec B) (m : exec A) : exec B :=
  match m with
  | Ret a => f a
  | Panic => Panic
  | OutOfFuel => OutOfFuel
  end.

#[global] Instance exec_mret : MRet exec := λ A a, Ret a.
#[global] Instance exec_mbind : MBind exec := λ A B f m, exec_bind f m.

(** ** models.go *)

Inductive OrderSide := OrderSideBuy | OrderSideSell.
Inductive OrderType := OrderTypeLimit | OrderTypeMarket.
Inductive OrderStatus :=
  | OrderStatusOpen
  | OrderStatusPartiallyFilled
  | OrderStatusFilled
  | OrderStatusCanceled.

#[global] Instance OrderSide_eq_dec : EqDecision OrderSide.
Proof. solve_decision. Defined.
#[global] Instance OrderType_eq_dec : EqDecision OrderType.
Proof. solve_decision. Defined.
#[global] Instance OrderStatus_eq_dec : EqDecision OrderStatus.
Proof. solve_decision. Defined.

Module Order.
Record t := mk {
  ID : Z;
  ClientOrderID : option string;
  Symbol : string;
  Side : OrderSide;
  Type_ : OrderType;
  Price : option Z;
  InitialQuantity : Z;
  RemainingQuantity : Z;
  Status : OrderStatus;
  CreatedAt : Z;
  UpdatedAt : Z
}.

Definition setID (v : Z) (o : t) : t :=
  mk v (ClientOrderID o) (Symbol o) (Side o) (Type_ o) (Price o)
     (InitialQuantity o) (RemainingQuantity o) (Status o) (CreatedAt o) (UpdatedAt o).
Definition setRemainingQuantity (v : Z) (o : t) : t :=
  mk (ID o) (ClientOrderID o) (Symbol o) (Side o) (Type_ o) (Price o)
     (InitialQuantity o) v (Status o) (CreatedAt o) (UpdatedAt o).
Definition setStatus (v : OrderStatus) (o : t) : t :=
  mk (ID o) (ClientOrderID o) (Symbol o) (Side o) (Type_ o) (Price o)
     (InitialQuantity o) (RemainingQuantity o) v (CreatedAt o) (UpdatedAt o).
Definition setUpdatedAt (v : Z) (o : t) : t :=
  mk (ID o) (ClientOrderID o) (Symbol o) (Side o) (Type_ o) (Price o)
     (InitialQuantity o) (RemainingQuantity o) (Status o) (CreatedAt o) v.
End Order.

Module Trade.
Record t := mk {
  ID : Z;
  Symbol : string;
  BuyOrderID : Z;
  SellOrderID : Z;
  Price : Z;
  Quantity : Z;
  ExecutedAt : Z
}.
End Trade.

Module CreateOrderRequest.
Record t := mk {
  ClientOrderID : option string;
  Symbol : string;
  Side : OrderSide;
  Type_ : OrderType;
  Price : option Z;
  Quantity : Z
}.
End CreateOrderRequest.

Module OrderBookLevel.
Record t := mk { Price : Z; Quantity : Z }.
End OrderBookLevel.

(** ** The heap of orders *)

Abbreviation ptr := nat (only parsing).
Abbreviation Heap := (list Order.t) (only parsing).

(** [*p] *)
Definition deref (h : Heap) (p : ptr) : exec Order.t :=
  match h !! p with
  | Some o => Ret o
  | None => Panic
  end.

(** [p.f = v], written as a function [f] applied to the object at [p] *)
Definition assign (h : Heap) (p : ptr) (f : Order.t → Order.t) : exec Heap :=
  o ← deref h p; Ret (<[p := f o]> h).

(** [&v] for a value that escapes: a fresh address *)
Definition alloc (h : Heap) (o : Order.t) : Heap * ptr := (h ++ [o], length h).

(** ** orderbook.go *)

Module PriceLevel.
Record t := mk { Price : Z; Orders : list ptr }.
End PriceLevel.

Definition PriceLevel_Add (pl : PriceLevel.t) (order : ptr) : PriceLevel.t :=
  PriceLevel.mk (PriceLevel.Price pl) (PriceLevel.Orders pl ++ [order]).

(** The loop of [PriceLevel.Remove]: the first order whose ID matches is cut
    out of the slice. *)
Fixpoint removeFirstID (h : Heap) (orders : list ptr) (orderID : Z)
  : exec (list ptr * bool) :=
  match orders with
  | [] => Ret ([], false)
  | p :: rest =>
      o ← deref h p;
      if bool_decide (Order.ID o = orderID) then Ret (rest, true)
      else '(rest', removed) ← removeFirstID h rest orderID; Ret (p :: rest', removed)
  end.

Definition PriceLevel_Remove (h : Heap) (pl : PriceLevel.t) (orderID : Z)
  : exec (PriceLevel.t * bool) :=
  '(orders, removed) ← removeFirstID h (PriceLevel.Orders pl) orderID;
  Ret (PriceLevel.mk (PriceLevel.Price pl) orders, removed).

Definition PriceLevel_IsEmpty (pl : PriceLevel.t) : bool :=
  bool_decide (length (PriceLevel.Orders pl) = 0%nat).

Fixpoint sumRemaining (h : Heap) (orders : list ptr) (total : Z) : exec Z :=
  match orders with
  | [] => Ret total
  | p :: rest => o ← deref h p; sumRemaining h rest (total + Order.RemainingQuantity o)
  end.

Definition PriceLevel_GetTotalQuantity (h : Heap) (pl : PriceLevel.t) : exec Z :=
  sumRemaining h (PriceLevel.Orders pl) 0.

Module OrderBook.
Record t := mk {
  Symbol : string;
  Bids : gmap Z PriceLevel.t;
  Asks : gmap Z PriceLevel.t;
  bidPrices : list Z;
  askPrices : list Z
}.
End OrderBook.

Definition NewOrderBook (symbol : string) : OrderBook.t :=
  OrderBook.mk symbol ∅ ∅ [] [].

(** Comparators handed to [sort.Slice]. *)
Definition price_desc (x y : Z) : Prop := y ≤ x.
Definition price_asc (x y : Z) : Prop := x ≤ y.

#[global] Instance price_desc_dec x y : Decision (price_desc x y).
Proof. unfold price_desc. apply _. Defined.
#[global] Instance price_asc_dec x y : Decision (price_asc x y).
Proof. unfold price_asc. apply _. Defined.

(** The prices of the non-empty levels of one side, in map-iteration order. *)
Definition levelPrices (m : gmap Z PriceLevel.t) : list Z :=
  PriceLevel.Price <$>
    filter (λ pl, PriceLevel_IsEmpty pl = false) (snd <$> map_to_list m).

Definition refreshBidPrices (ob : OrderBook.t) : OrderBook.t :=
  OrderBook.mk (OrderBook.Symbol ob) (OrderBook.Bids ob) (OrderBook.Asks ob)
    (merge_sort price_desc (levelPrices (OrderBook.Bids ob)))
    (OrderBook.askPrices ob).

Definition refreshAskPrices (ob : OrderBook.t) : OrderBook.t :=
  OrderBook.mk (OrderBook.Symbol ob) (OrderBook.Bids ob) (OrderBook.Asks ob)
    (OrderBook.bidPrices ob)
    (merge_sort price_asc (levelPrices (OrderBook.Asks ob))).

Definition setBids (m : gmap Z PriceLevel.t) (ob : OrderBook.t) : OrderBook.t :=
  OrderBook.mk (OrderBook.Symbol ob) m (OrderBook.Asks ob)
    (OrderBook.bidPrices ob) (OrderBook.askPrices ob).
Definition setAsks (m : gmap Z PriceLevel.t) (ob : OrderBook.t) : OrderBook.t :=
  OrderBook.mk (OrderBook.Symbol ob) (OrderBook.Bids ob) m
    (OrderBook.bidPrices ob) (OrderBook.askPrices ob).

(** The level at [priceKey], created with the order's price when missing. *)
Definition levelOrNew (m : gmap Z PriceLevel.t) (priceKey price : Z) : PriceLevel.t :=
  match m !! priceKey with
  | Some pl => pl
  | None => PriceLevel.mk price []
  end.

Definition AddOrder (h : Heap) (ob : OrderBook.t) (order : ptr) : exec OrderBook.t :=
  o ← deref h order;
  match Order.Price o with
  | None => Ret ob
  | Some price =>
      let priceKey := price in
      match Order.Side o with
      | OrderSideBuy =>
          let pl := levelOrNew (OrderBook.Bids ob) priceKey price in
          Ret (refreshBidPrices
                 (setBids (<[priceKey := PriceLevel_Add pl order]> (OrderBook.Bids ob)) ob))
      | OrderSideSell =>
          let pl := levelOrNew (OrderBook.Asks ob) priceKey price in
          Ret (refreshAskPrices
                 (setAsks (<[priceKey := PriceLevel_Add pl order]> (OrderBook.Asks ob)) ob))
      end
  end.

Definition RemoveOrder (h : Heap) (ob : OrderBook.t)
    (orderID : Z) (side : OrderSide) (price : option Z) : exec (OrderBook.t * bool) :=
  match price with
  | None => Ret (ob, false)
  | Some priceKey =>
      match side with
      | OrderSideBuy =>
          match OrderBook.Bids ob !! priceKey with
          | Some pl =>
              '(pl', removed) ← PriceLevel_Remove h pl orderID;
              if removed : bool then
                if PriceLevel_IsEmpty pl'
                then Ret (refreshBidPrices (setBids (delete priceKey (OrderBook.Bids ob)) ob), true)
                else Ret (setBids (<[priceKey := pl']> (OrderBook.Bids ob)) ob, true)
              else Ret (ob, false)
          | None => Ret (ob, false)
          end
      | OrderSideSell =>
          match OrderBook.Asks ob !! priceKey with
          | Some pl =>
              '(pl', removed) ← PriceLevel_Remove h pl orderID;
              if removed : bool then
                if PriceLevel_IsEmpty pl'
                then Ret (refreshAskPrices (setAsks (delete priceKey (OrderBook.Asks ob)) ob), true)
                else Ret (setAsks (<[priceKey := pl']> (OrderBook.Asks ob)) ob, true)
              else Ret (ob, false)
          | None => Ret (ob, false)
          end
      end
  end.

Definition GetBestBid (ob : OrderBook.t) : option ptr :=
  match OrderBook.bidPrices ob with
  | [] => None
  | bestPrice :: _ =>
      match OrderBook.Bids ob !! bestPrice with
      | Some pl => match PriceLevel.Orders pl with p :: _ => Some p | [] => None end
      | None => None
      end
  end.

Definition GetBestAsk (ob : OrderBook.t) : option ptr :=
  match OrderBook.askPrices ob with
  | [] => None
  | bestPrice :: _ =>
      match OrderBook.Asks ob !! bestPrice with
      | Some pl => match PriceLevel.Orders pl with p :: _ => Some p | [] => None end
      | None => None
      end
  end.

(** The test [pl != nil && !pl.IsEmpty()] on the level at [price]. *)
Definition levelLive (m : gmap Z PriceLevel.t) (price : Z) : bool :=
  match m !! price with
  | Some pl => negb (PriceLevel_IsEmpty pl)
  | None => false
  end.

(** One side of [GetTopLevels]: the first [depth] cached prices (all of them
    when [depth] is larger, none when it is not positive) whose level exists
    and is not empty. *)
Definition topSide (m : gmap Z PriceLevel.t) (prices : list Z) (depth : Z) : list Z :=
  let count := Z.min depth (Z.of_nat (length prices)) in
  filter (λ price, levelLive m price = true) (take (Z.to_nat count) prices).

(** The [PriceLevel] values [GetTopLevels] returns carry a price only; the
    model returns the prices. *)
Definition GetTopLevels (ob : OrderBook.t) (depth : Z) : list Z * list Z :=
  (topSide (OrderBook.Bids ob) (OrderBook.bidPrices ob) depth,
   topSide (OrderBook.Asks ob) (OrderBook.askPrices ob) depth).

Definition sideCount (m : gmap Z PriceLevel.t) : nat :=
  map_fold (λ _ pl acc, (acc + length (PriceLevel.Orders pl))%nat) 0%nat m.

Definition GetOrderCount (ob : OrderBook.t) : nat * nat :=
  (sideCount (OrderBook.Bids ob), sideCount (OrderBook.Asks ob)).

(** ** matcher.go *)

Module MatchResult.
Record t := mk {
  Trades : list Trade.t;
  UpdatedOrders : list ptr;
  IncomingOrderLeft : option ptr
}.
End MatchResult.

Definition canMatch (incomingOrder restingOrder : Order.t) : bool :=
  match Order.Type_ incomingOrder with
  | OrderTypeMarket => true
  | OrderTypeLimit =>
      match Order.Price incomingOrder, Order.Price restingOrder with
      | Some incomingPrice, Some restingPrice =>
          match Order.Side incomingOrder with
          | OrderSideBuy => bool_decide (restingPrice ≤ incomingPrice)
          | OrderSideSell => bool_decide (incomingPrice ≤ restingPrice)
          end
      | _, _ => false
      end
  end.

(** [*o.Price] *)
Definition derefPrice (price : option Z) : exec Z :=
  match price with
  | Some p => Ret p
  | None => Panic
  end.

Definition executeTrade (incomingOrder restingOrder : Order.t) (executedAt : Z)
  : exec Trade.t :=
  let tradeQuantity :=
    if bool_decide (Order.RemainingQuantity restingOrder < Order.RemainingQuantity incomingOrder)
    then Order.RemainingQuantity restingOrder
    else Order.RemainingQuantity incomingOrder in
  tradePrice ←
    match Order.Type_ incomingOrder, Order.Type_ restingOrder with
    | OrderTypeMarket, _ => derefPrice (Order.Price restingOrder)
    | OrderTypeLimit, OrderTypeLimit => derefPrice (Order.Price restingOrder)
    | OrderTypeLimit, OrderTypeMarket => derefPrice (Order.Price incomingOrder)
    end;
  let buyOrderID :=
    match Order.Side incomingOrder with
    | OrderSideBuy => Order.ID incomingOrder
    | OrderSideSell => Order.ID restingOrder
    end in
  let sellOrderID :=
    match Order.Side incomingOrder with
    | OrderSideBuy => Order.ID restingOrder
    | OrderSideSell => Order.ID incomingOrder
    end in
  Ret (Trade.mk 0 (Order.Symbol incomingOrder) buyOrderID sellOrderID
         tradePrice tradeQuantity executedAt).

(** What the matching loop reads and writes: the heap, the book and the two
    slices of the result under construction. *)
Module MatchState.
Record t := mk {
  heap : Heap;
  book : OrderBook.t;
  trades : list Trade.t;
  updated : list ptr
}.
End MatchState.

Definition subRemaining (q : Z) (o : Order.t) : Order.t :=
  Order.setRemainingQuantity (Order.RemainingQuantity o - q) o.

(** One evaluation of the loop condition followed, when it holds and neither
    [return] is taken, by the loop body.  [None]: the loop is left.
    [best] is [GetBestAsk] in [matchBuyOrder] and [GetBestBid] in
    [matchSellOrder]; the two bodies are otherwise the same text. *)
Definition matchBody (best : OrderBook.t → option ptr) (order : ptr)
    (executedAt : Z) (st : MatchState.t) : exec (option MatchState.t) :=
  let h := MatchState.heap st in
  let ob := MatchState.book st in
  o ← deref h order;
  if bool_decide (Order.RemainingQuantity o = 0) then Ret None else
  match best ob with
  | None => Ret None
  | Some bestp =>
      r ← deref h bestp;
      if negb (canMatch o r) then Ret None else
      trade ← executeTrade o r executedAt;
      let tradeQuantity := Trade.Quantity trade in
      h1 ← assign h order (subRemaining tradeQuantity);
      h2 ← assign h1 bestp (subRemaining tradeQuantity);
      r2 ← deref h2 bestp;
      '(h3, ob3) ←
        (if bool_decide (Order.RemainingQuantity r2 = 0) then
           h3 ← assign h2 bestp (Order.setStatus OrderStatusFilled);
           r3 ← deref h3 bestp;
           '(ob3, _) ← RemoveOrder h3 ob (Order.ID r3) (Order.Side r3) (Order.Price r3);
           Ret (h3, ob3)
         else
           h3 ← assign h2 bestp (Order.setStatus OrderStatusPartiallyFilled);
           Ret (h3, ob));
      h4 ← assign h3 bestp (Order.setUpdatedAt executedAt);
      Ret (Some (MatchState.mk h4 ob3
                   (MatchState.trades st ++ [trade])
                   (MatchState.updated st ++ [bestp])))
  end.

(** The [for] loop, with a budget of iterations. *)
Fixpoint matchLoop (fuel : nat) (best : OrderBook.t → option ptr) (order : ptr)
    (executedAt : Z) (st : MatchState.t) : exec MatchState.t :=
  match fuel with
  | O => OutOfFuel
  | S fuel' =>
      r ← matchBody best order executedAt st;
      match r with
      | None => Ret st
      | Some st' => matchLoop fuel' best order executedAt st'
      end
  end.

Definition matchBuyOrder (fuel : nat) (buyOrder : ptr) (executedAt : Z)
    (st : MatchState.t) : exec MatchState.t :=
  matchLoop fuel GetBestAsk buyOrder executedAt st.

Definition matchSellOrder (fuel : nat) (sellOrder : ptr) (executedAt : Z)
    (st : MatchState.t) : exec MatchState.t :=
  matchLoop fuel GetBestBid sellOrder executedAt st.

(** The loop has no bound in the source.  The model runs it for at most this
    many passes; on every book that satisfies the book invariant below the
    budget is never exhausted ([matchLoop_terminates]). *)
Definition matchFuel (ob : OrderBook.t) : nat :=
  (3 + (GetOrderCount ob).1 + (GetOrderCount ob).2)%nat.

(** [Match]: [incomingOrder] is read once into the local [workingOrder], whose
    address escapes into the result, so it is allocated.  The function returns
    the result together with the book and the heap as it leaves them. *)
Definition Match (h : Heap) (incomingOrder : Order.t) (orderBook : OrderBook.t)
    (executedAt : Z) : exec (MatchResult.t * OrderBook.t * Heap) :=
  let '(h0, workingOrder) := alloc h incomingOrder in
  let st0 := MatchState.mk h0 orderBook [] [] in
  let fuel := matchFuel orderBook in
  st ← match Order.Side incomingOrder with
       | OrderSideBuy => matchBuyOrder fuel workingOrder executedAt st0
       | OrderSideSell => matchSellOrder fuel workingOrder executedAt st0
       end;
  let h1 := MatchState.heap st in
  w ← deref h1 workingOrder;
  if negb (bool_decide (Order.RemainingQuantity w = 0)) then
    match Order.Type_ w with
    | OrderTypeLimit =>
        h2 ← (if bool_decide (Order.RemainingQuantity w < Order.InitialQuantity w)
              then assign h1 workingOrder (Order.setStatus OrderStatusPartiallyFilled)
              else Ret h1);
        Ret (MatchResult.mk (MatchState.trades st) (MatchState.updated st)
               (Some workingOrder),
             MatchState.book st, h2)
    | OrderTypeMarket =>
        h2 ← assign h1 workingOrder (Order.setStatus OrderStatusCanceled);
        h3 ← assign h2 workingOrder (Order.setRemainingQuantity 0);
        Ret (MatchResult.mk (MatchState.trades st)
               (MatchState.updated st ++ [workingOrder]) None,
             MatchState.book st, h3)
    end
  else
    h2 ← assign h1 workingOrder (Order.setStatus OrderStatusFilled);
    Ret (MatchResult.mk (MatchState.trades st)
           (MatchState.updated st ++ [workingOrder]) None,
         MatchState.book st, h2).

(** ** The store

    The engine talks to MySQL through four prepared statements.  The store is
    modelled by its two tables and the two AUTO_INCREMENT counters.  A
    transaction works on a copy; [Commit] installs the copy, [Rollback] drops
    its rows and keeps the counters.  Any statement may fail: an oracle tells,
    for the n-th statement an engine call issues, whether it does. *)

Module DB.
Record t := mk {
  orders : gmap Z Order.t;
  trades : list Trade.t;
  lastOrderID : Z;
  lastTradeID : Z
}.
End DB.

Definition Faults := nat → bool.

Definition noFaults : Faults := λ _, false.

Definition rollback (db tx : DB.t) : DB.t :=
  DB.mk (DB.orders db) (DB.trades db) (DB.lastOrderID tx) (DB.lastTradeID tx).

(** [INSERT INTO orders ...] followed by [LastInsertId]. *)
Definition execInsertOrder (tx : DB.t) (order : Order.t) : DB.t * Z :=
  let id := DB.lastOrderID tx + 1 in
  (DB.mk (<[id := Order.setID id order]> (DB.orders tx)) (DB.trades tx)
         id (DB.lastTradeID tx), id).

(** [INSERT INTO trades ...]: the row gets the next trade id. *)
Definition execInsertTrade (tx : DB.t) (trade : Trade.t) : DB.t :=
  let id := DB.lastTradeID tx + 1 in
  DB.mk (DB.orders tx)
        (DB.trades tx ++
           [Trade.mk id (Trade.Symbol trade) (Trade.BuyOrderID trade)
              (Trade.SellOrderID trade) (Trade.Price trade) (Trade.Quantity trade)
              (Trade.ExecutedAt trade)])
        (DB.lastOrderID tx) id.

(** [UPDATE orders SET remaining_quantity, status, updated_at WHERE id]. *)
Definition execUpdateOrder (tx : DB.t) (remaining : Z) (status : OrderStatus)
    (updatedAt : Z) (id : Z) : DB.t :=
  DB.mk (alter (λ o, Order.setUpdatedAt updatedAt
                       (Order.setStatus status
                          (Order.setRemainingQuantity remaining o)))
               id (DB.orders tx))
        (DB.trades tx) (DB.lastOrderID tx) (DB.lastTradeID tx).

(** ** The engine *)

(** The errors of [PlaceOrder], [GetOrder] and [CancelOrder], one per
    message. *)
Inductive Error :=
  | ErrBeginTransaction    (* "failed to begin transaction" *)
  | ErrInsertOrder         (* "failed to insert order" *)
  | ErrGetOrderID          (* "failed to get order ID" *)
  | ErrInsertTrade         (* "failed to insert trade" *)
  | ErrUpdateOrder (id : Z) (* "failed to update order %d" *)
  | ErrCommit              (* "failed to commit transaction" *)
  | ErrOrderNotFound       (* "order not found" *)
  | ErrScanOrder           (* "failed to scan order" *)
  | ErrAlreadyFilled       (* "order already filled" *)
  | ErrAlreadyCanceled     (* "order already canceled" *)
  | ErrNoRemainingQuantity (* "order has no remaining quantity" *)
  | ErrRecheckStatus       (* "failed to re-check order status" *)
  | ErrCannotBeCanceled (currentStatus : OrderStatus)
                           (* "order cannot be canceled, current status: %s" *)
  | ErrUpdateStatus.       (* "failed to update order status" *)

(** The engine's state: the store, the books by symbol, and the heap on which
    the orders of the books live. *)
Module Engine.
Record t := mk {
  db : DB.t;
  orderBooks : gmap string OrderBook.t;
  heap : Heap
}.
End Engine.

Definition NewEngine (db : DB.t) : Engine.t := Engine.mk db ∅ [].

Definition getOrderBook (books : gmap string OrderBook.t) (symbol : string)
  : OrderBook.t * gmap string OrderBook.t :=
  match books !! symbol with
  | Some ob => (ob, books)
  | None => (NewOrderBook symbol, <[symbol := NewOrderBook symbol]> books)
  end.

(** The loop that persists the trades.  [false]: a statement failed. *)
Fixpoint persistTrades (fl : Faults) (n : nat) (tx : DB.t) (trades : list Trade.t)
  : DB.t * bool :=
  match trades with
  | [] => (tx, true)
  | trade :: rest =>
      if fl n then (tx, false)
      else persistTrades fl (S n) (execInsertTrade tx trade) rest
  end.

(** The loop that persists the order updates.  [Some id]: the update of
    order [id] failed. *)
Fixpoint persistUpdates (fl : Faults) (n : nat) (tx : DB.t) (h : Heap)
    (updatedOrders : list ptr) : exec (DB.t * option Z) :=
  match updatedOrders with
  | [] => Ret (tx, None)
  | p :: rest =>
      updated ← deref h p;
      if fl n then Ret (tx, Some (Order.ID updated))
      else persistUpdates fl (S n)
             (execUpdateOrder tx (Order.RemainingQuantity updated)
                (Order.Status updated) (Order.UpdatedAt updated) (Order.ID updated))
             h rest
  end.

(** The loop that looks the incoming order up in the updated list. *)
Fixpoint findUpdated (h : Heap) (updatedOrders : list ptr) (id : Z)
  : exec (option Order.t) :=
  match updatedOrders with
  | [] => Ret None
  | p :: rest =>
      u ← deref h p;
      if bool_decide (Order.ID u = id) then Ret (Some u)
      else findUpdated h rest id
  end.

Definition withBook (db : DB.t) (books : gmap string OrderBook.t)
    (symbol : string) (ob : OrderBook.t) (h : Heap) : Engine.t :=
  Engine.mk db (<[symbol := ob]> books) h.

(** The order [PlaceOrder] builds from the request, before the store has
    given it an ID. *)
Definition newOrder (now : Z) (req : CreateOrderRequest.t) : Order.t :=
  Order.mk 0 (CreateOrderRequest.ClientOrderID req) (CreateOrderRequest.Symbol req)
    (CreateOrderRequest.Side req) (CreateOrderRequest.Type_ req)
    (CreateOrderRequest.Price req) (CreateOrderRequest.Quantity req)
    (CreateOrderRequest.Quantity req) OrderStatusOpen now now.

(** [PlaceOrder].  Statements are numbered as the call issues them: 0
    [Begin], 1 the insert of the order, 2 [LastInsertId], then one per trade,
    one per updated order, and [Commit].  The book of the symbol is reached
    through a pointer held by the map, so what [Match] and [AddOrder] do to
    it is written back under the symbol on every path.  A panic, which the
    deferred function answers with [Rollback] before panicking again, is the
    outcome [Panic]. *)
Definition PlaceOrder (fl : Faults) (now executedAt : Z) (e : Engine.t)
    (req : CreateOrderRequest.t)
  : exec ((Error + Order.t * list Trade.t) * Engine.t) :=
  let db := Engine.db e in
  let symbol := CreateOrderRequest.Symbol req in
  if fl 0%nat then Ret (inl ErrBeginTransaction, e) else
  let order := newOrder now req in
  if fl 1%nat then Ret (inl ErrInsertOrder, e) else
  let '(tx, orderID) := execInsertOrder db order in
  if fl 2%nat
  then Ret (inl ErrGetOrderID, Engine.mk (rollback db tx) (Engine.orderBooks e) (Engine.heap e))
  else
  let order := Order.setID orderID order in
  let '(orderBook, books) := getOrderBook (Engine.orderBooks e) symbol in
  '(matchResult, orderBook, h) ← Match (Engine.heap e) order orderBook executedAt;
  let '(tx, ok) := persistTrades fl 3 tx (MatchResult.Trades matchResult) in
  if negb ok
  then Ret (inl ErrInsertTrade, withBook (rollback db tx) books symbol orderBook h)
  else
  let n := (3 + length (MatchResult.Trades matchResult))%nat in
  '(tx, failed) ← persistUpdates fl n tx h (MatchResult.UpdatedOrders matchResult);
  match failed with
  | Some id => Ret (inl (ErrUpdateOrder id), withBook (rollback db tx) books symbol orderBook h)
  | None =>
      let n := (n + length (MatchResult.UpdatedOrders matchResult))%nat in
      '(orderBook, order) ←
        match MatchResult.IncomingOrderLeft matchResult with
        | Some leftover =>
            orderBook ← AddOrder h orderBook leftover;
            o ← deref h leftover;
            Ret (orderBook, o)
        | None =>
            u ← findUpdated h (MatchResult.UpdatedOrders matchResult) (Order.ID order);
            Ret (orderBook, default order u)
        end;
      if fl n
      then Ret (inl ErrCommit, withBook (rollback db tx) books symbol orderBook h)
      else Ret (inr (order, MatchResult.Trades matchResult),
                withBook tx books symbol orderBook h)
  end.

(** [GetOrder]: [failed] tells whether the query fails in the store.  The
    price column holds a decimal the store wrote, so parsing it back does not
    fail. *)
Definition GetOrder (failed : bool) (db : DB.t) (orderID : Z) : Error + Order.t :=
  if failed then inl ErrScanOrder
  else match DB.orders db !! orderID with
       | None => inl ErrOrderNotFound
       | Some order => inr order
       end.

(** [CancelOrder].  Statements: 0 the read of [GetOrder], 1 [Begin], 2 the
    read inside the transaction, 3 the update, 4 [Commit]. *)
Definition CancelOrder (fl : Faults) (now : Z) (e : Engine.t) (orderID : Z)
  : exec ((Error + Order.t) * Engine.t) :=
  let db := Engine.db e in
  match GetOrder (fl 0%nat) db orderID with
  | inl err => Ret (inl err, e)
  | inr order =>
      if bool_decide (Order.Status order = OrderStatusFilled)
      then Ret (inl ErrAlreadyFilled, e) else
      if bool_decide (Order.Status order = OrderStatusCanceled)
      then Ret (inl ErrAlreadyCanceled, e) else
      if bool_decide (Order.RemainingQuantity order = 0)
      then Ret (inl ErrNoRemainingQuantity, e) else
      if fl 1%nat then Ret (inl ErrBeginTransaction, e) else
      let tx := db in
      if fl 2%nat then Ret (inl ErrRecheckStatus, e) else
      match DB.orders tx !! orderID with
      | None => Ret (inl ErrOrderNotFound, e)
      | Some row =>
          let currentStatus := Order.Status row in
          let currentRemainingQty := Order.RemainingQuantity row in
          if bool_decide (currentStatus = OrderStatusFilled)
             || bool_decide (currentStatus = OrderStatusCanceled)
          then Ret (inl (ErrCannotBeCanceled currentStatus), e) else
          if bool_decide (currentRemainingQty = 0)
          then Ret (inl ErrNoRemainingQuantity, e) else
          if fl 3%nat then Ret (inl ErrUpdateStatus, e) else
          let tx := execUpdateOrder tx 0 OrderStatusCanceled now orderID in
          let '(ob, books) := getOrderBook (Engine.orderBooks e) (Order.Symbol order) in
          ob ← match Order.Price order with
               | Some _ =>
                   '(ob, _) ← RemoveOrder (Engine.heap e) ob orderID
                                (Order.Side order) (Order.Price order);
                   Ret ob
               | None => Ret ob
               end;
          if fl 4%nat
          then Ret (inl ErrCommit,
                    withBook (rollback db tx) books (Order.Symbol order) ob (Engine.heap e))
          else Ret (inr (Order.setUpdatedAt now
                           (Order.setStatus OrderStatusCanceled
                              (Order.setRemainingQuantity 0 order))),
                    withBook tx books (Order.Symbol order) ob (Engine.heap e))
      end
  end.

Definition GetOrderBook (e : Engine.t) (symbol : string) (depth : Z)
  : (list Z * list Z) * gmap string OrderBook.t :=
  let '(ob, books) := getOrderBook (Engine.orderBooks e) symbol in
  (GetTopLevels ob depth, books).

(** The loop of [GetOrderBookWithQuantities] over one side. *)
Fixpoint levelsWithQuantities (h : Heap) (m : gmap Z PriceLevel.t) (levels : list Z)
  : exec (list OrderBookLevel.t) :=
  match levels with
  | [] => Ret []
  | price :: rest =>
      total ← match m !! price with
              | Some pl => PriceLevel_GetTotalQuantity h pl
              | None => Ret 0
              end;
      out ← levelsWithQuantities h m rest;
      Ret (OrderBookLevel.mk price total :: out)
  end.

Definition GetOrderBookWithQuantities (e : Engine.t) (symbol : string) (depth : Z)
  : exec ((list OrderBookLevel.t * list OrderBookLevel.t) * gmap string OrderBook.t) :=
  let '(ob, books) := getOrderBook (Engine.orderBooks e) symbol in
  let '(bidLevels, askLevels) := GetTopLevels ob depth in
  bids ← levelsWithQuantities (Engine.heap e) (OrderBook.Bids ob) bidLevels;
  asks ← levelsWithQuantities (Engine.heap e) (OrderBook.Asks ob) askLevels;
  Ret ((bids, asks), books).

(** ** The depth parameter of [handleOrderBook] (cmd/server)

    The handler reads [depth] from the query string: absent or empty it is 10,
    otherwise [strconv.Atoi] parses it. *)

Inductive Atoi := AtoiOk (n : Z) | AtoiErr.

Inductive Response :=
  | MethodNotAllowed
  | BadRequest (msg : string)
  | OK (bids asks : list OrderBookLevel.t).

Definition handleOrderBook (e : Engine.t) (methodIsGet : bool) (symbol : string)
    (depthStr : option Atoi) : exec (Response * gmap string OrderBook.t) :=
  if negb methodIsGet then Ret (MethodNotAllowed, Engine.orderBooks e) else
  if bool_decide (symbol = "")
  then Ret (BadRequest "symbol parameter is required", Engine.orderBooks e) else
  let valid (depth : Z) :=
    '(levels, books) ← GetOrderBookWithQuantities e symbol depth;
    Ret (OK levels.1 levels.2, books) in
  match depthStr with
  | None => valid 10
  | Some AtoiErr =>
      Ret (BadRequest "Invalid depth parameter (must be 1-100)", Engine.orderBooks e)
  | Some (AtoiOk depth) =>
      if bool_decide (depth < 1) || bool_decide (depth > 100)
      then Ret (BadRequest "Invalid depth parameter (must be 1-100)", Engine.orderBooks e)
      else valid depth
  end.

(** [validateCreateOrderRequest]: the error message, if any.  The tests on
    [Side] and [Type] being one of their two values hold by typing. *)
Definition validateCreateOrderRequest (req : CreateOrderRequest.t) : option string :=
  if bool_decide (CreateOrderRequest.Symbol req = "") then Some "symbol is required"
  else if bool_decide (CreateOrderRequest.Quantity req = 0)
          || bool_decide (CreateOrderRequest.Quantity req < 0)
  then Some "quantity must be positive"
  else
    match CreateOrderRequest.Type_ req with
    | OrderTypeLimit =>
        match CreateOrderRequest.Price req with
        | None => Some "price is required for limit orders and must be positive"
        | Some price =>
            if bool_decide (price = 0) || bool_decide (price < 0)
            then Some "price is required for limit orders and must be positive"
            else None
        end
    | OrderTypeMarket => None
    end.

(** ** [GetTrades] and the handler [handleTrades]

    The query selects the trades of a symbol [ORDER BY executed_at DESC, id
    DESC], with [LIMIT limit] when [limit > 0].

    The [symbol] column is declared [COLLATE utf8mb4_unicode_ci]
    (migrations/001_create_tables.sql), so [WHERE symbol = ?] compares under
    that collation, which takes strings that differ in case or in trailing
    spaces as equal, and not byte by byte.  The comparison of the server is
    a parameter of the model: [coll column parameter] tells whether the
    server takes the value of the column and the parameter as equal.

    Statements: 0 the query; for the row number [i] (from 0), [1 + 2 * i] is
    the [rows.Next()] that fetches it and [2 + 2 * i] its [rows.Scan].
    [rows.Next()] returns false at the end of the rows and when it fails:
    the loop ends either way, and [GetTrades] does not read [rows.Err()], so
    that it then returns the trades scanned so far, without error. *)

Definition Collation := string → string → bool.

Inductive TradesError :=
  | ErrQueryTrades   (* "failed to query trades" *)
  | ErrScanTrade.    (* "failed to scan trade" *)

(** [t1] comes before [t2] in the result. *)
Definition trade_newer (t1 t2 : Trade.t) : Prop :=
  Trade.ExecutedAt t2 < Trade.ExecutedAt t1
  ∨ (Trade.ExecutedAt t1 = Trade.ExecutedAt t2 ∧ Trade.ID t2 ≤ Trade.ID t1).

#[global] Instance trade_newer_dec t1 t2 : Decision (trade_newer t1 t2).
Proof. unfold trade_newer. apply _. Defined.

Definition selectTrades (coll : Collation) (db : DB.t) (symbol : string) (limit : Z)
  : list Trade.t :=
  let rows := merge_sort trade_newer
                (filter (λ t, coll (Trade.Symbol t) symbol = true) (DB.trades db)) in
  if bool_decide (0 < limit) then take (Z.to_nat limit) rows else rows.

(** The loop over the rows; [n] is the number of the next [rows.Next()]. *)
Fixpoint scanTrades (fl : Faults) (n : nat) (rows : list Trade.t)
  : TradesError + list Trade.t :=
  match rows with
  | [] => inr []
  | t :: rest =>
      if fl n then inr []
      else if fl (S n) then inl ErrScanTrade
      else match scanTrades fl (S (S n)) rest with
           | inl err => inl err
           | inr trades => inr (t :: trades)
           end
  end.

Definition GetTrades (coll : Collation) (fl : Faults) (db : DB.t) (symbol : string)
    (limit : Z) : TradesError + list Trade.t :=
  if fl 0%nat then inl ErrQueryTrades
  else scanTrades fl 1 (selectTrades coll db symbol limit).

Inductive TradesResponse :=
  | TradesMethodNotAllowed
  | TradesBadRequest (msg : string)
  | TradesInternalError
  | TradesOK (trades : list Trade.t).

(** [limitStr]: the [limit] parameter of the query string, absent or empty
    ([None]) or what [strconv.Atoi] makes of it. *)
Definition handleTrades (coll : Collation) (fl : Faults) (e : Engine.t)
    (methodIsGet : bool) (symbol : string) (limitStr : option Atoi) : TradesResponse :=
  if negb methodIsGet then TradesMethodNotAllowed else
  if bool_decide (symbol = "") then TradesBadRequest "symbol parameter is required" else
  let answer (limit : Z) :=
    match GetTrades coll fl (Engine.db e) symbol limit with
    | inl _ => TradesInternalError
    | inr trades => TradesOK trades
    end in
  match limitStr with
  | None => answer 100
  | Some AtoiErr => TradesBadRequest "Invalid limit parameter"
  | Some (AtoiOk limit) =>
      if bool_decide (limit < 0) then TradesBadRequest "Invalid limit parameter"
      else answer limit
  end.

(** ** [LoadOpenOrders]

    The query selects the rows with status open or partially filled [ORDER BY
    created_at ASC, id ASC].  The [id] column is the key of the table.
    Statements: 0 the query; for the row number [i] (from 0), [1 + 2 * i] is
    the [rows.Next()] that fetches it and [2 + 2 * i] its [rows.Scan]; after
    the last row one more [rows.Next()].  [rows.Next()] returns false at the
    end of the rows and when it fails: the loop ends either way, with the
    orders of the rows before in the books, and [rows.Err()] after the loop
    tells the two apart.  Each row is scanned into a variable declared in the
    loop body, whose address goes into the book: a fresh address per row. *)

Inductive LoadError :=
  | ErrQueryOpenOrders  (* "failed to query open orders" *)
  | ErrScanOpenOrder    (* "failed to scan order" *)
  | ErrIterateOrders.   (* "error iterating orders" *)

(** [o1] comes before [o2] in the result. *)
Definition order_older (o1 o2 : Order.t) : Prop :=
  Order.CreatedAt o1 < Order.CreatedAt o2
  ∨ (Order.CreatedAt o1 = Order.CreatedAt o2 ∧ Order.ID o1 ≤ Order.ID o2).

#[global] Instance order_older_dec o1 o2 : Decision (order_older o1 o2).
Proof. unfold order_older. apply _. Defined.

Definition statusIsOpen (o : Order.t) : bool :=
  match Order.Status o with
  | OrderStatusOpen | OrderStatusPartiallyFilled => true
  | OrderStatusFilled | OrderStatusCanceled => false
  end.

Definition selectOpenOrders (db : DB.t) : list Order.t :=
  merge_sort order_older
    (filter (λ o, statusIsOpen o = true)
       ((λ row, Order.setID row.1 row.2) <$> map_to_list (DB.orders db))).

(** The test [order.Type == models.OrderTypeLimit && order.Price != nil]. *)
Definition goesToBook (o : Order.t) : bool :=
  match Order.Type_ o, Order.Price o with
  | OrderTypeLimit, Some _ => true
  | _, _ => false
  end.

(** The loop over the rows and the [rows.Err()] that follows it; [loaded]
    counts the orders added.  [n] is the number of the next [rows.Next()]. *)
Fixpoint loadRows (fl : Faults) (n : nat) (e : Engine.t) (rows : list Order.t)
    (loaded : nat) : exec (option LoadError * Engine.t * nat) :=
  match rows with
  | [] =>
      if fl n then Ret (Some ErrIterateOrders, e, loaded) else Ret (None, e, loaded)
  | order :: rest =>
      if fl n then Ret (Some ErrIterateOrders, e, loaded) else
      if fl (S n) then Ret (Some ErrScanOpenOrder, e, loaded) else
      if goesToBook order then
        let '(ob, books) := getOrderBook (Engine.orderBooks e) (Order.Symbol order) in
        let '(h, p) := alloc (Engine.heap e) order in
        ob ← AddOrder h ob p;
        loadRows fl (S (S n)) (withBook (Engine.db e) books (Order.Symbol order) ob h)
          rest (S loaded)
      else loadRows fl (S (S n)) e rest loaded
  end.

Definition LoadOpenOrders (fl : Faults) (e : Engine.t)
  : exec (option LoadError * Engine.t * nat) :=
  if fl 0%nat then Ret (Some ErrQueryOpenOrders, e, 0%nat) else
  loadRows fl 1 e (selectOpenOrders (Engine.db e)) 0.

(** ** The handler [handleOrderByID] (cmd/server)

    The handler tells the errors of [GetOrder] and [CancelOrder] apart by
    their text.  [errorMessage] is that text; [cause] is the text of the
    wrapped error, where the engine wraps one. *)

Definition statusString (status : OrderStatus) : string :=
  match status with
  | OrderStatusOpen => "open"
  | OrderStatusPartiallyFilled => "partially_filled"
  | OrderStatusFilled => "filled"
  | OrderStatusCanceled => "canceled"
  end.

Definition errorMessage (cause : string) (err : Error) : string :=
  match err with
  | ErrBeginTransaction => "failed to begin transaction: " +:+ cause
  | ErrInsertOrder => "failed to insert order: " +:+ cause
  | ErrGetOrderID => "failed to get order ID: " +:+ cause
  | ErrInsertTrade => "failed to insert trade: " +:+ cause
  | ErrUpdateOrder id => "failed to update order " +:+ pretty id +:+ ": " +:+ cause
  | ErrCommit => "failed to commit transaction: " +:+ cause
  | ErrOrderNotFound => "order not found"
  | ErrScanOrder => "failed to scan order: " +:+ cause
  | ErrAlreadyFilled => "order already filled"
  | ErrAlreadyCanceled => "order already canceled"
  | ErrNoRemainingQuantity => "order has no remaining quantity"
  | ErrRecheckStatus => "failed to re-check order status: " +:+ cause
  | ErrCannotBeCanceled status =>
      "order cannot be canceled, current status: " +:+ statusString status
  | ErrUpdateStatus => "failed to update order status: " +:+ cause
  end.

(** [strings.Contains] *)
Definition contains (s substr : string) : bool :=
  match String.index 0 substr s with
  | Some _ => true
  | None => false
  end.

Inductive Method := MethodGet | MethodPost | MethodDelete | MethodOther.

(** What the handler writes: [http.Error] with a status code, the order as
    JSON, or the answer to a cancel. *)
Inductive Reply :=
  | ReplyError (code : Z) (msg : string)
  | ReplyOrder (order : Order.t)
  | ReplyCanceled (orderID : Z) (status : OrderStatus).

(** The [switch] over the text of the error of [CancelOrder]. *)
Definition cancelErrorReply (msg : string) : Reply :=
  if contains msg "not found" then ReplyError 404 "Order not found"
  else if contains msg "already filled" then ReplyError 409 "Order already filled"
  else if contains msg "already canceled" then ReplyError 409 "Order already canceled"
  else if contains msg "no remaining quantity"
  then ReplyError 409 "Order has no remaining quantity"
  else if contains msg "cannot be canceled" then ReplyError 409 "Order cannot be canceled"
  else ReplyError 500 "Internal server error".

(** [path]: what is left of the URL path after ["/orders/"], empty ([None])
    or what [strconv.ParseInt] makes of it. *)
Definition handleOrderByID (fl : Faults) (cause : string) (now : Z) (e : Engine.t)
    (method : Method) (path : option Atoi) : exec (Reply * Engine.t) :=
  match method with
  | MethodGet | MethodDelete =>
      match path with
      | None => Ret (ReplyError 400 "Order ID is required", e)
      | Some AtoiErr => Ret (ReplyError 400 "Invalid order ID", e)
      | Some (AtoiOk orderID) =>
          match method with
          | MethodGet =>
              match GetOrder (fl 0%nat) (Engine.db e) orderID with
              | inl err =>
                  if contains (errorMessage cause err) "not found"
                  then Ret (ReplyError 404 "Order not found", e)
                  else Ret (ReplyError 500 "Internal server error", e)
              | inr order => Ret (ReplyOrder order, e)
              end
          | _ =>
              '(result, e') ← CancelOrder fl now e orderID;
              match result with
              | inl err => Ret (cancelErrorReply (errorMessage cause err), e')
              | inr order => Ret (ReplyCanceled (Order.ID order) (Order.Status order), e')
              end
          end
      end
  | _ => Ret (ReplyError 405 "Method not allowed", e)
  end.

(** * Invariants, relations and the objects used in the proofs *)

(** ** The book invariant

    What every order book built by the engine satisfies: on each side the
    cached prices are the sorted keys of the levels, each level carries its
    key as price and is not empty, and each resting order is an allocated
    limit order of that side whose price is the key of its level. *)

(** The order at address [p] rests on the side [m]. *)
Definition rests (m : gmap Z PriceLevel.t) (p : ptr) : Prop :=
  ∃ k pl, m !! k = Some pl ∧ p ∈ PriceLevel.Orders pl.

Definition resting_order (sd : OrderSide) (k : Z) (o : Order.t) : Prop :=
  Order.Price o = Some k ∧ Order.Side o = sd ∧ Order.Type_ o = OrderTypeLimit.

Record side_inv (sd : OrderSide) (R : relation Z) (h : Heap)
    (m : gmap Z PriceLevel.t) (ps : list Z) : Prop := SideInv {
  si_sorted : StronglySorted R ps;
  si_keys : ∀ k, k ∈ ps ↔ is_Some (m !! k);
  si_price : ∀ k pl, m !! k = Some pl → PriceLevel.Price pl = k;
  si_nonempty : ∀ k pl, m !! k = Some pl → PriceLevel.Orders pl ≠ [];
  si_orders : ∀ k pl p, m !! k = Some pl → p ∈ PriceLevel.Orders pl →
                ∃ o, h !! p = Some o ∧ resting_order sd k o
}.

Definition book_inv (h : Heap) (ob : OrderBook.t) : Prop :=
  side_inv OrderSideBuy price_desc h (OrderBook.Bids ob) (OrderBook.bidPrices ob)
  ∧ side_inv OrderSideSell price_asc h (OrderBook.Asks ob) (OrderBook.askPrices ob).

(** Heaps that agree on the allocated addresses up to the fields the matcher
    writes. *)
Definition heap_ext (h h' : Heap) : Prop :=
  ∀ p o, h !! p = Some o →
    ∃ o', h' !! p = Some o' ∧ Order.ID o' = Order.ID o ∧ Order.Price o' = Order.Price o
          ∧ Order.Side o' = Order.Side o ∧ Order.Type_ o' = Order.Type_ o
          ∧ Order.InitialQuantity o' = Order.InitialQuantity o
          ∧ Order.Symbol o' = Order.Symbol o.

(** The functions the matcher applies to an order in place. *)
Definition keeps_identity (f : Order.t → Order.t) : Prop :=
  ∀ o, Order.ID (f o) = Order.ID o ∧ Order.Price (f o) = Order.Price o
       ∧ Order.Side (f o) = Order.Side o ∧ Order.Type_ (f o) = Order.Type_ o
       ∧ Order.InitialQuantity (f o) = Order.InitialQuantity o
       ∧ Order.Symbol (f o) = Order.Symbol o.

(** The two branches of [RemoveOrder] are the same text on [Bids] and on
    [Asks]; [removeFromSide] is that text on a side handed to it
    ([RemoveOrder_buy], [RemoveOrder_sell]). *)
Definition removeFromSide (R : relation Z) `{!∀ x y, Decision (R x y)} (h : Heap)
    (m : gmap Z PriceLevel.t) (ps : list Z) (orderID priceKey : Z)
  : exec (gmap Z PriceLevel.t * list Z * bool) :=
  match m !! priceKey with
  | Some pl =>
      '(pl', removed) ← PriceLevel_Remove h pl orderID;
      if removed : bool then
        if PriceLevel_IsEmpty pl'
        then Ret (delete priceKey m, merge_sort R (levelPrices (delete priceKey m)), true)
        else Ret (<[priceKey := pl']> m, ps, true)
      else Ret (m, ps, false)
  | None => Ret (m, ps, false)
  end.

(** A side, a book, that has lost levels or orders and gained none. *)
Definition levels_sub (m' m : gmap Z PriceLevel.t) : Prop :=
  (∀ k, is_Some (m' !! k) → is_Some (m !! k)) ∧ (∀ p, rests m' p → rests m p).

Definition book_sub (ob' ob : OrderBook.t) : Prop :=
  OrderBook.Symbol ob' = OrderBook.Symbol ob
  ∧ levels_sub (OrderBook.Bids ob') (OrderBook.Bids ob)
  ∧ levels_sub (OrderBook.Asks ob') (OrderBook.Asks ob).

(** The number of orders resting in a book. *)
Definition bookCount (ob : OrderBook.t) : nat :=
  ((GetOrderCount ob).1 + (GetOrderCount ob).2)%nat.

(** ** The matching loop, pass by pass *)

Definition opposite (sd : OrderSide) : OrderSide :=
  match sd with OrderSideBuy => OrderSideSell | OrderSideSell => OrderSideBuy end.

(** The side an incoming order of side [sd] trades against, and the getter
    its loop calls. *)
Definition oppositeLevels (sd : OrderSide) (ob : OrderBook.t) : gmap Z PriceLevel.t :=
  match sd with
  | OrderSideBuy => OrderBook.Asks ob
  | OrderSideSell => OrderBook.Bids ob
  end.

Definition bestOpposite (sd : OrderSide) : OrderBook.t → option ptr :=
  match sd with
  | OrderSideBuy => GetBestAsk
  | OrderSideSell => GetBestBid
  end.

(** [k] is at least as good a price as [k'] for an incoming order of side
    [sd]: the lowest ask, the highest bid. *)
Definition at_least_as_good (sd : OrderSide) (k k' : Z) : Prop :=
  match sd with
  | OrderSideBuy => k ≤ k'
  | OrderSideSell => k' ≤ k
  end.

(** The status the loop body gives the resting order after a trade. *)
Definition tradeStatus (remaining : Z) : OrderStatus :=
  if bool_decide (remaining = 0) then OrderStatusFilled else OrderStatusPartiallyFilled.

(** The resting order as the loop body leaves it after a trade of [q]. *)
Definition restingAfter (q executedAt : Z) (r : Order.t) : Order.t :=
  Order.setUpdatedAt executedAt
    (Order.setStatus (tradeStatus (Order.RemainingQuantity r - q)) (subRemaining q r)).

(** A pass that trades: everything the body did, from state [st] to [st'],
    with the incoming order [w], the resting order [r] at address [p] and
    price level [k], and the trade. *)
Record trade_step (sd : OrderSide) (wp : ptr) (executedAt : Z)
    (st st' : MatchState.t) (w r : Order.t) (p : ptr) (k : Z) (trade : Trade.t)
  : Prop := TradeStep {
  ts_w : MatchState.heap st !! wp = Some w;
  ts_side : Order.Side w = sd;
  ts_remaining : Order.RemainingQuantity w ≠ 0;
  ts_best : bestOpposite sd (MatchState.book st) = Some p;
  ts_r : MatchState.heap st !! p = Some r;
  ts_resting : resting_order (opposite sd) k r;
  ts_can : canMatch w r = true;
  ts_trade : executeTrade w r executedAt = Ret trade;
  ts_trades : MatchState.trades st' = MatchState.trades st ++ [trade];
  ts_updated : MatchState.updated st' = MatchState.updated st ++ [p];
  ts_ne : p ≠ wp;
  ts_w' : MatchState.heap st' !! wp = Some (subRemaining (Trade.Quantity trade) w);
  ts_r' : MatchState.heap st' !! p
          = Some (restingAfter (Trade.Quantity trade) executedAt r);
  ts_frame : ∀ q, q ≠ wp → q ≠ p → MatchState.heap st' !! q = MatchState.heap st !! q;
  ts_length : length (MatchState.heap st') = length (MatchState.heap st);
  ts_book :
    if bool_decide (Order.RemainingQuantity r - Trade.Quantity trade = 0)
    then ∃ h3, heap_ext (MatchState.heap st) h3 ∧ heap_ext h3 (MatchState.heap st')
               ∧ RemoveOrder h3 (MatchState.book st) (Order.ID r) (Order.Side r)
                   (Order.Price r) = Ret (MatchState.book st', true)
    else MatchState.book st' = MatchState.book st
}.

(** The passes of the loop that trade, from one state to a later one. *)
Inductive match_run (sd : OrderSide) (wp : ptr) (executedAt : Z)
  : MatchState.t → MatchState.t → Prop :=
  | run_done st : match_run sd wp executedAt st st
  | run_trade st st' st'' w r p k trade :
      matchBody (bestOpposite sd) wp executedAt st = Ret (Some st') →
      trade_step sd wp executedAt st st' w r p k trade →
      match_run sd wp executedAt st' st'' →
      match_run sd wp executedAt st st''.

(** Why the loop is left: nothing remains, the opposite side is empty, or the
    best opposite order cannot be matched. *)
Definition loop_exit (sd : OrderSide) (wp : ptr) (st : MatchState.t) (w : Order.t) : Prop :=
  MatchState.heap st !! wp = Some w
  ∧ (Order.RemainingQuantity w = 0
     ∨ bestOpposite sd (MatchState.book st) = None
     ∨ ∃ p r, bestOpposite sd (MatchState.book st) = Some p
              ∧ MatchState.heap st !! p = Some r ∧ canMatch w r = false).

(** The block that finalizes the incoming order, on the state the loop left. *)
Definition finalize (wp : ptr) (st : MatchState.t) (w : Order.t)
  : MatchResult.t * OrderBook.t * list Order.t :=
  if bool_decide (Order.RemainingQuantity w = 0) then
    (MatchResult.mk (MatchState.trades st) (MatchState.updated st ++ [wp]) None,
     MatchState.book st,
     <[wp := Order.setStatus OrderStatusFilled w]> (MatchState.heap st))
  else
    match Order.Type_ w with
    | OrderTypeLimit =>
        (MatchResult.mk (MatchState.trades st) (MatchState.updated st) (Some wp),
         MatchState.book st,
         if bool_decide (Order.RemainingQuantity w < Order.InitialQuantity w)
         then <[wp := Order.setStatus OrderStatusPartiallyFilled w]> (MatchState.heap st)
         else MatchState.heap st)
    | OrderTypeMarket =>
        (MatchResult.mk (MatchState.trades st) (MatchState.updated st ++ [wp]) None,
         MatchState.book st,
         <[wp := Order.setRemainingQuantity 0 (Order.setStatus OrderStatusCanceled w)]>
           (MatchState.heap st))
    end.

(** The state in which [Match] enters the loop. *)
Definition matchStart (h : list Order.t) (incomingOrder : Order.t) (ob : OrderBook.t)
  : MatchState.t :=
  MatchState.mk (h ++ [incomingOrder]) ob [] [].

(** The order of a trade that was resting, and the one that came in, seen
    from an incoming order of side [sd]. *)
Definition restingID (sd : OrderSide) (t : Trade.t) : Z :=
  match sd with
  | OrderSideBuy => Trade.SellOrderID t
  | OrderSideSell => Trade.BuyOrderID t
  end.

Definition incomingID (sd : OrderSide) (t : Trade.t) : Z :=
  match sd with
  | OrderSideBuy => Trade.BuyOrderID t
  | OrderSideSell => Trade.SellOrderID t
  end.

(** The crossing test in the words of the specification. *)
Definition crosses (incoming resting : Order.t) : Prop :=
  match Order.Type_ incoming with
  | OrderTypeMarket => True
  | OrderTypeLimit =>
      ∃ incomingPrice restingPrice,
        Order.Price incoming = Some incomingPrice
        ∧ Order.Price resting = Some restingPrice
        ∧ match Order.Side incoming with
          | OrderSideBuy => incomingPrice >= restingPrice
          | OrderSideSell => incomingPrice ≤ restingPrice
          end
  end.

(** ** Concrete books and orders used to exercise the theorems *)

Definition sellAt (id price qty : Z) : Order.t :=
  Order.mk id None "BTCUSD" OrderSideSell OrderTypeLimit (Some price) qty qty
    OrderStatusOpen 0 0.

Definition buyAt (id price qty : Z) : Order.t :=
  Order.mk id None "BTCUSD" OrderSideBuy OrderTypeLimit (Some price) qty qty
    OrderStatusOpen 1 1.

(** A book with one ask: order 1 sells 5 at 50000 and lives at address 0. *)
Definition oneAskHeap : list Order.t := [sellAt 1 50000 5].

Definition oneAskBook : OrderBook.t :=
  OrderBook.mk "BTCUSD" ∅ {[ 50000 := PriceLevel.mk 50000 [0%nat] ]} [] [50000].

(** A market order that carries a price; the server's request validation
    lets such a request through. *)
Definition marketSellWithPrice : Order.t :=
  Order.mk 7 None "BTCUSD" OrderSideSell OrderTypeMarket (Some 50000) 5 5
    OrderStatusOpen 0 0.

(** Every book of the engine satisfies the book invariant. *)
Definition books_inv (h : list Order.t) (books : gmap string OrderBook.t) : Prop :=
  ∀ symbol ob, books !! symbol = Some ob → book_inv h ob.

(** An engine that holds the one-ask book. *)
Definition oneAskEngine : Engine.t :=
  Engine.mk (DB.mk {[ 1 := sellAt 1 50000 5 ]} [] 1 0)
            {[ "BTCUSD" := oneAskBook ]} oneAskHeap.

Definition buyRequest (price qty : Z) : CreateOrderRequest.t :=
  CreateOrderRequest.mk None "BTCUSD" OrderSideBuy OrderTypeLimit (Some price) qty.

Definition sellRequest (price qty : Z) : CreateOrderRequest.t :=
  CreateOrderRequest.mk None "BTCUSD" OrderSideSell OrderTypeLimit (Some price) qty.

(** ** The invariant of the engine *)

(** No order rests twice in a level. *)
Definition level_nodup (m : gmap Z PriceLevel.t) : Prop :=
  ∀ k pl, m !! k = Some pl → NoDup (PriceLevel.Orders pl).

Definition book_nodup (ob : OrderBook.t) : Prop :=
  level_nodup (OrderBook.Bids ob) ∧ level_nodup (OrderBook.Asks ob).

(** Every bid price is below every ask price. *)
Definition uncrossed (ob : OrderBook.t) : Prop :=
  ∀ kb ka, is_Some (OrderBook.Bids ob !! kb) → is_Some (OrderBook.Asks ob !! ka) → kb < ka.

(** [k] is strictly better than every price on the side opposite to [sd]. *)
Definition beats_opposite (sd : OrderSide) (k : Z) (ob : OrderBook.t) : Prop :=
  ∀ k', is_Some (oppositeLevels sd ob !! k') →
    match sd with OrderSideBuy => k < k' | OrderSideSell => k' < k end.

Definition book_sound (ob : OrderBook.t) : Prop := uncrossed ob ∧ book_nodup ob.

Definition engine_inv (e : Engine.t) : Prop :=
  books_inv (Engine.heap e) (Engine.orderBooks e)
  ∧ ∀ symbol ob, Engine.orderBooks e !! symbol = Some ob → book_sound ob.

(** The two tables of the store have the same rows. *)
Definition same_tables (db db' : DB.t) : Prop :=
  DB.orders db' = DB.orders db ∧ DB.trades db' = DB.trades db.

(** The operations of the engine, and a run of a sequence of them. *)
Inductive Op :=
  | OpPlaceOrder (fl : Faults) (now executedAt : Z) (req : CreateOrderRequest.t)
  | OpCancelOrder (fl : Faults) (now : Z) (orderID : Z).

Definition runOp (e : Engine.t) (op : Op) : exec Engine.t :=
  match op with
  | OpPlaceOrder fl now executedAt req =>
      '(_, e') ← PlaceOrder fl now executedAt e req; Ret e'
  | OpCancelOrder fl now orderID =>
      '(_, e') ← CancelOrder fl now e orderID; Ret e'
  end.

Fixpoint runOps (e : Engine.t) (ops : list Op) : exec Engine.t :=
  match ops with
  | [] => Ret e
  | op :: rest => e' ← runOp e op; runOps e' rest
  end.

(** The oracle that fails the statement numbered [k] only. *)
Definition failAt (k : nat) : Faults := λ n, bool_decide (n = k).

(** The one-ask book once its order is gone. *)
Definition emptiedBook : OrderBook.t := OrderBook.mk "BTCUSD" ∅ ∅ [] [].

(** The errors the server answers with 409 Conflict. *)
Definition is_conflict (err : Error) : Prop :=
  err = ErrAlreadyFilled ∨ err = ErrAlreadyCanceled ∨ err = ErrNoRemainingQuantity
  ∨ ∃ status, err = ErrCannotBeCanceled status.

(** ** The two sides of a book, seen alike *)

Definition sideLevels (sd : OrderSide) (ob : OrderBook.t) : gmap Z PriceLevel.t :=
  match sd with
  | OrderSideBuy => OrderBook.Bids ob
  | OrderSideSell => OrderBook.Asks ob
  end.

Definition sidePrices (sd : OrderSide) (ob : OrderBook.t) : list Z :=
  match sd with
  | OrderSideBuy => OrderBook.bidPrices ob
  | OrderSideSell => OrderBook.askPrices ob
  end.

Definition bestOn (sd : OrderSide) : OrderBook.t → option ptr :=
  match sd with
  | OrderSideBuy => GetBestBid
  | OrderSideSell => GetBestAsk
  end.

(** The book with the levels and cached prices of one side replaced. *)
Definition setSide (sd : OrderSide) (m : gmap Z PriceLevel.t) (ps : list Z)
    (ob : OrderBook.t) : OrderBook.t :=
  match sd with
  | OrderSideBuy =>
      OrderBook.mk (OrderBook.Symbol ob) m (OrderBook.Asks ob) ps (OrderBook.askPrices ob)
  | OrderSideSell =>
      OrderBook.mk (OrderBook.Symbol ob) (OrderBook.Bids ob) m (OrderBook.bidPrices ob) ps
  end.

(** The order in which a side lists its prices: bids from the highest, asks
    from the lowest. *)
Definition side_order (sd : OrderSide) : relation Z :=
  match sd with
  | OrderSideBuy => price_desc
  | OrderSideSell => price_asc
  end.

(** The text [GetBestBid] and [GetBestAsk] share, on a side handed to it. *)
Definition bestOf (m : gmap Z PriceLevel.t) (ps : list Z) : option ptr :=
  match ps with
  | [] => None
  | bestPrice :: _ =>
      match m !! bestPrice with
      | Some pl => match PriceLevel.Orders pl with p :: _ => Some p | [] => None end
      | None => None
      end
  end.

(** No price is cached twice. *)
Definition prices_nodup (ob : OrderBook.t) : Prop :=
  NoDup (OrderBook.bidPrices ob) ∧ NoDup (OrderBook.askPrices ob).

(** The order resting at [p] is on one of the two sides. *)
Definition rests_in (ob : OrderBook.t) (p : ptr) : Prop :=
  rests (OrderBook.Bids ob) p ∨ rests (OrderBook.Asks ob) p.

(** ** Quantities *)

(** The quantity a list of trades has moved. *)
Definition tradedQuantity (ts : list Trade.t) : Z :=
  foldr (λ t acc, Trade.Quantity t + acc) 0 ts.

(** What a trade of the incoming order [w] of side [sd] carries: no ID, the
    symbol and ID of [w], the time of the call, and a price within the limit
    of [w] when [w] is a limit order. *)
Definition trade_of (sd : OrderSide) (w : Order.t) (executedAt : Z) (t : Trade.t) : Prop :=
  Trade.ID t = 0 ∧ Trade.Symbol t = Order.Symbol w ∧ Trade.ExecutedAt t = executedAt
  ∧ incomingID sd t = Order.ID w
  ∧ (Order.Type_ w = OrderTypeLimit →
     ∀ limit, Order.Price w = Some limit → at_least_as_good sd (Trade.Price t) limit).

(** An order that may rest in a book: something remains of it, not more than
    it started with, and its status says so. *)
Definition order_live (o : Order.t) : Prop :=
  0 < Order.RemainingQuantity o ≤ Order.InitialQuantity o
  ∧ (Order.Status o = OrderStatusOpen ∨ Order.Status o = OrderStatusPartiallyFilled).

Definition book_live (h : list Order.t) (ob : OrderBook.t) : Prop :=
  ∀ p, rests_in ob p → ∃ o, h !! p = Some o ∧ order_live o.

(** An order as [PlaceOrder] writes it to the store after matching. *)
Definition order_settled (o : Order.t) : Prop :=
  0 ≤ Order.RemainingQuantity o ≤ Order.InitialQuantity o
  ∧ (Order.RemainingQuantity o = 0 →
     Order.Status o = OrderStatusFilled ∨ Order.Status o = OrderStatusCanceled)
  ∧ (Order.RemainingQuantity o ≠ 0 → Order.Status o = OrderStatusPartiallyFilled).

(** ** The store after a successful [PlaceOrder] *)

(** The rows the loop over the trades inserts: the trades, numbered from
    [last + 1]. *)
Fixpoint storedTrades (last : Z) (trades : list Trade.t) : list Trade.t :=
  match trades with
  | [] => []
  | t :: rest =>
      Trade.mk (last + 1) (Trade.Symbol t) (Trade.BuyOrderID t) (Trade.SellOrderID t)
        (Trade.Price t) (Trade.Quantity t) (Trade.ExecutedAt t)
      :: storedTrades (last + 1) rest
  end.

(** A row after the update statement has run with the fields of [u]. *)
Definition updatedRow (u row : Order.t) : Order.t :=
  Order.setUpdatedAt (Order.UpdatedAt u)
    (Order.setStatus (Order.Status u)
       (Order.setRemainingQuantity (Order.RemainingQuantity u) row)).

(** The orders table after the loop over the updated orders. *)
Fixpoint updatedRows (h : list Order.t) (updatedOrders : list ptr)
    (rows : gmap Z Order.t) : gmap Z Order.t :=
  match updatedOrders with
  | [] => rows
  | p :: rest =>
      match h !! p with
      | Some u => updatedRows h rest (alter (updatedRow u) (Order.ID u) rows)
      | None => rows
      end
  end.

(** Two orders that agree on what no statement and no assignment of the
    engine changes (the fields [heap_ext] compares). *)
Definition same_order (o o' : Order.t) : Prop :=
  Order.ID o' = Order.ID o ∧ Order.Price o' = Order.Price o
  ∧ Order.Side o' = Order.Side o ∧ Order.Type_ o' = Order.Type_ o
  ∧ Order.InitialQuantity o' = Order.InitialQuantity o
  ∧ Order.Symbol o' = Order.Symbol o.

(** ** The engine, its memory and its store together *)

(** What the engine keeps true of its memory besides [engine_inv]: price
    caches without duplicates; each book holds orders of its symbol only; and
    the orders in memory have distinct IDs, which the counter of the store
    has passed. *)
Record engine_wf (e : Engine.t) : Prop := EngineWf {
  wf_inv : engine_inv e;
  wf_prices : ∀ s ob, Engine.orderBooks e !! s = Some ob → prices_nodup ob;
  wf_symbol : ∀ s ob p o,
    Engine.orderBooks e !! s = Some ob → rests_in ob p → Engine.heap e !! p = Some o →
    Order.Symbol o = s;
  wf_ids : ∀ p o, Engine.heap e !! p = Some o → Order.ID o ≤ DB.lastOrderID (Engine.db e);
  wf_distinct : ∀ p q o o',
    Engine.heap e !! p = Some o → Engine.heap e !! q = Some o' →
    Order.ID o = Order.ID o' → p = q
}.

(** Every row of the orders table has an ID the counter has passed. *)
Definition store_wf (db : DB.t) : Prop :=
  ∀ id row, DB.orders db !! id = Some row → id ≤ DB.lastOrderID db.

(** The store and the memory agree: a row with the ID of an order in memory
    is a row of that order. *)
Definition rows_agree (e : Engine.t) : Prop :=
  store_wf (Engine.db e)
  ∧ ∀ p o row,
      Engine.heap e !! p = Some o → DB.orders (Engine.db e) !! Order.ID o = Some row →
      same_order o row.

(** All resting orders of all books are live. *)
Definition engine_live (e : Engine.t) : Prop :=
  ∀ s ob, Engine.orderBooks e !! s = Some ob → book_live (Engine.heap e) ob.

(** An operation the server lets through: [handleOrders] calls
    [validateCreateOrderRequest] before [PlaceOrder]. *)
Definition op_valid (op : Op) : Prop :=
  match op with
  | OpPlaceOrder _ _ _ req => validateCreateOrderRequest req = None
  | OpCancelOrder _ _ _ => True
  end.

(** A book with one bid (7 at 49000, order 1, address 0) and two asks at
    50000 (orders 2 and 3, addresses 1 and 2). *)
Definition threeHeap : list Order.t :=
  [buyAt 1 49000 7; sellAt 2 50000 5; sellAt 3 50000 4].

Definition threeBook : OrderBook.t :=
  OrderBook.mk "BTCUSD"
    {[ 49000 := PriceLevel.mk 49000 [0%nat] ]}
    {[ 50000 := PriceLevel.mk 50000 [1%nat; 2%nat] ]}
    [49000] [50000].

(** ** The trades table *)

(** The trades table as the store fills it: no ID twice, none above the
    counter. *)
Definition trades_wf (db : DB.t) : Prop :=
  NoDup (Trade.ID <$> DB.trades db)
  ∧ ∀ t, t ∈ DB.trades db → Trade.ID t ≤ DB.lastTradeID db.


(** The limit [handleTrades] asks [GetTrades] for: 100 when the request has
    none, none for a limit that does not parse or is negative. *)
Definition requestedLimit (limitStr : option Atoi) : option Z :=
  match limitStr with
  | None => Some 100
  | Some (AtoiOk n) => if bool_decide (n < 0) then None else Some n
  | Some AtoiErr => None
  end.

(** A collation for the examples: it ignores the case of the ASCII letters
    and the spaces at the end, as [utf8mb4_unicode_ci] does on ASCII
    strings. *)
Definition upperAscii (a : Ascii.ascii) : Ascii.ascii :=
  let n := Ascii.nat_of_ascii a in
  if (97 <=? n)%nat && (n <=? 122)%nat then Ascii.ascii_of_nat (n - 32) else a.

Fixpoint foldString (s : string) : string :=
  match s with
  | EmptyString => EmptyString
  | String a rest =>
      match foldString rest with
      | EmptyString => if Ascii.eqb a (Ascii.ascii_of_nat 32) then EmptyString
                       else String (upperAscii a) EmptyString
      | folded => String (upperAscii a) folded
      end
  end.

Definition asciiCollation : Collation :=
  λ column parameter, String.eqb (foldString column) (foldString parameter).

(** A trades table with a trade under [BTCUSD] and a later one under
    [btcusd]. *)
Definition mixedCaseTrades : DB.t :=
  DB.mk ∅ [Trade.mk 1 "BTCUSD" 2 1 50000 5 7; Trade.mk 2 "btcusd" 4 3 50100 1 8] 4 2.

(** ** The books [LoadOpenOrders] builds *)

(** The level of a symbol, a side and a price in the books, if there is one. *)
Definition levelAt (books : gmap string OrderBook.t) (s : string) (sd : OrderSide) (k : Z)
  : option PriceLevel.t :=
  books !! s ≫= λ ob, sideLevels sd ob !! k.

(** The order belongs at the level of this symbol, side and price. *)
Definition at_level (s : string) (sd : OrderSide) (k : Z) (o : Order.t) : Prop :=
  Order.Symbol o = s ∧ Order.Side o = sd ∧ Order.Price o = Some k.

(** The addresses of the orders that belong at a level, in ascending order. *)
Definition levelQueue (h : list Order.t) (s : string) (sd : OrderSide) (k : Z) : list ptr :=
  (filter (λ po, at_level s sd k po.2) (imap pair h)).*1.

(** The books hold the orders of the heap and nothing else: every level is
    the queue of the orders that belong at it, and there is no level where no
    order belongs. *)
Definition books_hold (h : list Order.t) (books : gmap string OrderBook.t) : Prop :=
  ∀ s sd k,
    levelAt books s sd k
    = match levelQueue h s sd k with
      | [] => None
      | p :: q => Some (PriceLevel.mk k (p :: q))
      end.

(** What holds of the engine while [LoadOpenOrders] runs: the invariant of
    each book, no price cached twice, each book under its symbol, and the
    books hold the heap. *)
Record loading_inv (e : Engine.t) : Prop := LoadingInv {
  li_books : books_inv (Engine.heap e) (Engine.orderBooks e);
  li_prices : ∀ s ob, Engine.orderBooks e !! s = Some ob → prices_nodup ob;
  li_symbol : ∀ s ob, Engine.orderBooks e !! s = Some ob → OrderBook.Symbol ob = s;
  li_hold : books_hold (Engine.heap e) (Engine.orderBooks e)
}.

(** The rows that are to be loaded into the books. *)
Definition bookRows (rows : list Order.t) : list Order.t :=
  filter (λ o, goesToBook o = true) rows.

(** ** The quantity of a level *)

(** The remaining quantities of the orders at these addresses, added up. *)
Definition totalRemaining (h : list Order.t) (orders : list ptr) : Z :=
  foldr (λ p acc, from_option Order.RemainingQuantity 0 (h !! p) + acc) 0 orders.

(** ** Prices *)

(** Every level of every book is at a positive price. *)
Definition engine_priced (e : Engine.t) : Prop :=
  ∀ s ob sd k, Engine.orderBooks e !! s = Some ob → is_Some (sideLevels sd ob !! k) → 0 < k.

(** ** The rows of the orders table *)

(** The status of a row and what the row has remaining agree. *)
Definition row_settled (row : Order.t) : Prop :=
  match Order.Status row with
  | OrderStatusOpen => Order.RemainingQuantity row = Order.InitialQuantity row
  | OrderStatusPartiallyFilled =>
      0 < Order.RemainingQuantity row ≤ Order.InitialQuantity row
  | OrderStatusFilled | OrderStatusCanceled => Order.RemainingQuantity row = 0
  end.

Definition rows_settled (db : DB.t) : Prop :=
  ∀ id row, DB.orders db !! id = Some row → row_settled row.

(** * Properties *)

(** ** Reasoning about outcomes *)

Lemma bind_Ret {A B} (m : exec A) (f : A → exec B) (b : B) :
  (x ← m; f x) = Ret b ↔ ∃ a, m = Ret a ∧ f a = Ret b.
Proof.
  destruct m as [a| |]; simpl; split.
  - intros H. exists a. split; [reflexivity | exact H].
  - intros (a' & Ha & Hf). inversion Ha. subst. exact Hf.
  - discriminate.
  - intros (? & ? & _). discriminate.
  - discriminate.
  - intros (? & ? & _). discriminate.
Qed.

Lemma deref_Ret (h : Heap) (p : ptr) (o : Order.t) :
  deref h p = Ret o ↔ h !! p = Some o.
Proof.
  unfold deref. destruct (h !! p); split; intros H; inversion H; reflexivity.
Qed.

Lemma assign_Ret (h h' : Heap) (p : ptr) (f : Order.t → Order.t) :
  assign h p f = Ret h' ↔ ∃ o, h !! p = Some o ∧ h' = <[p := f o]> h.
Proof.
  unfold assign. rewrite bind_Ret. split.
  - intros (o & Ho & Hr). apply deref_Ret in Ho. inversion Hr. eauto.
  - intros (o & Ho & ->). exists o. split; [by apply deref_Ret | reflexivity].
Qed.

Lemma assign_lookup (h : list Order.t) (p : ptr) (f : Order.t → Order.t) (o : Order.t) :
  h !! p = Some o → assign h p f = Ret (<[p := f o]> h).
Proof. intros Hp. apply assign_Ret. eauto. Qed.

(** ** The book invariant under heap updates *)

#[global] Instance price_desc_total : Total price_desc.
Proof. intros x y. unfold price_desc. lia. Qed.
#[global] Instance price_desc_trans : Transitive price_desc.
Proof. intros x y z. unfold price_desc. lia. Qed.
#[global] Instance price_asc_total : Total price_asc.
Proof. intros x y. unfold price_asc. lia. Qed.
#[global] Instance price_asc_trans : Transitive price_asc.
Proof. intros x y z. unfold price_asc. lia. Qed.

Lemma keeps_subRemaining q : keeps_identity (subRemaining q).
Proof. intros o. by destruct o. Qed.
Lemma keeps_setRemaining q : keeps_identity (Order.setRemainingQuantity q).
Proof. intros o. by destruct o. Qed.
Lemma keeps_setStatus s : keeps_identity (Order.setStatus s).
Proof. intros o. by destruct o. Qed.
Lemma keeps_setUpdatedAt t : keeps_identity (Order.setUpdatedAt t).
Proof. intros o. by destruct o. Qed.

Create HintDb engine.
#[global] Hint Resolve keeps_subRemaining keeps_setRemaining keeps_setStatus
  keeps_setUpdatedAt : engine.

Lemma heap_ext_refl h : heap_ext h h.
Proof. intros p o Hp. exists o. repeat split; done. Qed.

Lemma heap_ext_trans h1 h2 h3 : heap_ext h1 h2 → heap_ext h2 h3 → heap_ext h1 h3.
Proof.
  intros H12 H23 p o Hp.
  destruct (H12 p o Hp) as (o2 & Hp2 & ? & ? & ? & ? & ? & ?).
  destruct (H23 p o2 Hp2) as (o3 & Hp3 & ? & ? & ? & ? & ? & ?).
  exists o3. repeat split; congruence.
Qed.

Lemma heap_ext_insert (h : Heap) p o f :
  keeps_identity f → h !! p = Some o → heap_ext h (<[p := f o]> h).
Proof.
  intros Hf Hp q oq Hq. destruct (decide (p = q)) as [->|Hne].
  - exists (f o). rewrite list_lookup_insert_eq; [|by eapply lookup_lt_Some].
    assert (oq = o) by congruence. subst. destruct (Hf o) as (? & ? & ? & ? & ? & ?).
    repeat split; done.
  - exists oq. rewrite list_lookup_insert_ne; [|done]. repeat split; done.
Qed.

Lemma heap_ext_assign h h' p f :
  keeps_identity f → assign h p f = Ret h' → heap_ext h h'.
Proof.
  intros Hf (o & Hp & ->)%assign_Ret. by apply heap_ext_insert.
Qed.

Lemma heap_ext_app (h : Heap) l : heap_ext h (h ++ l).
Proof.
  intros p o Hp. exists o. rewrite lookup_app_l; [|by eapply lookup_lt_Some].
  repeat split; done.
Qed.

Lemma side_inv_heap_ext sd R h h' m ps :
  heap_ext h h' → side_inv sd R h m ps → side_inv sd R h' m ps.
Proof.
  intros Hext [Hs Hk Hp Hn Ho]. split; try done.
  intros k pl p Hm Hin. destruct (Ho k pl p Hm Hin) as (o & Hpo & Hpr & Hsd & Hty).
  destruct (Hext p o Hpo) as (o' & Hp' & ? & ? & ? & ? & ?).
  exists o'. split; [done|]. unfold resting_order. repeat split; congruence.
Qed.

Lemma book_inv_heap_ext h h' ob : heap_ext h h' → book_inv h ob → book_inv h' ob.
Proof. intros Hext [Hb Ha]. split; by eapply side_inv_heap_ext. Qed.

Lemma book_inv_new h symbol : book_inv h (NewOrderBook symbol).
Proof.
  split; (split; simpl;
    [ constructor
    | intros k; rewrite lookup_empty; split; [by intros ?%elem_of_nil | by intros [? ?]]
    | intros k pl; by rewrite lookup_empty ..]).
Qed.

(** *** Refreshing the cached prices *)

Lemma PriceLevel_IsEmpty_false pl :
  PriceLevel_IsEmpty pl = false ↔ PriceLevel.Orders pl ≠ [].
Proof.
  unfold PriceLevel_IsEmpty. rewrite bool_decide_eq_false.
  destruct (PriceLevel.Orders pl); simpl; split; intros H; try done; by intros ?.
Qed.

Lemma elem_of_levelPrices m x :
  x ∈ levelPrices m ↔
  ∃ k pl, m !! k = Some pl ∧ PriceLevel.Price pl = x ∧ PriceLevel.Orders pl ≠ [].
Proof.
  unfold levelPrices. rewrite list_elem_of_fmap. split.
  - intros (pl & -> & Hin). apply list_elem_of_filter in Hin as [He Hin].
    apply list_elem_of_fmap in Hin as ([k pl'] & -> & Hin).
    apply elem_of_map_to_list in Hin. exists k, pl'.
    split; [done|]. split; [done|]. by apply PriceLevel_IsEmpty_false.
  - intros (k & pl & Hm & <- & Hne). exists pl. split; [done|].
    apply list_elem_of_filter. split; [by apply PriceLevel_IsEmpty_false|].
    apply list_elem_of_fmap. exists (k, pl). split; [done|]. by apply elem_of_map_to_list.
Qed.

Lemma side_inv_refresh sd (R : relation Z) `{!∀ x y, Decision (R x y), !Total R, !Transitive R}
    h m :
  (∀ k pl, m !! k = Some pl → PriceLevel.Price pl = k) →
  (∀ k pl, m !! k = Some pl → PriceLevel.Orders pl ≠ []) →
  (∀ k pl p, m !! k = Some pl → p ∈ PriceLevel.Orders pl →
     ∃ o, h !! p = Some o ∧ resting_order sd k o) →
  side_inv sd R h m (merge_sort R (levelPrices m)).
Proof.
  intros Hp Hn Ho. split; try done.
  - by apply StronglySorted_merge_sort.
  - intros k. rewrite merge_sort_Permutation, elem_of_levelPrices. split.
    + intros (k' & pl & Hm & Hpr & _). rewrite <- Hpr, (Hp _ _ Hm). by eexists.
    + intros [pl Hm]. exists k, pl. eauto.
Qed.

(** *** Removing an order from a level *)

Lemma removeFirstID_total (h : Heap) orders orderID :
  (∀ p, p ∈ orders → is_Some (h !! p)) →
  ∃ r, removeFirstID h orders orderID = Ret r.
Proof.
  induction orders as [|p rest IH]; intros Hall; simpl.
  - by eexists.
  - destruct (Hall p) as [o Ho]; [by left|].
    unfold deref. rewrite Ho. simpl. case_bool_decide.
    + by eexists.
    + destruct IH as [[rest' b] Hr]; [intros q Hq; apply Hall; by right|].
      rewrite Hr. simpl. by eexists.
Qed.

Lemma removeFirstID_spec (h : Heap) orders orderID orders' removed :
  removeFirstID h orders orderID = Ret (orders', removed) →
  if removed
  then ∃ l1 p l2 o, orders = l1 ++ p :: l2 ∧ orders' = l1 ++ l2
                    ∧ h !! p = Some o ∧ Order.ID o = orderID
                    ∧ ∀ q oq, q ∈ l1 → h !! q = Some oq → Order.ID oq ≠ orderID
  else orders' = orders.
Proof.
  revert orders' removed. induction orders as [|p rest IH]; intros orders' removed; simpl.
  - intros [= <- <-]. done.
  - intros (o & Ho%deref_Ret & Hk)%bind_Ret. case_bool_decide as Hid.
    + injection Hk as <- <-. exists [], p, rest, o. repeat split; try done.
      intros q oq Hq. by apply elem_of_nil in Hq.
    + apply bind_Ret in Hk as ([rest' b] & Hr & [= <- <-]).
      specialize (IH _ _ Hr). destruct b.
      * destruct IH as (l1 & q & l2 & oq & -> & -> & Hq & Hidq & Hbefore).
        exists (p :: l1), q, l2, oq. repeat split; try done.
        intros q' oq' [->|Hin]%elem_of_cons Hq'; [congruence | by eapply Hbefore].
      * by subst.
Qed.

Lemma removeFirstID_head (h : Heap) p rest o :
  h !! p = Some o → removeFirstID h (p :: rest) (Order.ID o) = Ret (rest, true).
Proof.
  intros Hp. simpl. unfold deref. rewrite Hp. simpl. by rewrite bool_decide_eq_true_2.
Qed.

(** *** Counting the orders of a side *)

Lemma sideCount_delete m k pl :
  m !! k = Some pl →
  sideCount m = (sideCount (delete k m) + length (PriceLevel.Orders pl))%nat.
Proof.
  intros Hm. unfold sideCount.
  rewrite (map_fold_delete_L _ _ k pl m); [done| |done]. intros. lia.
Qed.

Lemma sideCount_insert m k pl :
  sideCount (<[k := pl]> m) = (sideCount (delete k m) + length (PriceLevel.Orders pl))%nat.
Proof.
  rewrite <- (insert_delete_eq m). unfold sideCount.
  rewrite map_fold_insert_L; [done| |by rewrite lookup_delete_eq]. intros. lia.
Qed.

(** *** [RemoveOrder], one side at a time *)

Lemma RemoveOrder_buy h ob orderID k :
  RemoveOrder h ob orderID OrderSideBuy (Some k) =
  '(m, ps, b) ← removeFromSide price_desc h (OrderBook.Bids ob) (OrderBook.bidPrices ob) orderID k;
  Ret (OrderBook.mk (OrderBook.Symbol ob) m (OrderBook.Asks ob) ps (OrderBook.askPrices ob), b).
Proof.
  unfold RemoveOrder, removeFromSide. destruct ob as [sy bids asks bp ap]; simpl.
  destruct (bids !! k) as [pl|]; [|done].
  destruct (PriceLevel_Remove h pl orderID) as [[pl' []]| |]; simpl; try done.
  by destruct (PriceLevel_IsEmpty pl').
Qed.

Lemma RemoveOrder_sell h ob orderID k :
  RemoveOrder h ob orderID OrderSideSell (Some k) =
  '(m, ps, b) ← removeFromSide price_asc h (OrderBook.Asks ob) (OrderBook.askPrices ob) orderID k;
  Ret (OrderBook.mk (OrderBook.Symbol ob) (OrderBook.Bids ob) m (OrderBook.bidPrices ob) ps, b).
Proof.
  unfold RemoveOrder, removeFromSide. destruct ob as [sy bids asks bp ap]; simpl.
  destruct (asks !! k) as [pl|]; [|done].
  destruct (PriceLevel_Remove h pl orderID) as [[pl' []]| |]; simpl; try done.
  by destruct (PriceLevel_IsEmpty pl').
Qed.

Section RemoveFromSide.
Context (sd : OrderSide) (R : relation Z).
Context `{!∀ x y, Decision (R x y), !Total R, !Transitive R}.

Lemma removeFromSide_total h m ps orderID k :
  side_inv sd R h m ps → ∃ r, removeFromSide R h m ps orderID k = Ret r.
Proof.
  intros Hinv. unfold removeFromSide. destruct (m !! k) as [pl|] eqn:Hm; [|by eexists].
  unfold PriceLevel_Remove.
  destruct (removeFirstID_total h (PriceLevel.Orders pl) orderID) as [[l b] Hr].
  { intros p Hp. destruct (si_orders _ _ _ _ _ Hinv k pl p Hm Hp) as (o & -> & _). by eexists. }
  rewrite Hr. simpl. destruct b; [|by eexists].
  destruct (PriceLevel_IsEmpty _); by eexists.
Qed.

(** What a removal does to the side: one order leaves one level, which is
    dropped when it was the last. *)
Lemma removeFromSide_spec h m ps orderID k m' ps' b :
  side_inv sd R h m ps →
  removeFromSide R h m ps orderID k = Ret (m', ps', b) →
  if b then
    ∃ pl l1 p l2 o,
      m !! k = Some pl ∧ PriceLevel.Orders pl = l1 ++ p :: l2
      ∧ h !! p = Some o ∧ Order.ID o = orderID
      ∧ (∀ q oq, q ∈ l1 → h !! q = Some oq → Order.ID oq ≠ orderID)
      ∧ ((l1 ++ l2 = [] ∧ m' = delete k m ∧ ps' = merge_sort R (levelPrices m'))
         ∨ (l1 ++ l2 ≠ [] ∧ m' = <[k := PriceLevel.mk (PriceLevel.Price pl) (l1 ++ l2)]> m
            ∧ ps' = ps))
  else m' = m ∧ ps' = ps.
Proof.
  intros Hinv. unfold removeFromSide. destruct (m !! k) as [pl|] eqn:Hm.
  2:{ intros [= <- <- <-]. done. }
  unfold PriceLevel_Remove. intros ([pl' b'] & Hr & Hk)%bind_Ret.
  apply bind_Ret in Hr as ([l b''] & Hr & [= <- <-]).
  apply removeFirstID_spec in Hr. destruct b''.
  - destruct Hr as (l1 & p & l2 & o & Hl & -> & Hp & Hid & Hbefore).
    destruct (PriceLevel_IsEmpty _) eqn:He; injection Hk as <- <- <-.
    + exists pl, l1, p, l2, o. repeat split; try done. left.
      unfold PriceLevel_IsEmpty in He. apply bool_decide_eq_true_1 in He. simpl in He.
      split; [|done]. by destruct (l1 ++ l2).
    + exists pl, l1, p, l2, o. repeat split; try done. right.
      apply PriceLevel_IsEmpty_false in He. done.
  - subst l. by injection Hk as <- <- <-.
Qed.

Lemma removeFromSide_inv h m ps orderID k m' ps' b :
  side_inv sd R h m ps →
  removeFromSide R h m ps orderID k = Ret (m', ps', b) →
  side_inv sd R h m' ps'
  ∧ (∀ p, rests m' p → rests m p)
  ∧ (∀ k', is_Some (m' !! k') → is_Some (m !! k'))
  ∧ (b = true → sideCount m = S (sideCount m')).
Proof.
  intros Hinv Hr. pose proof (removeFromSide_spec _ _ _ _ _ _ _ _ Hinv Hr) as Hs.
  destruct b.
  2:{ destruct Hs as [-> ->]. split; [done|]. split; [done|]. by split. }
  destruct Hs as (pl & l1 & p & l2 & o & Hm & Hl & Hp & Hid & _ & Hcase).
  assert (Hcount : length (PriceLevel.Orders pl) = S (length (l1 ++ l2))).
  { rewrite Hl, !length_app. simpl. lia. }
  destruct Hcase as [(He & -> & ->) | (Hne & -> & ->)].
  - split; [|split; [|split]].
    + apply side_inv_refresh; try apply _.
      * intros k' pl' [_ Hk']%lookup_delete_Some. by eapply si_price.
      * intros k' pl' [_ Hk']%lookup_delete_Some. by eapply si_nonempty.
      * intros k' pl' q [_ Hk']%lookup_delete_Some. by eapply si_orders.
    + intros q (k' & pl' & [_ Hk']%lookup_delete_Some & Hq). by exists k', pl'.
    + intros k' [pl' [_ Hk']%lookup_delete_Some]. by eexists.
    + intros _. rewrite (sideCount_delete m k pl Hm), Hcount, He. simpl. lia.
  - split; [|split; [|split]].
    + destruct Hinv as [Hs Hk Hpr Hn Ho]. split; try done.
      * intros k'. rewrite Hk. destruct (decide (k = k')) as [->|Hkk].
        -- rewrite lookup_insert_eq, Hm. split; intros _; by eexists.
        -- by rewrite lookup_insert_ne.
      * intros k' pl'. destruct (decide (k = k')) as [->|Hkk].
        -- rewrite lookup_insert_eq. intros [= <-]. simpl. by eapply Hpr.
        -- rewrite lookup_insert_ne; [|done]. apply Hpr.
      * intros k' pl'. destruct (decide (k = k')) as [->|Hkk].
        -- rewrite lookup_insert_eq. by intros [= <-].
        -- rewrite lookup_insert_ne; [|done]. apply Hn.
      * intros k' pl' q. destruct (decide (k = k')) as [->|Hkk].
        -- rewrite lookup_insert_eq. intros [= <-]. simpl. intros Hq.
           apply (Ho k' pl q Hm). rewrite Hl.
           apply elem_of_app in Hq as [Hq|Hq]; apply elem_of_app; [by left|].
           right. by right.
        -- rewrite lookup_insert_ne; [|done]. apply Ho.
    + intros q (k' & pl' & Hk' & Hq). destruct (decide (k = k')) as [->|Hkk].
      * rewrite lookup_insert_eq in Hk'. injection Hk' as <-. simpl in Hq.
        exists k', pl. split; [done|]. rewrite Hl.
        apply elem_of_app in Hq as [Hq|Hq]; apply elem_of_app; [by left|].
        right. by right.
      * rewrite lookup_insert_ne in Hk'; [|done]. by exists k', pl'.
    + intros k'. destruct (decide (k = k')) as [->|Hkk].
      * intros _. by eexists.
      * by rewrite lookup_insert_ne.
    + intros _. rewrite sideCount_insert, (sideCount_delete m k pl Hm), Hcount. simpl. lia.
Qed.

(** Removing the order at the head of a level by its own ID succeeds. *)
Lemma removeFromSide_head h m ps k pl p rest o :
  side_inv sd R h m ps →
  m !! k = Some pl → PriceLevel.Orders pl = p :: rest → h !! p = Some o →
  ∃ m' ps', removeFromSide R h m ps (Order.ID o) k = Ret (m', ps', true).
Proof.
  intros Hinv Hm Hl Hp. unfold removeFromSide. rewrite Hm.
  unfold PriceLevel_Remove. rewrite Hl, (removeFirstID_head h p rest o Hp). simpl.
  destruct (PriceLevel_IsEmpty _); by eexists _, _.
Qed.
End RemoveFromSide.

(** *** [RemoveOrder] on a book *)

Arguments RemoveOrder : simpl never.

Lemma levels_sub_refl m : levels_sub m m.
Proof. by split. Qed.

Lemma levels_sub_trans m1 m2 m3 : levels_sub m1 m2 → levels_sub m2 m3 → levels_sub m1 m3.
Proof. intros [H1 H2] [H3 H4]. split; eauto. Qed.

Lemma book_sub_refl ob : book_sub ob ob.
Proof. split; [done|]. split; apply levels_sub_refl. Qed.

Lemma book_sub_trans ob1 ob2 ob3 : book_sub ob1 ob2 → book_sub ob2 ob3 → book_sub ob1 ob3.
Proof.
  intros (? & ? & ?) (? & ? & ?). split; [congruence|].
  split; by eapply levels_sub_trans.
Qed.

Lemma RemoveOrder_total h ob orderID side price :
  book_inv h ob → ∃ r, RemoveOrder h ob orderID side price = Ret r.
Proof.
  intros [Hb Ha]. destruct price as [k|]; [|by eexists].
  destruct side.
  - rewrite RemoveOrder_buy.
    destruct (removeFromSide_total _ _ h _ _ orderID k Hb) as [[[m ps] b] ->]. by eexists.
  - rewrite RemoveOrder_sell.
    destruct (removeFromSide_total _ _ h _ _ orderID k Ha) as [[[m ps] b] ->]. by eexists.
Qed.

Lemma RemoveOrder_inv h ob orderID side price ob' b :
  book_inv h ob →
  RemoveOrder h ob orderID side price = Ret (ob', b) →
  book_inv h ob' ∧ book_sub ob' ob ∧ (b = true → bookCount ob = S (bookCount ob')).
Proof.
  intros [Hb Ha]. destruct price as [k|].
  2:{ intros [= <- <-]. split; [done|]. split; [apply book_sub_refl | done]. }
  destruct side.
  - rewrite RemoveOrder_buy. intros ([[m ps] b'] & Hr & [= <- <-])%bind_Ret.
    destruct (removeFromSide_inv _ _ _ _ _ _ _ _ _ _ Hb Hr) as (Hinv & Hrest & Hdom & Hcount).
    split; [by split|]. split.
    + split; [done|]. split; [by split | apply levels_sub_refl].
    + intros Hb'. unfold bookCount, GetOrderCount. simpl. rewrite (Hcount Hb'). lia.
  - rewrite RemoveOrder_sell. intros ([[m ps] b'] & Hr & [= <- <-])%bind_Ret.
    destruct (removeFromSide_inv _ _ _ _ _ _ _ _ _ _ Ha Hr) as (Hinv & Hrest & Hdom & Hcount).
    split; [by split|]. split.
    + split; [done|]. split; [apply levels_sub_refl | by split].
    + intros Hb'. unfold bookCount, GetOrderCount. simpl. rewrite (Hcount Hb'). lia.
Qed.

(** *** The best order of the opposite side *)

Lemma best_of_side sd R h m ps :
  side_inv sd R h m ps →
  match ps with
  | [] => ∀ k, m !! k = None
  | k :: _ => ∃ pl p rest o, m !! k = Some pl ∧ PriceLevel.Orders pl = p :: rest
                ∧ h !! p = Some o ∧ resting_order sd k o
                ∧ ∀ k', is_Some (m !! k') → R k k' ∨ k' = k
  end.
Proof.
  intros Hinv. destruct ps as [|k ps'].
  - intros k. destruct (m !! k) eqn:Hm; [|done].
    assert (k ∈ @nil Z) as Hin by (apply (si_keys _ _ _ _ _ Hinv); by eexists).
    by apply elem_of_nil in Hin.
  - destruct (proj1 (si_keys _ _ _ _ _ Hinv k)) as [pl Hm]; [by left|].
    pose proof (si_nonempty _ _ _ _ _ Hinv k pl Hm) as Hne.
    destruct (PriceLevel.Orders pl) as [|p rest] eqn:Hl; [done|].
    destruct (si_orders _ _ _ _ _ Hinv k pl p Hm) as (o & Hp & Hro); [rewrite Hl; by left|].
    exists pl, p, rest, o. repeat split; try done; try apply Hro.
    intros k' Hk'. apply (si_keys _ _ _ _ _ Hinv) in Hk'.
    pose proof (si_sorted _ _ _ _ _ Hinv) as Hs. apply StronglySorted_inv in Hs as [_ Hall].
    apply elem_of_cons in Hk' as [->|Hk']; [by right|]. left.
    rewrite Forall_forall in Hall. by apply Hall.
Qed.

Lemma bestOpposite_Some sd h ob p :
  book_inv h ob → bestOpposite sd ob = Some p →
  ∃ k pl rest o,
    oppositeLevels sd ob !! k = Some pl ∧ PriceLevel.Orders pl = p :: rest
    ∧ h !! p = Some o ∧ resting_order (opposite sd) k o
    ∧ ∀ k', is_Some (oppositeLevels sd ob !! k') → at_least_as_good sd k k'.
Proof.
  intros [Hb Ha]. destruct sd; simpl.
  - unfold GetBestAsk. pose proof (best_of_side _ _ _ _ _ Ha) as Hbest.
    destruct (OrderBook.askPrices ob) as [|k ps]; [done|].
    destruct Hbest as (pl & q & rest & o & Hm & Hl & Hq & Hro & Hmin).
    rewrite Hm, Hl. intros [= <-]. exists k, pl, rest, o. repeat split; try done; try apply Hro.
    intros k' Hk'. destruct (Hmin k' Hk') as [Hle| ->]; [exact Hle | lia].
  - unfold GetBestBid. pose proof (best_of_side _ _ _ _ _ Hb) as Hbest.
    destruct (OrderBook.bidPrices ob) as [|k ps]; [done|].
    destruct Hbest as (pl & q & rest & o & Hm & Hl & Hq & Hro & Hmin).
    rewrite Hm, Hl. intros [= <-]. exists k, pl, rest, o. repeat split; try done; try apply Hro.
    intros k' Hk'. destruct (Hmin k' Hk') as [Hle| ->]; [exact Hle | lia].
Qed.

Lemma bestOpposite_None sd h ob :
  book_inv h ob → bestOpposite sd ob = None → ∀ k, oppositeLevels sd ob !! k = None.
Proof.
  intros [Hb Ha]. destruct sd; simpl.
  - unfold GetBestAsk. pose proof (best_of_side _ _ _ _ _ Ha) as Hbest.
    destruct (OrderBook.askPrices ob) as [|k ps]; [done|].
    destruct Hbest as (pl & q & rest & o & Hm & Hl & _). by rewrite Hm, Hl.
  - unfold GetBestBid. pose proof (best_of_side _ _ _ _ _ Hb) as Hbest.
    destruct (OrderBook.bidPrices ob) as [|k ps]; [done|].
    destruct Hbest as (pl & q & rest & o & Hm & Hl & _). by rewrite Hm, Hl.
Qed.

(** Taking the best order out of the book: [RemoveOrder] called with the
    order's own ID, side and price succeeds. *)
Lemma RemoveOrder_best sd h ob p o :
  book_inv h ob → bestOpposite sd ob = Some p → h !! p = Some o →
  ∃ ob', RemoveOrder h ob (Order.ID o) (Order.Side o) (Order.Price o) = Ret (ob', true).
Proof.
  intros Hinv Hbest Hp.
  destruct (bestOpposite_Some _ _ _ _ Hinv Hbest) as (k & pl & rest & o' & Hm & Hl & Hp' & Hro & _).
  assert (o' = o) as -> by congruence. destruct Hro as (-> & -> & _).
  destruct Hinv as [Hb Ha]. destruct sd; simpl in *.
  - rewrite RemoveOrder_sell.
    destruct (removeFromSide_head _ _ _ _ _ _ _ _ _ _ Ha Hm Hl Hp) as (m' & ps' & ->).
    by eexists.
  - rewrite RemoveOrder_buy.
    destruct (removeFromSide_head _ _ _ _ _ _ _ _ _ _ Hb Hm Hl Hp) as (m' & ps' & ->).
    by eexists.
Qed.

(** ** One pass of the matching loop *)

Arguments deref : simpl never.
Arguments assign : simpl never.
Arguments executeTrade : simpl never.
Arguments canMatch : simpl never.
Arguments matchBody : simpl never.

Lemma executeTrade_qty incoming resting executedAt trade :
  executeTrade incoming resting executedAt = Ret trade →
  Trade.Quantity trade
  = Z.min (Order.RemainingQuantity incoming) (Order.RemainingQuantity resting)
  ∧ Trade.ID trade = 0 ∧ Trade.ExecutedAt trade = executedAt
  ∧ Trade.Symbol trade = Order.Symbol incoming.
Proof.
  unfold executeTrade. intros (price & _ & [= <-])%bind_Ret. simpl.
  split; [|done]. case_bool_decide; lia.
Qed.

Lemma executeTrade_resting sd k incoming resting executedAt :
  resting_order sd k resting →
  ∃ trade, executeTrade incoming resting executedAt = Ret trade
           ∧ Trade.Price trade = k.
Proof.
  intros (Hp & _ & Hty). unfold executeTrade. rewrite Hp, Hty.
  destruct (Order.Type_ incoming); simpl; by eexists.
Qed.

Lemma matchBody_cases sd wp executedAt st w :
  book_inv (MatchState.heap st) (MatchState.book st) →
  MatchState.heap st !! wp = Some w →
  Order.Side w = sd →
  (matchBody (bestOpposite sd) wp executedAt st = Ret None
   ∧ (Order.RemainingQuantity w = 0
      ∨ bestOpposite sd (MatchState.book st) = None
      ∨ ∃ p r, bestOpposite sd (MatchState.book st) = Some p
               ∧ MatchState.heap st !! p = Some r ∧ canMatch w r = false))
  ∨ (∃ st' r p k trade,
       matchBody (bestOpposite sd) wp executedAt st = Ret (Some st')
       ∧ trade_step sd wp executedAt st st' w r p k trade).
Proof.
  intros Hinv Hw Hsd. unfold matchBody.
  rewrite (proj2 (deref_Ret _ _ _) Hw). simpl.
  case_bool_decide as Hrem; [left; auto|].
  destruct (bestOpposite sd (MatchState.book st)) as [p|] eqn:Hbest; [|left; auto].
  destruct (bestOpposite_Some _ _ _ _ Hinv Hbest) as (k & pl & rest & r & Hm & Hl & Hp & Hro & _).
  rewrite (proj2 (deref_Ret _ _ _) Hp). simpl.
  destruct (canMatch w r) eqn:Hcan; simpl; [|left; split; [done|]; right; right; eauto].
  right.
  destruct (executeTrade_resting _ _ w _ executedAt Hro) as (trade & Htrade & Hprice).
  rewrite Htrade. simpl. set (q := Trade.Quantity trade).
  assert (p ≠ wp) as Hne.
  { intros ->. assert (r = w) as -> by congruence. destruct Hro as (_ & Hs & _).
    rewrite Hsd in Hs. by destruct sd. }
  set (h := MatchState.heap st) in *.
  assert (wp < length h)%nat as Hwlt by (by eapply lookup_lt_Some).
  assert (p < length h)%nat as Hplt by (by eapply lookup_lt_Some).
  set (h1 := <[wp := subRemaining q w]> h).
  assert (assign h wp (subRemaining q) = Ret h1) as -> by (apply assign_Ret; eauto).
  simpl.
  assert (h1 !! p = Some r) as Hp1 by (unfold h1; by rewrite list_lookup_insert_ne).
  set (h2 := <[p := subRemaining q r]> h1).
  assert (assign h1 p (subRemaining q) = Ret h2) as -> by (apply assign_Ret; eauto).
  simpl.
  assert (length h1 = length h) as Hlen1 by (unfold h1; by rewrite length_insert).
  assert (length h2 = length h) as Hlen2 by (unfold h2; by rewrite length_insert).
  assert (h2 !! p = Some (subRemaining q r)) as Hp2.
  { unfold h2. rewrite list_lookup_insert_eq; [done | lia]. }
  rewrite (proj2 (deref_Ret _ _ _) Hp2). simpl.
  set (r3 := Order.setStatus (tradeStatus (Order.RemainingQuantity r - q)) (subRemaining q r)).
  set (h3 := <[p := r3]> h2).
  assert (length h3 = length h) as Hlen3 by (unfold h3; by rewrite length_insert).
  assert (h3 !! p = Some r3) as Hp3.
  { unfold h3. rewrite list_lookup_insert_eq; [done | lia]. }
  set (h4 := <[p := Order.setUpdatedAt executedAt r3]> h3).
  assert (assign h3 p (Order.setUpdatedAt executedAt) = Ret h4) as Hassign4
    by (apply assign_Ret; eauto).
  assert (heap_ext h h3) as Hext3.
  { eapply heap_ext_trans; [apply (heap_ext_insert h wp w (subRemaining q)); auto with engine|].
    eapply heap_ext_trans; [apply (heap_ext_insert h1 p r (subRemaining q)); auto with engine|].
    apply (heap_ext_insert h2 p (subRemaining q r) (Order.setStatus _)); auto with engine. }
  assert (h4 !! wp = Some (subRemaining q w)) as Hw4.
  { unfold h4, h3, h2, h1. rewrite !list_lookup_insert_ne by done.
    rewrite list_lookup_insert_eq; [done | lia]. }
  assert (h4 !! p = Some (restingAfter q executedAt r)) as Hp4.
  { unfold h4. rewrite list_lookup_insert_eq; [done | lia]. }
  assert (∀ x, x ≠ wp → x ≠ p → h4 !! x = h !! x) as Hframe.
  { intros x Hx1 Hx2. unfold h4, h3, h2, h1. by rewrite !list_lookup_insert_ne. }
  assert (length h4 = length h) as Hlen4 by (unfold h4; by rewrite length_insert).
  assert (Order.RemainingQuantity (subRemaining q r) = Order.RemainingQuantity r - q)
    as Hrq by (by destruct r).
  clear Hrq. unfold tradeStatus in r3. case_bool_decide as Hzero.
  - assert (assign h2 p (Order.setStatus OrderStatusFilled) = Ret h3) as ->
      by (apply assign_Ret; eauto).
    simpl. rewrite (proj2 (deref_Ret _ _ _) Hp3). simpl.
    destruct (RemoveOrder_best sd h3 (MatchState.book st) p r3) as [ob' Hrm];
      [by eapply book_inv_heap_ext | done | done |].
    replace (Order.ID r3) with (Order.ID r) in Hrm by (by destruct r).
    replace (Order.Side r3) with (Order.Side r) in Hrm by (by destruct r).
    replace (Order.Price r3) with (Order.Price r) in Hrm by (by destruct r).
    rewrite Hrm. simpl. rewrite Hassign4. simpl.
    eexists _, r, p, k, trade. split; [reflexivity|].
    split; simpl; try done.
    rewrite bool_decide_eq_true_2 by done. exists h3. split; [done|]. split; [|done].
    apply (heap_ext_insert h3 p r3 (Order.setUpdatedAt executedAt)); auto with engine.
  - assert (assign h2 p (Order.setStatus OrderStatusPartiallyFilled) = Ret h3) as ->
      by (apply assign_Ret; eauto).
    simpl. rewrite Hassign4. simpl.
    eexists _, r, p, k, trade. split; [reflexivity|].
    split; simpl; try done.
    by rewrite bool_decide_eq_false_2.
Qed.

Lemma trade_step_progress sd wp executedAt st st' w r p k trade :
  book_inv (MatchState.heap st) (MatchState.book st) →
  trade_step sd wp executedAt st st' w r p k trade →
  book_inv (MatchState.heap st') (MatchState.book st')
  ∧ heap_ext (MatchState.heap st) (MatchState.heap st')
  ∧ book_sub (MatchState.book st') (MatchState.book st)
  ∧ (Order.RemainingQuantity (subRemaining (Trade.Quantity trade) w) = 0
     ∨ bookCount (MatchState.book st) = S (bookCount (MatchState.book st'))).
Proof.
  intros Hinv Hts. pose proof Hts as [Hw _ Hrem Hbest Hr Hro Hcan Htrade _ _ Hne Hw' Hr' Hframe Hlen Hbook].
  assert (heap_ext (MatchState.heap st) (MatchState.heap st')) as Hext.
  { intros x o Hx. destruct (decide (x = wp)) as [->|Hx1]; [|destruct (decide (x = p)) as [->|Hx2]].
    - assert (o = w) as -> by congruence. eexists. split; [exact Hw'|]. by destruct w.
    - assert (o = r) as -> by congruence. eexists. split; [exact Hr'|]. by destruct r.
    - exists o. rewrite Hframe by done. done. }
  apply executeTrade_qty in Htrade as (Hq & _).
  case_bool_decide as Hz.
  - destruct Hbook as (h3 & Hext1 & Hext2 & Hrm).
    apply RemoveOrder_inv in Hrm as (Hinv' & Hsub & Hcount); [|by eapply book_inv_heap_ext].
    split; [by apply (book_inv_heap_ext h3)|]. split; [done|]. split; [done|].
    right. by apply Hcount.
  - rewrite Hbook. split; [by eapply book_inv_heap_ext|]. split; [done|].
    split; [apply book_sub_refl|]. left. destruct w; simpl in *. lia.
Qed.

(** ** The matching loop *)

Lemma matchLoop_terminates sd wp executedAt fuel : ∀ st w,
  book_inv (MatchState.heap st) (MatchState.book st) →
  MatchState.heap st !! wp = Some w →
  Order.Side w = sd →
  (Order.RemainingQuantity w = 0 ∧ (1 ≤ fuel)%nat)
  ∨ (bookCount (MatchState.book st) + 2 ≤ fuel)%nat →
  ∃ st' w', matchLoop fuel (bestOpposite sd) wp executedAt st = Ret st'
            ∧ match_run sd wp executedAt st st'
            ∧ loop_exit sd wp st' w'
            ∧ book_inv (MatchState.heap st') (MatchState.book st')
            ∧ Order.Side w' = sd.
Proof.
  induction fuel as [|fuel IH]; intros st w Hinv Hw Hsd Hfuel; [lia|].
  simpl. destruct (matchBody_cases sd wp executedAt st w Hinv Hw Hsd)
    as [[-> Hexit] | (st' & r & p & k & trade & Hbody & Hts)]; [|rewrite Hbody]; simpl.
  - exists st, w. split; [done|]. split; [constructor|]. split; [by split|]. by split.
  - destruct (trade_step_progress _ _ _ _ _ _ _ _ _ _ Hinv Hts) as (Hinv' & Hext & Hsub & Hprog).
    pose proof (ts_remaining _ _ _ _ _ _ _ _ _ _ Hts) as Hrem.
    destruct (IH st' (subRemaining (Trade.Quantity trade) w)) as (st'' & w'' & HL & Hrun & Hexit & Hinv'' & Hsd'').
    + done.
    + eapply ts_w'. exact Hts.
    + by destruct w.
    + destruct Hfuel as [[? _]|Hfuel]; [done|].
      destruct Hprog as [Hz|Hc]; [left; split; [done|lia] | right; lia].
    + exists st'', w''. split; [done|]. split; [|done]. econstructor; eauto.
Qed.

Lemma matchFuel_enough ob : (bookCount ob + 2 ≤ matchFuel ob)%nat.
Proof. unfold matchFuel, bookCount. lia. Qed.

(** Along a run the book only loses orders and the orders keep their
    identity. *)
Lemma match_run_inv sd wp executedAt st st' :
  match_run sd wp executedAt st st' →
  book_inv (MatchState.heap st) (MatchState.book st) →
  book_inv (MatchState.heap st') (MatchState.book st')
  ∧ heap_ext (MatchState.heap st) (MatchState.heap st')
  ∧ book_sub (MatchState.book st') (MatchState.book st)
  ∧ length (MatchState.heap st') = length (MatchState.heap st).
Proof.
  induction 1 as [st | st st' st'' w r p k trade Hbody Hts Hrun IH]; intros Hinv.
  - split; [done|]. split; [apply heap_ext_refl|]. split; [apply book_sub_refl | done].
  - destruct (trade_step_progress _ _ _ _ _ _ _ _ _ _ Hinv Hts) as (Hinv' & Hext & Hsub & _).
    destruct (IH Hinv') as (Hinv'' & Hext' & Hsub' & Hlen').
    split; [done|]. split; [by eapply heap_ext_trans|]. split; [by eapply book_sub_trans|].
    rewrite Hlen'. eapply ts_length. exact Hts.
Qed.

Lemma match_run_trans sd wp executedAt st1 st2 st3 :
  match_run sd wp executedAt st1 st2 → match_run sd wp executedAt st2 st3 →
  match_run sd wp executedAt st1 st3.
Proof. induction 1; [done|]. intros. econstructor; eauto. Qed.

(** The incoming order changes along a run in its remaining quantity only. *)
Lemma match_run_working sd wp executedAt st st' w :
  match_run sd wp executedAt st st' →
  MatchState.heap st !! wp = Some w →
  ∃ q, MatchState.heap st' !! wp = Some (Order.setRemainingQuantity q w).
Proof.
  intros Hrun. revert w.
  induction Hrun as [st | st st' st'' w0 r p k trade Hbody Hts Hrun IH]; intros w Hw.
  - exists (Order.RemainingQuantity w). by destruct w.
  - pose proof (ts_w _ _ _ _ _ _ _ _ _ _ Hts) as Hw0.
    assert (w0 = w) as -> by congruence.
    destruct (IH _ (ts_w' _ _ _ _ _ _ _ _ _ _ Hts)) as [q Hq]. exists q.
    rewrite Hq. by destruct w.
Qed.

(** Every trade of a run was emitted by one pass of the body, started in a
    state the loop had reached. *)
Lemma match_run_trades sd wp executedAt st0 st1 :
  match_run sd wp executedAt st0 st1 →
  ∀ t, t ∈ MatchState.trades st1 →
    t ∈ MatchState.trades st0
    ∨ ∃ st st' w r p k,
        match_run sd wp executedAt st0 st
        ∧ matchBody (bestOpposite sd) wp executedAt st = Ret (Some st')
        ∧ trade_step sd wp executedAt st st' w r p k t
        ∧ match_run sd wp executedAt st' st1.
Proof.
  induction 1 as [st | st st' st'' w r p k trade Hbody Hts Hrun IH]; intros t Ht; [by left|].
  destruct (IH t Ht) as [Hin | (sa & sb & w' & r' & p' & k' & Hr1 & Hb & Hs & Hr2)].
  - rewrite (ts_trades _ _ _ _ _ _ _ _ _ _ Hts) in Hin.
    apply elem_of_app in Hin as [Hin | ->%list_elem_of_singleton]; [by left|].
    right. exists st, st', w, r, p, k. split; [constructor|]. by split.
  - right. exists sa, sb, w', r', p', k'. split; [|by split]. econstructor; eauto.
Qed.

(** ** [Match] *)

Lemma Match_run h incomingOrder ob executedAt :
  book_inv h ob →
  let sd := Order.Side incomingOrder in
  let wp := length h in
  ∃ st q,
    let w := Order.setRemainingQuantity q incomingOrder in
    matchLoop (matchFuel ob) (bestOpposite sd) wp executedAt
      (matchStart h incomingOrder ob) = Ret st
    ∧ match_run sd wp executedAt (matchStart h incomingOrder ob) st
    ∧ loop_exit sd wp st w
    ∧ book_inv (MatchState.heap st) (MatchState.book st)
    ∧ Match h incomingOrder ob executedAt = Ret (finalize wp st w).
Proof.
  intros Hinv sd wp.
  assert (book_inv (h ++ [incomingOrder]) ob) as Hinv0
    by (eapply book_inv_heap_ext; [apply heap_ext_app | done]).
  assert ((h ++ [incomingOrder]) !! wp = Some incomingOrder) as Hw0.
  { unfold wp. rewrite lookup_app_r by lia. by rewrite Nat.sub_diag. }
  destruct (matchLoop_terminates sd wp executedAt (matchFuel ob)
              (matchStart h incomingOrder ob) incomingOrder Hinv0 Hw0 eq_refl)
    as (st & w & Hloop & Hrun & Hexit & Hinv' & Hsd).
  { right. apply matchFuel_enough. }
  destruct (match_run_working _ _ _ _ _ _ Hrun Hw0) as [q Hq].
  pose proof Hexit as [Hw _]. assert (w = Order.setRemainingQuantity q incomingOrder) as ->
    by congruence.
  exists st, q. split; [done|]. split; [done|]. split; [done|]. split; [done|].
  unfold Match, alloc. fold wp.
  assert (match Order.Side incomingOrder with
          | OrderSideBuy => matchBuyOrder (matchFuel ob) wp executedAt (matchStart h incomingOrder ob)
          | OrderSideSell => matchSellOrder (matchFuel ob) wp executedAt (matchStart h incomingOrder ob)
          end = Ret st) as Hside.
  { unfold matchBuyOrder, matchSellOrder. fold sd. rewrite <- Hloop. by destruct sd. }
  unfold matchStart in Hside. rewrite Hside. simpl.
  rewrite (proj2 (deref_Ret _ _ _) Hw). simpl. unfold finalize. simpl.
  case_bool_decide as Hz; simpl.
  - by rewrite (assign_lookup _ _ _ _ Hw).
  - destruct (Order.Type_ incomingOrder) eqn:Hty; simpl.
    + case_bool_decide; [|done]. by rewrite (assign_lookup _ _ _ _ Hw).
    + rewrite (assign_lookup _ _ _ _ Hw). simpl.
      erewrite assign_lookup.
      2:{ apply list_lookup_insert_eq. by eapply lookup_lt_Some. }
      simpl. by rewrite list_insert_insert_eq.
Qed.

(** The orders a run appends to the updated list rested in the book it
    started from; none of them is the incoming order. *)
Lemma match_run_updated sd wp executedAt st0 st1 :
  match_run sd wp executedAt st0 st1 →
  book_inv (MatchState.heap st0) (MatchState.book st0) →
  ∃ l, MatchState.updated st1 = MatchState.updated st0 ++ l
       ∧ ∀ p, p ∈ l → p ≠ wp ∧ rests (oppositeLevels sd (MatchState.book st0)) p.
Proof.
  induction 1 as [st | st st' st'' w r p k trade Hbody Hts Hrun IH]; intros Hinv.
  - exists []. split; [by rewrite app_nil_r|]. intros p Hp. by apply elem_of_nil in Hp.
  - destruct (trade_step_progress _ _ _ _ _ _ _ _ _ _ Hinv Hts) as (Hinv' & _ & Hsub & _).
    destruct (IH Hinv') as (l & Hl & Hall). exists (p :: l). split.
    + rewrite Hl, (ts_updated _ _ _ _ _ _ _ _ _ _ Hts), <- app_assoc. done.
    + intros x [->|Hx]%elem_of_cons.
      * split; [eapply ts_ne; exact Hts|].
        destruct (bestOpposite_Some _ _ _ _ Hinv (ts_best _ _ _ _ _ _ _ _ _ _ Hts))
          as (k' & pl & rest & o & Hm & Hlv & _).
        exists k', pl. split; [done|]. rewrite Hlv. by left.
      * destruct (Hall x Hx) as [Hne Hrest]. split; [done|].
        destruct Hsub as (_ & [_ Hb] & [_ Ha]). destruct sd; simpl in *; eauto.
Qed.

(** ** Claims about the matcher *)

(** C2. Every trade in the result of [Match] was emitted by a pass of the
    loop in which the incoming order was [w] and the best opposite order was
    [r]: the trade's quantity is the minimum of the two remaining quantities at
    that moment, and its price is the resting order's price. *)
Theorem Match_trade_quantity_and_price h incomingOrder ob executedAt :
  book_inv h ob →
  let sd := Order.Side incomingOrder in
  let wp := length h in
  ∃ res ob' h',
    Match h incomingOrder ob executedAt = Ret (res, ob', h')
    ∧ ∀ t, t ∈ MatchResult.Trades res →
        ∃ st st' w p r,
          match_run sd wp executedAt (matchStart h incomingOrder ob) st
          ∧ matchBody (bestOpposite sd) wp executedAt st = Ret (Some st')
          ∧ MatchState.trades st' = MatchState.trades st ++ [t]
          ∧ MatchState.heap st !! wp = Some w
          ∧ bestOpposite sd (MatchState.book st) = Some p
          ∧ MatchState.heap st !! p = Some r
          ∧ Trade.Quantity t
            = Z.min (Order.RemainingQuantity w) (Order.RemainingQuantity r)
          ∧ Order.Price r = Some (Trade.Price t).
Proof.
  intros Hinv sd wp. subst sd wp.
  destruct (Match_run h incomingOrder ob executedAt Hinv) as (st1 & q & _ & Hrun & _ & _ & HM).
  destruct (finalize (length h) st1 (Order.setRemainingQuantity q incomingOrder))
    as [[res ob'] h'] eqn:Hfin.
  exists res, ob', h'. split; [done|]. intros t Ht.
  assert (MatchResult.Trades res = MatchState.trades st1) as Htr.
  { unfold finalize in Hfin. case_bool_decide; [by injection Hfin as <- _ _|].
    destruct (Order.Type_ _); by injection Hfin as <- _ _. }
  rewrite Htr in Ht.
  destruct (match_run_trades _ _ _ _ _ Hrun t Ht)
    as [Hin | (st & st' & w & r & p & k & Hr1 & Hbody & Hts & _)].
  { by apply elem_of_nil in Hin. }
  exists st, st', w, p, r. destruct Hts. repeat split; try done.
  - by apply executeTrade_qty in ts_trade0 as (? & _).
  - destruct (executeTrade_resting _ _ w r executedAt ts_resting0) as (t' & Ht' & Hpr).
    assert (t' = t) as -> by congruence. destruct ts_resting0 as (-> & _). by rewrite Hpr.
Qed.

(** ** [AddOrder] *)

Arguments AddOrder : simpl never.

Lemma side_inv_add sd (R : relation Z) `{!∀ x y, Decision (R x y), !Total R, !Transitive R}
    h m ps k p o :
  side_inv sd R h m ps → h !! p = Some o → resting_order sd k o →
  let m' := <[k := PriceLevel_Add (levelOrNew m k k) p]> m in
  side_inv sd R h m' (merge_sort R (levelPrices m'))
  ∧ (∀ k', is_Some (m' !! k') ↔ k' = k ∨ is_Some (m !! k'))
  ∧ (∀ q, rests m' q ↔ q = p ∨ rests m q).
Proof.
  intros Hinv Hp Hro m'.
  assert (∀ pl, m' !! k = Some pl →
            PriceLevel.Price pl = k
            ∧ PriceLevel.Orders pl = PriceLevel.Orders (levelOrNew m k k) ++ [p]) as Hnew.
  { intros pl. unfold m'. rewrite lookup_insert_eq. intros [= <-]. split; [|done].
    unfold levelOrNew. simpl. destruct (m !! k) eqn:Hm; [|done]. by eapply si_price. }
  assert (∀ q, q ∈ PriceLevel.Orders (levelOrNew m k k) → rests m q) as Hold.
  { intros q. unfold levelOrNew. destruct (m !! k) as [pl|] eqn:Hm.
    - intros Hq. by exists k, pl.
    - simpl. by intros ?%elem_of_nil. }
  split; [|split].
  - apply side_inv_refresh; try apply _.
    + intros k' pl. destruct (decide (k' = k)) as [->|Hne].
      * intros Hm. by apply Hnew.
      * unfold m'. rewrite lookup_insert_ne by done. by eapply si_price.
    + intros k' pl. destruct (decide (k' = k)) as [->|Hne].
      * intros Hm. destruct (Hnew _ Hm) as [_ ->]. by destruct (PriceLevel.Orders _).
      * unfold m'. rewrite lookup_insert_ne by done. by eapply si_nonempty.
    + intros k' pl q. destruct (decide (k' = k)) as [->|Hne].
      * intros Hm. destruct (Hnew _ Hm) as [_ ->].
        intros [Hq | ->%list_elem_of_singleton]%elem_of_app; [|eauto].
        destruct (Hold q Hq) as (k2 & pl2 & Hm2 & Hq2).
        unfold levelOrNew in Hq. destruct (m !! k) as [pl0|] eqn:Hm0.
        -- by eapply si_orders.
        -- by apply elem_of_nil in Hq.
      * unfold m'. rewrite lookup_insert_ne by done. by eapply si_orders.
  - intros k'. unfold m'. destruct (decide (k' = k)) as [->|Hne].
    + rewrite lookup_insert_eq. split; [by left | by eexists].
    + rewrite lookup_insert_ne by done. split; [by right | by intros [?|?]].
  - intros q. split.
    + intros (k' & pl & Hm & Hq). destruct (decide (k' = k)) as [->|Hne].
      * destruct (Hnew _ Hm) as [_ Hl]. rewrite Hl in Hq.
        apply elem_of_app in Hq as [Hq | ->%list_elem_of_singleton]; [right; eauto | by left].
      * unfold m' in Hm. rewrite lookup_insert_ne in Hm by done. right. by exists k', pl.
    + intros [-> | (k' & pl & Hm & Hq)].
      * eexists k, _. unfold m'. rewrite lookup_insert_eq. split; [done|]. simpl.
        apply elem_of_app. right. by left.
      * destruct (decide (k' = k)) as [->|Hne].
        -- eexists k, _. unfold m'. rewrite lookup_insert_eq. split; [done|]. simpl.
           apply elem_of_app. left. unfold levelOrNew. by rewrite Hm.
        -- exists k', pl. unfold m'. by rewrite lookup_insert_ne.
Qed.

(** What [AddOrder] does to a book that satisfies the invariant, for a limit
    order: an order with a price joins the level of its price on its side;
    an order without price changes nothing. *)
Lemma AddOrder_inv h ob p o :
  book_inv h ob → h !! p = Some o → Order.Type_ o = OrderTypeLimit →
  ∃ ob', AddOrder h ob p = Ret ob'
    ∧ book_inv h ob'
    ∧ OrderBook.Symbol ob' = OrderBook.Symbol ob
    ∧ (∀ k, is_Some (OrderBook.Bids ob' !! k) ↔
            (Order.Price o = Some k ∧ Order.Side o = OrderSideBuy)
            ∨ is_Some (OrderBook.Bids ob !! k))
    ∧ (∀ k, is_Some (OrderBook.Asks ob' !! k) ↔
            (Order.Price o = Some k ∧ Order.Side o = OrderSideSell)
            ∨ is_Some (OrderBook.Asks ob !! k))
    ∧ (∀ q, rests (OrderBook.Bids ob') q ↔
            (q = p ∧ is_Some (Order.Price o) ∧ Order.Side o = OrderSideBuy)
            ∨ rests (OrderBook.Bids ob) q)
    ∧ (∀ q, rests (OrderBook.Asks ob') q ↔
            (q = p ∧ is_Some (Order.Price o) ∧ Order.Side o = OrderSideSell)
            ∨ rests (OrderBook.Asks ob) q).
Proof.
  intros [Hb Ha] Hp Hty. unfold AddOrder. rewrite (proj2 (deref_Ret _ _ _) Hp). simpl.
  destruct (Order.Price o) as [k|] eqn:Hpr.
  2:{ exists ob. split; [done|]. split; [done|]. split; [done|].
      split; [|split; [|split]]; intros x; (split; [by right|]).
      - by intros [[? _]|?].
      - by intros [[? _]|?].
      - by intros [(_ & [? ?] & _)|?].
      - by intros [(_ & [? ?] & _)|?]. }
  destruct (Order.Side o) eqn:Hsd.
  - destruct (side_inv_add OrderSideBuy price_desc h _ _ k p o Hb Hp) as (Hinv & Hkeys & Hrests);
      [done|].
    eexists. split; [reflexivity|]. destruct ob as [sy bids asks bp ap]; simpl in *.
    split; [by split|]. split; [done|]. split; [|split; [|split]].
    + intros k'. rewrite Hkeys. split; intros [H|H]; try (by right).
      * left. by subst.
      * left. destruct H as [[= ->] _]. done.
    + intros k'. split; [by right | by intros [[_ ?]|?]].
    + intros q. rewrite Hrests. split; intros [H|H]; try (by right).
      * left. by subst.
      * left. by destruct H.
    + intros q. split; [by right | by intros [(_ & _ & ?)|?]].
  - destruct (side_inv_add OrderSideSell price_asc h _ _ k p o Ha Hp) as (Hinv & Hkeys & Hrests);
      [done|].
    eexists. split; [reflexivity|]. destruct ob as [sy bids asks bp ap]; simpl in *.
    split; [by split|]. split; [done|]. split; [|split; [|split]].
    + intros k'. split; [by right | by intros [[_ ?]|?]].
    + intros k'. rewrite Hkeys. split; intros [H|H]; try (by right).
      * left. by subst.
      * left. destruct H as [[= ->] _]. done.
    + intros q. split; [by right | by intros [(_ & _ & ?)|?]].
    + intros q. rewrite Hrests. split; intros [H|H]; try (by right).
      * left. by subst.
      * left. by destruct H.
Qed.

Lemma executeTrade_ids incoming resting executedAt trade :
  executeTrade incoming resting executedAt = Ret trade →
  restingID (Order.Side incoming) trade = Order.ID resting
  ∧ incomingID (Order.Side incoming) trade = Order.ID incoming.
Proof.
  unfold executeTrade. intros (price & _ & [= <-])%bind_Ret.
  by destruct (Order.Side incoming).
Qed.

Lemma canMatch_crosses incoming resting :
  canMatch incoming resting = true ↔ crosses incoming resting.
Proof.
  unfold canMatch, crosses. destruct (Order.Type_ incoming); [|done].
  destruct (Order.Price incoming) as [pi|], (Order.Price resting) as [pr|];
    try (split; [done | by intros (? & ? & ? & ? & _)]).
  destruct (Order.Side incoming); rewrite bool_decide_eq_true; split.
  - intros H. exists pi, pr. repeat split; try done. lia.
  - intros (? & ? & [= <-] & [= <-] & H). lia.
  - intros H. exists pi, pr. repeat split; done.
  - by intros (? & ? & [= <-] & [= <-] & H).
Qed.

(** A run that starts with nothing remaining of the incoming order has not
    moved. *)
Lemma match_run_done sd wp executedAt st st' w :
  match_run sd wp executedAt st st' →
  MatchState.heap st !! wp = Some w → Order.RemainingQuantity w = 0 → st' = st.
Proof.
  intros [|? ? ? w0 r p k trade _ Hts _] Hw Hz; [done|].
  pose proof (ts_w _ _ _ _ _ _ _ _ _ _ Hts). pose proof (ts_remaining _ _ _ _ _ _ _ _ _ _ Hts).
  congruence.
Qed.

(** The three ways [Match] finalizes the incoming order. *)
Lemma finalize_cases wp st w res ob' h' :
  MatchState.heap st !! wp = Some w →
  finalize wp st w = (res, ob', h') →
  MatchResult.Trades res = MatchState.trades st
  ∧ ob' = MatchState.book st
  ∧ length h' = length (MatchState.heap st)
  ∧ (∀ p, p ≠ wp → h' !! p = MatchState.heap st !! p)
  ∧ ∃ w', h' !! wp = Some w'
      ∧ ((Order.RemainingQuantity w = 0
          ∧ MatchResult.IncomingOrderLeft res = None
          ∧ MatchResult.UpdatedOrders res = MatchState.updated st ++ [wp]
          ∧ w' = Order.setStatus OrderStatusFilled w)
         ∨ (Order.RemainingQuantity w ≠ 0 ∧ Order.Type_ w = OrderTypeLimit
            ∧ MatchResult.IncomingOrderLeft res = Some wp
            ∧ MatchResult.UpdatedOrders res = MatchState.updated st
            ∧ w' = if bool_decide (Order.RemainingQuantity w < Order.InitialQuantity w)
                   then Order.setStatus OrderStatusPartiallyFilled w else w)
         ∨ (Order.RemainingQuantity w ≠ 0 ∧ Order.Type_ w = OrderTypeMarket
            ∧ MatchResult.IncomingOrderLeft res = None
            ∧ MatchResult.UpdatedOrders res = MatchState.updated st ++ [wp]
            ∧ w' = Order.setRemainingQuantity 0 (Order.setStatus OrderStatusCanceled w))).
Proof.
  intros Hw. pose proof (lookup_lt_Some _ _ _ Hw) as Hlt. unfold finalize.
  case_bool_decide as Hz.
  { intros [= <- <- <-]. simpl. split; [done|]. split; [done|].
    split; [by rewrite length_insert|].
    split; [intros p Hp; by rewrite list_lookup_insert_ne|].
    eexists. rewrite list_lookup_insert_eq by done. split; [done|]. by left. }
  destruct (Order.Type_ w) eqn:Hty; intros [= <- <- <-]; simpl.
  - split; [done|]. split; [done|]. case_bool_decide.
    + split; [by rewrite length_insert|].
      split; [intros p Hp; by rewrite list_lookup_insert_ne|].
      eexists. rewrite list_lookup_insert_eq by done. split; [done|]. right. by left.
    + split; [done|]. split; [done|]. exists w. split; [done|]. right. by left.
  - split; [done|]. split; [done|]. split; [by rewrite length_insert|].
    split; [intros p Hp; by rewrite list_lookup_insert_ne|].
    eexists. rewrite list_lookup_insert_eq by done. split; [done|]. by right; right.
Qed.

(** One pass of the loop, in a state where the incoming order [w] still has
    a remaining quantity: when the opposite side is empty the loop stops;
    otherwise, with [r] the best opposite order, the pass trades against [r]
    exactly when the crossing test holds (a market order always, a limit buy
    iff its price >= the resting price, a limit sell iff its price <= the
    resting price), and when the test fails the loop stops with the trades
    it has. *)
Lemma matchBody_trades_iff_crossing sd wp executedAt st w fuel :
  book_inv (MatchState.heap st) (MatchState.book st) →
  MatchState.heap st !! wp = Some w →
  Order.Side w = sd →
  Order.RemainingQuantity w ≠ 0 →
  match bestOpposite sd (MatchState.book st) with
  | None => matchLoop (S fuel) (bestOpposite sd) wp executedAt st = Ret st
  | Some p =>
      ∃ r, MatchState.heap st !! p = Some r
        ∧ ((∃ st' t,
              matchBody (bestOpposite sd) wp executedAt st = Ret (Some st')
              ∧ MatchState.trades st' = MatchState.trades st ++ [t]
              ∧ MatchState.updated st' = MatchState.updated st ++ [p]
              ∧ restingID sd t = Order.ID r ∧ incomingID sd t = Order.ID w)
           ↔ crosses w r)
        ∧ (¬ crosses w r →
           matchLoop (S fuel) (bestOpposite sd) wp executedAt st = Ret st)
  end.
Proof.
  intros Hinv Hw Hsd Hrem.
  destruct (matchBody_cases sd wp executedAt st w Hinv Hw Hsd)
    as [[Hbody Hexit] | (st' & r & p & k & trade & Hbody & Hts)].
  - destruct Hexit as [?|[Hnone | (p & r & Hbest & Hr & Hcan)]]; [done| |].
    + rewrite Hnone. simpl. by rewrite Hbody.
    + rewrite Hbest. exists r. split; [done|].
      assert (¬ crosses w r) as Hnc.
      { rewrite <- canMatch_crosses. by rewrite Hcan. }
      split; [|intros _; simpl; by rewrite Hbody].
      split; [|done]. intros (st' & t & Hb & _). congruence.
  - destruct Hts. rewrite ts_best0. exists r. split; [done|].
    assert (crosses w r) as Hc by (by apply canMatch_crosses).
    split; [|done]. split; [done|]. intros _. exists st', trade.
    destruct (executeTrade_ids _ _ _ _ ts_trade0) as [Hid1 Hid2]. rewrite Hsd in Hid1, Hid2.
    by repeat split.
Qed.

(** A run that starts where the body stops has not moved; a run that starts
    where the body trades goes on from the state the body returns. *)
Lemma match_run_stop sd wp executedAt st st1 :
  match_run sd wp executedAt st st1 →
  matchBody (bestOpposite sd) wp executedAt st = Ret None → st1 = st.
Proof. intros [|? ? ? w r p k trade Hbody _ _] Hnone; [done | congruence]. Qed.

Lemma match_run_next sd wp executedAt st st' st1 :
  match_run sd wp executedAt st st1 →
  matchBody (bestOpposite sd) wp executedAt st = Ret (Some st') →
  matchBody (bestOpposite sd) wp executedAt st1 = Ret None →
  match_run sd wp executedAt st' st1.
Proof.
  intros [|? st0 ? w r p k trade Hbody _ Hrun] Hsome Hnone; [congruence|].
  assert (st0 = st') as -> by congruence. done.
Qed.

Lemma match_run_trades_grow sd wp executedAt st st1 :
  match_run sd wp executedAt st st1 →
  ∃ ts, MatchState.trades st1 = MatchState.trades st ++ ts.
Proof.
  induction 1 as [st | st st' st'' w r p k trade Hbody Hts Hrun [ts IH]].
  - exists []. by rewrite app_nil_r.
  - exists (trade :: ts). rewrite IH, (ts_trades _ _ _ _ _ _ _ _ _ _ Hts), <- app_assoc. done.
Qed.

Lemma crosses_setRemaining q incoming resting :
  crosses (Order.setRemainingQuantity q incoming) resting ↔ crosses incoming resting.
Proof. by destruct incoming. Qed.

(** C3. [Match], on a book that satisfies the invariant, returns; its trades
    are those of [matchBuyOrder] (for a buy) or [matchSellOrder] (for a sell)
    run from the state in which it enters the loop, and its book is the one
    that loop leaves.  In every state [st] the loop of this call passes
    through, with [w] the incoming order as it is then: when nothing remains
    of [w] the loop stops there; when the opposite side is empty the loop
    stops there; otherwise, with [r] the best opposite order, the pass
    executes a trade against [r], which is a trade of the result of [Match],
    exactly when the crossing test holds (a market order always, a limit buy
    iff its price >= the resting price, a limit sell iff its price <= the
    resting price), and when the test fails the loop stops there, with the
    trades made so far.  In particular [Match] makes a trade at all exactly
    when the incoming order has a remaining quantity and the crossing test
    holds against the best opposite order of the book it is given. *)
Theorem matching_trades_iff_crossing h incomingOrder ob executedAt :
  book_inv h ob →
  let sd := Order.Side incomingOrder in
  let wp := length h in
  let start := matchStart h incomingOrder ob in
  ∃ res ob' h' last,
    Match h incomingOrder ob executedAt = Ret (res, ob', h')
    ∧ match sd with
      | OrderSideBuy => matchBuyOrder (matchFuel ob) wp executedAt start
      | OrderSideSell => matchSellOrder (matchFuel ob) wp executedAt start
      end = Ret last
    ∧ MatchResult.Trades res = MatchState.trades last
    ∧ ob' = MatchState.book last
    ∧ match_run sd wp executedAt start last
    ∧ (∀ st,
         match_run sd wp executedAt start st → match_run sd wp executedAt st last →
         ∃ w, MatchState.heap st !! wp = Some w
           ∧ (∀ r, crosses w r ↔ crosses incomingOrder r)
           ∧ (Order.RemainingQuantity w = 0 → st = last)
           ∧ (Order.RemainingQuantity w ≠ 0 →
              match bestOpposite sd (MatchState.book st) with
              | None => st = last
              | Some p =>
                  ∃ r, MatchState.heap st !! p = Some r
                    ∧ ((∃ st' t,
                          matchBody (bestOpposite sd) wp executedAt st = Ret (Some st')
                          ∧ MatchState.trades st' = MatchState.trades st ++ [t]
                          ∧ MatchState.updated st' = MatchState.updated st ++ [p]
                          ∧ restingID sd t = Order.ID r ∧ incomingID sd t = Order.ID w
                          ∧ match_run sd wp executedAt st' last
                          ∧ t ∈ MatchResult.Trades res)
                       ↔ crosses w r)
                    ∧ (¬ crosses w r → st = last)
              end))
    ∧ (MatchResult.Trades res ≠ []
       ↔ Order.RemainingQuantity incomingOrder ≠ 0
         ∧ ∃ p r, bestOpposite sd ob = Some p ∧ h !! p = Some r
                  ∧ crosses incomingOrder r).
Proof.
  intros Hinv sd wp start.
  assert (book_inv (h ++ [incomingOrder]) ob) as Hinv0
    by (eapply book_inv_heap_ext; [apply heap_ext_app | done]).
  assert (MatchState.heap start !! wp = Some incomingOrder) as Hw0.
  { simpl. by apply list_lookup_middle. }
  destruct (Match_run h incomingOrder ob executedAt Hinv)
    as (last & q & Hloop & Hrun & [Hwl Hexit] & Hinvl & HM).
  fold sd wp start in Hloop, Hrun, Hwl, Hexit, HM.
  destruct (finalize wp last (Order.setRemainingQuantity q incomingOrder))
    as [[res ob'] h'] eqn:Hfin.
  destruct (finalize_cases _ _ _ _ _ _ Hwl Hfin) as (Htr & Hob' & _).
  assert (matchBody (bestOpposite sd) wp executedAt last = Ret None) as Hlast.
  { destruct (matchBody_cases sd wp executedAt last _ Hinvl Hwl eq_refl)
      as [[Hbody _] | (st' & r & p & k & trade & _ & Hts)]; [done|].
    destruct Hts. destruct Hexit as [?|[Hnone | (p' & r' & Hbest & Hr & Hcan)]]; [done | congruence |].
    assert (p' = p) as -> by congruence. assert (r' = r) as -> by congruence. congruence. }
  assert (∀ st,
            match_run sd wp executedAt start st → match_run sd wp executedAt st last →
            ∃ w, MatchState.heap st !! wp = Some w
              ∧ (∀ r, crosses w r ↔ crosses incomingOrder r)
              ∧ (Order.RemainingQuantity w = 0 → st = last)
              ∧ (Order.RemainingQuantity w ≠ 0 →
                 match bestOpposite sd (MatchState.book st) with
                 | None => st = last
                 | Some p =>
                     ∃ r, MatchState.heap st !! p = Some r
                       ∧ ((∃ st' t,
                             matchBody (bestOpposite sd) wp executedAt st = Ret (Some st')
                             ∧ MatchState.trades st' = MatchState.trades st ++ [t]
                             ∧ MatchState.updated st' = MatchState.updated st ++ [p]
                             ∧ restingID sd t = Order.ID r ∧ incomingID sd t = Order.ID w
                             ∧ match_run sd wp executedAt st' last
                             ∧ t ∈ MatchResult.Trades res)
                          ↔ crosses w r)
                       ∧ (¬ crosses w r → st = last)
                 end)) as Hpass.
  { intros st Hr1 Hr2.
    destruct (match_run_inv _ _ _ _ _ Hr1 Hinv0) as (Hinvst & _).
    destruct (match_run_working _ _ _ _ _ _ Hr1 Hw0) as [q' Hw].
    set (w := Order.setRemainingQuantity q' incomingOrder) in *.
    assert (Order.Side w = sd) as Hsd by done.
    exists w. split; [done|]. split; [intros r; apply crosses_setRemaining|].
    split; [intros Hz; symmetry; by eapply match_run_done|].
    intros Hrem.
    destruct (matchBody_cases sd wp executedAt st w Hinvst Hw Hsd)
      as [[Hbody Hwhy] | (st' & r & p & k & trade & Hbody & Hts)].
    - pose proof (match_run_stop _ _ _ _ _ Hr2 Hbody) as Hstop.
      destruct Hwhy as [?|[Hnone | (p & r & Hbest & Hr & Hcan)]]; [done| |].
      + by rewrite Hnone.
      + rewrite Hbest. exists r. split; [done|].
        assert (¬ crosses w r) as Hnc.
        { rewrite <- canMatch_crosses. by rewrite Hcan. }
        split; [|done]. split; [|done]. intros (st' & t & Hb & _). congruence.
    - pose proof Hts as Hts'. destruct Hts'. rewrite ts_best0. exists r. split; [done|].
      assert (crosses w r) as Hc by (by apply canMatch_crosses).
      split; [|done]. split; [done|]. intros _. exists st', trade.
      destruct (executeTrade_ids _ _ _ _ ts_trade0) as [Hid1 Hid2]. rewrite Hsd in Hid1, Hid2.
      pose proof (match_run_next _ _ _ _ _ _ Hr2 Hbody Hlast) as Hr3.
      destruct (match_run_trades_grow _ _ _ _ _ Hr3) as [ts Hts3].
      split; [done|]. split; [done|]. split; [done|]. split; [done|]. split; [done|].
      split; [done|]. rewrite Htr, Hts3, ts_trades0, !elem_of_app.
      left. right. by apply list_elem_of_singleton. }
  exists res, ob', h', last. split; [done|].
  split; [unfold matchBuyOrder, matchSellOrder; rewrite <- Hloop; by destruct sd|].
  split; [done|]. split; [done|]. split; [done|]. split; [exact Hpass|].
  destruct (Hpass start (run_done _ _ _ _) Hrun) as (w & Hw & _ & Hzero & Hnz).
  assert (w = incomingOrder) as -> by congruence.
  split.
  - intros Hne.
    assert (start ≠ last) as Hmoved.
    { intros Heq. apply Hne. by rewrite Htr, <- Heq. }
    assert (Order.RemainingQuantity incomingOrder ≠ 0) as Hrem.
    { intros Hz. by apply Hmoved, Hzero. }
    split; [done|]. specialize (Hnz Hrem). simpl in Hnz.
    destruct (bestOpposite sd ob) as [p|] eqn:Hbest; [|done].
    destruct Hnz as (r & Hr & _ & Hstop).
    destruct (bestOpposite_Some _ _ _ _ Hinv Hbest) as (k & pl & rest & r0 & _ & _ & Hr0 & _).
    assert (r0 = r) as ->.
    { simpl in Hr. rewrite (lookup_app_l_Some _ _ _ _ Hr0) in Hr. congruence. }
    exists p, r. split; [done|]. split; [done|].
    destruct (decide (canMatch incomingOrder r = true)) as [Hc|Hc].
    + by apply canMatch_crosses.
    + exfalso. apply Hmoved, Hstop. by rewrite <- canMatch_crosses.
  - intros (Hrem & p & r & Hbest & Hr & Hc). specialize (Hnz Hrem). simpl in Hnz.
    rewrite Hbest in Hnz. destruct Hnz as (r' & Hr' & [_ Htrade] & _).
    assert (r' = r) as ->.
    { simpl in Hr'. rewrite (lookup_app_l_Some _ _ _ _ Hr) in Hr'. congruence. }
    destruct (Htrade Hc) as (st' & t & _ & _ & _ & _ & _ & _ & Hin).
    intros Hnil. rewrite Hnil in Hin. by apply elem_of_nil in Hin.
Qed.

(** C4. What [Match] does with the incoming order once the loop is over,
    [q] being the quantity the loop left: with nothing left the order is
    Filled and appended to the updated orders; a limit order with something
    left is the leftover (PartiallyFilled when less than the initial quantity
    is left, Open otherwise) and is not among the updated orders; a market
    order with something left is Canceled with remaining quantity zero and
    appended to the updated orders. *)
Theorem Match_finalizes_incoming h incomingOrder ob executedAt :
  book_inv h ob →
  Order.Status incomingOrder = OrderStatusOpen →
  let sd := Order.Side incomingOrder in
  let wp := length h in
  ∃ st q res ob' h',
    matchLoop (matchFuel ob) (bestOpposite sd) wp executedAt
      (matchStart h incomingOrder ob) = Ret st
    ∧ MatchState.heap st !! wp = Some (Order.setRemainingQuantity q incomingOrder)
    ∧ Match h incomingOrder ob executedAt = Ret (res, ob', h')
    ∧ MatchResult.Trades res = MatchState.trades st
    ∧ (wp ∉ MatchState.updated st)
    ∧ (q = 0 →
       MatchResult.IncomingOrderLeft res = None
       ∧ MatchResult.UpdatedOrders res = MatchState.updated st ++ [wp]
       ∧ ∃ w', h' !! wp = Some w' ∧ Order.Status w' = OrderStatusFilled
               ∧ Order.RemainingQuantity w' = 0)
    ∧ (q ≠ 0 → Order.Type_ incomingOrder = OrderTypeLimit →
       MatchResult.IncomingOrderLeft res = Some wp
       ∧ MatchResult.UpdatedOrders res = MatchState.updated st
       ∧ ∃ w', h' !! wp = Some w' ∧ Order.RemainingQuantity w' = q
               ∧ Order.Status w'
                 = if bool_decide (q < Order.InitialQuantity incomingOrder)
                   then OrderStatusPartiallyFilled else OrderStatusOpen)
    ∧ (q ≠ 0 → Order.Type_ incomingOrder = OrderTypeMarket →
       MatchResult.IncomingOrderLeft res = None
       ∧ MatchResult.UpdatedOrders res = MatchState.updated st ++ [wp]
       ∧ ∃ w', h' !! wp = Some w' ∧ Order.Status w' = OrderStatusCanceled
               ∧ Order.RemainingQuantity w' = 0).
Proof.
  intros Hinv Hopen sd wp. subst sd wp.
  assert (book_inv (h ++ [incomingOrder]) ob) as Hinv0
    by (eapply book_inv_heap_ext; [apply heap_ext_app | done]).
  destruct (Match_run h incomingOrder ob executedAt Hinv)
    as (st & q & Hloop & Hrun & [Hw _] & _ & HM).
  destruct (match_run_updated _ _ _ _ _ Hrun Hinv0) as (l & Hl & Hall). simpl in Hl.
  assert (length h < length (MatchState.heap st))%nat as Hlt by (by eapply lookup_lt_Some).
  set (w := Order.setRemainingQuantity q incomingOrder) in *.
  assert (Order.RemainingQuantity w = q) as Hq by done.
  assert (Order.Type_ w = Order.Type_ incomingOrder) as Hty by done.
  assert (wp_fresh : length h ∉ MatchState.updated st).
  { rewrite Hl. intros Hin. by destruct (Hall _ Hin). }
  destruct (finalize (length h) st w) as [[res ob'] h'] eqn:Hfin.
  exists st, q, res, ob', h'. split; [done|]. split; [done|]. split; [done|].
  unfold finalize in Hfin. rewrite Hq, Hty in Hfin.
  destruct (decide (q = 0)) as [Hz|Hnz].
  - rewrite bool_decide_eq_true_2 in Hfin by done. injection Hfin as <- <- <-. simpl.
    split; [done|]. split; [done|]. split; [|by split].
    intros _. split; [done|]. split; [done|].
    eexists. rewrite list_lookup_insert_eq by done. by split.
  - rewrite bool_decide_eq_false_2 in Hfin by done.
    destruct (Order.Type_ incomingOrder) eqn:Hty'; injection Hfin as <- <- <-; simpl.
    + split; [done|]. split; [done|]. split; [done|]. split; [|done].
      intros _ _. split; [done|]. split; [done|]. case_bool_decide.
      * eexists. rewrite list_lookup_insert_eq by done. by split.
      * exists w. by split.
    + split; [done|]. split; [done|]. split; [done|]. split; [done|].
      intros _ _. split; [done|]. split; [done|].
      eexists. rewrite list_lookup_insert_eq by done. by split.
Qed.

(** ** The one-ask book satisfies the invariant *)

Lemma oneAskBook_added :
  AddOrder oneAskHeap (NewOrderBook "BTCUSD") 0%nat = Ret oneAskBook.
Proof. vm_compute. reflexivity. Qed.

Lemma oneAskBook_inv : book_inv oneAskHeap oneAskBook.
Proof.
  destruct (AddOrder_inv oneAskHeap (NewOrderBook "BTCUSD") 0%nat (sellAt 1 50000 5))
    as (ob' & Hadd & Hinv & _); [apply book_inv_new | done | done |].
  rewrite oneAskBook_added in Hadd. by injection Hadd as <-.
Qed.

Lemma Match_trade_quantity_and_price_witness :
  book_inv oneAskHeap oneAskBook
  ∧ ∃ res ob' h',
      Match oneAskHeap (buyAt 2 50100 8) oneAskBook 7 = Ret (res, ob', h')
      ∧ ∀ t, t ∈ MatchResult.Trades res →
          ∃ st st' w p r,
            match_run OrderSideBuy 1%nat 7 (matchStart oneAskHeap (buyAt 2 50100 8) oneAskBook) st
            ∧ matchBody GetBestAsk 1%nat 7 st = Ret (Some st')
            ∧ MatchState.trades st' = MatchState.trades st ++ [t]
            ∧ MatchState.heap st !! 1%nat = Some w
            ∧ GetBestAsk (MatchState.book st) = Some p
            ∧ MatchState.heap st !! p = Some r
            ∧ Trade.Quantity t
              = Z.min (Order.RemainingQuantity w) (Order.RemainingQuantity r)
            ∧ Order.Price r = Some (Trade.Price t).
Proof.
  split; [exact oneAskBook_inv|].
  exact (Match_trade_quantity_and_price oneAskHeap (buyAt 2 50100 8) oneAskBook 7
           oneAskBook_inv).
Defined.

Lemma matching_trades_iff_crossing_witness :
  book_inv oneAskHeap oneAskBook
  ∧ ∃ res ob' h' last,
      Match oneAskHeap (buyAt 2 50100 8) oneAskBook 7 = Ret (res, ob', h')
      ∧ matchBuyOrder (matchFuel oneAskBook) 1%nat 7
          (matchStart oneAskHeap (buyAt 2 50100 8) oneAskBook) = Ret last
      ∧ MatchResult.Trades res = MatchState.trades last
      ∧ ob' = MatchState.book last
      ∧ crosses (buyAt 2 50100 8) (sellAt 1 50000 5)
      ∧ MatchResult.Trades res ≠ [].
Proof.
  split; [exact oneAskBook_inv|].
  destruct (matching_trades_iff_crossing oneAskHeap (buyAt 2 50100 8) oneAskBook 7
              oneAskBook_inv)
    as (res & ob' & h' & last & HM & Hside & Htr & Hob & _ & _ & Hiff).
  assert (crosses (buyAt 2 50100 8) (sellAt 1 50000 5)) as Hc.
  { rewrite <- canMatch_crosses. reflexivity. }
  exists res, ob', h', last. split; [exact HM|]. split; [exact Hside|].
  split; [exact Htr|]. split; [exact Hob|]. split; [exact Hc|].
  apply Hiff. split; [discriminate|]. exists 0%nat, (sellAt 1 50000 5).
  split; [reflexivity|]. split; [reflexivity | exact Hc].
Defined.

Lemma Match_finalizes_incoming_witness :
  book_inv oneAskHeap oneAskBook
  ∧ Order.Status (buyAt 2 50100 8) = OrderStatusOpen
  ∧ ∃ st res ob' h',
      matchLoop (matchFuel oneAskBook) GetBestAsk 1%nat 7
        (matchStart oneAskHeap (buyAt 2 50100 8) oneAskBook) = Ret st
      ∧ Match oneAskHeap (buyAt 2 50100 8) oneAskBook 7 = Ret (res, ob', h')
      ∧ MatchResult.IncomingOrderLeft res = Some 1%nat
      ∧ MatchResult.UpdatedOrders res = [0%nat]
      ∧ ∃ w', h' !! 1%nat = Some w' ∧ Order.RemainingQuantity w' = 3
              ∧ Order.Status w' = OrderStatusPartiallyFilled.
Proof.
  split; [exact oneAskBook_inv|]. split; [reflexivity|].
  destruct (Match_finalizes_incoming oneAskHeap (buyAt 2 50100 8) oneAskBook 7
              oneAskBook_inv eq_refl)
    as (st & q & res & ob' & h' & Hloop & Hw & HM & Htr & Hfresh & _ & Hlimit & _).
  assert (st = MatchState.mk
                 [Order.setUpdatedAt 7 (Order.setStatus OrderStatusFilled
                    (Order.setRemainingQuantity 0 (sellAt 1 50000 5)));
                  Order.setRemainingQuantity 3 (buyAt 2 50100 8)]
                 (OrderBook.mk "BTCUSD" ∅ ∅ [] [])
                 [Trade.mk 0 "BTCUSD" 2 1 50000 5 7] [0%nat]) as ->.
  { vm_compute in Hloop. by injection Hloop as <-. }
  assert (q = 3) as -> by (vm_compute in Hw; by injection Hw).
  eexists _, res, ob', h'. split; [exact Hloop|]. split; [exact HM|].
  destruct (Hlimit ltac:(discriminate) eq_refl) as (Hleft & Hupd & w' & Hw' & Hrem & Hst).
  split; [exact Hleft|]. split; [exact Hupd|]. exists w'. split; [exact Hw'|].
  split; [exact Hrem | exact Hst].
Defined.

(** ** [AddOrder] and market orders *)

(** [AddOrder] tests the price only: an order without price leaves the book
    as it is, whatever its type. *)
Lemma AddOrder_without_price h ob p o :
  h !! p = Some o → Order.Price o = None → AddOrder h ob p = Ret ob.
Proof.
  intros Hp Hpr. unfold AddOrder. rewrite (proj2 (deref_Ret _ _ _) Hp). simpl.
  by rewrite Hpr.
Qed.

(** The request validation of the server accepts a market order that
    carries a price. *)
Example market_request_with_price_is_valid :
  validateCreateOrderRequest
    (CreateOrderRequest.mk None "BTCUSD" OrderSideSell OrderTypeMarket (Some 50000) 5)
  = None.
Proof. reflexivity. Qed.

(** C8. A market order that carries a price is stored by [AddOrder]: the
    empty book gets a level at that price and the order becomes the best ask. *)
Theorem AddOrder_stores_market_order_with_price :
  Order.Type_ marketSellWithPrice = OrderTypeMarket
  ∧ ∃ ob', AddOrder [marketSellWithPrice] (NewOrderBook "BTCUSD") 0%nat = Ret ob'
           ∧ ob' ≠ NewOrderBook "BTCUSD"
           ∧ OrderBook.Asks ob' !! 50000 = Some (PriceLevel.mk 50000 [0%nat])
           ∧ GetBestAsk ob' = Some 0%nat.
Proof.
  split; [reflexivity|]. eexists. split; [vm_compute; reflexivity|].
  split; [discriminate|]. split; reflexivity.
Qed.

(** ** The depth of the book query *)

Lemma sumRemaining_total (h : list Order.t) orders total :
  (∀ p, p ∈ orders → is_Some (h !! p)) → ∃ z, sumRemaining h orders total = Ret z.
Proof.
  revert total. induction orders as [|p rest IH]; intros total Hall; simpl; [by eexists|].
  destruct (Hall p) as [o Ho]; [by left|].
  rewrite (proj2 (deref_Ret _ _ _) Ho). simpl. apply IH. intros q Hq. apply Hall. by right.
Qed.

Lemma levelsWithQuantities_total sd R h m ps levels :
  side_inv sd R h m ps →
  ∃ out, levelsWithQuantities h m levels = Ret out
         ∧ OrderBookLevel.Price <$> out = levels.
Proof.
  intros Hinv. induction levels as [|price rest (out & IH & Hout)]; simpl; [by exists []|].
  assert (∃ total, match m !! price with
                   | Some pl => PriceLevel_GetTotalQuantity h pl
                   | None => Ret 0
                   end = Ret total) as [total ->].
  { destruct (m !! price) as [pl|] eqn:Hm; [|by eexists].
    apply sumRemaining_total. intros p Hp.
    destruct (si_orders _ _ _ _ _ Hinv _ _ _ Hm Hp) as (o & -> & _). by eexists. }
  simpl. rewrite IH. simpl. eexists. split; [done|]. rewrite fmap_cons. simpl.
  by f_equal.
Qed.

Lemma sumRemaining_spec (h : list Order.t) orders : ∀ total,
  (∀ p, p ∈ orders → is_Some (h !! p)) →
  sumRemaining h orders total = Ret (total + totalRemaining h orders).
Proof.
  induction orders as [|p rest IH]; intros total Hall; simpl.
  - f_equal. lia.
  - destruct (Hall p) as [o Ho]; [by left|].
    rewrite (proj2 (deref_Ret _ _ _) Ho). simpl. rewrite IH, Ho; [simpl; f_equal; lia|].
    intros q Hq. apply Hall. by right.
Qed.

Lemma levelsWithQuantities_spec sd R h m ps levels :
  side_inv sd R h m ps →
  levelsWithQuantities h m levels
  = Ret ((λ k, OrderBookLevel.mk k
                 (from_option (λ pl, totalRemaining h (PriceLevel.Orders pl)) 0 (m !! k)))
         <$> levels).
Proof.
  intros Hinv. induction levels as [|price rest IH]; simpl; [done|].
  rewrite IH. destruct (m !! price) as [pl|] eqn:Hm; simpl; [|done].
  unfold PriceLevel_GetTotalQuantity. rewrite sumRemaining_spec; [done|].
  intros p Hp. destruct (si_orders _ _ _ _ _ Hinv _ _ _ Hm Hp) as (o & -> & _). by eexists.
Qed.

(** Each level of the answer is a level of the side, with the remaining
    quantities of its orders added up. *)
Lemma levelsWithQuantities_levels sd R h m ps levels :
  side_inv sd R h m ps → (∀ k, k ∈ levels → k ∈ ps) →
  ∃ out, levelsWithQuantities h m levels = Ret out
    ∧ OrderBookLevel.Price <$> out = levels
    ∧ ∀ l, l ∈ out →
        ∃ pl, m !! OrderBookLevel.Price l = Some pl
          ∧ PriceLevel.Orders pl ≠ []
          ∧ (∀ p, p ∈ PriceLevel.Orders pl → is_Some (h !! p))
          ∧ OrderBookLevel.Quantity l = totalRemaining h (PriceLevel.Orders pl).
Proof.
  intros Hinv Hsub. eexists. split; [by eapply levelsWithQuantities_spec|]. split.
  - rewrite <- list_fmap_compose. simpl. apply list_fmap_id.
  - intros l (k & -> & Hk)%list_elem_of_fmap. simpl.
    destruct (proj1 (si_keys _ _ _ _ _ Hinv k) (Hsub k Hk)) as [pl Hm].
    exists pl. rewrite Hm. split; [done|]. split; [by eapply si_nonempty|]. split; [|done].
    intros p Hp. destruct (si_orders _ _ _ _ _ Hinv _ _ _ Hm Hp) as (o & -> & _). by eexists.
Qed.

Lemma filter_all {A} (P : A → Prop) `{!∀ x, Decision (P x)} (l : list A) :
  Forall P l → filter P l = l.
Proof.
  induction 1 as [|x l Hx _ IH]; [done|]. rewrite filter_cons_True by done. by f_equal.
Qed.

Lemma topSide_inv sd R h m ps depth :
  side_inv sd R h m ps → topSide m ps depth = take (Z.to_nat depth) ps.
Proof.
  intros Hinv. unfold topSide.
  assert (take (Z.to_nat (Z.min depth (Z.of_nat (length ps)))) ps
          = take (Z.to_nat depth) ps) as ->.
  { destruct (decide (depth ≤ Z.of_nat (length ps))).
    - by rewrite Z.min_l.
    - rewrite Z.min_r by lia. rewrite Nat2Z.id, firstn_all.
      symmetry. apply take_ge. lia. }
  apply filter_all. apply Forall_forall. intros k Hk%elem_of_take.
  destruct Hk as (i & Hi & _). apply list_elem_of_lookup_2 in Hi.
  apply (si_keys _ _ _ _ _ Hinv) in Hi as [pl Hm]. unfold levelLive. rewrite Hm.
  apply negb_true_iff, PriceLevel_IsEmpty_false. by eapply si_nonempty.
Qed.

Lemma getOrderBook_inv h books symbol ob books' :
  books_inv h books → getOrderBook books symbol = (ob, books') →
  book_inv h ob ∧ books_inv h books' ∧ books' !! symbol = Some ob
  ∧ ∀ s, s ≠ symbol → books' !! s = books !! s.
Proof.
  intros Hinv. unfold getOrderBook. destruct (books !! symbol) as [ob0|] eqn:Hb.
  - intros [= <- <-]. split; [by eapply Hinv|]. split; [done|]. by split.
  - intros [= <- <-]. split; [apply book_inv_new|]. split; [|split].
    + intros s ob. destruct (decide (s = symbol)) as [->|Hne].
      * rewrite lookup_insert_eq. intros [= <-]. apply book_inv_new.
      * rewrite lookup_insert_ne by done. apply Hinv.
    + by rewrite lookup_insert_eq.
    + intros s Hne. by rewrite lookup_insert_ne.
Qed.

Lemma oneAskEngine_inv : books_inv (Engine.heap oneAskEngine) (Engine.orderBooks oneAskEngine).
Proof.
  intros s ob. simpl. intros [<- <-]%lookup_singleton_Some. exact oneAskBook_inv.
Qed.

(** C9, as claimed, fails: asked for a depth of 101, the engine returns the
    aggregated levels. *)
Lemma engine_accepts_depth_101 :
  GetOrderBookWithQuantities oneAskEngine "BTCUSD" 101
  = Ret (([], [OrderBookLevel.mk 50000 5]), Engine.orderBooks oneAskEngine)
  ∧ GetOrderBook oneAskEngine "BTCUSD" 101
    = (([], [50000]), Engine.orderBooks oneAskEngine).
Proof. split; vm_compute; reflexivity. Qed.

(** C9, amended.  The engine's book queries take any depth: on books that
    satisfy the invariant they return, per side, the first [depth] cached
    prices (all of them when [depth] is larger), whatever [depth] is;
    [GetOrderBookWithQuantities] returns each of them with a quantity, which
    is the sum of the remaining quantities of the orders resting at that
    level.  The bound is the handler's: [handleOrderBook] answers a depth
    below 1 or above 100, and a depth that does not parse, with 400 and does
    not call the engine (the books are those of the engine, where the query
    would have created the book of an unknown symbol); a depth from 1 to 100
    gets the engine's levels, and so does a request without a depth, for
    which the depth is 10. *)
Theorem depth_bound_is_in_the_handler e symbol depth :
  books_inv (Engine.heap e) (Engine.orderBooks e) →
  symbol ≠ "" →
  (∃ ob bids asks books,
      getOrderBook (Engine.orderBooks e) symbol = (ob, books)
      ∧ GetOrderBook e symbol depth
        = ((take (Z.to_nat depth) (OrderBook.bidPrices ob),
            take (Z.to_nat depth) (OrderBook.askPrices ob)), books)
      ∧ GetOrderBookWithQuantities e symbol depth = Ret ((bids, asks), books)
      ∧ OrderBookLevel.Price <$> bids = take (Z.to_nat depth) (OrderBook.bidPrices ob)
      ∧ OrderBookLevel.Price <$> asks = take (Z.to_nat depth) (OrderBook.askPrices ob)
      ∧ (∀ sd l,
           l ∈ match sd with OrderSideBuy => bids | OrderSideSell => asks end →
           ∃ pl, sideLevels sd ob !! OrderBookLevel.Price l = Some pl
             ∧ PriceLevel.Orders pl ≠ []
             ∧ (∀ p, p ∈ PriceLevel.Orders pl → is_Some (Engine.heap e !! p))
             ∧ OrderBookLevel.Quantity l
               = totalRemaining (Engine.heap e) (PriceLevel.Orders pl))
      ∧ (1 ≤ depth ≤ 100 →
         handleOrderBook e true symbol (Some (AtoiOk depth)) = Ret (OK bids asks, books))
      ∧ (depth = 10 → handleOrderBook e true symbol None = Ret (OK bids asks, books)))
  ∧ (depth < 1 ∨ depth > 100 →
     handleOrderBook e true symbol (Some (AtoiOk depth))
     = Ret (BadRequest "Invalid depth parameter (must be 1-100)", Engine.orderBooks e))
  ∧ handleOrderBook e true symbol (Some AtoiErr)
    = Ret (BadRequest "Invalid depth parameter (must be 1-100)", Engine.orderBooks e).
Proof.
  intros Hinv Hsym. split; [|split].
  - destruct (getOrderBook (Engine.orderBooks e) symbol) as [ob books] eqn:Hget.
    destruct (getOrderBook_inv _ _ _ _ _ Hinv Hget) as ([Hb Ha] & _).
    destruct (levelsWithQuantities_levels _ _ _ _ _
                (take (Z.to_nat depth) (OrderBook.bidPrices ob)) Hb)
      as (bids & Hbids & Hbp & Hbq).
    { intros k (i & Hi & _)%elem_of_take. by eapply list_elem_of_lookup_2. }
    destruct (levelsWithQuantities_levels _ _ _ _ _
                (take (Z.to_nat depth) (OrderBook.askPrices ob)) Ha)
      as (asks & Hasks & Hap & Haq).
    { intros k (i & Hi & _)%elem_of_take. by eapply list_elem_of_lookup_2. }
    assert (GetOrderBookWithQuantities e symbol depth = Ret (bids, asks, books)) as HG.
    { unfold GetOrderBookWithQuantities, GetTopLevels. rewrite Hget.
      rewrite (topSide_inv _ _ _ _ _ depth Hb), (topSide_inv _ _ _ _ _ depth Ha).
      rewrite Hbids. simpl. rewrite Hasks. done. }
    exists ob, bids, asks, books. split; [done|]. split.
    { unfold GetOrderBook, GetTopLevels. rewrite Hget.
      by rewrite (topSide_inv _ _ _ _ _ depth Hb), (topSide_inv _ _ _ _ _ depth Ha). }
    split; [done|]. split; [done|]. split; [done|].
    split; [intros [] l Hl; [by apply Hbq | by apply Haq]|].
    split.
    + intros Hd. unfold handleOrderBook. simpl.
      rewrite bool_decide_eq_false_2 by done.
      rewrite !bool_decide_eq_false_2 by lia. simpl. by rewrite HG.
    + intros ->. unfold handleOrderBook. simpl.
      rewrite bool_decide_eq_false_2 by done. by rewrite HG.
  - intros Hd. unfold handleOrderBook. simpl. rewrite bool_decide_eq_false_2 by done.
    destruct Hd; [rewrite (bool_decide_eq_true_2 (depth < 1)) by done; done|].
    rewrite (bool_decide_eq_true_2 (depth > 100)) by done. by rewrite orb_true_r.
  - unfold handleOrderBook. simpl. by rewrite bool_decide_eq_false_2 by done.
Qed.

Lemma depth_bound_is_in_the_handler_witness :
  books_inv (Engine.heap oneAskEngine) (Engine.orderBooks oneAskEngine)
  ∧ "BTCUSD" ≠ ""
  ∧ (∃ bids asks,
       GetOrderBookWithQuantities oneAskEngine "BTCUSD" 101
       = Ret ((bids, asks), Engine.orderBooks oneAskEngine)
       ∧ OrderBookLevel.Price <$> asks = [50000]
       ∧ ∀ l, l ∈ asks →
           ∃ pl, OrderBook.Asks oneAskBook !! OrderBookLevel.Price l = Some pl
             ∧ OrderBookLevel.Quantity l
               = totalRemaining (Engine.heap oneAskEngine) (PriceLevel.Orders pl))
  ∧ handleOrderBook oneAskEngine true "BTCUSD" (Some (AtoiOk 101))
    = Ret (BadRequest "Invalid depth parameter (must be 1-100)",
           Engine.orderBooks oneAskEngine)
  ∧ handleOrderBook oneAskEngine true "BTCUSD" (Some AtoiErr)
    = Ret (BadRequest "Invalid depth parameter (must be 1-100)",
           Engine.orderBooks oneAskEngine).
Proof.
  split; [exact oneAskEngine_inv|]. split; [discriminate|].
  destruct (depth_bound_is_in_the_handler oneAskEngine "BTCUSD" 101 oneAskEngine_inv
              ltac:(discriminate))
    as ((ob & bids & asks & books & Hget & _ & HG & _ & Hasks & Hq & _) & Hreject & Hparse).
  injection Hget as <- <-.
  split.
  { exists bids, asks. split; [exact HG|]. split; [exact Hasks|].
    intros l Hl. destruct (Hq OrderSideSell l Hl) as (pl & Hm & _ & _ & Hsum).
    exists pl. split; [exact Hm | exact Hsum]. }
  split; [|exact Hparse]. apply Hreject. right. reflexivity.
Defined.

(** ** The trades [PlaceOrder] returns *)

Lemma matchBody_new_trade best wp executedAt st st' :
  matchBody best wp executedAt st = Ret (Some st') →
  ∃ o r trade, executeTrade o r executedAt = Ret trade
               ∧ MatchState.trades st' = MatchState.trades st ++ [trade].
Proof.
  unfold matchBody. intros (o & _ & H)%bind_Ret.
  case_bool_decide; [done|]. destruct (best _) as [p|]; [|done].
  apply bind_Ret in H as (r & _ & H). destruct (canMatch o r); simpl in H; [|done].
  apply bind_Ret in H as (trade & Htrade & H).
  apply bind_Ret in H as (h1 & _ & H). apply bind_Ret in H as (h2 & _ & H).
  apply bind_Ret in H as (r2 & _ & H). apply bind_Ret in H as ([h3 ob3] & _ & H).
  apply bind_Ret in H as (h4 & _ & [= <-]). by exists o, r, trade.
Qed.

Lemma matchLoop_trade_ids fuel best wp executedAt : ∀ st st',
  matchLoop fuel best wp executedAt st = Ret st' →
  Forall (λ t, Trade.ID t = 0) (MatchState.trades st) →
  Forall (λ t, Trade.ID t = 0) (MatchState.trades st').
Proof.
  induction fuel as [|fuel IH]; intros st st'; simpl; [done|].
  intros ([st1|] & Hbody & Hloop)%bind_Ret Hall.
  - apply (IH _ _ Hloop).
    destruct (matchBody_new_trade _ _ _ _ _ Hbody) as (o & r & trade & Htrade & ->).
    apply Forall_app. split; [done|]. apply Forall_singleton.
    by apply executeTrade_qty in Htrade as (_ & ? & _).
  - by injection Hloop as <-.
Qed.

Lemma Match_trade_ids h incomingOrder ob executedAt res ob' h' :
  Match h incomingOrder ob executedAt = Ret (res, ob', h') →
  Forall (λ t, Trade.ID t = 0) (MatchResult.Trades res).
Proof.
  unfold Match, alloc, matchBuyOrder, matchSellOrder.
  intros (st & Hloop & H)%bind_Ret.
  assert (Forall (λ t, Trade.ID t = 0) (MatchState.trades st)) as Hall.
  { destruct (Order.Side incomingOrder);
      by apply (matchLoop_trade_ids _ _ _ _ _ _ Hloop). }
  apply bind_Ret in H as (w & _ & H). destruct (negb _).
  - destruct (Order.Type_ w).
    + by apply bind_Ret in H as (h2 & _ & [= <- _ _]).
    + apply bind_Ret in H as (h2 & _ & H). by apply bind_Ret in H as (h3 & _ & [= <- _ _]).
  - by apply bind_Ret in H as (h2 & _ & [= <- _ _]).
Qed.

(** What a successful [PlaceOrder] went through. *)
Lemma PlaceOrder_success fl now executedAt e req order trades e' :
  PlaceOrder fl now executedAt e req = Ret (inr (order, trades), e') →
  ∃ incoming ob books res ob' h',
    getOrderBook (Engine.orderBooks e) (CreateOrderRequest.Symbol req) = (ob, books)
    ∧ Match (Engine.heap e) incoming ob executedAt = Ret (res, ob', h')
    ∧ trades = MatchResult.Trades res.
Proof.
  unfold PlaceOrder. destruct (fl 0%nat); [done|]. destruct (fl 1%nat); [done|].
  simpl. destruct (fl 2%nat); [done|].
  destruct (getOrderBook _ _) as [ob books] eqn:Hget.
  intros ([[res ob'] h'] & HM & H)%bind_Ret.
  destruct (persistTrades _ _ _ _) as [tx ok]. destruct ok; simpl in H; [|done].
  apply bind_Ret in H as ([tx' failed] & _ & H). destruct failed; [done|].
  apply bind_Ret in H as ([ob'' order'] & _ & H).
  destruct (fl _); [done|]. injection H as <- <- <-.
  by eexists _, ob, books, res, ob', h'.
Qed.

(** C10. Every trade a successful [PlaceOrder] returns has ID 0: the IDs the
    store gave the inserted rows are not read back. *)
Theorem PlaceOrder_returns_trades_without_ids fl now executedAt e req order trades e' :
  PlaceOrder fl now executedAt e req = Ret (inr (order, trades), e') →
  Forall (λ t, Trade.ID t = 0) trades.
Proof.
  intros (incoming & ob & books & res & ob' & h' & _ & HM & ->)%PlaceOrder_success.
  by eapply Match_trade_ids.
Qed.

(** On the one-ask engine a buy of 8 at 50100 trades 5 at 50000 with order 1;
    the store numbers the trade 1, the returned trade carries 0. *)
Lemma PlaceOrder_returns_trades_without_ids_witness :
  ∃ order e',
    PlaceOrder noFaults 1 7 oneAskEngine (buyRequest 50100 8)
    = Ret (inr (order, [Trade.mk 0 "BTCUSD" 2 1 50000 5 7]), e')
    ∧ DB.trades (Engine.db e') = [Trade.mk 1 "BTCUSD" 2 1 50000 5 7]
    ∧ Forall (λ t, Trade.ID t = 0) [Trade.mk 0 "BTCUSD" 2 1 50000 5 7].
Proof.
  eexists _, _. split; [vm_compute; reflexivity|]. split; [reflexivity|].
  eapply (PlaceOrder_returns_trades_without_ids noFaults 1 7 oneAskEngine (buyRequest 50100 8)).
  vm_compute. reflexivity.
Defined.

(** ** No order rests twice *)

Lemma removeFromSide_nodup sd (R : relation Z) `{!∀ x y, Decision (R x y)} h m ps
    orderID k m' ps' b :
  side_inv sd R h m ps → level_nodup m →
  removeFromSide R h m ps orderID k = Ret (m', ps', b) →
  level_nodup m'.
Proof.
  intros Hinv Hnd Hr. pose proof (removeFromSide_spec _ _ _ _ _ _ _ _ _ _ Hinv Hr) as Hs.
  destruct b; [|by destruct Hs as [-> _]].
  destruct Hs as (pl & l1 & p & l2 & o & Hm & Hl & _ & _ & _ & Hcase).
  destruct Hcase as [(_ & -> & _) | (_ & -> & _)]; intros k' pl'.
  - intros [_ Hk']%lookup_delete_Some. by eapply Hnd.
  - destruct (decide (k = k')) as [->|Hne].
    + rewrite lookup_insert_eq. intros [= <-]. simpl.
      specialize (Hnd _ _ Hm). rewrite Hl in Hnd.
      apply NoDup_app in Hnd as (Hn1 & Hdis & Hn2). apply NoDup_cons in Hn2 as [_ Hn2].
      apply NoDup_app. split; [done|]. split; [|done].
      intros x Hx1 Hx2. apply (Hdis x Hx1). by right.
    + rewrite lookup_insert_ne by done. apply Hnd.
Qed.

Lemma removeFromSide_head_gone sd (R : relation Z) `{!∀ x y, Decision (R x y)} h m ps
    k pl p rest o m' ps' b :
  side_inv sd R h m ps → level_nodup m →
  m !! k = Some pl → PriceLevel.Orders pl = p :: rest → h !! p = Some o →
  removeFromSide R h m ps (Order.ID o) k = Ret (m', ps', b) →
  ¬ rests m' p.
Proof.
  intros Hinv Hnd Hm Hl Hp. unfold removeFromSide. rewrite Hm.
  unfold PriceLevel_Remove. rewrite Hl, (removeFirstID_head h p rest o Hp).
  cbn [mbind exec_mbind exec_bind].
  assert (∀ k' pl', k' ≠ k → m !! k' = Some pl' → p ∉ PriceLevel.Orders pl') as Hother.
  { intros k' pl' Hne Hm' Hin.
    destruct (si_orders _ _ _ _ _ Hinv _ _ _ Hm' Hin) as (o1 & Ho1 & (Hpr1 & _)).
    destruct (si_orders _ _ _ _ _ Hinv k pl p Hm) as (o2 & Ho2 & (Hpr2 & _));
      [rewrite Hl; by left|].
    congruence. }
  specialize (Hnd _ _ Hm). rewrite Hl in Hnd. apply NoDup_cons in Hnd as [Hnotin _].
  destruct (PriceLevel_IsEmpty _); intros [= <- _ _] (k' & pl' & Hm' & Hin).
  - apply lookup_delete_Some in Hm' as [Hne Hm']. by eapply (Hother k' pl').
  - destruct (decide (k = k')) as [->|Hne].
    + rewrite lookup_insert_eq in Hm'. injection Hm' as <-. done.
    + rewrite lookup_insert_ne in Hm' by done. by eapply (Hother k' pl').
Qed.

Lemma RemoveOrder_nodup h ob orderID side price ob' b :
  book_inv h ob → book_nodup ob →
  RemoveOrder h ob orderID side price = Ret (ob', b) → book_nodup ob'.
Proof.
  intros [Hb Ha] [Hnb Hna]. destruct price as [k|]; [|by intros [= <- _]].
  destruct side.
  - rewrite RemoveOrder_buy. intros ([[m ps] b'] & Hr & [= <- _])%bind_Ret.
    split; [|done]. simpl. exact (removeFromSide_nodup _ _ _ _ _ _ _ _ _ _ Hb Hnb Hr).
  - rewrite RemoveOrder_sell. intros ([[m ps] b'] & Hr & [= <- _])%bind_Ret.
    split; [done|]. simpl. exact (removeFromSide_nodup _ _ _ _ _ _ _ _ _ _ Ha Hna Hr).
Qed.

Lemma RemoveOrder_best_gone sd h ob p o ob' b :
  book_inv h ob → book_nodup ob →
  bestOpposite sd ob = Some p → h !! p = Some o →
  RemoveOrder h ob (Order.ID o) (Order.Side o) (Order.Price o) = Ret (ob', b) →
  ¬ rests (oppositeLevels sd ob') p.
Proof.
  intros Hinv [Hnb Hna] Hbest Hp.
  destruct (bestOpposite_Some _ _ _ _ Hinv Hbest) as (k & pl & rest & o' & Hm & Hl & Hp' & Hro & _).
  assert (o' = o) as -> by congruence. destruct Hro as (-> & -> & _).
  destruct Hinv as [Hb Ha]. destruct sd; simpl in *.
  - rewrite RemoveOrder_sell. intros ([[m ps] b'] & Hr & [= <- _])%bind_Ret. simpl.
    exact (removeFromSide_head_gone _ _ _ _ _ _ _ _ _ _ _ _ _ Ha Hna Hm Hl Hp Hr).
  - rewrite RemoveOrder_buy. intros ([[m ps] b'] & Hr & [= <- _])%bind_Ret. simpl.
    exact (removeFromSide_head_gone _ _ _ _ _ _ _ _ _ _ _ _ _ Hb Hnb Hm Hl Hp Hr).
Qed.

Lemma side_nodup_add m k p :
  level_nodup m → ¬ rests m p →
  level_nodup (<[k := PriceLevel_Add (levelOrNew m k k) p]> m).
Proof.
  intros Hnd Hfresh k' pl. destruct (decide (k = k')) as [->|Hne].
  - rewrite lookup_insert_eq. intros [= <-]. simpl. unfold levelOrNew.
    destruct (m !! k') as [pl0|] eqn:Hm; simpl; [|apply NoDup_singleton].
    apply NoDup_app. split; [by eapply Hnd|]. split; [|apply NoDup_singleton].
    intros x Hx ->%list_elem_of_singleton. apply Hfresh. by exists k', pl0.
  - rewrite lookup_insert_ne by done. apply Hnd.
Qed.

Lemma AddOrder_nodup h ob p ob' :
  book_nodup ob → ¬ rests (OrderBook.Bids ob) p → ¬ rests (OrderBook.Asks ob) p →
  AddOrder h ob p = Ret ob' → book_nodup ob'.
Proof.
  intros [Hnb Hna] Hfb Hfa. unfold AddOrder. intros (o & _ & H)%bind_Ret.
  destruct (Order.Price o) as [k|]; [|by injection H as <-].
  destruct (Order.Side o); injection H as <-; split; simpl; try done;
    by apply side_nodup_add.
Qed.

Lemma book_nodup_new symbol : book_nodup (NewOrderBook symbol).
Proof. split; intros k pl; simpl; by rewrite lookup_empty. Qed.

Lemma oneAskBook_nodup : book_nodup oneAskBook.
Proof.
  split; intros k pl; simpl.
  - by rewrite lookup_empty.
  - intros [_ <-]%lookup_singleton_Some. simpl. apply NoDup_singleton.
Qed.

Lemma trade_step_nodup sd wp executedAt st st' w r p k trade :
  book_inv (MatchState.heap st) (MatchState.book st) →
  book_nodup (MatchState.book st) →
  trade_step sd wp executedAt st st' w r p k trade →
  book_nodup (MatchState.book st').
Proof.
  intros Hinv Hnd Hts. pose proof (ts_book _ _ _ _ _ _ _ _ _ _ Hts) as Hbook.
  case_bool_decide; [|by rewrite Hbook].
  destruct Hbook as (h3 & Hext & _ & Hrm).
  eapply RemoveOrder_nodup; [|done|exact Hrm]. by eapply book_inv_heap_ext.
Qed.

Lemma match_run_nodup sd wp executedAt st st' :
  match_run sd wp executedAt st st' →
  book_inv (MatchState.heap st) (MatchState.book st) →
  book_nodup (MatchState.book st) → book_nodup (MatchState.book st').
Proof.
  induction 1 as [st | st st' st'' w r p k trade Hbody Hts Hrun IH]; intros Hinv Hnd; [done|].
  destruct (trade_step_progress _ _ _ _ _ _ _ _ _ _ Hinv Hts) as (Hinv' & _).
  apply IH; [done|]. exact (trade_step_nodup _ _ _ _ _ _ _ _ _ _ Hinv Hnd Hts).
Qed.

(** ** Books are never crossed *)

Lemma uncrossed_sub ob' ob : book_sub ob' ob → uncrossed ob → uncrossed ob'.
Proof.
  intros (_ & [Hb _] & [Ha _]) Hu kb ka Hkb Hka. apply Hu; eauto.
Qed.

(** What [Match] returns on a book that satisfies the invariant. *)
Lemma Match_spec h incomingOrder ob executedAt :
  book_inv h ob →
  ∃ res ob' h',
    Match h incomingOrder ob executedAt = Ret (res, ob', h')
    ∧ book_inv h' ob' ∧ heap_ext h h' ∧ book_sub ob' ob
    ∧ (book_nodup ob → book_nodup ob')
    ∧ (∀ p, p ∈ MatchResult.UpdatedOrders res → is_Some (h' !! p))
    ∧ match MatchResult.IncomingOrderLeft res with
      | None => True
      | Some leftover =>
          ∃ w, h' !! leftover = Some w
               ∧ ¬ rests (OrderBook.Bids ob') leftover
               ∧ ¬ rests (OrderBook.Asks ob') leftover
               ∧ Order.Type_ w = OrderTypeLimit
               ∧ Order.Side w = Order.Side incomingOrder
               ∧ Order.Price w = Order.Price incomingOrder
               ∧ ∀ k, Order.Price w = Some k →
                      beats_opposite (Order.Side incomingOrder) k ob'
      end.
Proof.
  intros Hinv.
  assert (book_inv (h ++ [incomingOrder]) ob) as Hinv0
    by (eapply book_inv_heap_ext; [apply heap_ext_app | done]).
  destruct (Match_run h incomingOrder ob executedAt Hinv)
    as (st & q & Hloop & Hrun & [Hw Hexit] & Hinv' & HM).
  destruct (match_run_inv _ _ _ _ _ Hrun Hinv0) as (_ & Hext & Hsub & Hlen).
  destruct (match_run_updated _ _ _ _ _ Hrun Hinv0) as (l & Hl & Hall). simpl in Hl, Hsub, Hext.
  set (wp := length h) in *. set (w := Order.setRemainingQuantity q incomingOrder) in *.
  assert (wp < length (MatchState.heap st))%nat as Hlt by (by eapply lookup_lt_Some).
  assert (∀ f, keeps_identity f →
            heap_ext h (<[wp := f w]> (MatchState.heap st))
            ∧ book_inv (<[wp := f w]> (MatchState.heap st)) (MatchState.book st)) as Hfin.
  { intros f Hf.
    assert (heap_ext (MatchState.heap st) (<[wp := f w]> (MatchState.heap st))) as He
      by (by apply heap_ext_insert).
    split; [|by eapply book_inv_heap_ext].
    eapply heap_ext_trans; [apply (heap_ext_app h [incomingOrder])|].
    by eapply heap_ext_trans. }
  assert (heap_ext h (MatchState.heap st)) as Hext0
    by (eapply heap_ext_trans; [apply (heap_ext_app h [incomingOrder]) | done]).
  assert (∀ p, p ∈ MatchState.updated st → is_Some (MatchState.heap st !! p)) as Hupd.
  { intros p Hp. rewrite Hl in Hp. destruct (Hall p Hp) as [_ (k & pl & Hm & Hin)].
    assert (∃ o, h !! p = Some o) as [o Ho].
    { destruct Hinv as [Hb Ha]. destruct (Order.Side incomingOrder); simpl in Hm.
      - destruct (si_orders _ _ _ _ _ Ha _ _ _ Hm Hin) as (o & ? & _). eauto.
      - destruct (si_orders _ _ _ _ _ Hb _ _ _ Hm Hin) as (o & ? & _). eauto. }
    destruct (Hext0 p o Ho) as (o' & -> & _). by eexists. }
  assert (∀ x p, p ∈ MatchState.updated st ++ [wp] →
            is_Some (<[wp := x]> (MatchState.heap st) !! p)) as Hupd'.
  { intros x p Hp. apply lookup_lt_is_Some. rewrite length_insert.
    apply elem_of_app in Hp as [Hp | ->%list_elem_of_singleton]; [|done].
    by apply lookup_lt_is_Some, Hupd. }
  assert (book_nodup ob → book_nodup (MatchState.book st)) as Hnodup.
  { intros Hnd. exact (match_run_nodup _ _ _ _ _ Hrun Hinv0 Hnd). }
  assert (¬ rests (OrderBook.Bids (MatchState.book st)) wp
          ∧ ¬ rests (OrderBook.Asks (MatchState.book st)) wp) as [Hfb Hfa].
  { destruct Hsub as (_ & [_ Hsb] & [_ Hsa]). destruct Hinv as [Hb Ha].
    split; intros Hr.
    - destruct (Hsb _ Hr) as (k & pl & Hm & Hin).
      destruct (si_orders _ _ _ _ _ Hb _ _ _ Hm Hin) as (o & Ho%lookup_lt_Some & _).
      unfold wp in Ho. lia.
    - destruct (Hsa _ Hr) as (k & pl & Hm & Hin).
      destruct (si_orders _ _ _ _ _ Ha _ _ _ Hm Hin) as (o & Ho%lookup_lt_Some & _).
      unfold wp in Ho. lia. }
  destruct (finalize wp st w) as [[res ob'] h'] eqn:Hfinal.
  exists res, ob', h'. split; [done|]. unfold finalize in Hfinal.
  assert (Order.RemainingQuantity w = q) as Hq by done. rewrite Hq in Hfinal.
  case_bool_decide as Hz.
  { injection Hfinal as <- <- <-. simpl.
    destruct (Hfin (Order.setStatus OrderStatusFilled)) as [? ?]; [auto with engine|].
    split; [done|]. split; [done|]. split; [done|]. split; [done|].
    split; [apply Hupd' | done]. }
  destruct (Order.Type_ w) eqn:Hty; injection Hfinal as <- <- <-; simpl.
  2:{ destruct (Hfin (λ o, Order.setRemainingQuantity 0 (Order.setStatus OrderStatusCanceled o)))
        as [? ?]; [intros o; by destruct o|].
      split; [done|]. split; [done|]. split; [done|]. split; [done|].
      split; [apply Hupd' | done]. }
  assert (∀ k, Order.Price incomingOrder = Some k →
            beats_opposite (Order.Side incomingOrder) k (MatchState.book st)) as Hbeats.
  { intros k Hk k' Hk'. destruct Hexit as [?|[Hnone | (p & r & Hbest & Hr & Hcan)]]; [done| |].
    - rewrite (bestOpposite_None _ _ _ Hinv' Hnone k') in Hk'. by destruct Hk'.
    - destruct (bestOpposite_Some _ _ _ _ Hinv' Hbest)
        as (k0 & pl & rest & r' & _ & _ & Hr' & (Hpr & _) & Hbetter).
      assert (r' = r) as -> by congruence. specialize (Hbetter k' Hk').
      unfold canMatch in Hcan. rewrite Hty, Hpr in Hcan.
      replace (Order.Price w) with (Some k) in Hcan by (by rewrite <- Hk).
      replace (Order.Side w) with (Order.Side incomingOrder) in Hcan by done.
      destruct (Order.Side incomingOrder); apply bool_decide_eq_false_1 in Hcan;
        simpl in Hbetter; lia. }
  case_bool_decide.
  - destruct (Hfin (Order.setStatus OrderStatusPartiallyFilled)) as [? ?]; [auto with engine|].
    split; [done|]. split; [done|]. split; [done|]. split; [done|]. split.
    { intros p Hp. apply lookup_lt_is_Some. rewrite length_insert.
      by apply lookup_lt_is_Some, Hupd. }
    eexists. rewrite list_lookup_insert_eq by done. split; [done|].
    split; [done|]. split; [done|]. by repeat split.
  - split; [done|]. split; [done|]. split; [done|]. split; [done|]. split; [done|].
    exists w. split; [done|]. split; [done|]. split; [done|]. by repeat split.
Qed.

(** ** The engine keeps its books well formed and uncrossed *)

Lemma engine_inv_new db : engine_inv (NewEngine db).
Proof. split; intros s ob; simpl; by rewrite lookup_empty. Qed.

Lemma engine_inv_db e db : engine_inv e → engine_inv (Engine.mk db (Engine.orderBooks e) (Engine.heap e)).
Proof. done. Qed.

Lemma uncrossed_new symbol : uncrossed (NewOrderBook symbol).
Proof. intros kb ka [? Hkb]. simpl in Hkb. by rewrite lookup_empty in Hkb. Qed.

Lemma book_sound_new symbol : book_sound (NewOrderBook symbol).
Proof. split; [apply uncrossed_new | apply book_nodup_new]. Qed.

Lemma getOrderBook_sound books symbol ob books' :
  (∀ s b, books !! s = Some b → book_sound b) →
  getOrderBook books symbol = (ob, books') →
  book_sound ob ∧ ∀ s b, books' !! s = Some b → book_sound b.
Proof.
  intros Hu. unfold getOrderBook. destruct (books !! symbol) as [ob0|] eqn:Hb.
  - intros [= <- <-]. split; [by eapply Hu | done].
  - intros [= <- <-]. split; [apply book_sound_new|].
    intros s b. destruct (decide (s = symbol)) as [->|Hne].
    + rewrite lookup_insert_eq. intros [= <-]. apply book_sound_new.
    + rewrite lookup_insert_ne by done. apply Hu.
Qed.

(** Putting a book back under its symbol, on a heap that has grown. *)
Lemma engine_inv_withBook db books symbol ob h h' :
  books_inv h books → (∀ s b, books !! s = Some b → book_sound b) →
  heap_ext h h' → book_inv h' ob → book_sound ob →
  engine_inv (withBook db books symbol ob h').
Proof.
  intros Hinv Hu Hext Hob Huo. split; intros s b; simpl;
    (destruct (decide (s = symbol)) as [->|Hne];
     [rewrite lookup_insert_eq; intros [= <-] | rewrite lookup_insert_ne by done]);
    try done.
  - intros Hb. eapply book_inv_heap_ext; [done|]. by eapply Hinv.
  - apply Hu.
Qed.

(** An order that beats the opposite side can join an uncrossed book. *)
Lemma AddOrder_uncrossed h ob p o ob' :
  book_inv h ob → uncrossed ob → h !! p = Some o → Order.Type_ o = OrderTypeLimit →
  (∀ k, Order.Price o = Some k → beats_opposite (Order.Side o) k ob) →
  AddOrder h ob p = Ret ob' →
  book_inv h ob' ∧ uncrossed ob'.
Proof.
  intros Hinv Hu Hp Hty Hbeats Hadd.
  destruct (AddOrder_inv h ob p o Hinv Hp Hty) as (ob2 & Hadd2 & Hinv2 & _ & Hb & Ha & _).
  assert (ob2 = ob') as -> by congruence. split; [done|].
  intros kb ka Hkb Hka. apply Hb in Hkb. apply Ha in Hka.
  destruct Hkb as [[Hpr Hsd]|Hkb], Hka as [[Hpr' Hsd']|Hka].
  - congruence.
  - specialize (Hbeats kb Hpr ka). rewrite Hsd in Hbeats. by apply Hbeats.
  - specialize (Hbeats ka Hpr' kb). rewrite Hsd' in Hbeats. by apply Hbeats.
  - by apply Hu.
Qed.

Lemma persistTrades_faults fl trades : ∀ n tx tx' ok,
  persistTrades fl n tx trades = (tx', ok) →
  if ok then ∀ i, (i < length trades)%nat → fl (n + i)%nat = false
  else ∃ i, (i < length trades)%nat ∧ fl (n + i)%nat = true.
Proof.
  induction trades as [|t rest IH]; intros n tx tx' ok; simpl.
  - intros [= <- <-]. intros i Hi. lia.
  - destruct (fl n) eqn:Hfl.
    + intros [= <- <-]. exists 0%nat. split; [lia|]. by rewrite Nat.add_0_r.
    + intros Hrest. specialize (IH _ _ _ _ Hrest). destruct ok.
      * intros [|i] Hi; [by rewrite Nat.add_0_r|].
        replace (n + S i)%nat with (S n + i)%nat by lia. apply IH. lia.
      * destruct IH as (i & Hi & Hfi). exists (S i). split; [lia|].
        by replace (n + S i)%nat with (S n + i)%nat by lia.
Qed.

Lemma persistUpdates_faults fl (h : list Order.t) updated : ∀ n tx,
  (∀ p, p ∈ updated → is_Some (h !! p)) →
  ∃ tx' failed,
    persistUpdates fl n tx h updated = Ret (tx', failed)
    ∧ match failed with
      | None => ∀ i, (i < length updated)%nat → fl (n + i)%nat = false
      | Some _ => ∃ i, (i < length updated)%nat ∧ fl (n + i)%nat = true
      end.
Proof.
  induction updated as [|p rest IH]; intros n tx Hall; simpl.
  - eexists _, None. split; [done|]. intros i Hi. lia.
  - destruct (Hall p) as [o Ho]; [by left|].
    rewrite (proj2 (deref_Ret _ _ _) Ho). simpl. destruct (fl n) eqn:Hfl.
    + eexists _, (Some _). split; [done|]. exists 0%nat. split; [lia|].
      by rewrite Nat.add_0_r.
    + destruct (IH (S n) (execUpdateOrder tx (Order.RemainingQuantity o) (Order.Status o)
                            (Order.UpdatedAt o) (Order.ID o)))
        as (tx' & failed & -> & Hf); [intros q Hq; apply Hall; by right|].
      exists tx', failed. split; [done|]. destruct failed.
      * destruct Hf as (i & Hi & Hfi). exists (S i). split; [lia|].
        by replace (n + S i)%nat with (S n + i)%nat by lia.
      * intros [|i] Hi; [by rewrite Nat.add_0_r|].
        replace (n + S i)%nat with (S n + i)%nat by lia. apply Hf. lia.
Qed.

Lemma findUpdated_total (h : list Order.t) updated id :
  (∀ p, p ∈ updated → is_Some (h !! p)) → ∃ u, findUpdated h updated id = Ret u.
Proof.
  induction updated as [|p rest IH]; intros Hall; simpl; [by eexists|].
  destruct (Hall p) as [o Ho]; [by left|].
  rewrite (proj2 (deref_Ret _ _ _) Ho). simpl. case_bool_decide; [by eexists|].
  apply IH. intros q Hq. apply Hall. by right.
Qed.

Arguments Match : simpl never.
Arguments persistTrades : simpl never.
Arguments persistUpdates : simpl never.
Arguments findUpdated : simpl never.

(** Everything [PlaceOrder] can do on an engine that satisfies the invariant:
    it returns, the invariant holds afterwards, and the result tells how far
    it got. *)
Lemma PlaceOrder_outcome fl now executedAt e req :
  engine_inv e →
  let symbol := CreateOrderRequest.Symbol req in
  let incoming := Order.setID (DB.lastOrderID (Engine.db e) + 1) (newOrder now req) in
  ∃ ob books res ob' h',
    getOrderBook (Engine.orderBooks e) symbol = (ob, books)
    ∧ Match (Engine.heap e) incoming ob executedAt = Ret (res, ob', h')
    ∧ ∃ result e',
        PlaceOrder fl now executedAt e req = Ret (result, e')
        ∧ engine_inv e'
        ∧ match result with
          | inr (order, trades) =>
              trades = MatchResult.Trades res
              ∧ Engine.heap e' = h'
              ∧ ∀ n, (n < 4 + length (MatchResult.Trades res)
                          + length (MatchResult.UpdatedOrders res))%nat → fl n = false
          | inl err =>
              same_tables (Engine.db e) (Engine.db e')
              ∧ match err with
                | ErrBeginTransaction | ErrInsertOrder | ErrGetOrderID =>
                    Engine.orderBooks e' = Engine.orderBooks e
                    ∧ Engine.heap e' = Engine.heap e
                    ∧ ∃ n, (n < 3)%nat ∧ fl n = true
                | ErrInsertTrade | ErrUpdateOrder _ =>
                    Engine.orderBooks e' = <[symbol := ob']> books
                    ∧ Engine.heap e' = h'
                    ∧ ∃ n, (3 ≤ n < 3 + length (MatchResult.Trades res)
                                    + length (MatchResult.UpdatedOrders res))%nat
                           ∧ fl n = true
                | ErrCommit =>
                    Engine.heap e' = h'
                    ∧ fl (3 + length (MatchResult.Trades res)
                            + length (MatchResult.UpdatedOrders res))%nat = true
                | _ => False
                end
          end.
Proof.
  intros [Hb Hu] symbol incoming.
  destruct (getOrderBook (Engine.orderBooks e) symbol) as [ob books] eqn:Hget.
  destruct (getOrderBook_inv _ _ _ _ _ Hb Hget) as (Hob & Hbooks & _ & _).
  destruct (getOrderBook_sound _ _ _ _ Hu Hget) as ([Huob Hndob] & Hubooks).
  destruct (Match_spec (Engine.heap e) incoming ob executedAt Hob)
    as (res & ob' & h' & HM & Hinv' & Hext & Hsub & Hnd' & Hupd & Hleft).
  assert (book_sound ob') as Hu' by (split; [by eapply uncrossed_sub | by apply Hnd']).
  exists ob, books, res, ob', h'. split; [done|]. split; [done|].
  unfold PlaceOrder. fold symbol.
  destruct (fl 0%nat) eqn:Hf0.
  { eexists _, e. split; [done|]. split; [done|]. split; [done|].
    split; [done|]. split; [done|]. exists 0%nat. split; [lia | done]. }
  destruct (fl 1%nat) eqn:Hf1.
  { eexists _, e. split; [done|]. split; [done|]. split; [done|].
    split; [done|]. split; [done|]. exists 1%nat. split; [lia | done]. }
  cbn [mbind exec_mbind exec_bind negb execInsertOrder]. destruct (fl 2%nat) eqn:Hf2.
  { eexists _, _. split; [done|]. split; [done|]. split; [done|].
    split; [done|]. split; [done|]. exists 2%nat. split; [lia | done]. }
  rewrite Hget. fold incoming. rewrite HM. cbn [mbind exec_mbind exec_bind negb].
  destruct (persistTrades fl 3 _ (MatchResult.Trades res)) as [tx ok] eqn:Htrades.
  pose proof (persistTrades_faults _ _ _ _ _ _ Htrades) as Hft.
  assert (engine_inv (withBook (rollback (Engine.db e) tx) books symbol ob' h')) as Hafter.
  { by eapply engine_inv_withBook. }
  destruct ok; cbn [mbind exec_mbind exec_bind negb].
  2:{ destruct Hft as (i & Hi & Hfi).
      eexists _, _. split; [done|]. split; [exact Hafter|]. split; [done|].
      split; [done|]. split; [done|]. exists (3 + i)%nat. split; [lia | done]. }
  destruct (persistUpdates_faults fl h' (MatchResult.UpdatedOrders res)
              (3 + length (MatchResult.Trades res)) tx Hupd)
    as (tx' & failed & -> & Hfu). cbn [mbind exec_mbind exec_bind negb].
  destruct failed as [id|].
  { destruct Hfu as (i & Hi & Hfi).
    eexists _, _. split; [done|]. split; [by eapply engine_inv_withBook|]. split; [done|].
    split; [done|]. split; [done|].
    exists (3 + length (MatchResult.Trades res) + i)%nat. split; [lia | done]. }
  assert (∃ ob'' order,
            match MatchResult.IncomingOrderLeft res with
            | Some leftover =>
                AddOrder h' ob' leftover ≫= λ orderBook,
                  deref h' leftover ≫= λ o, Ret (orderBook, o)
            | None =>
                findUpdated h' (MatchResult.UpdatedOrders res) (Order.ID incoming)
                ≫= λ u, Ret (ob', default incoming u)
            end = Ret (ob'', order)
            ∧ book_inv h' ob'' ∧ book_sound ob'') as (ob'' & order & -> & Hinv'' & Hu'').
  { destruct (MatchResult.IncomingOrderLeft res) as [leftover|].
    - destruct Hleft as (w & Hw & Hfb & Hfa & Hty & Hsd & Hpr & Hbeats).
      destruct (AddOrder_inv h' ob' leftover w Hinv' Hw Hty) as (ob'' & Hadd & _).
      rewrite Hadd. cbn [mbind exec_mbind exec_bind negb].
      rewrite (proj2 (deref_Ret _ _ _) Hw). cbn [mbind exec_mbind exec_bind negb].
      exists ob'', w. split; [done|]. destruct Hu' as [Hu1 Hu2].
      destruct (AddOrder_uncrossed h' ob' leftover w ob'' Hinv' Hu1 Hw Hty) as [? ?];
        [intros k Hk; rewrite Hsd; by apply Hbeats | done |].
      split; [done|]. split; [done|]. by eapply AddOrder_nodup.
    - destruct (findUpdated_total h' (MatchResult.UpdatedOrders res) (Order.ID incoming) Hupd)
        as [u ->]. cbn [mbind exec_mbind exec_bind negb]. by eexists _, _. }
  cbn [mbind exec_mbind exec_bind negb].
  destruct (fl (3 + length (MatchResult.Trades res)
                + length (MatchResult.UpdatedOrders res))%nat) eqn:Hfc.
  { eexists _, _. split; [done|]. split; [by eapply engine_inv_withBook|]. by split. }
  eexists _, _. split; [done|]. split; [by eapply engine_inv_withBook|].
  split; [done|]. split; [done|]. intros n Hn.
  destruct (decide (n < 3)%nat).
  { destruct n as [|[|[|n]]]; try done. lia. }
  destruct (decide (n < 3 + length (MatchResult.Trades res))%nat).
  { replace n with (3 + (n - 3))%nat by lia. apply Hft. lia. }
  destruct (decide (n < 3 + length (MatchResult.Trades res)
                        + length (MatchResult.UpdatedOrders res))%nat).
  { replace n with (3 + length (MatchResult.Trades res)
                    + (n - (3 + length (MatchResult.Trades res))))%nat by lia.
    apply Hfu. lia. }
  replace n with (3 + length (MatchResult.Trades res)
                  + length (MatchResult.UpdatedOrders res))%nat by lia. done.
Qed.

Lemma CancelOrder_outcome fl now e orderID :
  engine_inv e →
  ∃ result e', CancelOrder fl now e orderID = Ret (result, e') ∧ engine_inv e'.
Proof.
  intros Hinv. pose proof Hinv as [Hb Hu]. unfold CancelOrder.
  destruct (GetOrder (fl 0%nat) (Engine.db e) orderID) as [err|order]; [by eexists _, _|].
  repeat (case_bool_decide; [by eexists _, _|]).
  destruct (fl 1%nat); [by eexists _, _|]. destruct (fl 2%nat); [by eexists _, _|].
  destruct (DB.orders (Engine.db e) !! orderID) as [row|]; [|by eexists _, _].
  destruct (_ || _); [by eexists _, _|].
  case_bool_decide; [by eexists _, _|]. destruct (fl 3%nat); [by eexists _, _|].
  destruct (getOrderBook (Engine.orderBooks e) (Order.Symbol order)) as [ob books] eqn:Hget.
  destruct (getOrderBook_inv _ _ _ _ _ Hb Hget) as (Hob & Hbooks & _ & _).
  destruct (getOrderBook_sound _ _ _ _ Hu Hget) as ([Huob Hndob] & Hubooks).
  assert (∃ ob', match Order.Price order with
                 | Some _ =>
                     RemoveOrder (Engine.heap e) ob orderID (Order.Side order) (Order.Price order)
                     ≫= λ '(ob0, _), Ret ob0
                 | None => Ret ob
                 end = Ret ob' ∧ book_inv (Engine.heap e) ob' ∧ book_sound ob')
    as (ob' & -> & Hob' & Hu').
  { destruct (Order.Price order) as [k|] eqn:Hpr; [|by exists ob].
    destruct (RemoveOrder_total (Engine.heap e) ob orderID (Order.Side order) (Some k) Hob)
      as [[ob' b] Hrm].
    rewrite Hrm. exists ob'. split; [done|].
    destruct (RemoveOrder_inv _ _ _ _ _ _ _ Hob Hrm) as (? & Hsub & _).
    split; [done|]. split; [by eapply uncrossed_sub|].
    exact (RemoveOrder_nodup _ _ _ _ _ _ _ Hob Hndob Hrm). }
  cbn [mbind exec_mbind exec_bind].
  destruct (fl 4%nat); eexists _, _; (split; [done|]);
    eapply engine_inv_withBook; eauto using heap_ext_refl.
Qed.

Lemma runOps_inv ops : ∀ e,
  engine_inv e → ∃ e', runOps e ops = Ret e' ∧ engine_inv e'.
Proof.
  induction ops as [|op rest IH]; intros e Hinv; simpl; [by exists e|].
  assert (∃ e1, runOp e op = Ret e1 ∧ engine_inv e1) as (e1 & -> & Hinv1).
  { destruct op as [fl now executedAt req | fl now orderID]; simpl.
    - destruct (PlaceOrder_outcome fl now executedAt e req Hinv)
        as (_ & _ & _ & _ & _ & _ & _ & result & e1 & -> & Hinv1 & _). by exists e1.
    - destruct (CancelOrder_outcome fl now e orderID Hinv) as (result & e1 & -> & Hinv1).
      by exists e1. }
  simpl. by apply IH.
Qed.

(** C5. Whatever orders are placed and canceled, with whatever store
    failures, starting from an engine without books: the run goes through,
    and in every book that has a best bid and a best ask the best bid's price
    is strictly below the best ask's. *)
Theorem book_never_crossed db ops :
  ∃ e, runOps (NewEngine db) ops = Ret e
       ∧ ∀ symbol ob pb pa bid ask,
           Engine.orderBooks e !! symbol = Some ob →
           GetBestBid ob = Some pb → GetBestAsk ob = Some pa →
           Engine.heap e !! pb = Some bid → Engine.heap e !! pa = Some ask →
           ∃ bidPrice askPrice,
             Order.Price bid = Some bidPrice ∧ Order.Price ask = Some askPrice
             ∧ bidPrice < askPrice.
Proof.
  destruct (runOps_inv ops (NewEngine db) (engine_inv_new db)) as (e & Hrun & Hb & Hu).
  exists e. split; [done|]. intros symbol ob pb pa bid ask Hob Hbid Hask Hpb Hpa.
  specialize (Hb _ _ Hob). destruct (Hu _ _ Hob) as [Hu' _].
  destruct (bestOpposite_Some OrderSideSell _ _ _ Hb Hbid)
    as (kb & plb & ? & bid' & Hmb & _ & Hpb' & (Hprb & _) & _).
  destruct (bestOpposite_Some OrderSideBuy _ _ _ Hb Hask)
    as (ka & pla & ? & ask' & Hma & _ & Hpa' & (Hpra & _) & _).
  simpl in Hmb, Hma. assert (bid' = bid) as -> by congruence.
  assert (ask' = ask) as -> by congruence.
  exists kb, ka. split; [done|]. split; [done|]. apply Hu'; by eexists.
Qed.

(** A run that leaves a book with both a best bid and a best ask. *)
Example book_with_both_sides :
  ∃ e ob, runOps (NewEngine (DB.mk ∅ [] 0 0))
            [OpPlaceOrder noFaults 0 0 (sellRequest 50000 5);
             OpPlaceOrder noFaults 1 1 (buyRequest 49000 3)] = Ret e
          ∧ Engine.orderBooks e !! "BTCUSD" = Some ob
          ∧ GetBestBid ob = Some 1%nat ∧ GetBestAsk ob = Some 0%nat
          ∧ (Order.Price <$> Engine.heap e !! 1%nat) = Some (Some 49000)
          ∧ (Order.Price <$> Engine.heap e !! 0%nat) = Some (Some 50000).
Proof.
  eexists _, _. split; [vm_compute; reflexivity|]. split; [reflexivity|].
  repeat split.
Qed.

(** ** Store failures inside [PlaceOrder] *)

(** C1.  [PlaceOrder] is documented as processing an order atomically, and
    the README says that if any step fails the entire operation is rolled
    back.  The code rolls back the transaction only.  On the engine with one
    resting ask (order 1, 5 @ 50000), which is the engine a new engine
    becomes when a sell of 5 @ 50000 is placed, a buy of 8 @ 50100 whose first trade
    insert fails (statement 3 of the call: after [Begin], the insert of the
    incoming order and the read of its ID) returns [ErrInsertTrade] with the
    tables of the store as before the call, but [Match] has run before the
    insert: the book of the symbol has lost its best ask and is empty, and
    the resting order, Open before the call and still Open in the store, is
    Filled in memory.  The same book is left when the update of the resting
    order fails (statement 4).  When the commit fails (statement 5) the book
    has lost its ask and has gained the leftover of the incoming order as
    its best bid, an order of which the store has no row. *)
Lemma trade_insert_failure_leaves_book_mutated :
  runOps (NewEngine (DB.mk ∅ [] 0 0)) [OpPlaceOrder noFaults 0 0 (sellRequest 50000 5)]
  = Ret oneAskEngine
  ∧ ∃ e', PlaceOrder (failAt 3) 1 7 oneAskEngine (buyRequest 50100 8)
        = Ret (inl ErrInsertTrade, e')
    ∧ same_tables (Engine.db oneAskEngine) (Engine.db e')
    ∧ Engine.orderBooks oneAskEngine !! "BTCUSD" = Some oneAskBook
    ∧ GetBestAsk oneAskBook = Some 0%nat
    ∧ Engine.orderBooks e' !! "BTCUSD" = Some emptiedBook
    ∧ GetBestAsk emptiedBook = None
    ∧ (Order.Status <$> Engine.heap oneAskEngine !! 0%nat) = Some OrderStatusOpen
    ∧ (Order.Status <$> Engine.heap e' !! 0%nat) = Some OrderStatusFilled
    ∧ (Order.Status <$> DB.orders (Engine.db e') !! 1) = Some OrderStatusOpen
    ∧ (∃ e4, PlaceOrder (failAt 4) 1 7 oneAskEngine (buyRequest 50100 8)
             = Ret (inl (ErrUpdateOrder 1), e4)
         ∧ same_tables (Engine.db oneAskEngine) (Engine.db e4)
         ∧ Engine.orderBooks e4 !! "BTCUSD" = Some emptiedBook)
    ∧ ∃ e5 ob5, PlaceOrder (failAt 5) 1 7 oneAskEngine (buyRequest 50100 8)
                = Ret (inl ErrCommit, e5)
        ∧ same_tables (Engine.db oneAskEngine) (Engine.db e5)
        ∧ Engine.orderBooks e5 !! "BTCUSD" = Some ob5
        ∧ GetBestAsk ob5 = None
        ∧ GetBestBid ob5 = Some 1%nat
        ∧ (Order.ID <$> Engine.heap e5 !! 1%nat) = Some 2
        ∧ DB.orders (Engine.db e5) !! 2 = None.
Proof.
  split; [vm_compute; reflexivity|].
  eexists. split; [vm_compute; reflexivity|]. repeat split.
  - eexists. split; [vm_compute; reflexivity|]. repeat split.
  - eexists _, _. split; [vm_compute; reflexivity|]. repeat split.
Qed.

(** What an error of [PlaceOrder] leaves behind, by the error returned.  On
    an engine that satisfies the invariant [PlaceOrder] returns.  If it
    returns without error, no statement up to and including
    the commit failed.  If it returns an error, the tables of the store are
    those from before the call.  When the error comes from [Begin], from the
    insert of the incoming order or from reading its ID, books and orders in
    memory are as before the call.  When it comes from the insert of a trade
    or the update of an order, books and orders in memory are as [Match] left
    them: the book of the symbol is the one [Match] returned, without the
    leftover of the incoming order. *)
Theorem PlaceOrder_failure_rolls_back_store fl now executedAt e req :
  engine_inv e →
  let symbol := CreateOrderRequest.Symbol req in
  let incoming := Order.setID (DB.lastOrderID (Engine.db e) + 1) (newOrder now req) in
  ∃ ob books res ob' h' result e',
    getOrderBook (Engine.orderBooks e) symbol = (ob, books)
    ∧ Match (Engine.heap e) incoming ob executedAt = Ret (res, ob', h')
    ∧ PlaceOrder fl now executedAt e req = Ret (result, e')
    ∧ ((∃ n, (n < 3 + length (MatchResult.Trades res)
                  + length (MatchResult.UpdatedOrders res))%nat ∧ fl n = true) →
       ∃ err, result = inl err)
    ∧ ∀ err, result = inl err →
        same_tables (Engine.db e) (Engine.db e')
        ∧ (err = ErrBeginTransaction ∨ err = ErrInsertOrder ∨ err = ErrGetOrderID →
           Engine.orderBooks e' = Engine.orderBooks e ∧ Engine.heap e' = Engine.heap e)
        ∧ (err = ErrInsertTrade ∨ (∃ id, err = ErrUpdateOrder id) →
           Engine.orderBooks e' = <[symbol := ob']> books ∧ Engine.heap e' = h').
Proof.
  intros Hinv symbol incoming.
  destruct (PlaceOrder_outcome fl now executedAt e req Hinv)
    as (ob & books & res & ob' & h' & Hget & HM & result & e' & HP & _ & Hres).
  exists ob, books, res, ob', h', result, e'. split; [done|]. split; [done|]. split; [done|].
  split.
  - intros (n & Hn & Hfl). destruct result as [err|[order trades]]; [by exists err|].
    destruct Hres as (_ & _ & Hnone). rewrite Hnone in Hfl by lia. done.
  - intros err ->. destruct Hres as [Htables Herr]. split; [done|]. split.
    + intros [->|[->| ->]]; by destruct Herr as (? & ? & _).
    + intros [->|[id ->]]; by destruct Herr as (? & ? & _).
Qed.

Lemma PlaceOrder_failure_rolls_back_store_witness :
  engine_inv oneAskEngine
  ∧ ∃ e', PlaceOrder (failAt 3) 1 7 oneAskEngine (buyRequest 50100 8)
          = Ret (inl ErrInsertTrade, e')
      ∧ same_tables (Engine.db oneAskEngine) (Engine.db e')
      ∧ Engine.orderBooks e' = <["BTCUSD" := emptiedBook]> (Engine.orderBooks oneAskEngine).
Proof.
  assert (engine_inv oneAskEngine) as Hinv.
  { split; [exact oneAskEngine_inv|]. intros s ob. simpl.
    intros [<- <-]%lookup_singleton_Some. split; [|exact oneAskBook_nodup].
    intros kb ka [? Hkb]. simpl in Hkb. by rewrite lookup_empty in Hkb. }
  split; [exact Hinv|].
  destruct (PlaceOrder_failure_rolls_back_store (failAt 3) 1 7 oneAskEngine
              (buyRequest 50100 8) Hinv)
    as (ob & books & res & ob' & h' & result & e' & Hget & HM & HP & _ & Herr).
  injection Hget as <- <-.
  assert (ob' = emptiedBook) as ->.
  { vm_compute in HM. by injection HM as _ <- _. }
  assert (result = inl ErrInsertTrade) as ->.
  { vm_compute in HP. by injection HP as <- _. }
  exists e'. split; [exact HP|].
  destruct (Herr ErrInsertTrade eq_refl) as (Htables & _ & Hbook).
  split; [exact Htables|]. destruct Hbook as [Hbooks _]; [by left | exact Hbooks].
Defined.

(** ** [CancelOrder] *)

Lemma CancelOrder_success fl now e orderID order e' :
  CancelOrder fl now e orderID = Ret (inr order, e') →
  ∃ row, DB.orders (Engine.db e) !! orderID = Some row
         ∧ (Order.Status row = OrderStatusOpen
            ∨ Order.Status row = OrderStatusPartiallyFilled)
         ∧ Order.RemainingQuantity row ≠ 0
         ∧ DB.orders (Engine.db e') !! orderID
           = Some (Order.setUpdatedAt now
                     (Order.setStatus OrderStatusCanceled
                        (Order.setRemainingQuantity 0 row))).
Proof.
  unfold CancelOrder, GetOrder. destruct (fl 0%nat); [done|].
  destruct (DB.orders (Engine.db e) !! orderID) as [row|] eqn:Hrow; [|done].
  case_bool_decide as Hfilled; [done|]. case_bool_decide as Hcanceled; [done|].
  case_bool_decide as Hrem; [done|].
  destruct (fl 1%nat); [done|]. destruct (fl 2%nat); [done|].
  cbn [orb]. destruct (fl 3%nat); [done|].
  destruct (getOrderBook _ _) as [ob books].
  intros (ob' & _ & H)%bind_Ret. destruct (fl 4%nat); [done|]. injection H as _ <-.
  exists row. split; [done|]. split; [by destruct (Order.Status row); auto|].
  split; [done|]. simpl. by rewrite lookup_alter_eq, Hrow.
Qed.

(** C6. [CancelOrder] succeeds only on an order that the store has as Open
    or PartiallyFilled with a positive remaining quantity.  On an order that
    is Filled or Canceled or has nothing remaining it returns an error and
    leaves the engine (store, books, orders) as it was; the error is a
    conflict whenever the store could be read.  After a successful cancel,
    canceling the same ID again fails in that way, with "already canceled". *)
Theorem CancelOrder_only_live_orders fl now e orderID :
  (∀ row, DB.orders (Engine.db e) !! orderID = Some row →
          0 ≤ Order.RemainingQuantity row) →
  (∀ order e', CancelOrder fl now e orderID = Ret (inr order, e') →
     ∃ row, DB.orders (Engine.db e) !! orderID = Some row
            ∧ (Order.Status row = OrderStatusOpen
               ∨ Order.Status row = OrderStatusPartiallyFilled)
            ∧ 0 < Order.RemainingQuantity row)
  ∧ (∀ row, DB.orders (Engine.db e) !! orderID = Some row →
       Order.Status row = OrderStatusFilled ∨ Order.Status row = OrderStatusCanceled
       ∨ Order.RemainingQuantity row = 0 →
       ∃ err, CancelOrder fl now e orderID = Ret (inl err, e)
              ∧ (fl 0%nat = false → is_conflict err))
  ∧ (∀ order e', CancelOrder fl now e orderID = Ret (inr order, e') →
       ∀ fl2 now2,
         ∃ err, CancelOrder fl2 now2 e' orderID = Ret (inl err, e')
                ∧ (fl2 0%nat = false → err = ErrAlreadyCanceled ∧ is_conflict err)).
Proof.
  intros Hnonneg.
  assert (∀ fl' now' e0 row,
            DB.orders (Engine.db e0) !! orderID = Some row →
            Order.Status row = OrderStatusFilled ∨ Order.Status row = OrderStatusCanceled
            ∨ Order.RemainingQuantity row = 0 →
            ∃ err, CancelOrder fl' now' e0 orderID = Ret (inl err, e0)
                   ∧ (fl' 0%nat = false →
                      is_conflict err
                      ∧ (Order.Status row = OrderStatusCanceled → err = ErrAlreadyCanceled)))
    as Hdead.
  { intros fl' now' e0 row Hrow Hcase. unfold CancelOrder, GetOrder.
    destruct (fl' 0%nat); [by eexists|]. rewrite Hrow.
    case_bool_decide as Hfilled.
    { eexists. split; [done|]. intros _. split; [by left|]. congruence. }
    case_bool_decide as Hcanceled.
    { eexists. split; [done|]. intros _. split; [right; by left | done]. }
    case_bool_decide as Hrem.
    { eexists. split; [done|]. intros _. split; [right; right; by left | done]. }
    by destruct Hcase as [?|[?|?]]. }
  split; [|split].
  - intros order e' (row & Hrow & Hst & Hrem & _)%CancelOrder_success.
    exists row. split; [done|]. split; [done|]. specialize (Hnonneg row Hrow). lia.
  - intros row Hrow Hcase. destruct (Hdead fl now e row Hrow Hcase) as (err & HC & Hconf).
    exists err. split; [done|]. intros Hf. by apply Hconf.
  - intros order e' (row & _ & _ & _ & Hrow')%CancelOrder_success fl2 now2.
    destruct (Hdead fl2 now2 e' _ Hrow') as (err & HC & Hconf); [right; by left|].
    exists err. split; [done|]. intros Hf. destruct (Hconf Hf) as [? Hc]. split; [|done].
    by apply Hc.
Qed.

Lemma CancelOrder_only_live_orders_witness :
  (∀ row, DB.orders (Engine.db oneAskEngine) !! 1 = Some row →
          0 ≤ Order.RemainingQuantity row)
  ∧ ∃ order e',
      CancelOrder noFaults 9 oneAskEngine 1 = Ret (inr order, e')
      ∧ Order.Status order = OrderStatusCanceled
      ∧ Engine.orderBooks e' !! "BTCUSD" = Some emptiedBook
      ∧ CancelOrder noFaults 10 e' 1 = Ret (inl ErrAlreadyCanceled, e').
Proof.
  assert (∀ row, DB.orders (Engine.db oneAskEngine) !! 1 = Some row →
                 0 ≤ Order.RemainingQuantity row) as Hnonneg.
  { intros row. simpl. intros [_ <-]%lookup_singleton_Some. simpl. lia. }
  split; [exact Hnonneg|].
  destruct (CancelOrder_only_live_orders noFaults 9 oneAskEngine 1 Hnonneg)
    as (_ & _ & Hagain).
  assert (∃ order e', CancelOrder noFaults 9 oneAskEngine 1 = Ret (inr order, e')
                      ∧ Order.Status order = OrderStatusCanceled
                      ∧ Engine.orderBooks e' !! "BTCUSD" = Some emptiedBook)
    as (order & e' & HC & Hstatus & Hbook).
  { eexists _, _. split; [vm_compute; reflexivity|]. split; reflexivity. }
  exists order, e'. split; [exact HC|]. split; [exact Hstatus|]. split; [exact Hbook|].
  destruct (Hagain order e' HC noFaults 10) as (err & HC2 & Herr).
  destruct (Herr eq_refl) as [-> _]. exact HC2.
Defined.

(** ** Each resting order is updated once *)

(** What a run appends: one resting order per trade, no order twice, each
    left by the run as its one trade left it. *)
Lemma match_run_updates sd wp executedAt sA sB :
  match_run sd wp executedAt sA sB →
  book_inv (MatchState.heap sA) (MatchState.book sA) →
  book_nodup (MatchState.book sA) →
  ∃ ps ts,
    MatchState.updated sB = MatchState.updated sA ++ ps
    ∧ MatchState.trades sB = MatchState.trades sA ++ ts
    ∧ length ps = length ts
    ∧ NoDup ps
    ∧ (∀ p, p ∈ ps → p ≠ wp ∧ rests (oppositeLevels sd (MatchState.book sA)) p)
    ∧ (∀ q, q ≠ wp → q ∉ ps → MatchState.heap sB !! q = MatchState.heap sA !! q)
    ∧ (∀ i t p, ts !! i = Some t → ps !! i = Some p →
         ∃ o, MatchState.heap sA !! p = Some o
              ∧ MatchState.heap sB !! p
                = Some (restingAfter (Trade.Quantity t) executedAt o)
              ∧ restingID sd t = Order.ID o).
Proof.
  induction 1 as [st | st st' st'' w r p k trade Hbody Hts Hrun IH]; intros Hinv Hnd.
  { exists [], []. rewrite !app_nil_r. split; [done|]. split; [done|]. split; [done|].
    split; [constructor|]. split; [by intros ? ?%elem_of_nil|]. split; [done|].
    by intros [|?] ? ? ?. }
  destruct (trade_step_progress _ _ _ _ _ _ _ _ _ _ Hinv Hts) as (Hinv' & Hext & Hsub & Hprog).
  pose proof Hts as [Hw Hsd Hrem Hbest Hr Hro Hcan Htrade Htr Hup Hne Hw' Hr' Hframe Hlen Hbook].
  assert (book_nodup (MatchState.book st')
          ∧ (Order.RemainingQuantity (subRemaining (Trade.Quantity trade) w) = 0
             ∨ ¬ rests (oppositeLevels sd (MatchState.book st')) p)) as [Hnd' Hgone].
  { case_bool_decide as Hz.
    - destruct Hbook as (h3 & Hext1 & _ & Hrm).
      destruct (Hext1 p r Hr) as (r3 & Hr3 & Hid & Hpr & Hs & _).
      rewrite <- Hid, <- Hpr, <- Hs in Hrm.
      assert (book_inv h3 (MatchState.book st)) as Hinv3 by (by eapply book_inv_heap_ext).
      split; [by eapply RemoveOrder_nodup|]. right. by eapply RemoveOrder_best_gone.
    - rewrite Hbook. split; [done|]. left.
      apply executeTrade_qty in Htrade as (Hq & _). destruct w; simpl in *. lia. }
  destruct (IH Hinv' Hnd') as (ps & ts & Hps & Hts' & Hlen' & Hnodup & Hin & Hfr & Hidx).
  assert (p ∉ ps) as Hnotin.
  { destruct Hgone as [Hz | Hgone].
    - pose proof (match_run_done _ _ _ _ _ _ Hrun Hw' Hz) as ->.
      assert (ps = []) as ->; [|by intros ?%elem_of_nil].
      apply (app_inv_head (MatchState.updated st')). by rewrite app_nil_r.
    - intros Hp. by destruct (Hin p Hp) as [_ ?]. }
  exists (p :: ps), (trade :: ts).
  split; [by rewrite Hps, Hup, <- app_assoc|].
  split; [by rewrite Hts', Htr, <- app_assoc|].
  split; [simpl; by rewrite Hlen'|].
  split; [by apply NoDup_cons|].
  split; [|split].
  - intros x [->|Hx]%elem_of_cons.
    + split; [done|].
      destruct (bestOpposite_Some _ _ _ _ Hinv Hbest) as (k' & pl & rest & o & Hm & Hlv & _).
      exists k', pl. split; [done|]. rewrite Hlv. by left.
    + destruct (Hin x Hx) as [? Hrest]. split; [done|].
      destruct Hsub as (_ & [_ Hb] & [_ Ha]). destruct sd; simpl in *; eauto.
  - intros q Hq1 Hq2. apply not_elem_of_cons in Hq2 as [Hq2 Hq3].
    rewrite Hfr by done. by apply Hframe.
  - intros [|i] t x; simpl.
    + intros [= <-] [= <-]. exists r. split; [done|]. split.
      * rewrite Hfr by done. done.
      * apply executeTrade_ids in Htrade as [Hid _]. by rewrite Hsd in Hid.
    + intros Ht Hx. destruct (Hidx i t x Ht Hx) as (o & Ho & Ho' & Hid).
      exists o. split; [|by split].
      assert (x ∈ ps) as Hxin by (by eapply list_elem_of_lookup_2).
      rewrite <- Hframe; [done| by destruct (Hin x Hxin) |]. intros ->. done.
Qed.

(** C7. On a book that satisfies the invariant and holds no order twice:
    the updated orders of the result are the resting orders [ps] traded
    against, one per trade and in the order of the trades, followed by the
    incoming order unless it is the leftover; no order occurs twice; and the
    entry of each resting order, read in the heap [Match] returns, is the
    order as its trade left it: remaining quantity reduced by the trade's
    quantity, status Filled when nothing remains and PartiallyFilled
    otherwise. *)
Theorem Match_updates_each_resting_order_once h incomingOrder ob executedAt :
  book_inv h ob → book_nodup ob →
  let sd := Order.Side incomingOrder in
  let wp := length h in
  ∃ res ob' h' ps,
    Match h incomingOrder ob executedAt = Ret (res, ob', h')
    ∧ MatchResult.UpdatedOrders res
      = ps ++ match MatchResult.IncomingOrderLeft res with
              | Some _ => []
              | None => [wp]
              end
    ∧ NoDup (MatchResult.UpdatedOrders res)
    ∧ length ps = length (MatchResult.Trades res)
    ∧ ∀ i t p, MatchResult.Trades res !! i = Some t → ps !! i = Some p →
        rests (oppositeLevels sd ob) p
        ∧ ∃ o o', h !! p = Some o ∧ h' !! p = Some o'
                  ∧ restingID sd t = Order.ID o
                  ∧ o' = restingAfter (Trade.Quantity t) executedAt o
                  ∧ Order.RemainingQuantity o'
                    = Order.RemainingQuantity o - Trade.Quantity t
                  ∧ Order.Status o'
                    = (if bool_decide (Order.RemainingQuantity o' = 0)
                       then OrderStatusFilled else OrderStatusPartiallyFilled).
Proof.
  intros Hinv Hnd sd wp. subst sd wp.
  assert (book_inv (h ++ [incomingOrder]) ob) as Hinv0
    by (eapply book_inv_heap_ext; [apply heap_ext_app | done]).
  destruct (Match_run h incomingOrder ob executedAt Hinv)
    as (st & q & _ & Hrun & [Hw _] & _ & HM).
  destruct (match_run_updates _ _ _ _ _ Hrun Hinv0 Hnd)
    as (ps & ts & Hps & Hts & Hlen & Hnodup & Hin & Hfr & Hidx).
  simpl in Hps, Hts, Hin, Hfr, Hidx.
  set (w := Order.setRemainingQuantity q incomingOrder) in *.
  assert (length h ∉ ps) as Hwp by (intros Hp; by destruct (Hin _ Hp)).
  assert (NoDup (ps ++ [length h])) as Hnodup'.
  { apply NoDup_app. split; [done|]. split; [|apply NoDup_singleton].
    intros x Hx ->%list_elem_of_singleton. done. }
  assert (∀ h' : list Order.t,
            (∀ p, p ≠ length h → h' !! p = MatchState.heap st !! p) →
            ∀ i t p, ts !! i = Some t → ps !! i = Some p →
              rests (oppositeLevels (Order.Side incomingOrder) ob) p
              ∧ ∃ o o', h !! p = Some o ∧ h' !! p = Some o'
                  ∧ restingID (Order.Side incomingOrder) t = Order.ID o
                  ∧ o' = restingAfter (Trade.Quantity t) executedAt o
                  ∧ Order.RemainingQuantity o'
                    = Order.RemainingQuantity o - Trade.Quantity t
                  ∧ Order.Status o'
                    = (if bool_decide (Order.RemainingQuantity o' = 0)
                       then OrderStatusFilled else OrderStatusPartiallyFilled)) as Hall.
  { intros h' Hsame i t p Ht Hp.
    assert (p ∈ ps) as Hpin by (by eapply list_elem_of_lookup_2).
    destruct (Hin p Hpin) as [Hne Hrests]. split; [done|].
    destruct (Hidx i t p Ht Hp) as (o & Ho & Ho' & Hid).
    assert (p < length h)%nat as Hlt.
    { apply lookup_lt_Some in Ho. rewrite length_app in Ho. simpl in Ho. lia. }
    rewrite lookup_app_l in Ho by done.
    exists o, (restingAfter (Trade.Quantity t) executedAt o).
    split; [done|]. split; [by rewrite Hsame|]. split; [done|]. split; [done|].
    by destruct o. }
  assert (length h < length (MatchState.heap st))%nat as Hlt by (by eapply lookup_lt_Some).
  assert (∀ (x : Order.t) p, p ≠ length h →
            <[length h := x]> (MatchState.heap st) !! p = MatchState.heap st !! p) as Hins.
  { intros x p Hne. by rewrite list_lookup_insert_ne. }
  destruct (finalize (length h) st w) as [[res ob'] h'] eqn:Hfinal.
  exists res, ob', h', ps. split; [done|]. unfold finalize in Hfinal.
  case_bool_decide.
  { injection Hfinal as <- <- <-. simpl. rewrite Hps, Hts.
    split; [done|]. split; [done|]. split; [done|]. apply Hall, Hins. }
  destruct (Order.Type_ w); injection Hfinal as <- <- <-; simpl; rewrite Hps, Hts.
  - rewrite app_nil_r. split; [done|]. split; [done|]. split; [done|].
    apply Hall. case_bool_decide; [apply Hins | done].
  - split; [done|]. split; [done|]. split; [done|]. apply Hall, Hins.
Qed.

Lemma Match_updates_each_resting_order_once_witness :
  book_inv oneAskHeap oneAskBook ∧ book_nodup oneAskBook
  ∧ ∃ res ob' h',
      Match oneAskHeap (buyAt 2 50100 3) oneAskBook 7 = Ret (res, ob', h')
      ∧ MatchResult.UpdatedOrders res = [0%nat; 1%nat]
      ∧ NoDup (MatchResult.UpdatedOrders res)
      ∧ MatchResult.Trades res = [Trade.mk 0 "BTCUSD" 2 1 50000 3 7]
      ∧ ∃ o', h' !! 0%nat = Some o'
              ∧ o' = restingAfter 3 7 (sellAt 1 50000 5)
              ∧ Order.RemainingQuantity o' = 2
              ∧ Order.Status o' = OrderStatusPartiallyFilled.
Proof.
  split; [exact oneAskBook_inv|]. split; [exact oneAskBook_nodup|].
  destruct (Match_updates_each_resting_order_once oneAskHeap (buyAt 2 50100 3) oneAskBook 7
              oneAskBook_inv oneAskBook_nodup)
    as (res & ob' & h' & ps & HM & Hupd & Hnodup & Hlen & Hidx).
  exists res, ob', h'. split; [exact HM|].
  assert (res = MatchResult.mk [Trade.mk 0 "BTCUSD" 2 1 50000 3 7] [0%nat; 1%nat] None) as ->.
  { vm_compute in HM. by injection HM as <- _ _. }
  split; [reflexivity|]. split; [exact Hnodup|]. split; [reflexivity|].
  simpl in Hupd. assert (ps = [0%nat]) as ->.
  { destruct ps as [|a [|b [|c ps]]]; simpl in Hupd; try discriminate.
    by injection Hupd as <-. }
  destruct (Hidx 0%nat _ 0%nat eq_refl eq_refl) as (_ & o & o' & Ho & Ho' & _ & Heq & Hrem & Hst).
  injection Ho as <-. exists o'. split; [exact Ho'|]. split; [exact Heq|].
  rewrite Heq. split; reflexivity.
Defined.

(** Scenario S3 of the specification: a market buy of 12 walks three ask
    levels (3 at 50000, 4 at 50100, 5 at 50200).  Three trades in price order,
    the three resting orders then the incoming one in the updated list, the
    book empty. *)
Example market_buy_walks_levels :
  let h := [sellAt 1 50000 3; sellAt 2 50100 4; sellAt 3 50200 5] in
  let ob := OrderBook.mk "BTCUSD" ∅
              {[ 50000 := PriceLevel.mk 50000 [0%nat];
                 50100 := PriceLevel.mk 50100 [1%nat];
                 50200 := PriceLevel.mk 50200 [2%nat] ]}
              [] [50000; 50100; 50200] in
  let incoming := Order.mk 4 None "BTCUSD" OrderSideBuy OrderTypeMarket None 12 12
                    OrderStatusOpen 1 1 in
  ∃ h', Match h incoming ob 7
        = Ret (MatchResult.mk
                 [Trade.mk 0 "BTCUSD" 4 1 50000 3 7;
                  Trade.mk 0 "BTCUSD" 4 2 50100 4 7;
                  Trade.mk 0 "BTCUSD" 4 3 50200 5 7]
                 [0%nat; 1%nat; 2%nat; 3%nat] None,
               emptiedBook, h')
        ∧ Order.Status <$> h' = [OrderStatusFilled; OrderStatusFilled;
                                 OrderStatusFilled; OrderStatusFilled].
Proof. eexists. split; [vm_compute; reflexivity | reflexivity]. Qed.

(** Scenario S4: a market buy of 10 against 3 at 50000 trades 3 and the rest
    is canceled. *)
Example market_buy_rest_canceled :
  let incoming := Order.mk 2 None "BTCUSD" OrderSideBuy OrderTypeMarket None 10 10
                    OrderStatusOpen 1 1 in
  ∃ h', Match [sellAt 1 50000 3]
              incoming
              (OrderBook.mk "BTCUSD" ∅ {[ 50000 := PriceLevel.mk 50000 [0%nat] ]} [] [50000])
              7
        = Ret (MatchResult.mk [Trade.mk 0 "BTCUSD" 2 1 50000 3 7] [0%nat; 1%nat] None,
               emptiedBook, h')
        ∧ h' !! 1%nat
          = Some (Order.setRemainingQuantity 0 (Order.setStatus OrderStatusCanceled incoming)).
Proof. eexists. split; [vm_compute; reflexivity | reflexivity]. Qed.

(** ** The scenarios of the specification, run on the model *)

(** S1: a sell of 10 at 50000, then a buy of 10 at 50000: one trade, both
    orders Filled in the store, the book empty. *)
Example scenario_exact_match :
  ∃ e, runOps (NewEngine (DB.mk ∅ [] 0 0))
         [OpPlaceOrder noFaults 0 0 (sellRequest 50000 10);
          OpPlaceOrder noFaults 1 1 (buyRequest 50000 10)] = Ret e
       ∧ DB.trades (Engine.db e) = [Trade.mk 1 "BTCUSD" 2 1 50000 10 1]
       ∧ (Order.Status <$> DB.orders (Engine.db e) !! 1) = Some OrderStatusFilled
       ∧ (Order.Status <$> DB.orders (Engine.db e) !! 2) = Some OrderStatusFilled
       ∧ Engine.orderBooks e !! "BTCUSD" = Some emptiedBook.
Proof. eexists. split; [vm_compute; reflexivity|]. repeat split. Qed.

(** S2: a sell of 5 at 50000 rests; a buy of 10 at 50000 trades 5, is
    PartiallyFilled with 5 remaining and rests as the best bid. *)
Example scenario_partial_fill :
  ∃ order e ob,
    PlaceOrder noFaults 1 7 oneAskEngine (buyRequest 50000 10)
    = Ret (inr (order, [Trade.mk 0 "BTCUSD" 2 1 50000 5 7]), e)
    ∧ Order.Status order = OrderStatusPartiallyFilled
    ∧ Order.RemainingQuantity order = 5
    ∧ Engine.orderBooks e !! "BTCUSD" = Some ob
    ∧ GetBestBid ob = Some 1%nat ∧ GetBestAsk ob = None
    ∧ (Order.Status <$> DB.orders (Engine.db e) !! 1) = Some OrderStatusFilled.
Proof. eexists _, _, _. split; [vm_compute; reflexivity|]. repeat split. Qed.

(** S5: two sells of 5 at 50000, the older first; a buy of 3 trades with the
    older one only. *)
Example scenario_fifo :
  ∃ ob' h',
    Match [sellAt 1 50000 5; sellAt 2 50000 5] (buyAt 3 50000 3)
      (OrderBook.mk "BTCUSD" ∅ {[ 50000 := PriceLevel.mk 50000 [0%nat; 1%nat] ]}
         [] [50000]) 7
    = Ret (MatchResult.mk [Trade.mk 0 "BTCUSD" 3 1 50000 3 7] [0%nat; 2%nat] None, ob', h')
    ∧ h' !! 0%nat = Some (restingAfter 3 7 (sellAt 1 50000 5))
    ∧ h' !! 1%nat = Some (sellAt 2 50000 5)
    ∧ OrderBook.Asks ob' !! 50000 = Some (PriceLevel.mk 50000 [0%nat; 1%nat]).
Proof. eexists _, _. split; [vm_compute; reflexivity|]. repeat split. Qed.

(** S6: a buy at 50100 against a sell resting at 50000 trades at 50000. *)
Example scenario_resting_price :
  ∃ res ob' h',
    Match oneAskHeap (buyAt 2 50100 5) oneAskBook 7 = Ret (res, ob', h')
    ∧ Trade.Price <$> MatchResult.Trades res = [50000].
Proof. eexists _, _, _. split; [vm_compute; reflexivity|]. reflexivity. Qed.

(** * Further properties of the order book *)

(** ** The two sides *)

#[global] Instance price_desc_antisym : AntiSymm (=) price_desc.
Proof. intros x y. unfold price_desc. lia. Qed.
#[global] Instance price_asc_antisym : AntiSymm (=) price_asc.
Proof. intros x y. unfold price_asc. lia. Qed.

#[global] Instance side_order_dec sd x y : Decision (side_order sd x y).
Proof. destruct sd; apply _. Defined.
#[global] Instance side_order_total sd : Total (side_order sd).
Proof. destruct sd; apply _. Qed.
#[global] Instance side_order_trans sd : Transitive (side_order sd).
Proof. destruct sd; apply _. Qed.
#[global] Instance side_order_antisym sd : AntiSymm (=) (side_order sd).
Proof. destruct sd; apply _. Qed.

Lemma book_inv_side h ob sd :
  book_inv h ob →
  side_inv sd (side_order sd) h (sideLevels sd ob) (sidePrices sd ob).
Proof. intros [Hb Ha]. by destruct sd. Qed.

Lemma bestOn_bestOf sd ob : bestOn sd ob = bestOf (sideLevels sd ob) (sidePrices sd ob).
Proof. by destruct sd. Qed.

Lemma sideLevels_setSide sd m ps ob : sideLevels sd (setSide sd m ps ob) = m.
Proof. by destruct sd. Qed.
Lemma sidePrices_setSide sd m ps ob : sidePrices sd (setSide sd m ps ob) = ps.
Proof. by destruct sd. Qed.
Lemma sideLevels_setSide_opposite sd m ps ob :
  sideLevels (opposite sd) (setSide sd m ps ob) = sideLevels (opposite sd) ob.
Proof. by destruct sd. Qed.
Lemma sidePrices_setSide_opposite sd m ps ob :
  sidePrices (opposite sd) (setSide sd m ps ob) = sidePrices (opposite sd) ob.
Proof. by destruct sd. Qed.
Lemma Symbol_setSide sd m ps ob :
  OrderBook.Symbol (setSide sd m ps ob) = OrderBook.Symbol ob.
Proof. by destruct sd. Qed.
Lemma setSide_setSide sd m ps m' ps' ob :
  setSide sd m ps (setSide sd m' ps' ob) = setSide sd m ps ob.
Proof. by destruct sd. Qed.
Lemma setSide_id sd ob : setSide sd (sideLevels sd ob) (sidePrices sd ob) ob = ob.
Proof. by destruct sd, ob. Qed.

Lemma opposite_opposite sd : opposite (opposite sd) = sd.
Proof. by destruct sd. Qed.

Lemma sideLevels_opposite sd ob : sideLevels (opposite sd) ob = oppositeLevels sd ob.
Proof. by destruct sd. Qed.

Lemma bestOn_opposite sd ob : bestOn (opposite sd) ob = bestOpposite sd ob.
Proof. by destruct sd. Qed.

Lemma rests_in_sides ob p : rests_in ob p ↔ ∃ sd, rests (sideLevels sd ob) p.
Proof.
  split.
  - intros [?|?]; [by exists OrderSideBuy | by exists OrderSideSell].
  - intros [[] ?]; [by left | by right].
Qed.

Lemma prices_nodup_sides ob : prices_nodup ob ↔ ∀ sd, NoDup (sidePrices sd ob).
Proof.
  split.
  - intros [? ?] []; done.
  - intros H. split; [apply (H OrderSideBuy) | apply (H OrderSideSell)].
Qed.

(** [AddOrder] of an order with a price, on the side of the order. *)
Lemma AddOrder_side (h : list Order.t) ob p o k :
  h !! p = Some o → Order.Price o = Some k →
  let sd := Order.Side o in
  let m' := <[k := PriceLevel_Add (levelOrNew (sideLevels sd ob) k k) p]> (sideLevels sd ob) in
  AddOrder h ob p = Ret (setSide sd m' (merge_sort (side_order sd) (levelPrices m')) ob).
Proof.
  intros Hp Hk. unfold AddOrder. rewrite (proj2 (deref_Ret _ _ _) Hp). simpl. rewrite Hk.
  by destruct (Order.Side o).
Qed.

(** [RemoveOrder] at a price, on the side it is asked to look at. *)
Lemma RemoveOrder_side h ob orderID sd k :
  RemoveOrder h ob orderID sd (Some k)
  = '(m, ps, b) ← removeFromSide (side_order sd) h (sideLevels sd ob) (sidePrices sd ob)
                    orderID k;
    Ret (setSide sd m ps ob, b).
Proof. destruct sd; [apply RemoveOrder_buy | apply RemoveOrder_sell]. Qed.

(** ** [PriceLevel.Remove] *)

Lemma removeFirstID_absent (h : list Order.t) orders orderID orders' :
  removeFirstID h orders orderID = Ret (orders', false) →
  orders' = orders ∧ ∀ q oq, q ∈ orders → h !! q = Some oq → Order.ID oq ≠ orderID.
Proof.
  revert orders'. induction orders as [|p rest IH]; intros orders'; simpl.
  - intros [= <-]. split; [done|]. intros q oq Hq. by apply elem_of_nil in Hq.
  - intros (o & Ho%deref_Ret & H)%bind_Ret. case_bool_decide as Hid; [done|].
    apply bind_Ret in H as ([rest' removed] & Hrest & [= <- ->]).
    destruct (IH _ Hrest) as [-> Hall]. split; [done|].
    intros q oq [->|Hq]%elem_of_cons Hoq; [congruence | by eapply Hall].
Qed.

Lemma removeFirstID_last (h : list Order.t) l p o :
  (∀ q, q ∈ l → ∃ oq, h !! q = Some oq ∧ Order.ID oq ≠ Order.ID o) →
  h !! p = Some o →
  removeFirstID h (l ++ [p]) (Order.ID o) = Ret (l, true).
Proof.
  intros Hall Hp. induction l as [|q l IH]; simpl.
  - rewrite (proj2 (deref_Ret _ _ _) Hp). simpl. by case_bool_decide.
  - destruct (Hall q) as (oq & Hq & Hne); [by left|].
    rewrite (proj2 (deref_Ret _ _ _) Hq). simpl. case_bool_decide; [done|].
    rewrite IH; [done|]. intros q' Hq'. apply Hall. by right.
Qed.

(** X1. [PriceLevel.Remove] cuts out the first order of the level that has
    the ID and keeps the others in their order; when no order of the level
    has the ID it answers false and the level is as it was. *)
Theorem PriceLevel_Remove_first_match (h : list Order.t) pl orderID pl' removed :
  PriceLevel_Remove h pl orderID = Ret (pl', removed) →
  PriceLevel.Price pl' = PriceLevel.Price pl
  ∧ if removed
    then ∃ l1 p l2 o,
           PriceLevel.Orders pl = l1 ++ p :: l2 ∧ PriceLevel.Orders pl' = l1 ++ l2
           ∧ h !! p = Some o ∧ Order.ID o = orderID
           ∧ ∀ q oq, q ∈ l1 → h !! q = Some oq → Order.ID oq ≠ orderID
    else pl' = pl
         ∧ ∀ q oq, q ∈ PriceLevel.Orders pl → h !! q = Some oq → Order.ID oq ≠ orderID.
Proof.
  unfold PriceLevel_Remove. intros ([orders b] & Hrm & [= <- <-])%bind_Ret.
  split; [done|]. destruct b.
  - by apply removeFirstID_spec in Hrm.
  - apply removeFirstID_absent in Hrm as [-> Hall]. split; [by destruct pl | done].
Qed.

(** Order 3 is the second of the two asks at 50000. *)
Lemma PriceLevel_Remove_first_match_witness :
  PriceLevel_Remove threeHeap (PriceLevel.mk 50000 [1%nat; 2%nat]) 3
  = Ret (PriceLevel.mk 50000 [1%nat], true)
  ∧ ∃ l1 p l2 o,
      [1%nat; 2%nat] = l1 ++ p :: l2 ∧ [1%nat] = l1 ++ l2
      ∧ threeHeap !! p = Some o ∧ Order.ID o = 3
      ∧ ∀ q oq, q ∈ l1 → threeHeap !! q = Some oq → Order.ID oq ≠ 3.
Proof.
  split; [reflexivity|].
  apply (PriceLevel_Remove_first_match threeHeap (PriceLevel.mk 50000 [1%nat; 2%nat]) 3
           (PriceLevel.mk 50000 [1%nat]) true).
  reflexivity.
Defined.

(** ** The best order of a side *)

(** X2. On a book that satisfies the book invariant, the best bid is the
    first order of the level with the highest bid price and the best ask the
    first order of the level with the lowest ask price; a side without best
    order has no level. *)
Theorem best_order_is_first_at_best_price h ob :
  book_inv h ob →
  match GetBestBid ob with
  | None => OrderBook.Bids ob = ∅
  | Some b =>
      ∃ k pl rest o,
        OrderBook.Bids ob !! k = Some pl ∧ PriceLevel.Orders pl = b :: rest
        ∧ h !! b = Some o ∧ Order.Price o = Some k
        ∧ ∀ k', is_Some (OrderBook.Bids ob !! k') → k' ≤ k
  end
  ∧ match GetBestAsk ob with
    | None => OrderBook.Asks ob = ∅
    | Some a =>
        ∃ k pl rest o,
          OrderBook.Asks ob !! k = Some pl ∧ PriceLevel.Orders pl = a :: rest
          ∧ h !! a = Some o ∧ Order.Price o = Some k
          ∧ ∀ k', is_Some (OrderBook.Asks ob !! k') → k ≤ k'
    end.
Proof.
  intros Hinv. split.
  - destruct (GetBestBid ob) as [b|] eqn:Hbest.
    + destruct (bestOpposite_Some OrderSideSell h ob b Hinv Hbest)
        as (k & pl & rest & o & Hm & Hpl & Ho & (Hpr & _) & Hbetter).
      by exists k, pl, rest, o.
    + apply map_empty. exact (bestOpposite_None OrderSideSell h ob Hinv Hbest).
  - destruct (GetBestAsk ob) as [a|] eqn:Hbest.
    + destruct (bestOpposite_Some OrderSideBuy h ob a Hinv Hbest)
        as (k & pl & rest & o & Hm & Hpl & Ho & (Hpr & _) & Hbetter).
      by exists k, pl, rest, o.
    + apply map_empty. exact (bestOpposite_None OrderSideBuy h ob Hinv Hbest).
Qed.

Lemma threeBook_inv : book_inv threeHeap threeBook.
Proof.
  split; split; simpl.
  - repeat constructor.
  - intros k. rewrite list_elem_of_singleton. split.
    + intros ->. by eexists.
    + intros [pl Hpl]. by apply lookup_singleton_Some in Hpl as [-> _].
  - by intros k pl [<- <-]%lookup_singleton_Some.
  - by intros k pl [<- <-]%lookup_singleton_Some.
  - intros k pl p [<- <-]%lookup_singleton_Some Hp. simpl in Hp.
    apply list_elem_of_singleton in Hp as ->. by eexists.
  - repeat constructor.
  - intros k. rewrite list_elem_of_singleton. split.
    + intros ->. by eexists.
    + intros [pl Hpl]. by apply lookup_singleton_Some in Hpl as [-> _].
  - by intros k pl [<- <-]%lookup_singleton_Some.
  - by intros k pl [<- <-]%lookup_singleton_Some.
  - intros k pl p [<- <-]%lookup_singleton_Some Hp. simpl in Hp.
    apply elem_of_cons in Hp as [->|Hp]; [by eexists|].
    apply list_elem_of_singleton in Hp as ->. by eexists.
Qed.

Lemma best_order_is_first_at_best_price_witness :
  book_inv threeHeap threeBook
  ∧ GetBestBid threeBook = Some 0%nat ∧ GetBestAsk threeBook = Some 1%nat
  ∧ ∃ k pl rest o,
      OrderBook.Asks threeBook !! k = Some pl ∧ PriceLevel.Orders pl = 1%nat :: rest
      ∧ threeHeap !! 1%nat = Some o ∧ Order.Price o = Some k
      ∧ ∀ k', is_Some (OrderBook.Asks threeBook !! k') → k ≤ k'.
Proof.
  split; [exact threeBook_inv|]. split; [reflexivity|]. split; [reflexivity|].
  exact (proj2 (best_order_is_first_at_best_price threeHeap threeBook threeBook_inv)).
Defined.

(** ** One side of the book *)

Lemma prices_of_levels_nodup (l : list (Z * PriceLevel.t)) :
  NoDup l.*1 → (∀ k pl, (k, pl) ∈ l → PriceLevel.Price pl = k) →
  NoDup (PriceLevel.Price <$> filter (λ pl, PriceLevel_IsEmpty pl = false) l.*2).
Proof.
  induction l as [|[k pl] l IH]; simpl; intros Hnd Hp; [constructor|].
  apply NoDup_cons in Hnd as [Hk Hnd].
  assert (NoDup (PriceLevel.Price
                   <$> filter (λ pl, PriceLevel_IsEmpty pl = false) l.*2)) as IH'.
  { apply IH; [done|]. intros k' pl' Hin. apply Hp. by right. }
  rewrite filter_cons. case_decide; [|done]. rewrite fmap_cons. apply NoDup_cons.
  split; [|done].
  intros (pl' & Heq & Hin)%list_elem_of_fmap.
  apply list_elem_of_filter in Hin as [_ Hin].
  apply list_elem_of_fmap in Hin as ([k' pl''] & -> & Hin). simpl in Heq.
  apply Hk. apply list_elem_of_fmap. exists (k', pl''). split; [|done]. simpl.
  rewrite <- (Hp k pl) by (by left). rewrite Heq. apply Hp. by right.
Qed.

Lemma levelPrices_nodup m :
  (∀ k pl, m !! k = Some pl → PriceLevel.Price pl = k) → NoDup (levelPrices m).
Proof.
  intros Hp. apply prices_of_levels_nodup; [apply NoDup_fst_map_to_list|].
  intros k pl Hin. apply Hp. by apply elem_of_map_to_list.
Qed.

Lemma StronglySorted_strict (R : relation Z) l :
  StronglySorted R l → NoDup l → StronglySorted (λ x y, R x y ∧ x ≠ y) l.
Proof.
  induction 1 as [|x l Hs IH Hall]; intros Hnd; [constructor|].
  apply NoDup_cons in Hnd as [Hx Hnd]. constructor; [by apply IH|].
  rewrite Forall_forall in Hall |- *. intros y Hy. split; [by apply Hall|].
  by intros ->.
Qed.

Section Side.
Context (sd : OrderSide) (R : relation Z).
Context `{!∀ x y, Decision (R x y), !Total R, !Transitive R, !AntiSymm (=) R}.

(** The cached prices are what a refresh would compute. *)
Lemma side_prices_canonical h m ps :
  side_inv sd R h m ps → NoDup ps → ps = merge_sort R (levelPrices m).
Proof.
  intros Hinv Hnd. apply (StronglySorted_unique R).
  - by destruct Hinv.
  - by apply StronglySorted_merge_sort.
  - apply NoDup_Permutation; [done| |].
    + rewrite merge_sort_Permutation. apply levelPrices_nodup. by destruct Hinv.
    + intros x. rewrite merge_sort_Permutation, elem_of_levelPrices, (si_keys _ _ _ _ _ Hinv).
      split.
      * intros [pl Hm]. exists x, pl. split; [done|].
        split; [by eapply si_price | by eapply si_nonempty].
      * intros (k & pl & Hm & Hpr & _). rewrite <- Hpr, (si_price _ _ _ _ _ Hinv _ _ Hm).
        by eexists.
Qed.

Lemma side_prices_size h m ps :
  side_inv sd R h m ps → NoDup ps → length ps = size m.
Proof.
  intros Hinv Hnd. rewrite <- length_map_to_list, <- (length_fmap fst).
  apply Permutation_length, NoDup_Permutation; [done | apply NoDup_fst_map_to_list |].
  intros x. rewrite (si_keys _ _ _ _ _ Hinv), list_elem_of_fmap. split.
  - intros [pl Hm]. exists (x, pl). split; [done|]. by apply elem_of_map_to_list.
  - intros ([k pl] & -> & Hin%elem_of_map_to_list). by eexists.
Qed.

(** The best order of a side after an order has joined it. *)
Lemma bestOf_add h m ps k p o :
  side_inv sd R h m ps → h !! p = Some o → resting_order sd k o →
  let m' := <[k := PriceLevel_Add (levelOrNew m k k) p]> m in
  bestOf m' (merge_sort R (levelPrices m'))
  = match ps with
    | [] => Some p
    | kb :: _ => if decide (R kb k) then bestOf m ps else Some p
    end.
Proof.
  intros Hinv Hp Hro m'.
  destruct (side_inv_add sd R h m ps k p o Hinv Hp Hro) as (Hinv' & Hkeys & _).
  fold m' in Hinv', Hkeys.
  pose proof (best_of_side _ _ _ _ _ Hinv') as Hb'.
  pose proof (best_of_side _ _ _ _ _ Hinv) as Hb.
  destruct (merge_sort R (levelPrices m')) as [|k' ps'].
  { specialize (Hb' k). unfold m' in Hb'. by rewrite lookup_insert_eq in Hb'. }
  destruct Hb' as (pl' & p' & rest' & o' & Hm' & Hpl' & _ & _ & Hbest').
  assert (k' = k ∨ is_Some (m !! k')) as Hk' by (apply Hkeys; by eexists).
  assert (R k' k ∨ k = k') as Hkk'.
  { apply Hbest'. unfold m'. rewrite lookup_insert_eq. by eexists. }
  simpl. rewrite Hm', Hpl'. destruct ps as [|kb ps0].
  - assert (k' = k) as -> by (destruct Hk' as [?|[? Hx]]; [done | by rewrite Hb in Hx]).
    unfold m' in Hm'. rewrite lookup_insert_eq in Hm'. injection Hm' as <-.
    unfold levelOrNew in Hpl'. rewrite Hb in Hpl'. simpl in Hpl'. by injection Hpl' as <- _.
  - destruct Hb as (plb & b & restb & ob & Hmb & Hplb & _ & _ & Hbest).
    simpl. rewrite Hmb, Hplb. case_decide as HR.
    + assert (k' = kb) as ->.
      { assert (R k' kb ∨ kb = k') as Hkb.
        { apply Hbest'. apply Hkeys. right. by eexists. }
        destruct Hk' as [->|Hk'].
        - destruct Hkb as [?|?]; [by apply (anti_symm R) | done].
        - destruct (Hbest _ Hk') as [?|?]; [|done].
          destruct Hkb as [?|?]; [by apply (anti_symm R) | done]. }
      unfold m' in Hm'. destruct (decide (kb = k)) as [->|Hne].
      * rewrite lookup_insert_eq in Hm'. injection Hm' as <-.
        unfold levelOrNew in Hpl'. rewrite Hmb in Hpl'. simpl in Hpl'.
        rewrite Hplb in Hpl'. simpl in Hpl'. by injection Hpl' as <- _.
      * rewrite lookup_insert_ne in Hm' by done. congruence.
    + assert (k' = k) as ->.
      { destruct Hkk' as [Hkk'|?]; [|done]. destruct Hk' as [?|Hk']; [done|].
        destruct HR. destruct (Hbest _ Hk') as [?|<-]; [by etrans | done]. }
      assert (m !! k = None) as Hnone.
      { destruct (m !! k) as [pl|] eqn:Hm; [|done]. destruct HR.
        destruct (Hbest k) as [?| ->]; [by eexists | done |].
        by destruct (total R kb kb). }
      unfold m' in Hm'. rewrite lookup_insert_eq in Hm'. injection Hm' as <-.
      unfold levelOrNew in Hpl'. rewrite Hnone in Hpl'. simpl in Hpl'.
      by injection Hpl' as <- _.
Qed.

(** Removing the order that was added last gives the side back. *)
Lemma removeFromSide_add (h : list Order.t) m ps k p o :
  side_inv sd R h m ps → NoDup ps → h !! p = Some o →
  (∀ q oq, rests m q → h !! q = Some oq → Order.ID oq ≠ Order.ID o) →
  let m' := <[k := PriceLevel_Add (levelOrNew m k k) p]> m in
  removeFromSide R h m' (merge_sort R (levelPrices m')) (Order.ID o) k = Ret (m, ps, true).
Proof.
  intros Hinv Hnd Hp Hfresh m'. unfold removeFromSide, m'. rewrite lookup_insert_eq.
  unfold PriceLevel_Remove. simpl PriceLevel.Orders.
  rewrite (removeFirstID_last h (PriceLevel.Orders (levelOrNew m k k)) p o); [| |done].
  2:{ intros q Hq. unfold levelOrNew in Hq. destruct (m !! k) as [pl|] eqn:Hm.
      - destruct (si_orders _ _ _ _ _ Hinv _ _ _ Hm Hq) as (oq & Hoq & _).
        exists oq. split; [done|]. eapply Hfresh; [|done]. by exists k, pl.
      - by apply elem_of_nil in Hq. }
  simpl. unfold levelOrNew. destruct (m !! k) as [pl|] eqn:Hm; simpl.
  - unfold PriceLevel_IsEmpty. simpl.
    pose proof (si_nonempty _ _ _ _ _ Hinv _ _ Hm) as Hne.
    pose proof (si_price _ _ _ _ _ Hinv _ _ Hm) as Hprice.
    case_bool_decide as Hlen; [by destruct (PriceLevel.Orders pl)|].
    rewrite insert_insert_eq.
    assert (PriceLevel.mk (PriceLevel.Price pl) (PriceLevel.Orders pl) = pl) as ->
      by (by destruct pl).
    rewrite (insert_id m k pl Hm).
    assert (merge_sort R (levelPrices (<[k := PriceLevel_Add pl p]> m)) = ps) as ->; [|done].
    apply (StronglySorted_unique R).
    + by apply StronglySorted_merge_sort.
    + by destruct Hinv.
    + apply NoDup_Permutation; [| done |].
      * rewrite merge_sort_Permutation. apply levelPrices_nodup. intros k' pl'.
        destruct (decide (k' = k)) as [->|Hk'].
        -- rewrite lookup_insert_eq. by intros [= <-].
        -- rewrite lookup_insert_ne by done. by eapply si_price.
      * intros x. rewrite merge_sort_Permutation, elem_of_levelPrices,
          (si_keys _ _ _ _ _ Hinv). split.
        -- intros (k' & pl' & Hm' & Hpr & _). destruct (decide (k' = k)) as [->|Hk'].
           ++ rewrite lookup_insert_eq in Hm'. injection Hm' as <-. simpl in Hpr.
              rewrite <- Hpr, Hprice. by eexists.
           ++ rewrite lookup_insert_ne in Hm' by done.
              rewrite <- Hpr, (si_price _ _ _ _ _ Hinv _ _ Hm'). by eexists.
        -- intros [plx Hx]. destruct (decide (x = k)) as [->|Hk'].
           ++ eexists k, _. rewrite lookup_insert_eq. split; [done|]. simpl.
              split; [done|]. by destruct (PriceLevel.Orders pl).
           ++ exists x, plx. rewrite lookup_insert_ne by done. split; [done|].
              split; [by eapply si_price | by eapply si_nonempty].
  - rewrite delete_insert_id by done. by rewrite <- (side_prices_canonical h m ps).
Qed.

(** The first [n] cached prices are the [n] best prices of the side. *)
Lemma take_best h m ps n :
  side_inv sd R h m ps → NoDup ps →
  let l := take n ps in
  length l = (n `min` size m)%nat
  ∧ StronglySorted (λ x y, R x y ∧ x ≠ y) l
  ∧ (∀ k, k ∈ l → ∃ pl, m !! k = Some pl ∧ PriceLevel.Orders pl ≠ [])
  ∧ (∀ k k', k ∈ l → is_Some (m !! k') → k' ∉ l → R k k' ∧ k ≠ k').
Proof.
  intros Hinv Hnd l. subst l. split; [|split; [|split]].
  - by rewrite length_take, (side_prices_size h m ps).
  - apply StronglySorted_strict.
    + eapply (StronglySorted_app_1_l R _ (drop n ps)). rewrite take_drop. by destruct Hinv.
    + eapply sublist_NoDup; [done | apply sublist_take].
  - intros k Hk. assert (k ∈ ps) as Hin by (by eapply subseteq_take).
    apply (si_keys _ _ _ _ _ Hinv) in Hin as [pl Hm]. exists pl. split; [done|].
    by eapply si_nonempty.
  - intros k k' Hk Hk' Hnot. apply (si_keys _ _ _ _ _ Hinv) in Hk'.
    rewrite <- (take_drop n ps) in Hk'. apply elem_of_app in Hk' as [?|Hk']; [done|].
    split; [|by intros ->].
    eapply (StronglySorted_app_1_elem_of R (take n ps) (drop n ps)); [|done..].
    rewrite take_drop. by destruct Hinv.
Qed.

End Side.

(** ** [AddOrder], [RemoveOrder] and the best order *)

(** X3. Price-time priority when an order joins the book.  For a limit order
    with price [k] added to a book that satisfies the invariant: the best
    order of the other side is unchanged; on its own side the order becomes
    the best order when the side was empty or when [k] is strictly better
    than the best cached price (higher for a bid, lower for an ask), and
    otherwise the best order stays the one it was, also at equal price. *)
Theorem AddOrder_keeps_price_time_priority h ob p o k :
  book_inv h ob → h !! p = Some o → Order.Type_ o = OrderTypeLimit →
  Order.Price o = Some k →
  let sd := Order.Side o in
  ∃ ob', AddOrder h ob p = Ret ob'
    ∧ bestOn (opposite sd) ob' = bestOn (opposite sd) ob
    ∧ bestOn sd ob'
      = match sidePrices sd ob with
        | [] => Some p
        | best :: _ => if decide (side_order sd best k) then bestOn sd ob else Some p
        end.
Proof.
  intros Hinv Hp Hty Hk sd. eexists. split; [by apply AddOrder_side|]. split.
  - by rewrite !bestOn_bestOf, sideLevels_setSide_opposite, sidePrices_setSide_opposite.
  - rewrite !bestOn_bestOf, sideLevels_setSide, sidePrices_setSide.
    apply (bestOf_add sd (side_order sd) h _ _ k p o); [by apply book_inv_side | done | done].
Qed.

(** A sell of 2 at 50000 joins the two asks at 50000 behind them; a sell at
    49900 would go in front. *)
Lemma AddOrder_keeps_price_time_priority_witness :
  let h := threeHeap ++ [sellAt 4 50000 2] in
  book_inv h threeBook ∧ h !! 3%nat = Some (sellAt 4 50000 2)
  ∧ ∃ ob', AddOrder h threeBook 3%nat = Ret ob'
      ∧ GetBestBid ob' = GetBestBid threeBook
      ∧ GetBestAsk ob' = Some 1%nat.
Proof.
  intros h.
  assert (book_inv h threeBook) as Hinv.
  { eapply book_inv_heap_ext; [apply heap_ext_app | exact threeBook_inv]. }
  split; [done|]. split; [done|].
  destruct (AddOrder_keeps_price_time_priority h threeBook 3%nat (sellAt 4 50000 2) 50000
              Hinv eq_refl eq_refl eq_refl) as (ob' & Hadd & Hbid & Hask).
  exists ob'. split; [done|]. split; [done|]. exact Hask.
Defined.

(** X4. [RemoveOrder] undoes [AddOrder].  On a book that satisfies the
    invariant and caches no price twice, adding an order whose ID no resting
    order has and then removing it by its ID, side and price gives the book
    back as it was, cached prices included; the removal answers true exactly
    when the order has a price. *)
Theorem RemoveOrder_undoes_AddOrder h ob p o ob' :
  book_inv h ob → prices_nodup ob → h !! p = Some o →
  (∀ q oq, rests_in ob q → h !! q = Some oq → Order.ID oq ≠ Order.ID o) →
  AddOrder h ob p = Ret ob' →
  RemoveOrder h ob' (Order.ID o) (Order.Side o) (Order.Price o)
  = Ret (ob, bool_decide (is_Some (Order.Price o))).
Proof.
  intros Hinv Hnd Hp Hfresh Hadd. destruct (Order.Price o) as [k|] eqn:Hk.
  2:{ rewrite (AddOrder_without_price h ob p o Hp Hk) in Hadd. by injection Hadd as <-. }
  rewrite (AddOrder_side h ob p o k Hp Hk) in Hadd. injection Hadd as <-.
  rewrite RemoveOrder_side, sideLevels_setSide, sidePrices_setSide.
  rewrite (removeFromSide_add (Order.Side o) (side_order (Order.Side o)) h _
             (sidePrices (Order.Side o) ob) k p o).
  - simpl. rewrite setSide_setSide, setSide_id. f_equal.
  - by apply book_inv_side.
  - by apply prices_nodup_sides.
  - done.
  - intros q oq Hq. apply Hfresh. apply rests_in_sides. by eexists.
Qed.

Lemma threeBook_prices_nodup : prices_nodup threeBook.
Proof. split; simpl; repeat constructor; by intros ?%elem_of_nil. Qed.

Lemma RemoveOrder_undoes_AddOrder_witness :
  let h := threeHeap ++ [sellAt 4 50000 2] in
  ∃ ob', AddOrder h threeBook 3%nat = Ret ob'
    ∧ OrderBook.Asks ob' !! 50000 = Some (PriceLevel.mk 50000 [1%nat; 2%nat; 3%nat])
    ∧ RemoveOrder h ob' 4 OrderSideSell (Some 50000) = Ret (threeBook, true).
Proof.
  intros h. eexists. split; [reflexivity|]. split; [reflexivity|].
  apply (RemoveOrder_undoes_AddOrder h threeBook 3%nat (sellAt 4 50000 2)).
  - eapply book_inv_heap_ext; [apply heap_ext_app | exact threeBook_inv].
  - exact threeBook_prices_nodup.
  - reflexivity.
  - intros q oq [(k & pl & Hm & Hq)|(k & pl & Hm & Hq)]; simpl in Hm;
      apply lookup_singleton_Some in Hm as [<- <-]; simpl in Hq.
    + apply list_elem_of_singleton in Hq as ->. by intros [= <-].
    + apply elem_of_cons in Hq as [->|Hq]; [by intros [= <-]|].
      apply list_elem_of_singleton in Hq as ->. by intros [= <-].
  - reflexivity.
Defined.

(** ** [GetOrderCount] *)

Lemma sideCount_add m k p :
  sideCount (<[k := PriceLevel_Add (levelOrNew m k k) p]> m) = S (sideCount m).
Proof.
  rewrite sideCount_insert. unfold levelOrNew. destruct (m !! k) as [pl|] eqn:Hm; simpl.
  - rewrite (sideCount_delete m k pl Hm), length_app. simpl. lia.
  - rewrite delete_id by done. lia.
Qed.

(** X5. [GetOrderCount] follows the book.  Adding an order that has a price
    raises the count of the order's side by one and leaves the other; an
    order without price changes no count.  A removal that answers true
    lowers the count of the side it was asked to look at by one and leaves
    the other; a removal that answers false leaves the book as it was. *)
Theorem GetOrderCount_follows_the_book h ob :
  book_inv h ob →
  (∀ p o ob', h !! p = Some o → AddOrder h ob p = Ret ob' →
     GetOrderCount ob'
     = match Order.Price o, Order.Side o with
       | None, _ => GetOrderCount ob
       | Some _, OrderSideBuy => (S (GetOrderCount ob).1, (GetOrderCount ob).2)
       | Some _, OrderSideSell => ((GetOrderCount ob).1, S (GetOrderCount ob).2)
       end)
  ∧ (∀ orderID side price ob' removed,
       RemoveOrder h ob orderID side price = Ret (ob', removed) →
       if removed
       then GetOrderCount ob
            = match side with
              | OrderSideBuy => (S (GetOrderCount ob').1, (GetOrderCount ob').2)
              | OrderSideSell => ((GetOrderCount ob').1, S (GetOrderCount ob').2)
              end
       else ob' = ob).
Proof.
  intros Hinv. split.
  - intros p o ob' Hp Hadd. destruct (Order.Price o) as [k|] eqn:Hk.
    + rewrite (AddOrder_side h ob p o k Hp Hk) in Hadd. injection Hadd as <-.
      unfold GetOrderCount. destruct (Order.Side o); simpl; by rewrite sideCount_add.
    + rewrite (AddOrder_without_price h ob p o Hp Hk) in Hadd. by injection Hadd as <-.
  - intros orderID side price ob' removed Hrm. destruct price as [k|].
    2:{ unfold RemoveOrder in Hrm. by injection Hrm as <- <-. }
    rewrite RemoveOrder_side in Hrm.
    apply bind_Ret in Hrm as ([[m ps] b] & Hrm & [= <- <-]).
    pose proof (book_inv_side h ob side Hinv) as Hside.
    destruct (removeFromSide_inv side (side_order side) h _ _ _ _ _ _ _ Hside Hrm)
      as (_ & _ & _ & Hcount).
    destruct b.
    + specialize (Hcount eq_refl). unfold GetOrderCount.
      destruct side; simpl in *; by rewrite Hcount.
    + pose proof (removeFromSide_spec side (side_order side) h _ _ _ _ _ _ _ Hside Hrm)
        as [-> ->]. apply setSide_id.
Qed.

Lemma GetOrderCount_follows_the_book_witness :
  let h := threeHeap ++ [sellAt 4 50000 2] in
  GetOrderCount threeBook = (1%nat, 2%nat)
  ∧ (∃ ob', AddOrder h threeBook 3%nat = Ret ob' ∧ GetOrderCount ob' = (1%nat, 3%nat))
  ∧ (∃ ob', RemoveOrder h threeBook 2 OrderSideSell (Some 50000) = Ret (ob', true)
            ∧ GetOrderCount ob' = (1%nat, 1%nat)).
Proof.
  intros h.
  assert (book_inv h threeBook) as Hinv.
  { eapply book_inv_heap_ext; [apply heap_ext_app | exact threeBook_inv]. }
  destruct (GetOrderCount_follows_the_book h threeBook Hinv) as [Hadd Hrm].
  split; [reflexivity|]. split.
  - eexists. split; [reflexivity|]. apply (Hadd 3%nat (sellAt 4 50000 2)); reflexivity.
  - eexists. split; [reflexivity|]. reflexivity.
Defined.

(** ** The cached prices *)

Lemma prices_nodup_new symbol : prices_nodup (NewOrderBook symbol).
Proof. split; constructor. Qed.

Lemma AddOrder_prices_nodup (h : list Order.t) ob p ob' :
  book_inv h ob → prices_nodup ob → AddOrder h ob p = Ret ob' → prices_nodup ob'.
Proof.
  intros Hinv Hnd Hadd. pose proof Hadd as Hadd0. unfold AddOrder in Hadd0.
  apply bind_Ret in Hadd0 as (o & Hp%deref_Ret & _).
  destruct (Order.Price o) as [k|] eqn:Hk.
  2:{ rewrite (AddOrder_without_price h ob p o Hp Hk) in Hadd. by injection Hadd as <-. }
  rewrite (AddOrder_side h ob p o k Hp Hk) in Hadd. injection Hadd as <-.
  apply prices_nodup_sides. intros sd. destruct (decide (sd = Order.Side o)) as [->|Hne].
  - rewrite sidePrices_setSide, merge_sort_Permutation. apply levelPrices_nodup.
    pose proof (book_inv_side h ob (Order.Side o) Hinv) as Hside.
    intros k' pl. destruct (decide (k' = k)) as [->|Hk'].
    + rewrite lookup_insert_eq. intros [= <-]. simpl. unfold levelOrNew.
      destruct (sideLevels (Order.Side o) ob !! k) as [pl|] eqn:Hm; [|done].
      by eapply si_price.
    + rewrite lookup_insert_ne by done. by eapply si_price.
  - replace sd with (opposite (Order.Side o)) by (by destruct sd, (Order.Side o)).
    rewrite sidePrices_setSide_opposite. by apply prices_nodup_sides.
Qed.

Lemma RemoveOrder_prices_nodup h ob orderID side price ob' removed :
  book_inv h ob → prices_nodup ob →
  RemoveOrder h ob orderID side price = Ret (ob', removed) → prices_nodup ob'.
Proof.
  intros Hinv Hnd Hrm. destruct price as [k|].
  2:{ unfold RemoveOrder in Hrm. by injection Hrm as <- <-. }
  rewrite RemoveOrder_side in Hrm.
  apply bind_Ret in Hrm as ([[m ps] b] & Hrm & [= <- <-]).
  pose proof (book_inv_side h ob side Hinv) as Hside.
  pose proof (removeFromSide_spec side (side_order side) h _ _ _ _ _ _ _ Hside Hrm) as Hspec.
  apply prices_nodup_sides. intros sd. destruct (decide (sd = side)) as [->|Hne].
  - rewrite sidePrices_setSide. destruct b.
    + destruct Hspec as (pl & l1 & p & l2 & o & Hm & _ & _ & _ & _ & [(_ & -> & ->)|(_ & _ & ->)]).
      * rewrite merge_sort_Permutation. apply levelPrices_nodup. intros k' pl'.
        rewrite lookup_delete_Some. intros [_ Hm']. by eapply si_price.
      * by apply prices_nodup_sides.
    + destruct Hspec as [_ ->]. by apply prices_nodup_sides.
  - replace sd with (opposite side) by (by destruct sd, side).
    rewrite sidePrices_setSide_opposite. by apply prices_nodup_sides.
Qed.

(** X6. The cached price lists are always what [refreshBidPrices] and
    [refreshAskPrices] would compute.  On a book that satisfies the invariant
    and caches no price twice both functions change nothing.  [AddOrder] and
    [RemoveOrder] keep it so: on the book either of them returns no price is
    cached twice and both functions change nothing, also on the path of
    [RemoveOrder] that leaves a level in place and skips the refresh; the
    book [RemoveOrder] returns satisfies the invariant, and so does the book
    [AddOrder] returns for a limit order. *)
Theorem price_cache_is_refreshed h ob :
  book_inv h ob → prices_nodup ob →
  refreshBidPrices ob = ob ∧ refreshAskPrices ob = ob
  ∧ (∀ p ob', AddOrder h ob p = Ret ob' →
       prices_nodup ob'
       ∧ refreshBidPrices ob' = ob' ∧ refreshAskPrices ob' = ob'
       ∧ (∀ o, h !! p = Some o → Order.Type_ o = OrderTypeLimit → book_inv h ob'))
  ∧ (∀ orderID side price ob' removed,
       RemoveOrder h ob orderID side price = Ret (ob', removed) →
       book_inv h ob' ∧ prices_nodup ob'
       ∧ refreshBidPrices ob' = ob' ∧ refreshAskPrices ob' = ob').
Proof.
  assert (∀ ob, book_inv h ob → prices_nodup ob →
            refreshBidPrices ob = ob ∧ refreshAskPrices ob = ob) as Hrefresh.
  { intros ob0 [Hb Ha] [Hnb Hna]. unfold refreshBidPrices, refreshAskPrices.
    rewrite <- (side_prices_canonical OrderSideBuy price_desc h _ _ Hb Hnb).
    rewrite <- (side_prices_canonical OrderSideSell price_asc h _ _ Ha Hna).
    by destruct ob0. }
  intros Hinv Hnd. destruct (Hrefresh ob Hinv Hnd) as [Hrb Hra].
  split; [done|]. split; [done|]. split.
  - intros p ob' Hadd. split; [by eapply AddOrder_prices_nodup|].
    pose proof Hadd as Hadd0. unfold AddOrder in Hadd0.
    apply bind_Ret in Hadd0 as (o & Hp%deref_Ret & _).
    assert (refreshBidPrices ob' = ob' ∧ refreshAskPrices ob' = ob') as [Hrb' Hra'].
    { destruct (Order.Price o) as [k|] eqn:Hk.
      2:{ rewrite (AddOrder_without_price h ob p o Hp Hk) in Hadd. by injection Hadd as <-. }
      rewrite (AddOrder_side h ob p o k Hp Hk) in Hadd. injection Hadd as <-.
      destruct Hinv as [Hb Ha], Hnd as [Hnb Hna].
      unfold refreshBidPrices, refreshAskPrices. destruct (Order.Side o); simpl.
      - split; [done|].
        by rewrite <- (side_prices_canonical OrderSideSell price_asc h _ _ Ha Hna).
      - split; [|done].
        by rewrite <- (side_prices_canonical OrderSideBuy price_desc h _ _ Hb Hnb). }
    split; [done|]. split; [done|]. intros o' Hp' Hty.
    destruct (AddOrder_inv h ob p o' Hinv Hp' Hty) as (ob'' & Hadd' & Hinv' & _).
    congruence.
  - intros orderID side price ob' removed Hrm.
    destruct (RemoveOrder_inv _ _ _ _ _ _ _ Hinv Hrm) as (Hinv' & _).
    pose proof (RemoveOrder_prices_nodup _ _ _ _ _ _ _ Hinv Hnd Hrm) as Hnd'.
    split; [done|]. split; [done|]. by apply Hrefresh.
Qed.

(** Removing the first of the two asks at 50000 leaves the level in place:
    no refresh runs, and none is needed.  Adding an ask at a new price
    refreshes the asks, and the bids are as a refresh would leave them. *)
Lemma price_cache_is_refreshed_witness :
  let h := threeHeap ++ [sellAt 4 50200 2] in
  book_inv h threeBook ∧ prices_nodup threeBook
  ∧ refreshAskPrices threeBook = threeBook
  ∧ (∃ ob', RemoveOrder h threeBook 2 OrderSideSell (Some 50000) = Ret (ob', true)
       ∧ OrderBook.Asks ob' !! 50000 = Some (PriceLevel.mk 50000 [2%nat])
       ∧ refreshAskPrices ob' = ob')
  ∧ ∃ ob', AddOrder h threeBook 3 = Ret ob'
       ∧ OrderBook.Asks ob' !! 50200 = Some (PriceLevel.mk 50200 [3%nat])
       ∧ book_inv h ob'
       ∧ refreshBidPrices ob' = ob' ∧ refreshAskPrices ob' = ob'.
Proof.
  intros h.
  assert (book_inv h threeBook) as Hinv.
  { eapply book_inv_heap_ext; [apply heap_ext_app | exact threeBook_inv]. }
  split; [exact Hinv|]. split; [exact threeBook_prices_nodup|].
  destruct (price_cache_is_refreshed h threeBook Hinv threeBook_prices_nodup)
    as (_ & Hra & Hadd & Hrm).
  split; [exact Hra|]. split.
  - eexists. split; [reflexivity|]. split; [reflexivity|].
    by apply (Hrm 2 OrderSideSell (Some 50000) _ true).
  - eexists. split; [reflexivity|]. split; [reflexivity|].
    edestruct (Hadd 3%nat) as (_ & Hb' & Ha' & Hinv'); [reflexivity|].
    split; [|split; [exact Hb' | exact Ha']].
    apply (Hinv' (sellAt 4 50200 2)); reflexivity.
Defined.

(** ** [GetTopLevels] *)

Lemma StronglySorted_weaken {A} (R1 R2 : relation A) l :
  (∀ x y, R1 x y → R2 x y) → StronglySorted R1 l → StronglySorted R2 l.
Proof.
  intros Himpl. induction 1 as [|x l Hs IH Hall]; constructor; [done|].
  eapply Forall_impl; [done|]. intros y. apply Himpl.
Qed.

(** X7. [GetTopLevels] returns the best levels of each side, best first.  On
    a book that satisfies the invariant and caches no price twice it returns,
    per side, as many prices as there are levels but at most [depth] (none
    for a depth that is not positive); the bid prices strictly descend and
    the ask prices strictly ascend; each returned price has a non-empty
    level; and every level left out has a strictly worse price than every
    level returned. *)
Theorem GetTopLevels_best_levels h ob depth :
  book_inv h ob → prices_nodup ob →
  let bids := (GetTopLevels ob depth).1 in
  let asks := (GetTopLevels ob depth).2 in
  length bids = (Z.to_nat depth `min` size (OrderBook.Bids ob))%nat
  ∧ length asks = (Z.to_nat depth `min` size (OrderBook.Asks ob))%nat
  ∧ StronglySorted (λ x y, y < x) bids
  ∧ StronglySorted (λ x y, x < y) asks
  ∧ (∀ k, k ∈ bids → ∃ pl, OrderBook.Bids ob !! k = Some pl ∧ PriceLevel.Orders pl ≠ [])
  ∧ (∀ k, k ∈ asks → ∃ pl, OrderBook.Asks ob !! k = Some pl ∧ PriceLevel.Orders pl ≠ [])
  ∧ (∀ k k', k ∈ bids → is_Some (OrderBook.Bids ob !! k') → k' ∉ bids → k' < k)
  ∧ (∀ k k', k ∈ asks → is_Some (OrderBook.Asks ob !! k') → k' ∉ asks → k < k').
Proof.
  intros [Hb Ha] [Hnb Hna]. unfold GetTopLevels. simpl.
  rewrite (topSide_inv _ _ _ _ _ depth Hb), (topSide_inv _ _ _ _ _ depth Ha).
  destruct (take_best OrderSideBuy price_desc h _ _ (Z.to_nat depth) Hb Hnb)
    as (Hlb & Hsb & Hkb & Hbb).
  destruct (take_best OrderSideSell price_asc h _ _ (Z.to_nat depth) Ha Hna)
    as (Hla & Hsa & Hka & Hba).
  split; [done|]. split; [done|]. split; [|split; [|split; [done|split; [done|split]]]].
  - eapply StronglySorted_weaken; [|exact Hsb]. unfold price_desc. intros x y. simpl. lia.
  - eapply StronglySorted_weaken; [|exact Hsa]. unfold price_asc. intros x y. simpl. lia.
  - intros k k' Hk Hk' Hnot. destruct (Hbb k k' Hk Hk' Hnot) as [HR Hne].
    unfold price_desc in HR. lia.
  - intros k k' Hk Hk' Hnot. destruct (Hba k k' Hk Hk' Hnot) as [HR Hne].
    unfold price_asc in HR. lia.
Qed.

Lemma GetTopLevels_best_levels_witness :
  book_inv threeHeap threeBook ∧ prices_nodup threeBook
  ∧ GetTopLevels threeBook 1 = ([49000], [50000])
  ∧ length (GetTopLevels threeBook 1).2 = 1%nat
  ∧ StronglySorted (λ x y, x < y) (GetTopLevels threeBook 1).2.
Proof.
  split; [exact threeBook_inv|]. split; [exact threeBook_prices_nodup|].
  destruct (GetTopLevels_best_levels threeHeap threeBook 1 threeBook_inv
              threeBook_prices_nodup) as (_ & Hla & _ & Hsa & _).
  split; [reflexivity|]. split; [exact Hla | exact Hsa].
Defined.

(** * Further properties of the matcher *)

(** ** The trades of a run of the loop *)

Lemma setRemaining_sub q x w :
  Order.setRemainingQuantity x (subRemaining q w) = Order.setRemainingQuantity x w.
Proof. by destruct w. Qed.

Lemma setRemaining_same x w :
  x = Order.RemainingQuantity w → Order.setRemainingQuantity x w = w.
Proof. intros ->. by destruct w. Qed.

Lemma oppositeLevels_sub sd ob' ob k :
  book_sub ob' ob → is_Some (oppositeLevels sd ob' !! k) → is_Some (oppositeLevels sd ob !! k).
Proof. intros (_ & [Hb _] & [Ha _]). destruct sd; simpl; eauto. Qed.

Lemma rests_in_sub ob' ob p : book_sub ob' ob → rests_in ob' p → rests_in ob p.
Proof. intros (_ & [_ Hb] & [_ Ha]) [?|?]; [left | right]; eauto. Qed.

Lemma match_run_facts sd wp executedAt sA sB :
  match_run sd wp executedAt sA sB →
  ∀ wA, book_inv (MatchState.heap sA) (MatchState.book sA) →
  MatchState.heap sA !! wp = Some wA →
  ∃ ts, MatchState.trades sB = MatchState.trades sA ++ ts
    ∧ MatchState.heap sB !! wp
      = Some (Order.setRemainingQuantity
                (Order.RemainingQuantity wA - tradedQuantity ts) wA)
    ∧ Forall (trade_of sd wA executedAt) ts
    ∧ (∀ t, t ∈ ts → is_Some (oppositeLevels sd (MatchState.book sA) !! Trade.Price t))
    ∧ StronglySorted (λ t1 t2, at_least_as_good sd (Trade.Price t1) (Trade.Price t2)) ts
    ∧ (∀ t k', t ∈ ts → is_Some (oppositeLevels sd (MatchState.book sB) !! k') →
         at_least_as_good sd (Trade.Price t) k').
Proof.
  induction 1 as [st | st st' st'' w r p k trade Hbody Hts Hrun IH]; intros wA Hinv HwA.
  { exists []. rewrite app_nil_r. split; [done|]. split.
    - rewrite HwA, setRemaining_same; [done|]. simpl. lia.
    - split; [constructor|]. split; [by intros ? ?%elem_of_nil|].
      split; [constructor | by intros ? ? ?%elem_of_nil]. }
  destruct (trade_step_progress _ _ _ _ _ _ _ _ _ _ Hinv Hts) as (Hinv' & Hext & Hsub & _).
  pose proof Hts as [Hw Hsd Hrem Hbest Hr Hro Hcan Htrade Htr Hup Hne Hw' Hr' Hframe Hlen Hbook].
  assert (w = wA) as -> by congruence.
  destruct (IH _ Hinv' Hw') as (ts & Hts' & HwB & Hall & Hkeys & Hsorted & Hleft).
  destruct (match_run_inv _ _ _ _ _ Hrun Hinv') as (_ & _ & Hsub' & _).
  destruct (bestOpposite_Some _ _ _ _ Hinv Hbest)
    as (k0 & pl & rest & r0 & Hm & Hlv & Hr0 & Hro0 & Hbetter).
  assert (r0 = r) as -> by congruence.
  assert (k0 = k) as -> by (destruct Hro as [? _], Hro0 as [? _]; congruence).
  destruct (executeTrade_resting (opposite sd) k wA r executedAt Hro)
    as (trade' & Htrade' & Hprice).
  assert (trade' = trade) as -> by congruence.
  pose proof (executeTrade_qty _ _ _ _ Htrade) as (Hq & Hid0 & Hat & Hsym).
  pose proof (executeTrade_ids _ _ _ _ Htrade) as [_ Hinc]. rewrite Hsd in Hinc.
  exists (trade :: ts). split; [by rewrite Hts', Htr, <- app_assoc|]. split.
  { rewrite HwB, setRemaining_sub. do 2 f_equal. destruct wA; simpl. lia. }
  split.
  { constructor.
    - split; [done|]. split; [done|]. split; [done|]. split; [done|].
      intros Hty limit Hlim. rewrite Hprice. unfold canMatch in Hcan.
      destruct Hro as (Hpr & _). rewrite Hty, Hlim, Hpr, Hsd in Hcan.
      destruct sd; apply bool_decide_eq_true_1 in Hcan; simpl; lia.
    - eapply Forall_impl; [exact Hall|]. intros t. unfold trade_of. by destruct wA. }
  split.
  { intros t [->|Ht]%elem_of_cons.
    - rewrite Hprice. by eexists.
    - eapply oppositeLevels_sub; [done|]. by apply Hkeys. }
  split.
  { constructor; [done|]. rewrite Forall_forall. intros t Ht. rewrite Hprice.
    apply Hbetter. eapply oppositeLevels_sub; [done|]. by apply Hkeys. }
  intros t k' [->|Ht]%elem_of_cons Hk'; [|by apply Hleft].
  rewrite Hprice. apply Hbetter.
  eapply oppositeLevels_sub; [exact Hsub|]. by eapply oppositeLevels_sub.
Qed.

(** ** What the loop leaves alone *)

Lemma RemoveOrder_other_side h ob orderID sd price ob' b :
  RemoveOrder h ob orderID sd price = Ret (ob', b) →
  sideLevels (opposite sd) ob' = sideLevels (opposite sd) ob
  ∧ sidePrices (opposite sd) ob' = sidePrices (opposite sd) ob
  ∧ OrderBook.Symbol ob' = OrderBook.Symbol ob.
Proof.
  destruct price as [k|]; [|unfold RemoveOrder; by intros [= <- <-]].
  rewrite RemoveOrder_side. intros ([[m ps] b'] & _ & [= <- <-])%bind_Ret.
  by rewrite sideLevels_setSide_opposite, sidePrices_setSide_opposite, Symbol_setSide.
Qed.

Lemma match_run_own_side sd wp executedAt sA sB :
  match_run sd wp executedAt sA sB →
  sideLevels sd (MatchState.book sB) = sideLevels sd (MatchState.book sA)
  ∧ sidePrices sd (MatchState.book sB) = sidePrices sd (MatchState.book sA)
  ∧ OrderBook.Symbol (MatchState.book sB) = OrderBook.Symbol (MatchState.book sA).
Proof.
  induction 1 as [st | st st' st'' w r p k trade Hbody Hts Hrun IH]; [done|].
  destruct IH as (-> & -> & ->).
  pose proof (ts_book _ _ _ _ _ _ _ _ _ _ Hts) as Hbook.
  destruct (ts_resting _ _ _ _ _ _ _ _ _ _ Hts) as (_ & Hside & _).
  case_bool_decide; [|by rewrite Hbook].
  destruct Hbook as (h3 & _ & _ & Hrm). apply RemoveOrder_other_side in Hrm.
  by rewrite Hside, opposite_opposite in Hrm.
Qed.

Lemma match_run_heap_frame sd wp executedAt sA sB :
  match_run sd wp executedAt sA sB →
  ∃ ps, MatchState.updated sB = MatchState.updated sA ++ ps
    ∧ ∀ q, q ≠ wp → q ∉ ps → MatchState.heap sB !! q = MatchState.heap sA !! q.
Proof.
  induction 1 as [st | st st' st'' w r p k trade Hbody Hts Hrun IH].
  { exists []. by rewrite app_nil_r. }
  destruct IH as (ps & Hps & Hfr). exists (p :: ps). split.
  - by rewrite Hps, (ts_updated _ _ _ _ _ _ _ _ _ _ Hts), <- app_assoc.
  - intros q Hq1 [Hq2 Hq3]%not_elem_of_cons. rewrite Hfr by done.
    by apply (ts_frame _ _ _ _ _ _ _ _ _ _ Hts).
Qed.

(** ** [Match] as a whole *)

Lemma Match_facts h incomingOrder ob executedAt :
  book_inv h ob →
  let sd := Order.Side incomingOrder in
  let wp := length h in
  ∃ st q,
    Match h incomingOrder ob executedAt
    = Ret (finalize wp st (Order.setRemainingQuantity q incomingOrder))
    ∧ MatchState.heap st !! wp = Some (Order.setRemainingQuantity q incomingOrder)
    ∧ book_inv (MatchState.heap st) (MatchState.book st)
    ∧ match_run sd wp executedAt (matchStart h incomingOrder ob) st
    ∧ q = Order.RemainingQuantity incomingOrder - tradedQuantity (MatchState.trades st)
    ∧ Forall (trade_of sd incomingOrder executedAt) (MatchState.trades st)
    ∧ (∀ t, t ∈ MatchState.trades st → is_Some (oppositeLevels sd ob !! Trade.Price t))
    ∧ StronglySorted (λ t1 t2, at_least_as_good sd (Trade.Price t1) (Trade.Price t2))
        (MatchState.trades st)
    ∧ (∀ t k', t ∈ MatchState.trades st →
         is_Some (oppositeLevels sd (MatchState.book st) !! k') →
         at_least_as_good sd (Trade.Price t) k')
    ∧ (q = 0 ∨ oppositeLevels sd (MatchState.book st) = ∅
       ∨ (Order.Type_ incomingOrder = OrderTypeLimit
          ∧ ∀ k, Order.Price incomingOrder = Some k →
                 beats_opposite sd k (MatchState.book st))).
Proof.
  intros Hinv sd wp.
  assert (book_inv (h ++ [incomingOrder]) ob) as Hinv0
    by (eapply book_inv_heap_ext; [apply heap_ext_app | done]).
  destruct (Match_run h incomingOrder ob executedAt Hinv)
    as (st & q & Hloop & Hrun & [Hw Hexit] & Hinv' & HM).
  fold sd wp in Hrun, Hw, Hexit, HM.
  assert (MatchState.heap (matchStart h incomingOrder ob) !! wp = Some incomingOrder) as Hw0.
  { simpl. by apply list_lookup_middle. }
  destruct (match_run_facts _ _ _ _ _ Hrun incomingOrder Hinv0 Hw0)
    as (ts & Hts & HwB & Hall & Hkeys & Hsorted & Hleft). simpl in Hts. subst ts.
  exists st, q. split; [done|]. split; [done|]. split; [done|]. split; [done|].
  split.
  { rewrite Hw in HwB. by injection HwB as Heq. }
  split; [done|]. split; [done|]. split; [done|]. split; [done|].
  destruct Hexit as [Hz | [Hnone | (p & r & Hbest & Hr & Hcan)]].
  - by left.
  - right. left. apply map_empty. by eapply bestOpposite_None.
  - right. right.
    assert (Order.Type_ incomingOrder = OrderTypeLimit) as Hty.
    { unfold canMatch in Hcan. simpl in Hcan. by destruct (Order.Type_ incomingOrder). }
    split; [done|]. intros k Hk k' Hk'.
    destruct (bestOpposite_Some _ _ _ _ Hinv' Hbest)
      as (k0 & pl & rest & r' & _ & _ & Hr' & (Hpr & _) & Hbetter).
    assert (r' = r) as -> by congruence. specialize (Hbetter k' Hk').
    unfold canMatch in Hcan. simpl in Hcan. rewrite Hty, Hk, Hpr in Hcan. fold sd in Hcan.
    destruct sd; apply bool_decide_eq_false_1 in Hcan; simpl in Hbetter; lia.
Qed.


(** X8. [Match] conserves quantity.  The quantities of the trades add up to
    what the incoming order has lost: a leftover is the working copy of a
    limit order and holds the incoming quantity less the traded one, which is
    not all of it; without leftover the working copy holds zero, and it is
    either Filled with the whole incoming quantity traded, or the Canceled
    copy of a market order of which part was not traded. *)
Theorem Match_conserves_quantity h incomingOrder ob executedAt :
  book_inv h ob →
  ∃ res ob' h' w',
    Match h incomingOrder ob executedAt = Ret (res, ob', h')
    ∧ h' !! length h = Some w'
    ∧ let filled := tradedQuantity (MatchResult.Trades res) in
      match MatchResult.IncomingOrderLeft res with
      | Some leftover =>
          leftover = length h ∧ Order.Type_ incomingOrder = OrderTypeLimit
          ∧ Order.RemainingQuantity w' = Order.RemainingQuantity incomingOrder - filled
          ∧ filled ≠ Order.RemainingQuantity incomingOrder
      | None =>
          Order.RemainingQuantity w' = 0
          ∧ ((Order.Status w' = OrderStatusFilled
              ∧ filled = Order.RemainingQuantity incomingOrder)
             ∨ (Order.Status w' = OrderStatusCanceled
                ∧ Order.Type_ incomingOrder = OrderTypeMarket
                ∧ filled ≠ Order.RemainingQuantity incomingOrder))
      end.
Proof.
  intros Hinv.
  destruct (Match_facts h incomingOrder ob executedAt Hinv)
    as (st & q & HM & Hw & _ & _ & Hq & _).
  destruct (finalize (length h) st (Order.setRemainingQuantity q incomingOrder))
    as [[res ob'] h'] eqn:Hfin.
  destruct (finalize_cases _ _ _ _ _ _ Hw Hfin) as (Htr & _ & _ & _ & w' & Hw' & Hcases).
  exists res, ob', h', w'. split; [done|]. split; [done|]. rewrite Htr. simpl in Hcases.
  destruct Hcases as [(Hz & -> & _ & ->) | [(Hnz & Hty & -> & _ & ->) | (Hnz & Hty & -> & _ & ->)]];
    simpl.
  - split; [done|]. left. split; [done|]. lia.
  - split; [done|]. split; [done|]. split; [|lia]. by case_bool_decide.
  - split; [done|]. right. split; [done|]. split; [done|]. lia.
Qed.

Lemma Match_conserves_quantity_witness :
  book_inv threeHeap threeBook
  ∧ ∃ res ob' h' w',
      Match threeHeap (buyAt 4 50000 12) threeBook 7 = Ret (res, ob', h')
      ∧ tradedQuantity (MatchResult.Trades res) = 9
      ∧ MatchResult.IncomingOrderLeft res = Some 3%nat
      ∧ h' !! 3%nat = Some w'
      ∧ Order.RemainingQuantity w' = 12 - 9.
Proof.
  split; [exact threeBook_inv|].
  destruct (Match_conserves_quantity threeHeap (buyAt 4 50000 12) threeBook 7 threeBook_inv)
    as (res & ob' & h' & w' & HM & Hw' & Hcons).
  exists res, ob', h', w'. split; [done|].
  assert (tradedQuantity (MatchResult.Trades res) = 9
          ∧ MatchResult.IncomingOrderLeft res = Some 3%nat) as [Hsum Hleft].
  { vm_compute in HM. injection HM as <- _ _. by vm_compute. }
  split; [done|]. split; [done|]. split; [done|].
  rewrite Hleft in Hcons. simpl in Hcons. destruct Hcons as (_ & _ & Hrem & _).
  by rewrite Hsum in Hrem.
Defined.

(** X9. What the trades of one call of [Match] carry.  Every trade has no
    ID yet, the symbol of the incoming order, the one timestamp of the call,
    and the incoming order on its own side; and a limit order never trades
    beyond its limit: a buy at a price at most its limit, a sell at a price
    at least its limit. *)
Theorem Match_trades_carry_the_incoming_order h incomingOrder ob executedAt :
  book_inv h ob →
  ∃ res ob' h',
    Match h incomingOrder ob executedAt = Ret (res, ob', h')
    ∧ ∀ t, t ∈ MatchResult.Trades res →
        Trade.ID t = 0 ∧ Trade.Symbol t = Order.Symbol incomingOrder
        ∧ Trade.ExecutedAt t = executedAt
        ∧ incomingID (Order.Side incomingOrder) t = Order.ID incomingOrder
        ∧ (Order.Type_ incomingOrder = OrderTypeLimit →
           ∀ limit, Order.Price incomingOrder = Some limit →
             match Order.Side incomingOrder with
             | OrderSideBuy => Trade.Price t ≤ limit
             | OrderSideSell => limit ≤ Trade.Price t
             end).
Proof.
  intros Hinv.
  destruct (Match_facts h incomingOrder ob executedAt Hinv)
    as (st & q & HM & Hw & _ & _ & _ & Hall & _).
  destruct (finalize (length h) st (Order.setRemainingQuantity q incomingOrder))
    as [[res ob'] h'] eqn:Hfin.
  destruct (finalize_cases _ _ _ _ _ _ Hw Hfin) as (Htr & _).
  exists res, ob', h'. split; [done|]. rewrite Htr. intros t Ht.
  rewrite Forall_forall in Hall. destruct (Hall t Ht) as (? & ? & ? & ? & Hlim).
  split; [done|]. split; [done|]. split; [done|]. split; [done|].
  intros Hty limit Hl. specialize (Hlim Hty limit Hl).
  by destruct (Order.Side incomingOrder).
Qed.

Lemma Match_trades_carry_the_incoming_order_witness :
  book_inv threeHeap threeBook
  ∧ ∃ res ob' h',
      Match threeHeap (buyAt 4 50000 12) threeBook 7 = Ret (res, ob', h')
      ∧ MatchResult.Trades res
        = [Trade.mk 0 "BTCUSD" 4 2 50000 5 7; Trade.mk 0 "BTCUSD" 4 3 50000 4 7]
      ∧ ∀ t, t ∈ MatchResult.Trades res →
          Trade.Symbol t = "BTCUSD" ∧ Trade.ExecutedAt t = 7 ∧ Trade.BuyOrderID t = 4
          ∧ Trade.Price t ≤ 50000.
Proof.
  split; [exact threeBook_inv|].
  destruct (Match_trades_carry_the_incoming_order threeHeap (buyAt 4 50000 12) threeBook 7
              threeBook_inv) as (res & ob' & h' & HM & Hall).
  exists res, ob', h'. split; [done|]. split.
  { vm_compute in HM. by injection HM as <- _ _. }
  intros t Ht. destruct (Hall t Ht) as (_ & Hs & Hat & Hid & Hlim).
  split; [done|]. split; [done|]. split; [done|]. by apply Hlim.
Defined.

(** X10. Price priority of the matcher.  The trades of one call are made in
    order of price, best for the incoming order first: ascending for a buy,
    descending for a sell.  Each trade price is the price of a level the
    opposite side had when [Match] was called, and no level that is left on
    the opposite side is strictly better than a price that was traded. *)
Theorem Match_trades_best_price_first h incomingOrder ob executedAt :
  book_inv h ob →
  let sd := Order.Side incomingOrder in
  ∃ res ob' h',
    Match h incomingOrder ob executedAt = Ret (res, ob', h')
    ∧ StronglySorted (λ t1 t2, at_least_as_good sd (Trade.Price t1) (Trade.Price t2))
        (MatchResult.Trades res)
    ∧ (∀ t, t ∈ MatchResult.Trades res →
         is_Some (oppositeLevels sd ob !! Trade.Price t))
    ∧ (∀ t k', t ∈ MatchResult.Trades res → is_Some (oppositeLevels sd ob' !! k') →
         at_least_as_good sd (Trade.Price t) k').
Proof.
  intros Hinv sd.
  destruct (Match_facts h incomingOrder ob executedAt Hinv)
    as (st & q & HM & Hw & _ & _ & _ & _ & Hkeys & Hsorted & Hleft & _).
  destruct (finalize (length h) st (Order.setRemainingQuantity q incomingOrder))
    as [[res ob'] h'] eqn:Hfin.
  destruct (finalize_cases _ _ _ _ _ _ Hw Hfin) as (Htr & -> & _).
  exists res, (MatchState.book st), h'. split; [done|]. by rewrite Htr.
Qed.

(** A market buy of 10 takes the ask at 50000 before the one at 50100. *)
Lemma Match_trades_best_price_first_witness :
  let h := [sellAt 1 50100 4; sellAt 2 50000 3] in
  let ob := OrderBook.mk "BTCUSD" ∅
              {[ 50000 := PriceLevel.mk 50000 [1%nat];
                 50100 := PriceLevel.mk 50100 [0%nat] ]}
              [] [50000; 50100] in
  let incoming := Order.mk 3 None "BTCUSD" OrderSideBuy OrderTypeMarket None 10 10
                    OrderStatusOpen 1 1 in
  ∃ res ob' h',
    Match h incoming ob 7 = Ret (res, ob', h')
    ∧ Trade.Price <$> MatchResult.Trades res = [50000; 50100]
    ∧ StronglySorted (λ t1 t2, Trade.Price t1 ≤ Trade.Price t2) (MatchResult.Trades res).
Proof.
  intros h ob incoming.
  assert (book_inv h ob) as Hinv.
  { split; [apply (book_inv_new h "BTCUSD")|]. split; simpl.
    - repeat constructor; unfold price_asc; lia.
    - intros k. rewrite !elem_of_cons, elem_of_nil. split.
      + intros [->|[->|[]]]; by eexists.
      + intros [pl [[<- _]|[_ [<- _]%lookup_singleton_Some]]%lookup_insert_Some]; auto.
    - intros k pl [[<- <-]|[_ [<- <-]%lookup_singleton_Some]]%lookup_insert_Some; done.
    - intros k pl [[<- <-]|[_ [<- <-]%lookup_singleton_Some]]%lookup_insert_Some; done.
    - intros k pl p [[<- <-]|[_ [<- <-]%lookup_singleton_Some]]%lookup_insert_Some Hp;
        simpl in Hp; apply list_elem_of_singleton in Hp as ->; by eexists. }
  destruct (Match_trades_best_price_first h incoming ob 7 Hinv)
    as (res & ob' & h' & HM & Hsorted & _).
  exists res, ob', h'. split; [done|]. split; [|exact Hsorted].
  vm_compute in HM. by injection HM as <- _ _.
Defined.

(** X11. [Match] stops only when nothing more can be matched.  If the
    incoming order is left over, no price of the opposite side that remains
    crosses its limit; if nothing is left over, either the whole incoming
    quantity was traded or the order is a market order and the opposite side
    has been emptied. *)
Theorem Match_stops_only_when_nothing_matches h incomingOrder ob executedAt :
  book_inv h ob →
  let sd := Order.Side incomingOrder in
  ∃ res ob' h',
    Match h incomingOrder ob executedAt = Ret (res, ob', h')
    ∧ match MatchResult.IncomingOrderLeft res with
      | Some _ =>
          Order.Type_ incomingOrder = OrderTypeLimit
          ∧ ∀ k, Order.Price incomingOrder = Some k → beats_opposite sd k ob'
      | None =>
          tradedQuantity (MatchResult.Trades res) = Order.RemainingQuantity incomingOrder
          ∨ (Order.Type_ incomingOrder = OrderTypeMarket ∧ oppositeLevels sd ob' = ∅)
      end.
Proof.
  intros Hinv sd.
  destruct (Match_facts h incomingOrder ob executedAt Hinv)
    as (st & q & HM & Hw & _ & _ & Hq & _ & _ & _ & _ & Hexit).
  destruct (finalize (length h) st (Order.setRemainingQuantity q incomingOrder))
    as [[res ob'] h'] eqn:Hfin.
  destruct (finalize_cases _ _ _ _ _ _ Hw Hfin) as (Htr & -> & _ & _ & w' & Hw' & Hcases).
  exists res, (MatchState.book st), h'. split; [done|]. rewrite Htr. simpl in Hcases.
  destruct Hcases as [(Hz & -> & _) | [(Hnz & Hty & -> & _) | (Hnz & Hty & -> & _)]].
  - left. lia.
  - split; [done|]. intros k Hk. destruct Hexit as [?|[Hempty|[_ Hbeats]]]; [done| |by apply Hbeats].
    intros k' Hk'. fold sd in Hempty. rewrite Hempty, lookup_empty in Hk'. by destruct Hk'.
  - right. split; [done|]. destruct Hexit as [?|[Hempty|[Hlim _]]]; [done|done|congruence].
Qed.

Lemma Match_stops_only_when_nothing_matches_witness :
  book_inv threeHeap threeBook
  ∧ ∃ res ob' h',
      Match threeHeap (buyAt 4 50000 12) threeBook 7 = Ret (res, ob', h')
      ∧ MatchResult.IncomingOrderLeft res = Some 3%nat
      ∧ ∀ k, Order.Price (buyAt 4 50000 12) = Some k → beats_opposite OrderSideBuy k ob'.
Proof.
  split; [exact threeBook_inv|].
  destruct (Match_stops_only_when_nothing_matches threeHeap (buyAt 4 50000 12) threeBook 7
              threeBook_inv) as (res & ob' & h' & HM & Hstop).
  exists res, ob', h'. split; [done|].
  assert (MatchResult.IncomingOrderLeft res = Some 3%nat) as Hleft.
  { vm_compute in HM. by injection HM as <- _ _. }
  split; [done|]. rewrite Hleft in Hstop. by destruct Hstop.
Defined.

(** X12. [Match] touches only what it reports.  The side of the book the
    incoming order would rest on, its cached prices and the symbol are as
    they were; the opposite side has lost levels or orders and gained none;
    the heap has grown by the working copy alone; every updated order is the
    working copy or an order that rested on the opposite side; and every
    order that is not in the updated list is unchanged. *)
Theorem Match_touches_only_what_it_reports h incomingOrder ob executedAt :
  book_inv h ob →
  let sd := Order.Side incomingOrder in
  ∃ res ob' h',
    Match h incomingOrder ob executedAt = Ret (res, ob', h')
    ∧ sideLevels sd ob' = sideLevels sd ob
    ∧ sidePrices sd ob' = sidePrices sd ob
    ∧ OrderBook.Symbol ob' = OrderBook.Symbol ob
    ∧ levels_sub (oppositeLevels sd ob') (oppositeLevels sd ob)
    ∧ length h' = S (length h)
    ∧ (∀ p, p ∈ MatchResult.UpdatedOrders res →
         p = length h ∨ rests (oppositeLevels sd ob) p)
    ∧ (∀ p, (p < length h)%nat → p ∉ MatchResult.UpdatedOrders res → h' !! p = h !! p).
Proof.
  intros Hinv sd.
  assert (book_inv (h ++ [incomingOrder]) ob) as Hinv0
    by (eapply book_inv_heap_ext; [apply heap_ext_app | done]).
  destruct (Match_facts h incomingOrder ob executedAt Hinv)
    as (st & q & HM & Hw & _ & Hrun & _).
  destruct (finalize (length h) st (Order.setRemainingQuantity q incomingOrder))
    as [[res ob'] h'] eqn:Hfin.
  destruct (finalize_cases _ _ _ _ _ _ Hw Hfin) as (_ & -> & Hlen & Hsame & w' & Hw' & Hcases).
  destruct (match_run_own_side _ _ _ _ _ Hrun) as (Hl & Hp & Hsy).
  destruct (match_run_heap_frame _ _ _ _ _ Hrun) as (ps & Hps & Hfr).
  destruct (match_run_inv _ _ _ _ _ Hrun Hinv0) as (_ & _ & Hsub & Hlen').
  destruct (match_run_updated _ _ _ _ _ Hrun Hinv0) as (l & Hl' & Hin).
  simpl in Hl, Hp, Hsy, Hps, Hfr, Hsub, Hlen', Hl', Hin. subst l.
  exists res, (MatchState.book st), h'. split; [done|]. split; [done|]. split; [done|].
  split; [done|]. split.
  { destruct Hsub as (_ & Hb & Ha). by destruct sd. }
  split; [by rewrite Hlen, Hlen', length_app, Nat.add_1_r|].
  assert (∀ p, p ∈ MatchState.updated st → rests (oppositeLevels sd ob) p) as Hold.
  { intros p Hp'. by destruct (Hin p Hp'). }
  assert (∀ p, p ∈ MatchResult.UpdatedOrders res → p = length h ∨ p ∈ MatchState.updated st)
    as Hupd.
  { intros p. destruct Hcases as [(_ & _ & -> & _) | [(_ & _ & _ & -> & _) | (_ & _ & _ & -> & _)]];
      rewrite ?elem_of_app, ?list_elem_of_singleton; tauto. }
  split.
  - intros p Hp'. destruct (Hupd p Hp') as [?|?]; [by left | right; by apply Hold].
  - intros p Hlt Hnot. rewrite Hsame by lia.
    rewrite Hfr; [by apply lookup_app_l | lia |].
    intros Hp'. apply Hnot. rewrite <- Hps in Hp'.
    destruct Hcases as [(_ & _ & -> & _) | [(_ & _ & _ & -> & _) | (_ & _ & _ & -> & _)]];
      rewrite ?elem_of_app; tauto.
Qed.

(** A buy of 3 at 50000 against the three-order book: the bid side and the
    second ask are untouched. *)
Lemma Match_touches_only_what_it_reports_witness :
  book_inv threeHeap threeBook
  ∧ ∃ res ob' h',
      Match threeHeap (buyAt 4 50000 3) threeBook 7 = Ret (res, ob', h')
      ∧ MatchResult.UpdatedOrders res = [1%nat; 3%nat]
      ∧ OrderBook.Bids ob' = OrderBook.Bids threeBook
      ∧ h' !! 0%nat = threeHeap !! 0%nat ∧ h' !! 2%nat = threeHeap !! 2%nat.
Proof.
  split; [exact threeBook_inv|].
  destruct (Match_touches_only_what_it_reports threeHeap (buyAt 4 50000 3) threeBook 7
              threeBook_inv) as (res & ob' & h' & HM & Hl & _ & _ & _ & _ & _ & Hfr).
  exists res, ob', h'. split; [done|].
  assert (MatchResult.UpdatedOrders res = [1%nat; 3%nat]) as Hupd.
  { vm_compute in HM. by injection HM as <- _ _. }
  split; [done|]. split; [exact Hl|]. rewrite Hupd in Hfr.
  split; apply Hfr; simpl; try lia;
    rewrite !elem_of_cons, elem_of_nil; intros [?|[?|[]]]; lia.
Defined.

(** ** Quantities stay in range *)

Lemma rests_side h ob sd p o :
  book_inv h ob → rests (sideLevels sd ob) p → h !! p = Some o → Order.Side o = sd.
Proof.
  intros Hinv (k & pl & Hm & Hp) Ho.
  destruct (si_orders _ _ _ _ _ (book_inv_side h ob sd Hinv) _ _ _ Hm Hp) as (o' & Ho' & _ & ? & _).
  congruence.
Qed.

Lemma match_run_live sd wp executedAt sA sB :
  match_run sd wp executedAt sA sB →
  ∀ wA, book_inv (MatchState.heap sA) (MatchState.book sA) →
  book_nodup (MatchState.book sA) →
  book_live (MatchState.heap sA) (MatchState.book sA) →
  MatchState.heap sA !! wp = Some wA → 0 ≤ Order.RemainingQuantity wA →
  ¬ rests_in (MatchState.book sA) wp →
  book_live (MatchState.heap sB) (MatchState.book sB)
  ∧ (∃ wB, MatchState.heap sB !! wp = Some wB
           ∧ 0 ≤ Order.RemainingQuantity wB ≤ Order.RemainingQuantity wA)
  ∧ ∃ ts ps,
      MatchState.trades sB = MatchState.trades sA ++ ts
      ∧ MatchState.updated sB = MatchState.updated sA ++ ps
      ∧ Forall (λ t, 0 < Trade.Quantity t) ts
      ∧ ∀ p, p ∈ ps →
          ∃ o, MatchState.heap sB !! p = Some o
               ∧ 0 ≤ Order.RemainingQuantity o ≤ Order.InitialQuantity o
               ∧ Order.Status o = tradeStatus (Order.RemainingQuantity o).
Proof.
  induction 1 as [st | st st' st'' w r p k trade Hbody Hts Hrun IH];
    intros wA Hinv Hnd Hlive HwA Hpos Hfresh.
  { split; [done|]. split; [exists wA; split; [done | lia]|].
    exists [], []. rewrite !app_nil_r. split; [done|]. split; [done|].
    split; [constructor | by intros ? ?%elem_of_nil]. }
  destruct (trade_step_progress _ _ _ _ _ _ _ _ _ _ Hinv Hts) as (Hinv' & Hext & Hsub & _).
  pose proof (trade_step_nodup _ _ _ _ _ _ _ _ _ _ Hinv Hnd Hts) as Hnd'.
  pose proof Hts as [Hw Hsd Hrem Hbest Hr Hro Hcan Htrade Htr Hup Hne Hw' Hr' Hframe Hlen Hbook].
  assert (w = wA) as -> by congruence.
  destruct (bestOpposite_Some _ _ _ _ Hinv Hbest) as (k0 & pl & rest & r0 & Hm & Hlv & Hr0 & _).
  assert (rests_in (MatchState.book st) p) as Hpin.
  { apply rests_in_sides. exists (opposite sd). rewrite sideLevels_opposite.
    exists k0, pl. split; [done|]. rewrite Hlv. by left. }
  destruct (Hlive p Hpin) as (r1 & Hr1 & [[Hrpos Hrinit] Hrst]).
  assert (r1 = r) as -> by congruence.
  pose proof (executeTrade_qty _ _ _ _ Htrade) as (Hq & _).
  assert (0 < Trade.Quantity trade
          ∧ Trade.Quantity trade ≤ Order.RemainingQuantity wA
          ∧ Trade.Quantity trade ≤ Order.RemainingQuantity r) as (Hq0 & Hqw & Hqr) by lia.
  assert (¬ rests_in (MatchState.book st') wp) as Hfresh'.
  { intros Hx. apply Hfresh. by eapply rests_in_sub. }
  assert (book_live (MatchState.heap st') (MatchState.book st')) as Hlive'.
  { intros x Hx.
    assert (x ≠ wp) as Hxw by (by intros ->).
    destruct (decide (x = p)) as [->|Hxp].
    - eexists. split; [exact Hr'|].
      destruct (decide (Order.RemainingQuantity r - Trade.Quantity trade = 0)) as [Hz|Hz].
      + exfalso. rewrite bool_decide_eq_true_2 in Hbook by done.
        destruct Hbook as (h3 & Hext1 & _ & Hrm).
        destruct (Hext1 p r Hr) as (r3 & Hr3 & Hid & Hpr & Hs & _).
        rewrite <- Hid, <- Hpr, <- Hs in Hrm.
        assert (book_inv h3 (MatchState.book st)) as Hinv3 by (by eapply book_inv_heap_ext).
        pose proof (RemoveOrder_best_gone sd h3 _ p r3 _ _ Hinv3 Hnd Hbest Hr3 Hrm) as Hgone.
        apply rests_in_sides in Hx as [sd' Hx].
        pose proof (rests_side _ _ _ _ _ Hinv' Hx Hr') as Hside. simpl in Hside.
        destruct Hro as (_ & Hrs & _). rewrite Hrs in Hside. subst sd'.
        by rewrite sideLevels_opposite in Hx.
      + unfold restingAfter, order_live, tradeStatus. simpl.
        rewrite bool_decide_eq_false_2 by done. split; [lia | by right].
    - destruct (Hlive x) as (o & Ho & Hol); [by eapply rests_in_sub|].
      exists o. split; [|done]. by rewrite Hframe. }
  destruct (IH _ Hinv' Hnd' Hlive' Hw') as (HliveB & (wB & HwB & HwBr) & ts & ps & Hts' & Hps & Hall & Hupd);
    [simpl; lia | done |].
  simpl in HwBr.
  split; [done|]. split; [exists wB; split; [done | lia]|].
  exists (trade :: ts), (p :: ps).
  split; [by rewrite Hts', Htr, <- app_assoc|].
  split; [by rewrite Hps, Hup, <- app_assoc|].
  split; [by constructor|].
  intros x Hx. destruct (decide (x ∈ ps)) as [Hin|Hnotin]; [by apply Hupd|].
  apply elem_of_cons in Hx as [->|?]; [|done].
  destruct (match_run_heap_frame _ _ _ _ _ Hrun) as (ps' & Hps' & Hfr).
  assert (ps' = ps) as -> by (apply (app_inv_head (MatchState.updated st')); congruence).
  eexists. rewrite Hfr by done. split; [exact Hr'|].
  unfold restingAfter. simpl. split; [lia | done].
Qed.

(** X13. [Match] keeps every quantity in range.  On a book whose resting
    orders are live (something remains of each, not more than its initial
    quantity, status open or partially filled), for an incoming open order
    with a positive quantity: every trade has a positive quantity; the
    orders still resting are live; every updated order has a remaining
    quantity between zero and its initial quantity, and is filled or
    canceled exactly when nothing remains and partially filled otherwise;
    and a leftover is live. *)
Theorem Match_keeps_orders_live h incomingOrder ob executedAt :
  book_inv h ob → book_nodup ob → book_live h ob →
  0 < Order.RemainingQuantity incomingOrder ≤ Order.InitialQuantity incomingOrder →
  Order.Status incomingOrder = OrderStatusOpen →
  ∃ res ob' h',
    Match h incomingOrder ob executedAt = Ret (res, ob', h')
    ∧ book_live h' ob'
    ∧ Forall (λ t, 0 < Trade.Quantity t) (MatchResult.Trades res)
    ∧ (∀ p, p ∈ MatchResult.UpdatedOrders res → ∃ o, h' !! p = Some o ∧ order_settled o)
    ∧ match MatchResult.IncomingOrderLeft res with
      | Some leftover => ∃ w', h' !! leftover = Some w' ∧ order_live w'
      | None => True
      end.
Proof.
  intros Hinv Hnd Hlive Hqty Hopen.
  assert (heap_ext h (h ++ [incomingOrder])) as Hext0 by apply heap_ext_app.
  assert (book_inv (h ++ [incomingOrder]) ob) as Hinv0 by (by eapply book_inv_heap_ext).
  assert (∀ p, rests_in ob p → (p < length h)%nat) as Hold.
  { intros p [sd' (k & pl & Hm & Hp)]%rests_in_sides.
    destruct (si_orders _ _ _ _ _ (book_inv_side h ob sd' Hinv) _ _ _ Hm Hp) as (o & Ho & _).
    by eapply lookup_lt_Some. }
  destruct (Match_facts h incomingOrder ob executedAt Hinv)
    as (st & q & HM & Hw & _ & Hrun & _).
  destruct (match_run_live _ _ _ _ _ Hrun incomingOrder Hinv0 Hnd)
    as (HliveB & (wB & HwB & HwBr) & ts & ps & Hts & Hps & Hall & Hupd).
  { intros p Hp. destruct (Hlive p Hp) as (o & Ho & Hol). exists o. split; [|done].
    simpl. by apply lookup_app_l_Some. }
  { simpl. by apply list_lookup_middle. }
  { lia. }
  { simpl. intros Hx%Hold. lia. }
  simpl in Hts, Hps. subst ts ps.
  assert (wB = Order.setRemainingQuantity q incomingOrder) as -> by congruence.
  simpl in HwBr.
  destruct (match_run_inv _ _ _ _ _ Hrun Hinv0) as (_ & _ & Hsub & _). simpl in Hsub.
  destruct (finalize (length h) st (Order.setRemainingQuantity q incomingOrder))
    as [[res ob'] h'] eqn:Hfin.
  destruct (finalize_cases _ _ _ _ _ _ Hw Hfin) as (Htr & -> & Hlen & Hsame & w' & Hw' & Hcases).
  exists res, (MatchState.book st), h'. split; [done|].
  assert (∀ p, rests_in (MatchState.book st) p → p ≠ length h) as Hne.
  { intros p Hp%(rests_in_sub _ _ _ Hsub)%Hold. lia. }
  split.
  { intros p Hp. destruct (HliveB p Hp) as (o & Ho & Hol). exists o.
    split; [|done]. rewrite Hsame; [done | by apply Hne]. }
  split; [by rewrite Htr|].
  assert (∀ p, p ∈ MatchState.updated st → p ≠ length h →
            ∃ o, h' !! p = Some o ∧ order_settled o) as Hold'.
  { intros p Hp Hpw. destruct (Hupd p Hp) as (o & Ho & Hr & Hst). exists o.
    split; [by rewrite Hsame|]. split; [done|]. rewrite Hst. unfold tradeStatus.
    split; intros Hz; [rewrite bool_decide_eq_true_2 by done; by left
                      | by rewrite bool_decide_eq_false_2]. }
  simpl in Hcases.
  destruct Hcases as [(Hz & -> & -> & ->) | [(Hnz & Hty & -> & -> & ->) | (Hnz & Hty & -> & -> & ->)]].
  - split; [|done]. intros p Hp. destruct (decide (p = length h)) as [->|Hpw].
    + eexists. split; [exact Hw'|]. split; [simpl; lia|]. simpl. split; [by left | done].
    + apply elem_of_app in Hp as [Hp|Hp%list_elem_of_singleton]; [by apply Hold' | done].
  - assert (order_live (if bool_decide (q < Order.InitialQuantity incomingOrder)
                        then Order.setStatus OrderStatusPartiallyFilled
                               (Order.setRemainingQuantity q incomingOrder)
                        else Order.setRemainingQuantity q incomingOrder)) as Hwl.
    { case_bool_decide; split; simpl; try lia; [by right | by left]. }
    split; [|by eexists].
    intros p Hp. destruct (decide (p = length h)) as [->|Hpw]; [|by apply Hold'].
    eexists. split; [exact Hw'|]. destruct Hwl as [Hr Hst]. split; [lia|].
    split; [lia|]. intros _. revert Hw' Hst Hr. case_bool_decide; simpl; [done|].
    intros _ _ _.
    destruct (Hupd _ Hp) as (o & Ho & _ & Hst). rewrite Hw in Ho. injection Ho as <-.
    simpl in Hst. unfold tradeStatus in Hst. rewrite bool_decide_eq_false_2 in Hst by done.
    done.
  - split; [|done]. intros p Hp. destruct (decide (p = length h)) as [->|Hpw].
    + eexists. split; [exact Hw'|]. split; [simpl; lia|]. simpl. split; [by right | done].
    + apply elem_of_app in Hp as [Hp|Hp%list_elem_of_singleton]; [by apply Hold' | done].
Qed.

Lemma threeBook_nodup : book_nodup threeBook.
Proof.
  split; intros k pl Hm; simpl in Hm; apply lookup_singleton_Some in Hm as [<- <-]; simpl.
  - repeat constructor. by intros ?%elem_of_nil.
  - repeat constructor; [|by intros ?%elem_of_nil].
    by intros ?%list_elem_of_singleton.
Qed.

Lemma threeBook_live : book_live threeHeap threeBook.
Proof.
  intros p [(k & pl & Hm & Hp)|(k & pl & Hm & Hp)]; simpl in Hm;
    apply lookup_singleton_Some in Hm as [<- <-]; simpl in Hp.
  - apply list_elem_of_singleton in Hp as ->. eexists. split; [reflexivity|].
    split; [simpl; lia | by left].
  - apply elem_of_cons in Hp as [->|Hp].
    + eexists. split; [reflexivity|]. split; [simpl; lia | by left].
    + apply list_elem_of_singleton in Hp as ->. eexists. split; [reflexivity|].
      split; [simpl; lia | by left].
Qed.

(** A buy of 7 at 50000 fills the first ask and takes 2 of the second. *)
Lemma Match_keeps_orders_live_witness :
  ∃ res ob' h',
    Match threeHeap (buyAt 4 50000 7) threeBook 7 = Ret (res, ob', h')
    ∧ Trade.Quantity <$> MatchResult.Trades res = [5; 2]
    ∧ book_live h' ob'
    ∧ Forall (λ t, 0 < Trade.Quantity t) (MatchResult.Trades res)
    ∧ ∀ p, p ∈ MatchResult.UpdatedOrders res → ∃ o, h' !! p = Some o ∧ order_settled o.
Proof.
  destruct (Match_keeps_orders_live threeHeap (buyAt 4 50000 7) threeBook 7
              threeBook_inv threeBook_nodup threeBook_live)
    as (res & ob' & h' & HM & Hlive & Hpos & Hupd & _); [simpl; lia | reflexivity |].
  exists res, ob', h'. split; [done|]. split; [|done].
  vm_compute in HM. by injection HM as <- _ _.
Defined.

(** * Further properties of the engine *)

(** ** The statements of [PlaceOrder] *)

Lemma persistTrades_ok fl trades : ∀ n tx tx',
  persistTrades fl n tx trades = (tx', true) →
  tx' = DB.mk (DB.orders tx) (DB.trades tx ++ storedTrades (DB.lastTradeID tx) trades)
          (DB.lastOrderID tx) (DB.lastTradeID tx + Z.of_nat (length trades)).
Proof.
  induction trades as [|t rest IH]; intros n tx tx'; unfold persistTrades; fold persistTrades.
  - intros [= <-]. rewrite app_nil_r. destruct tx; simpl. f_equal. lia.
  - destruct (fl n); [done|]. intros ->%IH. simpl. rewrite <- app_assoc. simpl.
    f_equal. lia.
Qed.

Lemma persistTrades_orders fl trades : ∀ n tx tx' ok,
  persistTrades fl n tx trades = (tx', ok) →
  DB.orders tx' = DB.orders tx ∧ DB.lastOrderID tx' = DB.lastOrderID tx.
Proof.
  induction trades as [|t rest IH]; intros n tx tx' ok; unfold persistTrades; fold persistTrades.
  - by intros [= <- <-].
  - destruct (fl n); [by intros [= <- <-]|]. by intros [? ?]%IH.
Qed.

Lemma persistUpdates_ok fl (h : list Order.t) updated : ∀ n tx tx',
  persistUpdates fl n tx h updated = Ret (tx', None) →
  tx' = DB.mk (updatedRows h updated (DB.orders tx)) (DB.trades tx)
          (DB.lastOrderID tx) (DB.lastTradeID tx).
Proof.
  induction updated as [|p rest IH]; intros n tx tx'; unfold persistUpdates; fold persistUpdates.
  - intros [= <-]. by destruct tx.
  - intros (u & Hu%deref_Ret & H)%bind_Ret. destruct (fl n); [done|].
    apply IH in H as ->. simpl. by rewrite Hu.
Qed.

Lemma persistUpdates_counter fl (h : list Order.t) updated : ∀ n tx tx' failed,
  persistUpdates fl n tx h updated = Ret (tx', failed) →
  DB.lastOrderID tx' = DB.lastOrderID tx.
Proof.
  induction updated as [|p rest IH]; intros n tx tx' failed;
    unfold persistUpdates; fold persistUpdates.
  - by intros [= <- <-].
  - intros (u & Hu%deref_Ret & H)%bind_Ret. destruct (fl n); [by injection H as <- <-|].
    by apply IH in H as ->.
Qed.

(** Everything a call of [PlaceOrder] that returns has done. *)
Lemma PlaceOrder_inv fl now executedAt e req result e' :
  PlaceOrder fl now executedAt e req = Ret (result, e') →
  let db := Engine.db e in
  let symbol := CreateOrderRequest.Symbol req in
  let incoming := Order.setID (DB.lastOrderID db + 1) (newOrder now req) in
  (e' = e ∧ ∃ err, result = inl err)
  ∨ (Engine.orderBooks e' = Engine.orderBooks e ∧ Engine.heap e' = Engine.heap e
     ∧ same_tables db (Engine.db e')
     ∧ DB.lastOrderID (Engine.db e') = DB.lastOrderID db + 1
     ∧ ∃ err, result = inl err)
  ∨ ∃ ob books res ob' h' ob'',
      getOrderBook (Engine.orderBooks e) symbol = (ob, books)
      ∧ Match (Engine.heap e) incoming ob executedAt = Ret (res, ob', h')
      ∧ Engine.orderBooks e' = <[symbol := ob'']> books
      ∧ Engine.heap e' = h'
      ∧ DB.lastOrderID (Engine.db e') = DB.lastOrderID db + 1
      ∧ (ob'' = ob'
         ∨ ∃ leftover, MatchResult.IncomingOrderLeft res = Some leftover
                       ∧ AddOrder h' ob' leftover = Ret ob'')
      ∧ match result with
        | inl _ => same_tables db (Engine.db e')
        | inr (order, trades) =>
            trades = MatchResult.Trades res
            ∧ DB.orders (Engine.db e')
              = updatedRows h' (MatchResult.UpdatedOrders res)
                  (<[Order.ID incoming := incoming]> (DB.orders db))
            ∧ DB.trades (Engine.db e')
              = DB.trades db ++ storedTrades (DB.lastTradeID db) trades
            ∧ DB.lastTradeID (Engine.db e')
              = DB.lastTradeID db + Z.of_nat (length trades)
            ∧ match MatchResult.IncomingOrderLeft res with
              | Some leftover =>
                  AddOrder h' ob' leftover = Ret ob'' ∧ h' !! leftover = Some order
              | None =>
                  ob'' = ob'
                  ∧ ∃ u, findUpdated h' (MatchResult.UpdatedOrders res) (Order.ID incoming)
                         = Ret u
                         ∧ order = default incoming u
              end
        end.
Proof.
  intros H db symbol incoming. revert H. unfold PlaceOrder. fold db symbol.
  destruct (fl 0%nat); [intros [= <- <-]; left; eauto|].
  destruct (fl 1%nat); [intros [= <- <-]; left; eauto|].
  cbn [mbind exec_mbind exec_bind negb execInsertOrder]. destruct (fl 2%nat).
  { intros [= <- <-]. right. left. simpl. split; [done|]. split; [done|].
    split; [by split|]. split; [done|]. by eexists. }
  fold incoming.
  destruct (getOrderBook (Engine.orderBooks e) symbol) as [ob books] eqn:Hget.
  intros ([[res ob'] h'] & HM & H)%bind_Ret. right. right.
  exists ob, books, res, ob', h'.
  destruct (persistTrades fl 3 _ (MatchResult.Trades res)) as [tx ok] eqn:Htr.
  pose proof (persistTrades_orders _ _ _ _ _ _ Htr) as [Hto Htc]. simpl in Hto, Htc.
  destruct ok; cbn [negb] in H.
  2:{ injection H as <- <-. exists ob'. simpl. rewrite Htc.
      split; [done|]. split; [done|]. split; [done|]. split; [done|]. split; [done|].
      split; [by left | by split]. }
  apply persistTrades_ok in Htr. simpl in Htr.
  apply bind_Ret in H as ([tx' failed] & Hup & H).
  pose proof (persistUpdates_counter _ _ _ _ _ _ _ Hup) as Huc.
  destruct failed as [id|].
  { injection H as <- <-. exists ob'. simpl. rewrite Huc, Htc.
    split; [done|]. split; [done|]. split; [done|]. split; [done|]. split; [done|].
    split; [by left | by split]. }
  apply persistUpdates_ok in Hup.
  apply bind_Ret in H as ([ob'' order] & Hleft & H). exists ob''.
  assert ((ob'' = ob'
           ∨ ∃ leftover, MatchResult.IncomingOrderLeft res = Some leftover
                         ∧ AddOrder h' ob' leftover = Ret ob'')
          ∧ match MatchResult.IncomingOrderLeft res with
            | Some leftover =>
                AddOrder h' ob' leftover = Ret ob'' ∧ h' !! leftover = Some order
            | None =>
                ob'' = ob'
                ∧ ∃ u, findUpdated h' (MatchResult.UpdatedOrders res) (Order.ID incoming)
                       = Ret u
                       ∧ order = default incoming u
            end) as [Hbook Horder].
  { destruct (MatchResult.IncomingOrderLeft res) as [leftover|].
    - apply bind_Ret in Hleft as (ob3 & Hadd & Hleft).
      apply bind_Ret in Hleft as (o & Ho%deref_Ret & [= <- <-]). split; [right|]; eauto.
    - apply bind_Ret in Hleft as (u & Hu & [= <- <-]). split; [by left|]. eauto. }
  destruct (fl _).
  { injection H as <- <-. simpl. rewrite Huc, Htc.
    split; [done|]. split; [done|]. split; [done|]. split; [done|]. split; [done|].
    split; [done | by split]. }
  injection H as <- <-. simpl. rewrite Hup, Htr. simpl.
  split; [done|]. split; [done|]. split; [done|]. split; [done|]. split; [done|].
  split; [done|]. done.
Qed.

(** ** What the engine needs to know of [Match] *)

Lemma same_order_refl o : same_order o o.
Proof. by repeat split. Qed.

Lemma same_order_sym o o' : same_order o o' → same_order o' o.
Proof. intros (? & ? & ? & ? & ? & ?). by repeat split. Qed.

Lemma same_order_trans o1 o2 o3 : same_order o1 o2 → same_order o2 o3 → same_order o1 o3.
Proof.
  intros (? & ? & ? & ? & ? & ?) (? & ? & ? & ? & ? & ?). repeat split; congruence.
Qed.

Lemma heap_ext_same (h h' : list Order.t) p o o' :
  heap_ext h h' → h !! p = Some o → h' !! p = Some o' → same_order o o'.
Proof.
  intros Hext Ho Ho'. destruct (Hext p o Ho) as (o'' & Ho'' & H).
  assert (o'' = o') as -> by congruence. done.
Qed.

Lemma match_run_prices_nodup sd wp executedAt sA sB :
  match_run sd wp executedAt sA sB →
  book_inv (MatchState.heap sA) (MatchState.book sA) →
  prices_nodup (MatchState.book sA) → prices_nodup (MatchState.book sB).
Proof.
  induction 1 as [st | st st' st'' w r p k trade Hbody Hts Hrun IH]; intros Hinv Hnd; [done|].
  destruct (trade_step_progress _ _ _ _ _ _ _ _ _ _ Hinv Hts) as (Hinv' & _).
  apply IH; [done|]. pose proof (ts_book _ _ _ _ _ _ _ _ _ _ Hts) as Hbook.
  case_bool_decide; [|by rewrite Hbook].
  destruct Hbook as (h3 & Hext & _ & Hrm).
  eapply RemoveOrder_prices_nodup; [|done|exact Hrm]. by eapply book_inv_heap_ext.
Qed.

Lemma rests_in_allocated h ob p : book_inv h ob → rests_in ob p → is_Some (h !! p).
Proof.
  intros Hinv [sd' (k & pl & Hm & Hp)]%rests_in_sides.
  destruct (si_orders _ _ _ _ _ (book_inv_side h ob sd' Hinv) _ _ _ Hm Hp) as (o & Ho & _).
  by eexists.
Qed.

Lemma Match_engine h incomingOrder ob executedAt :
  book_inv h ob →
  let sd := Order.Side incomingOrder in
  let wp := length h in
  ∃ res ob' h' w' ps,
    Match h incomingOrder ob executedAt = Ret (res, ob', h')
    ∧ book_inv h' ob' ∧ heap_ext h h' ∧ book_sub ob' ob
    ∧ (book_nodup ob → book_nodup ob' ∧ NoDup ps)
    ∧ (prices_nodup ob → prices_nodup ob')
    ∧ length h' = S (length h)
    ∧ h' !! wp = Some w' ∧ same_order incomingOrder w'
    ∧ (∀ p, (p < wp)%nat → p ∉ ps → h' !! p = h !! p)
    ∧ (∀ p, p ∈ ps → (p < wp)%nat ∧ rests (oppositeLevels sd ob) p)
    ∧ ¬ rests_in ob' wp
    ∧ match MatchResult.IncomingOrderLeft res with
      | Some leftover =>
          leftover = wp ∧ MatchResult.UpdatedOrders res = ps
          ∧ Order.Type_ incomingOrder = OrderTypeLimit
          ∧ ∃ q, w' = (if bool_decide (q < Order.InitialQuantity incomingOrder)
                       then Order.setStatus OrderStatusPartiallyFilled
                              (Order.setRemainingQuantity q incomingOrder)
                       else Order.setRemainingQuantity q incomingOrder)
                 ∧ q = Order.RemainingQuantity incomingOrder
                       - tradedQuantity (MatchResult.Trades res)
      | None =>
          MatchResult.UpdatedOrders res = ps ++ [wp]
          ∧ ∃ st, w' = Order.setRemainingQuantity 0 (Order.setStatus st incomingOrder)
                  ∧ (st = OrderStatusFilled ∨ st = OrderStatusCanceled)
      end
    ∧ (book_nodup ob → book_live h ob →
       0 < Order.RemainingQuantity incomingOrder ≤ Order.InitialQuantity incomingOrder →
       Order.Status incomingOrder = OrderStatusOpen →
       book_live h' ob'
       ∧ (is_Some (MatchResult.IncomingOrderLeft res) → order_live w')).
Proof.
  intros Hinv sd wp.
  assert (book_inv (h ++ [incomingOrder]) ob) as Hinv0
    by (eapply book_inv_heap_ext; [apply heap_ext_app | done]).
  assert (∀ p, rests_in ob p → (p < wp)%nat) as Hold.
  { intros p [o Ho]%(rests_in_allocated h); [|done]. by eapply lookup_lt_Some. }
  destruct (Match_spec h incomingOrder ob executedAt Hinv)
    as (res & ob' & h' & HM0 & Hinv1 & Hext1 & Hsub1 & Hnd1 & _).
  destruct (Match_facts h incomingOrder ob executedAt Hinv)
    as (st & q & HM & Hw & Hinv' & Hrun & Hq & _).
  fold wp in HM, Hw, Hrun.
  rewrite HM0 in HM. injection HM as Hfin. symmetry in Hfin.
  destruct (finalize_cases _ _ _ _ _ _ Hw Hfin) as (Htr & Hob & Hlen & Hsame & w' & Hw' & Hcases).
  destruct (match_run_inv _ _ _ _ _ Hrun Hinv0) as (_ & Hext & Hsub & Hlen').
  destruct (match_run_heap_frame _ _ _ _ _ Hrun) as (ps & Hps & Hfr).
  destruct (match_run_updated _ _ _ _ _ Hrun Hinv0) as (l & Hl' & Hin).
  simpl in Hps, Hfr, Hsub, Hlen', Hl', Hin, Hext. subst l.
  assert (∀ p, p ∈ ps → (p < wp)%nat ∧ rests (oppositeLevels sd ob) p) as Hpsold.
  { intros p Hp. rewrite <- Hps in Hp. destruct (Hin p Hp) as [_ Hr]. split; [|done].
    apply Hold. apply rests_in_sides. exists (opposite sd). by rewrite sideLevels_opposite. }
  assert (¬ rests_in ob' wp) as Hfresh.
  { intros Hx%(rests_in_sub _ _ _ Hsub1)%Hold. lia. }
  exists res, ob', h', w', ps. split; [done|]. split; [done|]. split; [done|].
  split; [done|]. split.
  { intros Hnd. split; [by apply Hnd1|].
    destruct (match_run_updates _ _ _ _ _ Hrun Hinv0 Hnd) as (ps2 & ts2 & Hps2 & _ & _ & Hnodup & _).
    simpl in Hps2. congruence. }
  split.
  { intros Hnd. rewrite Hob. by eapply match_run_prices_nodup. }
  split; [by rewrite Hlen, Hlen', length_app, Nat.add_1_r|].
  split; [done|]. simpl in Hcases. split.
  { destruct Hcases as [(_ & _ & _ & ->) | [(_ & _ & _ & _ & ->) | (_ & _ & _ & _ & ->)]];
      try case_bool_decide; by repeat split. }
  split.
  { intros p Hlt Hnot. rewrite Hsame by lia. rewrite Hfr; [by apply lookup_app_l | lia | done]. }
  split; [done|]. split; [done|]. split.
  { destruct Hcases as [(Hz & -> & -> & ->) | [(Hnz & Hty & -> & -> & ->) | (Hnz & Hty & -> & -> & ->)]].
    - rewrite Hps. split; [done|]. exists OrderStatusFilled. rewrite Hz. split; [|by left].
      by destruct incomingOrder.
    - rewrite Hps. split; [done|]. split; [done|]. split; [done|]. exists q.
      split; [done|]. by rewrite <- Htr in Hq.
    - rewrite Hps. split; [done|]. exists OrderStatusCanceled. split; [|by right].
      by destruct incomingOrder. }
  intros Hnd Hlive Hqty Hopen.
  destruct (match_run_live _ _ _ _ _ Hrun incomingOrder Hinv0 Hnd)
    as (HliveB & (wB & HwB & HwBr) & _).
  { intros p Hp. destruct (Hlive p Hp) as (o & Ho & Hol). exists o. split; [|done].
    simpl. by apply lookup_app_l_Some. }
  { simpl. by apply list_lookup_middle. }
  { lia. }
  { simpl. intros Hx%Hold. lia. }
  assert (wB = Order.setRemainingQuantity q incomingOrder) as -> by congruence.
  simpl in HwBr. split.
  - intros p Hp. rewrite <- Hob in HliveB. destruct (HliveB p Hp) as (o & Ho & Hol).
    exists o. split; [|done]. rewrite Hsame; [done|]. by intros ->.
  - intros [lp Hlp].
    destruct Hcases as [(_ & Hn & _) | [(Hnz & Hty & _ & _ & ->) | (_ & _ & Hn & _)]];
      [congruence | | congruence].
    case_bool_decide; split; simpl; try lia; [by right | by left].
Qed.

(** ** Books by symbol *)

Lemma getOrderBook_cases books symbol ob books' :
  getOrderBook books symbol = (ob, books') →
  books' !! symbol = Some ob
  ∧ (∀ s, s ≠ symbol → books' !! s = books !! s)
  ∧ (books !! symbol = Some ob ∨ ob = NewOrderBook symbol).
Proof.
  unfold getOrderBook. destruct (books !! symbol) as [ob0|] eqn:Hb; intros [= <- <-].
  - split; [done|]. split; [done | by left].
  - split; [by rewrite lookup_insert_eq|]. split; [|by right].
    intros s Hs. by rewrite lookup_insert_ne.
Qed.

Lemma rests_in_new symbol p : ¬ rests_in (NewOrderBook symbol) p.
Proof. intros [(k & pl & Hm & _)|(k & pl & Hm & _)]; simpl in Hm; by rewrite lookup_empty in Hm. Qed.

Lemma book_live_new h symbol : book_live h (NewOrderBook symbol).
Proof. intros p Hp. by apply rests_in_new in Hp. Qed.

(** ** The statements of [CancelOrder] *)

Lemma CancelOrder_inv fl now e orderID result e' :
  CancelOrder fl now e orderID = Ret (result, e') →
  (e' = e ∧ ∃ err, result = inl err)
  ∨ ∃ row ob books ob',
      DB.orders (Engine.db e) !! orderID = Some row
      ∧ getOrderBook (Engine.orderBooks e) (Order.Symbol row) = (ob, books)
      ∧ match Order.Price row with
        | Some k =>
            ∃ b, RemoveOrder (Engine.heap e) ob orderID (Order.Side row) (Some k)
                 = Ret (ob', b)
        | None => ob' = ob
        end
      ∧ Engine.orderBooks e' = <[Order.Symbol row := ob']> books
      ∧ Engine.heap e' = Engine.heap e
      ∧ DB.lastOrderID (Engine.db e') = DB.lastOrderID (Engine.db e)
      ∧ match result with
        | inl _ => same_tables (Engine.db e) (Engine.db e')
        | inr order =>
            order = Order.setUpdatedAt now
                      (Order.setStatus OrderStatusCanceled
                         (Order.setRemainingQuantity 0 row))
            ∧ DB.orders (Engine.db e')
              = alter (λ o, Order.setUpdatedAt now
                              (Order.setStatus OrderStatusCanceled
                                 (Order.setRemainingQuantity 0 o)))
                  orderID (DB.orders (Engine.db e))
            ∧ DB.trades (Engine.db e') = DB.trades (Engine.db e)
        end.
Proof.
  unfold CancelOrder, GetOrder. destruct (fl 0%nat); [intros [= <- <-]; left; eauto|].
  destruct (DB.orders (Engine.db e) !! orderID) as [row|] eqn:Hrow;
    [|intros [= <- <-]; left; eauto].
  case_bool_decide as Hfilled; [intros [= <- <-]; left; eauto|].
  case_bool_decide as Hcanceled; [intros [= <- <-]; left; eauto|].
  case_bool_decide as Hrem; [intros [= <- <-]; left; eauto|].
  destruct (fl 1%nat); [intros [= <- <-]; left; eauto|].
  destruct (fl 2%nat); [intros [= <- <-]; left; eauto|].
  cbn [orb]. destruct (fl 3%nat); [intros [= <- <-]; left; eauto|].
  destruct (getOrderBook _ _) as [ob books] eqn:Hget.
  intros (ob' & Hrm & H)%bind_Ret. right. exists row, ob, books, ob'.
  split; [done|]. split; [done|]. split.
  { destruct (Order.Price row) as [k|]; [|by injection Hrm].
    apply bind_Ret in Hrm as ([ob2 b] & Hrm & [= <-]). by exists b. }
  destruct (fl 4%nat); injection H as <- <-; simpl.
  - split; [done|]. split; [done|]. split; [done|]. by split.
  - split; [done|]. split; [done|]. split; [done|]. by split.
Qed.

(** ** The rows the updates write *)

Lemma same_order_updatedRow u row : same_order row (updatedRow u row).
Proof. by destruct row. Qed.

Lemma updatedRows_same (h : list Order.t) ps : ∀ rows id,
  match updatedRows h ps rows !! id with
  | Some row' => ∃ row, rows !! id = Some row ∧ same_order row row'
  | None => rows !! id = None
  end.
Proof.
  induction ps as [|p rest IH]; intros rows id; simpl.
  - destruct (rows !! id) eqn:H; [|done]. eexists. split; [done | apply same_order_refl].
  - destruct (h !! p) as [u|].
    + specialize (IH (alter (updatedRow u) (Order.ID u) rows) id).
      destruct (updatedRows h rest _ !! id) as [row'|].
      * destruct IH as (row1 & Hrow1 & Hsame).
        apply lookup_alter_Some in Hrow1 as [(_ & row0 & Hrow0 & ->)|[_ Hrow0]].
        -- exists row0. split; [done|]. eapply same_order_trans; [|done].
           apply same_order_updatedRow.
        -- by exists row1.
      * by apply lookup_alter_None in IH.
    + destruct (rows !! id) eqn:H; [|done]. eexists. split; [done | apply same_order_refl].
Qed.

Lemma updatedRows_other (h : list Order.t) ps id : ∀ rows,
  (∀ p u, p ∈ ps → h !! p = Some u → Order.ID u ≠ id) →
  updatedRows h ps rows !! id = rows !! id.
Proof.
  induction ps as [|p rest IH]; intros rows Hall; simpl; [done|].
  destruct (h !! p) as [u|] eqn:Hu; [|done].
  rewrite IH by (intros q u' Hq; apply Hall; by right).
  apply lookup_alter_ne. eapply Hall; [by left | done].
Qed.



(** ** What the engine keeps true of its memory *)

Lemma engine_wf_new db : engine_wf (NewEngine db).
Proof.
  split; simpl.
  - apply engine_inv_new.
  - intros s ob. by rewrite lookup_empty.
  - intros s ob p o. by rewrite lookup_empty.
  - intros p o. by rewrite lookup_nil.
  - intros p q o o'. by rewrite lookup_nil.
Qed.

(** Where the orders of the heap [Match] returns come from. *)
Lemma Match_heap_origin (h h' : list Order.t) incomingOrder w' p o :
  heap_ext h h' → length h' = S (length h) → h' !! length h = Some w' →
  same_order incomingOrder w' → h' !! p = Some o →
  (∃ o0, h !! p = Some o0 ∧ same_order o0 o)
  ∨ (p = length h ∧ o = w' ∧ Order.ID o = Order.ID incomingOrder).
Proof.
  intros Hext Hlen Hw' Hsame Ho. destruct (decide (p < length h)%nat) as [Hlt|Hge].
  - left. destruct (lookup_lt_is_Some_2 h p Hlt) as [o0 Ho0]. exists o0. split; [done|].
    by eapply heap_ext_same.
  - right. assert (p = length h) as -> by (apply lookup_lt_Some in Ho; lia).
    assert (o = w') as -> by congruence. split; [done|]. split; [done|]. by destruct Hsame.
Qed.

Lemma PlaceOrder_wf fl now executedAt e req result e' :
  engine_wf e →
  PlaceOrder fl now executedAt e req = Ret (result, e') →
  engine_wf e' ∧ DB.lastOrderID (Engine.db e) ≤ DB.lastOrderID (Engine.db e').
Proof.
  intros [Hinv Hprices Hsym Hids Hdist] HP.
  assert (engine_inv e') as Hinv'.
  { destruct (PlaceOrder_outcome fl now executedAt e req Hinv)
      as (_ & _ & _ & _ & _ & _ & _ & result0 & e0 & HP0 & Hinv0 & _). congruence. }
  destruct (PlaceOrder_inv _ _ _ _ _ _ _ HP)
    as [[-> _] | [(Hb & Hh & Ht & Hc & _)
                 | (ob & books & res & ob' & h' & ob'' & Hget & HM & Hb & Hh & Hc & Hob'' & _)]].
  - split; [by split | lia].
  - split; [|lia]. split; [done | by rewrite Hb | | |].
    + intros s ob p o. rewrite Hb, Hh. apply Hsym.
    + intros p o. rewrite Hh, Hc. intros Ho%Hids. lia.
    + intros p q o o'. rewrite Hh. apply Hdist.
  - split; [|lia].
    destruct (getOrderBook_cases _ _ _ _ Hget) as (Hbs & Hbo & Hobcase).
    destruct Hinv as [Hbinv Hsound].
    destruct (getOrderBook_inv _ _ _ _ _ Hbinv Hget) as (Hobinv & _).
    assert (prices_nodup ob) as Hobpn.
    { destruct Hobcase as [?| ->]; [by eapply Hprices | apply prices_nodup_new]. }
    assert (∀ p o, rests_in ob p → Engine.heap e !! p = Some o →
              Order.Symbol o = CreateOrderRequest.Symbol req) as Hobsym.
    { intros p o Hp Ho. destruct Hobcase as [Hold| ->]; [exact (Hsym _ _ _ _ Hold Hp Ho)|].
      by apply rests_in_new in Hp. }
    destruct (Match_engine (Engine.heap e)
                (Order.setID (DB.lastOrderID (Engine.db e) + 1) (newOrder now req))
                ob executedAt Hobinv)
      as (res0 & ob0 & h0 & w' & ps & HM0 & Hinv1 & Hext & Hsub & _ & Hpn & Hlen & Hw'
          & Hsame & _ & _ & _ & Hleft & _).
    rewrite HM in HM0. injection HM0 as <- <- <-.
    assert (prices_nodup ob''
            ∧ ∀ q, rests_in ob'' q → q = length (Engine.heap e) ∨ rests_in ob' q)
      as [Hpn'' Hrests''].
    { destruct Hob'' as [-> | (leftover & Hl & Hadd)]; [split; [by apply Hpn | by right]|].
      rewrite Hl in Hleft. destruct Hleft as (-> & _ & Hty & _).
      split; [eapply AddOrder_prices_nodup; [done | by apply Hpn | done]|].
      destruct (AddOrder_inv h' ob' _ w' Hinv1 Hw')
        as (ob3 & Hadd3 & _ & _ & _ & _ & Hrb & Hra).
      { destruct Hsame as (_ & _ & _ & -> & _). done. }
      assert (ob3 = ob'') as -> by congruence.
      intros q [Hq%Hrb|Hq%Hra]; (destruct Hq as [(-> & _)|Hq]; [by left | right]);
        [by left | by right]. }
    pose proof (λ p o, Match_heap_origin _ _ _ _ p o Hext Hlen Hw' Hsame) as Horigin.
    split; [done | | | |].
    + intros s ob1. rewrite Hb. destruct (decide (s = CreateOrderRequest.Symbol req)) as [->|Hne].
      * rewrite lookup_insert_eq. by intros [= <-].
      * rewrite lookup_insert_ne, Hbo by done. apply Hprices.
    + intros s ob1 p o. rewrite Hb, Hh.
      destruct (decide (s = CreateOrderRequest.Symbol req)) as [->|Hne].
      * rewrite lookup_insert_eq. intros [= <-] Hp Ho.
        destruct (Hrests'' p Hp) as [-> | Hp'].
        -- assert (o = w') as -> by congruence. by destruct Hsame as (_ & _ & _ & _ & _ & ->).
        -- apply (rests_in_sub _ _ _ Hsub) in Hp'.
           destruct (rests_in_allocated _ _ _ Hobinv Hp') as [o0 Ho0].
           destruct (heap_ext_same _ _ _ _ _ Hext Ho0 Ho) as (_ & _ & _ & _ & _ & ->).
           by eapply Hobsym.
      * rewrite lookup_insert_ne, Hbo by done. intros Hob1 Hp Ho.
        destruct (rests_in_allocated _ _ _ (Hbinv _ _ Hob1) Hp) as [o0 Ho0].
        destruct (heap_ext_same _ _ _ _ _ Hext Ho0 Ho) as (_ & _ & _ & _ & _ & ->).
        by eapply Hsym.
    + intros p o. rewrite Hh, Hc. intros Ho.
      destruct (Horigin p o Ho) as [(o0 & Ho0 & (-> & _))|(_ & _ & ->)].
      * apply Hids in Ho0. lia.
      * simpl. lia.
    + intros p q o o'. rewrite Hh. intros Ho Ho' Heq.
      destruct (Horigin p o Ho) as [(o0 & Ho0 & (Hid & _))|(-> & _ & Hid)],
               (Horigin q o' Ho') as [(o0' & Ho0' & (Hid' & _))|(-> & _ & Hid')].
      * eapply Hdist; [done | done | congruence].
      * apply Hids in Ho0. simpl in Hid'. lia.
      * apply Hids in Ho0'. simpl in Hid. lia.
      * done.
Qed.

Lemma PlaceOrder_rows fl now executedAt e req result e' :
  engine_wf e → rows_agree e →
  PlaceOrder fl now executedAt e req = Ret (result, e') →
  rows_agree e'.
Proof.
  intros [Hinv Hprices Hsym Hids Hdist] [Hstore Hrows] HP.
  destruct (PlaceOrder_inv _ _ _ _ _ _ _ HP)
    as [[-> _] | [(Hb & Hh & [Ho Ht] & Hc & _)
                 | (ob & books & res & ob' & h' & ob'' & Hget & HM & Hb & Hh & Hc & _ & Hres)]].
  - by split.
  - split.
    + intros id row. rewrite Ho, Hc. intros Hrow%Hstore. lia.
    + intros p o row. rewrite Hh, Ho. apply Hrows.
  - destruct Hinv as [Hbinv Hsound].
    destruct (getOrderBook_inv _ _ _ _ _ Hbinv Hget) as (Hobinv & _).
    destruct (Match_engine (Engine.heap e)
                (Order.setID (DB.lastOrderID (Engine.db e) + 1) (newOrder now req))
                ob executedAt Hobinv)
      as (res0 & ob0 & h0 & w' & ps & HM0 & _ & Hext & _ & _ & _ & Hlen & Hw' & Hsame & _).
    rewrite HM in HM0. injection HM0 as <- <- <-.
    pose proof (λ p o, Match_heap_origin _ _ _ _ p o Hext Hlen Hw' Hsame) as Horigin.
    set (incoming := Order.setID (DB.lastOrderID (Engine.db e) + 1) (newOrder now req)) in *.
    assert (Order.ID incoming = DB.lastOrderID (Engine.db e) + 1) as Hid by done.
    assert (∀ id row',
              DB.orders (Engine.db e') !! id = Some row' →
              ∃ row, (<[Order.ID incoming := incoming]> (DB.orders (Engine.db e))) !! id
                     = Some row ∧ same_order row row') as Hrow'.
    { intros id row' Hrow. destruct result as [err | [order trades]].
      - destruct Hres as [Ho _]. rewrite Ho in Hrow. exists row'.
        split; [|apply same_order_refl]. rewrite lookup_insert_ne; [done|].
        apply Hstore in Hrow. lia.
      - destruct Hres as (_ & Ho & _). rewrite Ho in Hrow.
        pose proof (updatedRows_same h' (MatchResult.UpdatedOrders res)
                      (<[Order.ID incoming := incoming]> (DB.orders (Engine.db e))) id) as H.
        by rewrite Hrow in H. }
    split.
    + intros id row' (row & Hrow & _)%Hrow'. rewrite Hc.
      apply lookup_insert_Some in Hrow as [[<- _]|[_ Hrow%Hstore]]; lia.
    + intros p o row'. rewrite Hh. intros Ho (row & Hrow & Hsr)%Hrow'.
      destruct (Horigin p o Ho) as [(o0 & Ho0 & Hs0)|(_ & -> & Hidw)].
      * assert (Order.ID o = Order.ID o0) as Hido by (by destruct Hs0).
        rewrite lookup_insert_ne in Hrow by (apply Hids in Ho0; lia).
        rewrite Hido in Hrow.
        eapply same_order_trans; [apply same_order_sym, Hs0|].
        eapply same_order_trans; [by eapply Hrows | done].
      * rewrite Hidw, lookup_insert_eq in Hrow. injection Hrow as <-.
        eapply same_order_trans; [apply same_order_sym, Hsame | done].
Qed.

Lemma CancelOrder_wf fl now e orderID result e' :
  engine_wf e →
  CancelOrder fl now e orderID = Ret (result, e') →
  engine_wf e'
  ∧ DB.lastOrderID (Engine.db e') = DB.lastOrderID (Engine.db e)
  ∧ Engine.heap e' = Engine.heap e
  ∧ (rows_agree e → rows_agree e')
  ∧ (engine_live e → engine_live e').
Proof.
  intros Hwf HC. pose proof Hwf as [Hinv Hprices Hsym Hids Hdist].
  assert (engine_inv e') as Hinv'.
  { destruct (CancelOrder_outcome fl now e orderID Hinv) as (result0 & e0 & HC0 & Hinv0).
    congruence. }
  destruct (CancelOrder_inv _ _ _ _ _ _ HC)
    as [[-> _] | (row & ob & books & ob' & Hrow & Hget & Hrm & Hb & Hh & Hc & Hres)].
  { split; [done|]. split; [done|]. split; [done|]. by split. }
  destruct (getOrderBook_cases _ _ _ _ Hget) as (Hbs & Hbo & Hobcase).
  destruct Hinv as [Hbinv Hsound].
  destruct (getOrderBook_inv _ _ _ _ _ Hbinv Hget) as (Hobinv & _).
  assert (prices_nodup ob) as Hobpn.
  { destruct Hobcase as [?| ->]; [by eapply Hprices | apply prices_nodup_new]. }
  assert (prices_nodup ob' ∧ ∀ q, rests_in ob' q → rests_in ob q) as [Hpn' Hrests'].
  { destruct (Order.Price row) as [k|]; [|by subst]. destruct Hrm as [b Hrm].
    split; [by eapply RemoveOrder_prices_nodup|].
    destruct (RemoveOrder_inv _ _ _ _ _ _ _ Hobinv Hrm) as (_ & Hsub & _).
    intros q. by apply rests_in_sub. }
  assert (∀ s ob1, Engine.orderBooks e' !! s = Some ob1 →
            ∃ ob0, (∀ q, rests_in ob1 q → rests_in ob0 q)
                   ∧ (Engine.orderBooks e !! s = Some ob0 ∨ ob0 = NewOrderBook s)) as Hbooks.
  { intros s ob1. rewrite Hb. destruct (decide (s = Order.Symbol row)) as [->|Hne].
    - rewrite lookup_insert_eq. intros [= <-]. by exists ob.
    - rewrite lookup_insert_ne, Hbo by done. intros Hob1. exists ob1. split; [done | by left]. }
  split; [|split; [done|split; [done|split]]].
  - split; [done | | | |].
    + intros s ob1. rewrite Hb. destruct (decide (s = Order.Symbol row)) as [->|Hne].
      * rewrite lookup_insert_eq. by intros [= <-].
      * rewrite lookup_insert_ne, Hbo by done. apply Hprices.
    + intros s ob1 p o Hob1 Hp. rewrite Hh. intros Ho.
      destruct (Hbooks s ob1 Hob1) as (ob0 & Hsub & [Hold| ->]).
      * exact (Hsym _ _ _ _ Hold (Hsub _ Hp) Ho).
      * by apply Hsub, rests_in_new in Hp.
    + intros p o. rewrite Hh, Hc. apply Hids.
    + intros p q o o'. rewrite Hh. apply Hdist.
  - intros [Hstore Hrows].
    assert (∀ id row',
              DB.orders (Engine.db e') !! id = Some row' →
              ∃ row0, DB.orders (Engine.db e) !! id = Some row0 ∧ same_order row0 row')
      as Hrow'.
    { intros id row' Hr. destruct result as [err|order].
      - destruct Hres as [Ho _]. rewrite Ho in Hr. exists row'.
        split; [done | apply same_order_refl].
      - destruct Hres as (_ & Ho & _). rewrite Ho in Hr.
        apply lookup_alter_Some in Hr as [(_ & row0 & Hrow0 & ->)|[_ Hr]].
        + exists row0. split; [done|]. by destruct row0.
        + exists row'. split; [done | apply same_order_refl]. }
    split.
    + intros id row' (row0 & Hrow0 & _)%Hrow'. rewrite Hc. by eapply Hstore.
    + intros p o row'. rewrite Hh. intros Ho (row0 & Hrow0 & Hs)%Hrow'.
      eapply same_order_trans; [by eapply Hrows | done].
  - intros Hlive s ob1 Hob1 p Hp. rewrite Hh.
    destruct (Hbooks s ob1 Hob1) as (ob0 & Hsub & [Hold| ->]).
    + exact (Hlive _ _ Hold _ (Hsub _ Hp)).
    + by apply Hsub, rests_in_new in Hp.
Qed.

Lemma valid_request_quantity req :
  validateCreateOrderRequest req = None → 0 < CreateOrderRequest.Quantity req.
Proof.
  unfold validateCreateOrderRequest. case_bool_decide; [done|].
  destruct (bool_decide (CreateOrderRequest.Quantity req = 0)) eqn:H0; [done|].
  destruct (bool_decide (CreateOrderRequest.Quantity req < 0)) eqn:H1; [done|].
  apply bool_decide_eq_false_1 in H0, H1. lia.
Qed.

Lemma PlaceOrder_live fl now executedAt e req result e' :
  engine_wf e → engine_live e → 0 < CreateOrderRequest.Quantity req →
  PlaceOrder fl now executedAt e req = Ret (result, e') →
  engine_live e'.
Proof.
  intros [Hinv Hprices Hsym Hids Hdist] Hlive Hqty HP.
  destruct (PlaceOrder_inv _ _ _ _ _ _ _ HP)
    as [[-> _] | [(Hb & Hh & _)
                 | (ob & books & res & ob' & h' & ob'' & Hget & HM & Hb & Hh & Hc & Hob'' & _)]].
  - done.
  - intros s ob1. rewrite Hb, Hh. apply Hlive.
  - destruct (getOrderBook_cases _ _ _ _ Hget) as (Hbs & Hbo & Hobcase).
    destruct Hinv as [Hbinv Hsound].
    destruct (getOrderBook_inv _ _ _ _ _ Hbinv Hget) as (Hobinv & _).
    destruct (getOrderBook_sound _ _ _ _ Hsound Hget) as ([_ Hobnd] & _).
    assert (book_live (Engine.heap e) ob) as Hoblive.
    { destruct Hobcase as [?| ->]; [by eapply Hlive | apply book_live_new]. }
    destruct (Match_engine (Engine.heap e)
                (Order.setID (DB.lastOrderID (Engine.db e) + 1) (newOrder now req))
                ob executedAt Hobinv)
      as (res0 & ob0 & h0 & w' & ps & HM0 & Hinv1 & Hext & Hsub & _ & _ & Hlen & Hw'
          & Hsame & Hfr & Hps & _ & Hleft & Hl).
    rewrite HM in HM0. injection HM0 as <- <- <-.
    destruct (Hl Hobnd Hoblive) as [Hlive' Hwlive]; [simpl; lia | done |].
    intros s ob1. rewrite Hb, Hh.
    destruct (decide (s = CreateOrderRequest.Symbol req)) as [->|Hne].
    + rewrite lookup_insert_eq. intros [= <-].
      destruct Hob'' as [-> | (leftover & Hlo & Hadd)]; [done|].
      rewrite Hlo in Hleft. destruct Hleft as (-> & _ & Hty & _).
      destruct (AddOrder_inv h' ob' _ w' Hinv1 Hw')
        as (ob3 & Hadd3 & _ & _ & _ & _ & Hrb & Hra).
      { destruct Hsame as (_ & _ & _ & -> & _). done. }
      assert (ob3 = ob'') as -> by congruence.
      assert (order_live w') as Hw by (apply Hwlive; rewrite Hlo; by eexists).
      intros q [Hq%Hrb|Hq%Hra]; (destruct Hq as [(-> & _)|Hq]; [by exists w'|]);
        apply Hlive'; [by left | by right].
    + rewrite lookup_insert_ne, Hbo by done. intros Hob1 p Hp.
      destruct (Hlive _ _ Hob1 p Hp) as (o & Ho & Hol). exists o. split; [|done].
      rewrite Hfr; [done | by eapply lookup_lt_Some |].
      intros Hin. destruct (Hps p Hin) as [_ Hr]. apply Hne.
      assert (rests_in ob p) as Hrob.
      { apply rests_in_sides. eexists. by rewrite sideLevels_opposite. }
      destruct Hobcase as [Hold| ->]; [|by apply rests_in_new in Hrob].
      rewrite <- (Hsym _ _ _ _ Hob1 Hp Ho). exact (Hsym _ _ _ _ Hold Hrob Ho).
Qed.

(** A run of operations keeps all of it. *)
Lemma runOps_wf ops : ∀ e,
  engine_wf e →
  ∃ e', runOps e ops = Ret e'
    ∧ engine_wf e'
    ∧ DB.lastOrderID (Engine.db e) ≤ DB.lastOrderID (Engine.db e')
    ∧ (rows_agree e → rows_agree e')
    ∧ (engine_live e → Forall op_valid ops → engine_live e').
Proof.
  induction ops as [|op rest IH]; intros e Hwf; simpl.
  { exists e. split; [done|]. split; [done|]. split; [lia|]. by split. }
  assert (∃ e1, runOp e op = Ret e1 ∧ engine_wf e1
                ∧ DB.lastOrderID (Engine.db e) ≤ DB.lastOrderID (Engine.db e1)
                ∧ (rows_agree e → rows_agree e1)
                ∧ (engine_live e → op_valid op → engine_live e1))
    as (e1 & -> & Hwf1 & Hc1 & Hr1 & Hl1).
  { destruct op as [fl now executedAt req | fl now orderID]; simpl.
    - destruct (PlaceOrder_outcome fl now executedAt e req (wf_inv _ Hwf))
        as (_ & _ & _ & _ & _ & _ & _ & result & e1 & HP & _).
      rewrite HP. exists e1. split; [done|].
      destruct (PlaceOrder_wf _ _ _ _ _ _ _ Hwf HP) as [Hwf1 Hc1].
      split; [done|]. split; [done|]. split.
      + intros Hr. exact (PlaceOrder_rows _ _ _ _ _ _ _ Hwf Hr HP).
      + intros Hl Hv.
        exact (PlaceOrder_live _ _ _ _ _ _ _ Hwf Hl (valid_request_quantity _ Hv) HP).
    - destruct (CancelOrder_outcome fl now e orderID (wf_inv _ Hwf)) as (result & e1 & HC & _).
      rewrite HC. exists e1. split; [done|].
      destruct (CancelOrder_wf _ _ _ _ _ _ Hwf HC) as (Hwf1 & Hc1 & _ & Hr1 & Hl1).
      split; [done|]. split; [lia|]. split; [done|]. intros Hl _. by apply Hl1. }
  simpl. destruct (IH e1 Hwf1) as (e' & Hrun & Hwf' & Hc' & Hr' & Hl').
  exists e'. split; [done|]. split; [done|]. split; [lia|]. split; [by auto|].
  intros Hl [Hv Hvs]%Forall_cons. by auto.
Qed.

(** ** Orders are told apart by their IDs *)

(** X14. Whatever orders are placed and canceled, with whatever store
    failures, starting from an engine without books: the store's order
    counter never goes back and has passed the ID of every order in memory;
    and two resting orders with the same ID are one order, resting in one
    book, which is the book of its symbol.  So an ID names at most one
    resting order, which is what [RemoveOrder] and [CancelOrder] rely on. *)
Theorem resting_orders_have_distinct_ids db ops :
  ∃ e, runOps (NewEngine db) ops = Ret e
    ∧ DB.lastOrderID db ≤ DB.lastOrderID (Engine.db e)
    ∧ (∀ p o, Engine.heap e !! p = Some o → Order.ID o ≤ DB.lastOrderID (Engine.db e))
    ∧ ∀ s1 ob1 p1 o1 s2 ob2 p2 o2,
        Engine.orderBooks e !! s1 = Some ob1 → rests_in ob1 p1 →
        Engine.heap e !! p1 = Some o1 →
        Engine.orderBooks e !! s2 = Some ob2 → rests_in ob2 p2 →
        Engine.heap e !! p2 = Some o2 →
        Order.ID o1 = Order.ID o2 →
        p1 = p2 ∧ s1 = s2 ∧ Order.Symbol o1 = s1.
Proof.
  destruct (runOps_wf ops (NewEngine db) (engine_wf_new db))
    as (e & Hrun & [Hinv Hprices Hsym Hids Hdist] & Hc & _).
  exists e. split; [done|]. split; [done|]. split; [done|].
  intros s1 ob1 p1 o1 s2 ob2 p2 o2 Hb1 Hr1 Ho1 Hb2 Hr2 Ho2 Hid.
  assert (p1 = p2) as <- by (by eapply Hdist).
  assert (o2 = o1) as -> by congruence.
  pose proof (Hsym _ _ _ _ Hb1 Hr1 Ho1) as Hs1.
  pose proof (Hsym _ _ _ _ Hb2 Hr2 Ho1) as Hs2.
  split; [done|]. split; [congruence | done].
Qed.

(** ** One symbol at a time *)

(** X15. [PlaceOrder] works on the book of the request's symbol only.  On an
    engine reached by a run, a call that returns, whatever it returns,
    leaves the book of every other symbol as it was, and every order that
    rests in such a book unchanged in memory. *)
Theorem PlaceOrder_leaves_other_symbols fl now executedAt e req result e' :
  engine_wf e →
  PlaceOrder fl now executedAt e req = Ret (result, e') →
  ∀ s, s ≠ CreateOrderRequest.Symbol req →
    Engine.orderBooks e' !! s = Engine.orderBooks e !! s
    ∧ ∀ ob p, Engine.orderBooks e !! s = Some ob → rests_in ob p →
        Engine.heap e' !! p = Engine.heap e !! p.
Proof.
  intros [Hinv Hprices Hsym Hids Hdist] HP s Hne.
  destruct (PlaceOrder_inv _ _ _ _ _ _ _ HP)
    as [[-> _] | [(Hb & Hh & _)
                 | (ob & books & res & ob' & h' & ob'' & Hget & HM & Hb & Hh & _)]].
  - done.
  - by rewrite Hb, Hh.
  - destruct (getOrderBook_cases _ _ _ _ Hget) as (Hbs & Hbo & Hobcase).
    destruct Hinv as [Hbinv Hsound].
    destruct (getOrderBook_inv _ _ _ _ _ Hbinv Hget) as (Hobinv & _).
    destruct (Match_engine (Engine.heap e)
                (Order.setID (DB.lastOrderID (Engine.db e) + 1) (newOrder now req))
                ob executedAt Hobinv)
      as (res0 & ob0 & h0 & w' & ps & HM0 & _ & _ & _ & _ & _ & _ & _ & _ & Hfr & Hps & _).
    rewrite HM in HM0. injection HM0 as <- <- <-.
    rewrite Hb, Hh, lookup_insert_ne, Hbo by done. split; [done|].
    intros ob1 p Hob1 Hp.
    destruct (rests_in_allocated _ _ _ (Hbinv _ _ Hob1) Hp) as [o Ho].
    apply Hfr; [by eapply lookup_lt_Some|].
    intros Hin. destruct (Hps p Hin) as [_ Hr]. apply Hne.
    assert (rests_in ob p) as Hrob.
    { apply rests_in_sides. eexists. by rewrite sideLevels_opposite. }
    destruct Hobcase as [Hold| ->]; [|by apply rests_in_new in Hrob].
    rewrite <- (Hsym _ _ _ _ Hob1 Hp Ho). exact (Hsym _ _ _ _ Hold Hrob Ho).
Qed.

(** An ask rests in the ETHUSD book; a BTCUSD order is placed. *)
Lemma PlaceOrder_leaves_other_symbols_witness :
  ∃ e result e',
    runOps (NewEngine (DB.mk ∅ [] 0 0))
      [OpPlaceOrder noFaults 0 0
         (CreateOrderRequest.mk None "ETHUSD" OrderSideSell OrderTypeLimit (Some 3000) 2)]
    = Ret e
    ∧ PlaceOrder noFaults 1 1 e (buyRequest 49000 3) = Ret (result, e')
    ∧ is_Some (Engine.orderBooks e !! "ETHUSD")
    ∧ Engine.orderBooks e' !! "ETHUSD" = Engine.orderBooks e !! "ETHUSD".
Proof.
  destruct (runOps_wf
              [OpPlaceOrder noFaults 0 0
                 (CreateOrderRequest.mk None "ETHUSD" OrderSideSell OrderTypeLimit
                    (Some 3000) 2)]
              (NewEngine (DB.mk ∅ [] 0 0)) (engine_wf_new _)) as (e & Hrun & Hwf & _).
  pose proof Hrun as Hrun'. vm_compute in Hrun'. injection Hrun' as <-.
  eexists _, _, _. split; [exact Hrun|]. split; [vm_compute; reflexivity|].
  split; [by eexists|].
  eapply (PlaceOrder_leaves_other_symbols noFaults 1 1 _ (buyRequest 49000 3));
    [exact Hwf | vm_compute; reflexivity | done].
Defined.

(** ** Resting orders are live *)

(** X16. For requests the server's validation lets through, with whatever
    store failures and cancels in between, starting from an engine without
    books: every order that rests in a book is a limit order with a price, a
    remaining quantity that is positive and at most its initial quantity, and
    status open or partially filled. *)
Theorem resting_orders_stay_live db ops :
  Forall op_valid ops →
  ∃ e, runOps (NewEngine db) ops = Ret e
    ∧ ∀ s ob p, Engine.orderBooks e !! s = Some ob → rests_in ob p →
        ∃ o, Engine.heap e !! p = Some o
          ∧ 0 < Order.RemainingQuantity o ≤ Order.InitialQuantity o
          ∧ (Order.Status o = OrderStatusOpen
             ∨ Order.Status o = OrderStatusPartiallyFilled)
          ∧ Order.Type_ o = OrderTypeLimit ∧ is_Some (Order.Price o)
          ∧ Order.Symbol o = s.
Proof.
  intros Hvalid.
  destruct (runOps_wf ops (NewEngine db) (engine_wf_new db))
    as (e & Hrun & [[Hbinv _] _ Hsym _ _] & _ & _ & Hlive).
  exists e. split; [done|]. intros s ob p Hob Hp.
  assert (engine_live e) as Hl.
  { apply Hlive; [|done]. intros s' ob'. simpl. by rewrite lookup_empty. }
  destruct (Hl _ _ Hob _ Hp) as (o & Ho & Hq & Hst).
  exists o. split; [done|]. split; [done|]. split; [done|].
  apply rests_in_sides in Hp as Hp'. destruct Hp' as [sd (k & pl & Hm & Hin)].
  destruct (si_orders _ _ _ _ _ (book_inv_side _ _ sd (Hbinv _ _ Hob)) _ _ _ Hm Hin)
    as (o' & Ho' & Hpr & _ & Hty).
  assert (o' = o) as -> by congruence.
  split; [done|]. split; [by eexists|]. by eapply Hsym.
Qed.

Lemma resting_orders_stay_live_witness :
  Forall op_valid [OpPlaceOrder noFaults 0 0 (sellRequest 50000 5);
                   OpPlaceOrder noFaults 1 1 (buyRequest 50000 3)]
  ∧ ∃ e ob, runOps (NewEngine (DB.mk ∅ [] 0 0))
              [OpPlaceOrder noFaults 0 0 (sellRequest 50000 5);
               OpPlaceOrder noFaults 1 1 (buyRequest 50000 3)] = Ret e
      ∧ Engine.orderBooks e !! "BTCUSD" = Some ob
      ∧ rests_in ob 0%nat
      ∧ ∃ o, Engine.heap e !! 0%nat = Some o
          ∧ Order.RemainingQuantity o = 2
          ∧ 0 < Order.RemainingQuantity o ≤ Order.InitialQuantity o
          ∧ Order.Status o = OrderStatusPartiallyFilled.
Proof.
  assert (Forall op_valid [OpPlaceOrder noFaults 0 0 (sellRequest 50000 5);
                           OpPlaceOrder noFaults 1 1 (buyRequest 50000 3)]) as Hvalid.
  { repeat constructor. }
  split; [exact Hvalid|].
  destruct (resting_orders_stay_live (DB.mk ∅ [] 0 0) _ Hvalid) as (e & Hrun & Hlive).
  pose proof Hrun as Hrun'. vm_compute in Hrun'. injection Hrun' as <-.
  eexists _, _. split; [exact Hrun|]. split; [reflexivity|].
  assert (rests_in
            (OrderBook.mk "BTCUSD" ∅ {[ 50000 := PriceLevel.mk 50000 [0%nat] ]} [] [50000])
            0%nat) as Hrests.
  { right. eexists 50000, _. split; [reflexivity|]. by left. }
  split; [exact Hrests|].
  destruct (Hlive "BTCUSD" _ 0%nat eq_refl Hrests) as (o & Ho & Hq & Hst & _).
  vm_compute in Ho. injection Ho as <-. eexists. split; [reflexivity|].
  split; [reflexivity|]. split; [exact Hq | reflexivity].
Defined.

(** ** What a successful [PlaceOrder] leaves in the store *)

Lemma findUpdated_last (h : list Order.t) ps wp w :
  (∀ p, p ∈ ps → ∃ u, h !! p = Some u ∧ Order.ID u ≠ Order.ID w) →
  h !! wp = Some w →
  findUpdated h (ps ++ [wp]) (Order.ID w) = Ret (Some w).
Proof.
  intros Hall Hw. induction ps as [|p ps IH]; simpl; unfold findUpdated; fold findUpdated.
  - rewrite (proj2 (deref_Ret _ _ _) Hw). simpl. by case_bool_decide.
  - destruct (Hall p) as (u & Hu & Hne); [by left|].
    rewrite (proj2 (deref_Ret _ _ _) Hu). simpl. case_bool_decide; [done|].
    apply IH. intros q Hq. apply Hall. by right.
Qed.

(** The orders [Match] reports besides the incoming one are older orders:
    their IDs are not the one the store has just given out. *)
Lemma updated_ids_old e incomingOrder (h' : list Order.t) (ps : list nat) :
  engine_wf e → heap_ext (Engine.heap e) h' →
  (∀ p, p ∈ ps → (p < length (Engine.heap e))%nat) →
  Order.ID incomingOrder = DB.lastOrderID (Engine.db e) + 1 →
  ∀ p u, p ∈ ps → h' !! p = Some u → Order.ID u ≠ Order.ID incomingOrder.
Proof.
  intros Hwf Hext Hps Hid p u Hp Hu. pose proof (Hps p Hp) as Hlt.
  destruct (lookup_lt_is_Some_2 _ _ Hlt) as [o0 Ho0].
  destruct (heap_ext_same _ _ _ _ _ Hext Ho0 Hu) as (-> & _).
  pose proof (wf_ids _ Hwf _ _ Ho0). lia.
Qed.


Lemma oneAskEngine_wf : engine_wf oneAskEngine.
Proof.
  split.
  - split; [exact oneAskEngine_inv|]. intros s ob. simpl.
    intros [<- <-]%lookup_singleton_Some. split; [|exact oneAskBook_nodup].
    intros kb ka [? Hkb]. simpl in Hkb. by rewrite lookup_empty in Hkb.
  - intros s ob. simpl. intros [<- <-]%lookup_singleton_Some.
    split; simpl; repeat constructor. by intros ?%elem_of_nil.
  - intros s ob p o. simpl. intros [<- <-]%lookup_singleton_Some _.
    destruct p as [|p]; simpl; [by intros [= <-] | by rewrite lookup_nil].
  - intros [|p] o; simpl; [|by rewrite lookup_nil]. intros [= <-]. simpl. lia.
  - intros [|p] [|q] o o'; simpl; rewrite ?lookup_nil; done.
Qed.




(** ** [CancelOrder] and the book *)



Lemma CancelOrder_outcomes fl now e orderID result e' :
  CancelOrder fl now e orderID = Ret (result, e') →
  (e' = e ∧ ∃ err, result = inl err ∧ err ≠ ErrCommit)
  ∨ ((result = inl ErrCommit ∨ ∃ order, result = inr order)
     ∧ ∃ row ob books ob',
         DB.orders (Engine.db e) !! orderID = Some row
         ∧ Order.Status row ≠ OrderStatusFilled ∧ Order.Status row ≠ OrderStatusCanceled
         ∧ Order.RemainingQuantity row ≠ 0
         ∧ getOrderBook (Engine.orderBooks e) (Order.Symbol row) = (ob, books)
         ∧ match Order.Price row with
           | Some k =>
               ∃ b, RemoveOrder (Engine.heap e) ob orderID (Order.Side row) (Some k)
                    = Ret (ob', b)
           | None => ob' = ob
           end
         ∧ Engine.orderBooks e' = <[Order.Symbol row := ob']> books
         ∧ Engine.heap e' = Engine.heap e
         ∧ match result with
           | inl _ => same_tables (Engine.db e) (Engine.db e')
           | inr order =>
               order = Order.setUpdatedAt now
                         (Order.setStatus OrderStatusCanceled
                            (Order.setRemainingQuantity 0 row))
               ∧ DB.orders (Engine.db e') !! orderID = Some order
           end).
Proof.
  unfold CancelOrder, GetOrder. destruct (fl 0%nat); [intros [= <- <-]; left; eauto|].
  destruct (DB.orders (Engine.db e) !! orderID) as [row|] eqn:Hrow;
    [|intros [= <- <-]; left; eauto].
  case_bool_decide as Hfilled; [intros [= <- <-]; left; eauto|].
  case_bool_decide as Hcanceled; [intros [= <- <-]; left; eauto|].
  case_bool_decide as Hrem; [intros [= <- <-]; left; eauto|].
  destruct (fl 1%nat); [intros [= <- <-]; left; eauto|].
  destruct (fl 2%nat); [intros [= <- <-]; left; eauto|].
  cbn [orb]. destruct (fl 3%nat); [intros [= <- <-]; left; eauto|].
  destruct (getOrderBook _ _) as [ob books] eqn:Hget.
  intros (ob' & Hrm & H)%bind_Ret. right.
  assert (match Order.Price row with
          | Some k => ∃ b, RemoveOrder (Engine.heap e) ob orderID (Order.Side row) (Some k)
                           = Ret (ob', b)
          | None => ob' = ob
          end) as Hrm'.
  { destruct (Order.Price row) as [k|]; [|by injection Hrm].
    apply bind_Ret in Hrm as ([ob2 b] & Hrm & [= <-]). by exists b. }
  destruct (fl 4%nat); injection H as <- <-; simpl.
  - split; [by left|]. exists row, ob, books, ob'. do 7 (split; [done|]). by split.
  - split; [right; by eexists|]. exists row, ob, books, ob'. do 7 (split; [done|]).
    split; [done|]. by rewrite lookup_alter_eq, Hrow.
Qed.




(** * Further properties of the queries *)

(** ** [GetTrades] *)

#[global] Instance trade_newer_total : Total trade_newer.
Proof. intros t1 t2. unfold trade_newer. lia. Qed.
#[global] Instance trade_newer_trans : Transitive trade_newer.
Proof. intros t1 t2 t3. unfold trade_newer. lia. Qed.

(** The loop returns the rows before the first [rows.Next()] that fails, or
    fails at the first scan that fails before that. *)
Lemma scanTrades_spec fl rows : ∀ n,
  ∃ j, (j ≤ length rows)%nat
    ∧ (∀ i, (i < j)%nat → fl (n + 2 * i)%nat = false ∧ fl (n + 2 * i + 1)%nat = false)
    ∧ match scanTrades fl n rows with
      | inr trades =>
          trades = take j rows ∧ ((j < length rows)%nat → fl (n + 2 * j)%nat = true)
      | inl err =>
          err = ErrScanTrade ∧ (j < length rows)%nat
          ∧ fl (n + 2 * j)%nat = false ∧ fl (n + 2 * j + 1)%nat = true
      end.
Proof.
  induction rows as [|t rest IH]; intros n; cbn [scanTrades length].
  { exists 0%nat. split; [done|]. split; [lia|]. split; [done | lia]. }
  destruct (fl n) eqn:Hn.
  { exists 0%nat. rewrite Nat.add_0_r. split; [lia|]. split; [lia|]. by split. }
  destruct (fl (S n)) eqn:Hn1.
  { exists 0%nat. rewrite !Nat.add_0_r, Nat.add_1_r. split; [lia|]. split; [lia|].
    split; [done|]. split; [lia | done]. }
  destruct (IH (S (S n))) as (j & Hj & Hok & Hres). exists (S j).
  replace (n + 2 * S j)%nat with (S (S n) + 2 * j)%nat by lia.
  split; [lia|]. split.
  { intros [|i] Hi.
    - rewrite Nat.add_0_r, Nat.add_1_r. by split.
    - replace (n + 2 * S i)%nat with (S (S n) + 2 * i)%nat by lia. apply Hok. lia. }
  destruct (scanTrades fl (S (S n)) rest) as [err|trades].
  - destruct Hres as (-> & ? & ? & ?). split; [done|]. split; [lia | done].
  - destruct Hres as [-> Hstop]. split; [done|]. intros ?. apply Hstop. lia.
Qed.


(** The rows the query selects: sorted, and with a limit the first of them. *)
Lemma selectTrades_spec coll db symbol limit :
  let all := filter (λ t, coll (Trade.Symbol t) symbol = true) (DB.trades db) in
  let trades := selectTrades coll db symbol limit in
  StronglySorted trade_newer trades
  ∧ length trades
    = (if bool_decide (0 < limit) then (Z.to_nat limit `min` length all)%nat
       else length all)
  ∧ ∃ rest, trades ++ rest ≡ₚ all ∧ ∀ t r, t ∈ trades → r ∈ rest → trade_newer t r.
Proof.
  intros all trades. subst trades. unfold selectTrades. fold all.
  pose proof (StronglySorted_merge_sort trade_newer all) as Hsorted.
  pose proof (merge_sort_Permutation trade_newer all) as Hperm.
  case_bool_decide as Hlimit.
  - split; [|split].
    + eapply (StronglySorted_app_1_l trade_newer _ (drop (Z.to_nat limit) _)).
      by rewrite take_drop.
    + by rewrite length_take, Hperm.
    + exists (drop (Z.to_nat limit) (merge_sort trade_newer all)).
      rewrite take_drop. split; [done|]. intros t r Ht Hr.
      eapply (StronglySorted_app_1_elem_of trade_newer (take _ _) (drop _ _)); [|done..].
      by rewrite take_drop.
  - split; [done|]. split; [by rewrite Hperm|].
    exists []. rewrite app_nil_r. split; [done|]. intros t r _ Hr. by apply elem_of_nil in Hr.
Qed.

(** Everything a call of [GetTrades] does, by the first statement that
    fails. *)
Lemma GetTrades_spec coll fl db symbol limit :
  let rows := selectTrades coll db symbol limit in
  ∃ j, (j ≤ length rows)%nat
    ∧ (∀ i, (i < j)%nat → fl (1 + 2 * i)%nat = false ∧ fl (2 + 2 * i)%nat = false)
    ∧ match GetTrades coll fl db symbol limit with
      | inr trades =>
          fl 0%nat = false ∧ trades = take j rows
          ∧ ((j < length rows)%nat → fl (1 + 2 * j)%nat = true)
      | inl ErrQueryTrades => fl 0%nat = true ∧ j = 0%nat
      | inl ErrScanTrade =>
          fl 0%nat = false ∧ (j < length rows)%nat
          ∧ fl (1 + 2 * j)%nat = false ∧ fl (2 + 2 * j)%nat = true
      end.
Proof.
  intros rows. unfold GetTrades. fold rows. destruct (fl 0%nat) eqn:H0.
  { exists 0%nat. split; [lia|]. split; [lia | done]. }
  destruct (scanTrades_spec fl rows 1) as (j & Hj & Hok & Hres). exists j.
  split; [done|]. split.
  { intros i Hi. destruct (Hok i Hi) as [H1 H2].
    by replace (1 + 2 * i + 1)%nat with (2 + 2 * i)%nat in H2 by lia. }
  destruct (scanTrades fl 1 rows) as [err|trades].
  - destruct Hres as (-> & ? & ? & H2). split; [done|]. split; [done|]. split; [done|].
    by replace (1 + 2 * j + 1)%nat with (2 + 2 * j)%nat in H2 by lia.
  - destruct Hres as [-> ?]. done.
Qed.

(** X20. What [GetTrades] returns.  The rows its query selects are the
    trades of the table whose symbol the collation of the column takes as
    equal to the symbol asked for, the newest first (by execution time, then
    by ID, both descending).  With a positive limit they are [limit] of
    them, or all when there are fewer, and they are the newest: every such
    trade left out is not newer than any row selected.  With a limit of zero
    or less every such trade is selected.  The call fails when the query
    fails, and when the scan of a row fails that was fetched with no failure
    before it.  Otherwise it succeeds, with the selected rows up to the
    first [rows.Next()] that fails: all of them when none fails, and fewer,
    without an error, when one does. *)
Theorem GetTrades_newest_first coll fl db symbol limit :
  let all := filter (λ t, coll (Trade.Symbol t) symbol = true) (DB.trades db) in
  let rows := selectTrades coll db symbol limit in
  StronglySorted trade_newer rows
  ∧ (∀ t, t ∈ rows → t ∈ DB.trades db ∧ coll (Trade.Symbol t) symbol = true)
  ∧ length rows
    = (if bool_decide (0 < limit) then (Z.to_nat limit `min` length all)%nat
       else length all)
  ∧ (∃ rest, rows ++ rest ≡ₚ all ∧ ∀ t r, t ∈ rows → r ∈ rest → trade_newer t r)
  ∧ ∃ j, (j ≤ length rows)%nat
      ∧ (∀ i, (i < j)%nat → fl (1 + 2 * i)%nat = false ∧ fl (2 + 2 * i)%nat = false)
      ∧ match GetTrades coll fl db symbol limit with
        | inr trades =>
            fl 0%nat = false ∧ trades = take j rows
            ∧ ((j < length rows)%nat → fl (1 + 2 * j)%nat = true)
        | inl ErrQueryTrades => fl 0%nat = true ∧ j = 0%nat
        | inl ErrScanTrade =>
            fl 0%nat = false ∧ (j < length rows)%nat
            ∧ fl (1 + 2 * j)%nat = false ∧ fl (2 + 2 * j)%nat = true
        end.
Proof.
  intros all rows.
  destruct (selectTrades_spec coll db symbol limit) as (Hsorted & Hlen & rest & Hperm & Hnewer).
  fold all rows in Hsorted, Hlen, Hperm, Hnewer.
  split; [done|]. split; [|split; [done|]; split; [by exists rest|]].
  - intros t Ht. assert (t ∈ all) as Hin.
    { rewrite <- Hperm. apply elem_of_app. by left. }
    by apply list_elem_of_filter in Hin as [? ?].
  - apply GetTrades_spec.
Qed.

(** With a collation that ignores case the trades stored under [BTCUSD] and
    under [btcusd] both answer a query for [btcusd]; when the second
    [rows.Next()] fails the call returns the first of them, without error. *)
Example GetTrades_collation_and_early_stop :
  GetTrades asciiCollation noFaults mixedCaseTrades "btcusd" 0
  = inr [Trade.mk 2 "btcusd" 4 3 50100 1 8; Trade.mk 1 "BTCUSD" 2 1 50000 5 7]
  ∧ GetTrades asciiCollation (failAt 3) mixedCaseTrades "btcusd" 0
    = inr [Trade.mk 2 "btcusd" 4 3 50100 1 8]
  ∧ GetTrades asciiCollation (failAt 4) mixedCaseTrades "btcusd" 0 = inl ErrScanTrade
  ∧ GetTrades String.eqb noFaults mixedCaseTrades "btcusd" 0
    = inr [Trade.mk 2 "btcusd" 4 3 50100 1 8].
Proof. repeat split; vm_compute; reflexivity. Qed.

(** ** [handleTrades] *)

(** X21. The [limit] parameter of [handleTrades].  A request that is not a
    GET is refused; so is one without a symbol, or with a limit that does not
    parse or is negative.  Otherwise the handler asks [GetTrades] for the
    limit of the request, 100 when it has none, and answers with an internal
    error exactly when that call fails, and with its trades when it
    succeeds.  They are trades the collation of the column takes as of the
    symbol, the newest first: at most 100 when no limit is given, at most
    [limit] for a positive limit, and for [limit=0], which lifts the limit
    instead of returning nothing, as many as there are.  When no
    [rows.Next()] fails the answer has exactly that many trades, and for
    [limit=0] every trade of the symbol. *)
Theorem handleTrades_limit coll fl e methodIsGet symbol limitStr :
  let all := filter (λ t, coll (Trade.Symbol t) symbol = true)
               (DB.trades (Engine.db e)) in
  match handleTrades coll fl e methodIsGet symbol limitStr with
  | TradesMethodNotAllowed => methodIsGet = false
  | TradesBadRequest msg =>
      methodIsGet = true
      ∧ ((symbol = "" ∧ msg = "symbol parameter is required")
         ∨ (symbol ≠ "" ∧ msg = "Invalid limit parameter" ∧ requestedLimit limitStr = None
            ∧ (limitStr = Some AtoiErr ∨ ∃ n, limitStr = Some (AtoiOk n) ∧ n < 0)))
  | TradesInternalError =>
      methodIsGet = true ∧ symbol ≠ ""
      ∧ ∃ limit err, requestedLimit limitStr = Some limit
                     ∧ GetTrades coll fl (Engine.db e) symbol limit = inl err
  | TradesOK trades =>
      methodIsGet = true ∧ symbol ≠ ""
      ∧ ∃ limit, requestedLimit limitStr = Some limit ∧ 0 ≤ limit
          ∧ (limitStr = None → limit = 100)
          ∧ GetTrades coll fl (Engine.db e) symbol limit = inr trades
          ∧ StronglySorted trade_newer trades
          ∧ (∀ t, t ∈ trades → t ∈ all)
          ∧ (length trades
             ≤ if bool_decide (limit = 0)%Z then length all
               else Z.to_nat limit `min` length all)%nat
          ∧ ((∀ i, (i < length all)%nat → fl (1 + 2 * i)%nat = false) →
             if bool_decide (limit = 0) then trades ≡ₚ all
             else length trades = (Z.to_nat limit `min` length all)%nat)
  end.
Proof.
  intros all. unfold handleTrades. destruct methodIsGet; [|done]. cbn [negb].
  case_bool_decide as Hsym; [split; [done|]; by left|].
  assert (∀ limit trades,
            0 ≤ limit →
            GetTrades coll fl (Engine.db e) symbol limit = inr trades →
            StronglySorted trade_newer trades
            ∧ (∀ t, t ∈ trades → t ∈ all)
            ∧ (length trades
               ≤ if bool_decide (limit = 0)%Z then length all
                 else Z.to_nat limit `min` length all)%nat
            ∧ ((∀ i, (i < length all)%nat → fl (1 + 2 * i)%nat = false) →
               if bool_decide (limit = 0) then trades ≡ₚ all
               else length trades = (Z.to_nat limit `min` length all)%nat)) as HG.
  { intros limit trades Hlimit HGet.
    destruct (selectTrades_spec coll (Engine.db e) symbol limit)
      as (Hsorted & Hlen & rest & Hperm & _).
    fold all in Hlen, Hperm.
    destruct (GetTrades_spec coll fl (Engine.db e) symbol limit) as (j & Hj & _ & Hres).
    rewrite HGet in Hres. destruct Hres as (_ & -> & Hstop).
    set (rows := selectTrades coll (Engine.db e) symbol limit) in *.
    assert (length rows
            = if bool_decide (limit = 0)%Z then length all
              else (Z.to_nat limit `min` length all)%nat) as Hlen'.
    { rewrite Hlen. destruct (decide (limit = 0)) as [->|Hne].
      - by rewrite bool_decide_eq_false_2, bool_decide_eq_true_2 by lia.
      - by rewrite bool_decide_eq_true_2, bool_decide_eq_false_2 by lia. }
    assert (length rows ≤ length all)%nat as Hle.
    { rewrite Hlen'. case_bool_decide; lia. }
    split; [|split; [|split]].
    - eapply (StronglySorted_app_1_l trade_newer _ (drop j rows)). by rewrite take_drop.
    - intros t Ht. rewrite <- Hperm. apply elem_of_app. left.
      rewrite <- (take_drop j rows). apply elem_of_app. by left.
    - rewrite length_take, Hlen'. case_bool_decide; lia.
    - intros Hnext. assert (j = length rows) as ->.
      { destruct (decide (j < length rows)%nat) as [Hlt|]; [|lia].
        rewrite Hnext in Hstop by lia. by specialize (Hstop Hlt). }
      rewrite firstn_all. destruct (decide (limit = 0)) as [->|Hne].
      + rewrite bool_decide_eq_true_2 by done. unfold rows, selectTrades.
        rewrite bool_decide_eq_false_2 by lia. apply merge_sort_Permutation.
      + rewrite bool_decide_eq_false_2 by done.
        by rewrite Hlen', bool_decide_eq_false_2 by done. }
  destruct limitStr as [[n|]|]; simpl.
  - case_bool_decide as Hneg.
    { split; [done|]. right. split; [done|]. split; [done|]. split; [done|].
      right. by exists n. }
    destruct (GetTrades coll fl (Engine.db e) symbol n) as [err|trades] eqn:HGn.
    { split; [done|]. split; [done|]. by exists n, err. }
    split; [done|]. split; [done|]. exists n. split; [done|]. split; [lia|].
    split; [done|]. split; [done|]. apply HG; [lia | done].
  - split; [done|]. right. split; [done|]. split; [done|]. split; [done|]. by left.
  - destruct (GetTrades coll fl (Engine.db e) symbol 100) as [err|trades] eqn:HGn.
    { split; [done|]. split; [done|]. by exists 100, err. }
    split; [done|]. split; [done|]. exists 100. split; [done|]. split; [lia|].
    split; [done|]. split; [done|]. apply HG; [lia | done].
Qed.

(** ** The trades of an order, read back *)

Lemma storedTrades_spec ts : ∀ last,
  length (storedTrades last ts) = length ts
  ∧ StronglySorted (λ a b, Trade.ID a < Trade.ID b) (storedTrades last ts)
  ∧ ∀ t, t ∈ storedTrades last ts →
      last < Trade.ID t ≤ last + Z.of_nat (length ts)
      ∧ ∃ t0, t0 ∈ ts ∧ Trade.Symbol t = Trade.Symbol t0
              ∧ Trade.ExecutedAt t = Trade.ExecutedAt t0
              ∧ Trade.Quantity t = Trade.Quantity t0
              ∧ Trade.Price t = Trade.Price t0.
Proof.
  induction ts as [|t0 rest IH]; intros last; simpl.
  - split; [done|]. split; [constructor|]. by intros t ?%elem_of_nil.
  - destruct (IH (last + 1)) as (Hlen & Hsorted & Hall). split; [by rewrite Hlen|]. split.
    + constructor; [done|]. apply Forall_forall. intros t Ht.
      destruct (Hall t Ht) as [? _]. simpl. lia.
    + intros t [->|Ht]%elem_of_cons.
      * simpl. split; [lia|]. exists t0. split; [by left | done].
      * destruct (Hall t Ht) as [? (t1 & Ht1 & ? & ? & ? & ?)]. split; [lia|].
        exists t1. split; [by right | done].
Qed.





Lemma persistTrades_counter fl trades : ∀ n tx tx' ok,
  persistTrades fl n tx trades = (tx', ok) → DB.lastTradeID tx ≤ DB.lastTradeID tx'.
Proof.
  induction trades as [|t rest IH]; intros n tx tx' ok; unfold persistTrades; fold persistTrades.
  - by intros [= <- <-].
  - destruct (fl n); [by intros [= <- <-]|]. intros H%IH. simpl in H. lia.
Qed.

Lemma persistUpdates_trades fl (h : list Order.t) updated : ∀ n tx tx' failed,
  persistUpdates fl n tx h updated = Ret (tx', failed) →
  DB.lastTradeID tx' = DB.lastTradeID tx.
Proof.
  induction updated as [|p rest IH]; intros n tx tx' failed;
    unfold persistUpdates; fold persistUpdates.
  - by intros [= <- <-].
  - intros (u & Hu%deref_Ret & H)%bind_Ret. destruct (fl n); [by injection H as <- <-|].
    by apply IH in H as ->.
Qed.

(** What a call of [PlaceOrder] does to the trades table and its counter. *)
Lemma PlaceOrder_trades fl now executedAt e req result e' :
  PlaceOrder fl now executedAt e req = Ret (result, e') →
  let db := Engine.db e in
  DB.lastTradeID db ≤ DB.lastTradeID (Engine.db e')
  ∧ match result with
    | inl _ => DB.trades (Engine.db e') = DB.trades db
    | inr (_, trades) =>
        DB.trades (Engine.db e') = DB.trades db ++ storedTrades (DB.lastTradeID db) trades
        ∧ DB.lastTradeID (Engine.db e') = DB.lastTradeID db + Z.of_nat (length trades)
    end.
Proof.
  intros HP db. subst db. split.
  - revert HP. unfold PlaceOrder.
    destruct (fl 0%nat); [intros [= <- <-]; lia|].
    destruct (fl 1%nat); [intros [= <- <-]; lia|].
    cbn [mbind exec_mbind exec_bind negb execInsertOrder]. destruct (fl 2%nat).
    { intros [= <- <-]. simpl. lia. }
    destruct (getOrderBook (Engine.orderBooks e) _) as [ob books] eqn:Hget.
    intros ([[res ob'] h'] & HM & H)%bind_Ret.
    destruct (persistTrades fl 3 _ (MatchResult.Trades res)) as [tx ok] eqn:Htr.
    apply persistTrades_counter in Htr. simpl in Htr.
    destruct ok; cbn [negb] in H; [|by injection H as <- <-].
    apply bind_Ret in H as ([tx' failed] & Hup & H).
    apply persistUpdates_trades in Hup.
    destruct failed as [id|]; [injection H as <- <-; simpl; lia|].
    apply bind_Ret in H as ([ob'' order] & Hleft & H).
    destruct (fl _); injection H as <- <-; simpl; lia.
  - destruct (PlaceOrder_inv _ _ _ _ _ _ _ HP)
      as [[-> [err ->]] | [(_ & _ & [_ Ht] & _ & [err ->])
                          | (ob & books & res & ob' & h' & ob'' & _ & _ & _ & _ & _ & _ & Hres)]];
      [done | done |].
    destruct result as [err|[order trades]]; [by destruct Hres|].
    by destruct Hres as (-> & _ & Ht & Hc & _).
Qed.

Lemma CancelOrder_trades fl now e orderID result e' :
  CancelOrder fl now e orderID = Ret (result, e') →
  DB.trades (Engine.db e') = DB.trades (Engine.db e)
  ∧ DB.lastTradeID (Engine.db e') = DB.lastTradeID (Engine.db e).
Proof.
  unfold CancelOrder, GetOrder. destruct (fl 0%nat); [by intros [= <- <-]|].
  destruct (DB.orders (Engine.db e) !! orderID) as [row|] eqn:Hrow; [|by intros [= <- <-]].
  case_bool_decide as H1; [by intros [= <- <-]|].
  case_bool_decide as H2; [by intros [= <- <-]|].
  case_bool_decide as H3; [by intros [= <- <-]|].
  destruct (fl 1%nat); [by intros [= <- <-]|]. destruct (fl 2%nat); [by intros [= <- <-]|].
  cbn [orb]. destruct (fl 3%nat); [by intros [= <- <-]|].
  destruct (getOrderBook _ _) as [ob books].
  intros (ob' & _ & HC)%bind_Ret. by destruct (fl 4%nat); injection HC as <- <-.
Qed.








(** ** The trades table over a run *)

Lemma Match_trades_positive h incomingOrder ob executedAt res ob' h' :
  book_inv h ob → book_nodup ob → book_live h ob →
  0 ≤ Order.RemainingQuantity incomingOrder →
  Match h incomingOrder ob executedAt = Ret (res, ob', h') →
  Forall (λ t, 0 < Trade.Quantity t) (MatchResult.Trades res).
Proof.
  intros Hinv Hnd Hlive Hqty HM.
  assert (book_inv (h ++ [incomingOrder]) ob) as Hinv0
    by (eapply book_inv_heap_ext; [apply heap_ext_app | done]).
  destruct (Match_facts h incomingOrder ob executedAt Hinv)
    as (st & q & HM' & Hw & _ & Hrun & _).
  destruct (match_run_live _ _ _ _ _ Hrun incomingOrder Hinv0 Hnd)
    as (_ & _ & ts & ps & Hts & _ & Hall & _).
  { intros p Hp. destruct (Hlive p Hp) as (o & Ho & Hol). exists o. split; [|done].
    simpl. by apply lookup_app_l_Some. }
  { simpl. by apply list_lookup_middle. }
  { done. }
  { simpl. intros [sd' (k & pl & Hm & Hp)]%rests_in_sides.
    destruct (si_orders _ _ _ _ _ (book_inv_side h ob sd' Hinv) _ _ _ Hm Hp) as (o & Ho & _).
    apply lookup_lt_Some in Ho. lia. }
  simpl in Hts. subst ts.
  rewrite HM in HM'. injection HM' as HM'. symmetry in HM'.
  destruct (finalize_cases _ _ _ _ _ _ Hw HM') as (-> & _). done.
Qed.

Lemma trades_wf_append db db' new :
  trades_wf db → DB.trades db' = DB.trades db ++ new →
  StronglySorted (λ a b, Trade.ID a < Trade.ID b) new →
  (∀ t, t ∈ new → DB.lastTradeID db < Trade.ID t ≤ DB.lastTradeID db') →
  DB.lastTradeID db ≤ DB.lastTradeID db' →
  trades_wf db'.
Proof.
  intros [Hnd Hids] Htrades Hsorted Hnew Hc. split.
  - rewrite Htrades, fmap_app. apply NoDup_app. split; [done|]. split.
    + intros id (t & -> & Ht)%list_elem_of_fmap (t' & Heq & Ht')%list_elem_of_fmap.
      specialize (Hids t Ht). specialize (Hnew t' Ht'). lia.
    + clear -Hsorted. induction Hsorted as [|t l Hs IH Hall]; simpl; [constructor|].
      apply NoDup_cons. split; [|done].
      intros (t' & Heq & Ht')%list_elem_of_fmap. rewrite Forall_forall in Hall.
      specialize (Hall t' Ht'). lia.
  - intros t. rewrite Htrades. intros [Ht|Ht]%elem_of_app.
    + specialize (Hids t Ht). lia.
    + specialize (Hnew t Ht). lia.
Qed.

Lemma runOps_trades ops : ∀ e,
  engine_wf e →
  ∃ e' new,
    runOps e ops = Ret e'
    ∧ DB.trades (Engine.db e') = DB.trades (Engine.db e) ++ new
    ∧ DB.lastTradeID (Engine.db e) ≤ DB.lastTradeID (Engine.db e')
    ∧ (trades_wf (Engine.db e) → trades_wf (Engine.db e'))
    ∧ Forall (λ t, DB.lastTradeID (Engine.db e) < Trade.ID t) new
    ∧ (engine_live e → Forall op_valid ops → Forall (λ t, 0 < Trade.Quantity t) new).
Proof.
  induction ops as [|op rest IH]; intros e Hwf; simpl.
  { exists e, []. rewrite app_nil_r. split; [done|]. split; [done|]. split; [lia|].
    split; [done|]. split; [constructor|]. by constructor. }
  assert (∃ e1 new1,
            runOp e op = Ret e1 ∧ engine_wf e1
            ∧ (engine_live e → op_valid op → engine_live e1)
            ∧ DB.trades (Engine.db e1) = DB.trades (Engine.db e) ++ new1
            ∧ DB.lastTradeID (Engine.db e) ≤ DB.lastTradeID (Engine.db e1)
            ∧ (trades_wf (Engine.db e) → trades_wf (Engine.db e1))
            ∧ Forall (λ t, DB.lastTradeID (Engine.db e) < Trade.ID t) new1
            ∧ (engine_live e → op_valid op → Forall (λ t, 0 < Trade.Quantity t) new1))
    as (e1 & new1 & -> & Hwf1 & Hl1 & Ht1 & Hc1 & Htw1 & Hid1 & Hq1).
  { destruct op as [fl now executedAt req | fl now orderID]; simpl.
    - destruct (PlaceOrder_outcome fl now executedAt e req (wf_inv _ Hwf))
        as (_ & _ & _ & _ & _ & _ & _ & result & e1 & HP & _).
      rewrite HP. destruct (PlaceOrder_wf _ _ _ _ _ _ _ Hwf HP) as [Hwf1 _].
      destruct (PlaceOrder_trades _ _ _ _ _ _ _ HP) as [Hc Htr].
      assert (engine_live e → validateCreateOrderRequest req = None → engine_live e1) as Hl1.
      { intros Hl Hv.
        exact (PlaceOrder_live _ _ _ _ _ _ _ Hwf Hl (valid_request_quantity _ Hv) HP). }
      destruct result as [err|[order trades]].
      + exists e1, []. rewrite app_nil_r. split; [done|]. split; [done|]. split; [done|].
        split; [done|]. split; [done|]. split.
        { intros [Hnd Hids]. split; [by rewrite Htr|]. intros t. rewrite Htr.
          intros Ht%Hids. lia. }
        split; [constructor|]. by constructor.
      + destruct Htr as [Htr Hcount].
        destruct (storedTrades_spec trades (DB.lastTradeID (Engine.db e)))
          as (Hlen & Hsorted & Hstored).
        exists e1, (storedTrades (DB.lastTradeID (Engine.db e)) trades).
        split; [done|]. split; [done|]. split; [done|]. split; [done|]. split; [done|].
        split; [|split].
        * intros Hdb. eapply trades_wf_append; [done | done | done | | done].
          intros t Ht. destruct (Hstored t Ht) as [? _]. lia.
        * apply Forall_forall. intros t Ht. by destruct (Hstored t Ht) as [[? _] _].
        * intros Hl Hv.
          destruct (PlaceOrder_inv _ _ _ _ _ _ _ HP)
            as [[_ [err ?]] | [(_ & _ & _ & _ & [err ?])
                              | (ob & books & res & ob' & h' & ob'' & Hget & HM & _ & _ & _ & _
                                 & Hres)]]; [done | done |].
          destruct Hres as (-> & _).
          pose proof Hwf as [[Hbinv Hsound] _ _ _ _].
          destruct (getOrderBook_inv _ _ _ _ _ Hbinv Hget) as (Hobinv & _).
          destruct (getOrderBook_sound _ _ _ _ Hsound Hget) as ([_ Hobnd] & _).
          destruct (getOrderBook_cases _ _ _ _ Hget) as (_ & _ & Hobcase).
          assert (book_live (Engine.heap e) ob) as Hoblive.
          { destruct Hobcase as [?| ->]; [by eapply Hl | apply book_live_new]. }
          pose proof (valid_request_quantity _ Hv) as Hqty.
          assert (Forall (λ t, 0 < Trade.Quantity t) (MatchResult.Trades res)) as Hpos.
          { eapply Match_trades_positive; [done | done | done | | done]. simpl. lia. }
          rewrite Forall_forall in Hpos |- *. intros t Ht.
          destruct (Hstored t Ht) as (_ & t0 & Ht0 & _ & _ & -> & _). by apply Hpos.
    - destruct (CancelOrder_outcome fl now e orderID (wf_inv _ Hwf)) as (result & e1 & HC & _).
      rewrite HC. destruct (CancelOrder_wf _ _ _ _ _ _ Hwf HC) as (Hwf1 & _ & _ & _ & Hl1).
      destruct (CancelOrder_trades _ _ _ _ _ _ HC) as [Htr Hc].
      exists e1, []. rewrite app_nil_r. split; [done|]. split; [done|].
      split; [by intros ? _; apply Hl1|]. split; [done|]. split; [lia|]. split.
      { intros [Hnd Hids]. split; [by rewrite Htr|]. rewrite Htr, Hc. done. }
      split; [constructor|]. by constructor. }
  simpl. destruct (IH e1 Hwf1) as (e' & new & Hrun & Ht & Hc & Htw & Hid & Hq).
  exists e', (new1 ++ new). split; [done|]. split; [by rewrite Ht, Ht1, app_assoc|].
  split; [lia|]. split; [by auto|]. split.
  - apply Forall_app. split; [done|]. eapply Forall_impl; [done|]. simpl. intros t. lia.
  - intros Hl [Hv Hvs]%Forall_cons. apply Forall_app. split; by auto.
Qed.

(** X23. The trades table over a run.  Whatever orders are placed and
    canceled, with whatever store failures, starting from an engine without
    books on a trades table with distinct IDs below its counter: the table is
    only appended to (the trades it held are still its first rows,
    unchanged), its counter never goes back, every new trade has an ID above
    the old counter, and no ID is given twice.  When every request has passed
    the server's validation, every new trade has a positive quantity. *)
Theorem stored_trades_are_only_appended db ops :
  trades_wf db →
  ∃ e new,
    runOps (NewEngine db) ops = Ret e
    ∧ DB.trades (Engine.db e) = DB.trades db ++ new
    ∧ DB.lastTradeID db ≤ DB.lastTradeID (Engine.db e)
    ∧ NoDup (Trade.ID <$> DB.trades (Engine.db e))
    ∧ (∀ t, t ∈ DB.trades (Engine.db e) → Trade.ID t ≤ DB.lastTradeID (Engine.db e))
    ∧ (∀ t, t ∈ new → DB.lastTradeID db < Trade.ID t)
    ∧ (Forall op_valid ops → ∀ t, t ∈ new → 0 < Trade.Quantity t).
Proof.
  intros Hdb.
  destruct (runOps_trades ops (NewEngine db) (engine_wf_new db))
    as (e & new & Hrun & Ht & Hc & Htw & Hid & Hq).
  destruct (Htw Hdb) as [Hnd Hids].
  exists e, new. split; [done|]. split; [done|]. split; [done|]. split; [done|].
  split; [done|]. split; [by apply Forall_forall|].
  intros Hv. apply Forall_forall, Hq; [|done].
  intros s ob. simpl. by rewrite lookup_empty.
Qed.

(** A table that holds trade 4; a sell and a buy that crosses it add trade 5
    behind it. *)
Lemma stored_trades_are_only_appended_witness :
  let db := DB.mk ∅ [Trade.mk 4 "BTCUSD" 8 9 49000 1 0] 9 4 in
  let ops := [OpPlaceOrder noFaults 1 1 (sellRequest 50000 5);
              OpPlaceOrder noFaults 2 2 (buyRequest 50000 3)] in
  trades_wf db
  ∧ ∃ e, runOps (NewEngine db) ops = Ret e
      ∧ DB.trades (Engine.db e)
        = DB.trades db ++ [Trade.mk 5 "BTCUSD" 11 10 50000 3 2]
      ∧ NoDup (Trade.ID <$> DB.trades (Engine.db e)).
Proof.
  intros db ops.
  assert (trades_wf db) as Hdb.
  { split; simpl.
    - apply NoDup_singleton.
    - intros t ->%list_elem_of_singleton. simpl. lia. }
  split; [exact Hdb|].
  destruct (stored_trades_are_only_appended db ops Hdb)
    as (e & new & Hrun & Htrades & _ & Hnd & _).
  exists e. split; [exact Hrun|]. split; [|exact Hnd].
  pose proof Hrun as Hrun'. vm_compute in Hrun'. injection Hrun' as <-. reflexivity.
Defined.

(** * Further properties of the recovery *)

(** ** The queue of a level *)

Lemma levelQueue_snoc h o s sd k :
  levelQueue (h ++ [o]) s sd k
  = levelQueue h s sd k ++ (if decide (at_level s sd k o) then [length h] else []).
Proof.
  unfold levelQueue. rewrite imap_app, filter_app, fmap_app. f_equal. simpl.
  rewrite Nat.add_0_r. rewrite filter_cons. simpl. by case_decide.
Qed.

Lemma elem_of_levelQueue h s sd k p :
  p ∈ levelQueue h s sd k ↔ ∃ o, h !! p = Some o ∧ at_level s sd k o.
Proof.
  induction h as [|o h IH] using rev_ind.
  { split; [by intros ?%elem_of_nil | by intros (o & ? & _)]. }
  rewrite levelQueue_snoc, elem_of_app, IH. split.
  - intros [(o' & Ho' & Hat)|Hp].
    + exists o'. split; [|done]. by apply lookup_app_l_Some.
    + case_decide as Hat; [|by apply elem_of_nil in Hp].
      apply list_elem_of_singleton in Hp as ->. exists o. split; [|done].
      by apply list_lookup_middle.
  - intros (o' & Ho' & Hat). apply lookup_app_Some in Ho' as [Ho'|[Hlen Ho']].
    + left. by exists o'.
    + right. destruct (p - length h)%nat as [|i] eqn:Hi; [|by destruct i].
      injection Ho' as ->. rewrite decide_True by done.
      apply list_elem_of_singleton. lia.
Qed.

Lemma levelQueue_sorted h s sd k : StronglySorted lt (levelQueue h s sd k).
Proof.
  induction h as [|o h IH] using rev_ind; [constructor|].
  rewrite levelQueue_snoc. apply StronglySorted_app_2; [|done|].
  - intros p q (o' & Hp%lookup_lt_Some & _)%elem_of_levelQueue Hq.
    case_decide; [|by apply elem_of_nil in Hq].
    by apply list_elem_of_singleton in Hq as ->.
  - case_decide; repeat constructor.
Qed.

(** ** The loop of [LoadOpenOrders] *)

Lemma levelAt_getOrderBook books s0 ob books1 ob' s sd k :
  getOrderBook books s0 = (ob, books1) →
  sideLevels sd ob !! k = levelAt books s0 sd k
  ∧ levelAt (<[s0 := ob']> books1) s sd k
    = if decide (s = s0) then sideLevels sd ob' !! k else levelAt books s sd k.
Proof.
  intros Hget. destruct (getOrderBook_cases _ _ _ _ Hget) as (Hb1 & Hother & _).
  split.
  - unfold getOrderBook in Hget. unfold levelAt.
    destruct (books !! s0) as [ob0|] eqn:Hb; injection Hget as <- <-; simpl; [done|].
    by destruct sd.
  - unfold levelAt. case_decide as Hs.
    + subst s. by rewrite lookup_insert_eq.
    + by rewrite lookup_insert_ne, Hother.
Qed.

Lemma loading_inv_new db : loading_inv (NewEngine db).
Proof.
  split; simpl.
  - intros s ob. by rewrite lookup_empty.
  - intros s ob. by rewrite lookup_empty.
  - intros s ob. by rewrite lookup_empty.
  - intros s sd k. unfold levelAt. by rewrite lookup_empty.
Qed.

(** One row goes to the books. *)
Lemma loading_step e order ob books :
  loading_inv e → goesToBook order = true →
  getOrderBook (Engine.orderBooks e) (Order.Symbol order) = (ob, books) →
  ∃ ob', AddOrder (Engine.heap e ++ [order]) ob (length (Engine.heap e)) = Ret ob'
    ∧ loading_inv (withBook (Engine.db e) books (Order.Symbol order) ob'
                     (Engine.heap e ++ [order])).
Proof.
  intros [Hbinv Hprices Hsymbol Hhold] Hgo Hget.
  set (h := Engine.heap e). set (h1 := h ++ [order]). set (p := length h).
  assert (Order.Type_ order = OrderTypeLimit ∧ ∃ k, Order.Price order = Some k) as [Hty [k Hk]].
  { unfold goesToBook in Hgo. destruct (Order.Type_ order); [|done].
    destruct (Order.Price order) as [k|]; [|done]. split; [done | by exists k]. }
  assert (h1 !! p = Some order) as Hp by (by apply list_lookup_middle).
  assert (heap_ext h h1) as Hext by apply heap_ext_app.
  destruct (getOrderBook_inv _ _ _ _ _ Hbinv Hget) as (Hobinv & Hbooksinv & Hb1 & Hother).
  destruct (getOrderBook_cases _ _ _ _ Hget) as (_ & _ & Hobcase).
  assert (book_inv h1 ob) as Hobinv1 by (by eapply book_inv_heap_ext).
  destruct (AddOrder_inv h1 ob p order Hobinv1 Hp Hty) as (ob' & Hadd & Hinv' & Hsym' & _).
  exists ob'. split; [done|]. split; simpl.
  - intros s ob1. destruct (decide (s = Order.Symbol order)) as [->|Hne].
    + rewrite lookup_insert_eq. by intros [= <-].
    + rewrite lookup_insert_ne by done. intros Hs.
      eapply book_inv_heap_ext; [done|]. by eapply Hbooksinv.
  - intros s ob1. destruct (decide (s = Order.Symbol order)) as [->|Hne].
    + rewrite lookup_insert_eq. intros [= <-].
      apply (AddOrder_prices_nodup h1 ob p ob' Hobinv1); [|done].
      destruct Hobcase as [Hob| ->]; [by eapply Hprices | apply prices_nodup_new].
    + rewrite lookup_insert_ne, Hother by done. apply Hprices.
  - intros s ob1. destruct (decide (s = Order.Symbol order)) as [->|Hne].
    + rewrite lookup_insert_eq. intros [= <-]. rewrite Hsym'.
      destruct Hobcase as [Hob| ->]; [by eapply Hsymbol | done].
    + rewrite lookup_insert_ne, Hother by done. apply Hsymbol.
  - intros s sd k'. fold h1.
    destruct (levelAt_getOrderBook _ _ _ _ ob' s sd k' Hget) as [Hlevel ->].
    unfold h1. rewrite levelQueue_snoc. fold h1. pose proof (Hhold s sd k') as Hold.
    fold h in Hold.
    case_decide as Hs.
    2:{ rewrite decide_False by (intros (? & _); done). by rewrite app_nil_r. }
    subst s. rewrite (AddOrder_side h1 ob p order k Hp Hk) in Hadd. injection Hadd as <-.
    destruct (decide (sd = Order.Side order)) as [->|Hsd].
    + rewrite sideLevels_setSide. destruct (decide (k' = k)) as [->|Hk'].
      * rewrite lookup_insert_eq, decide_True by done.
        unfold levelOrNew, PriceLevel_Add. rewrite Hlevel, Hold.
        by destruct (levelQueue h (Order.Symbol order) (Order.Side order) k).
      * rewrite lookup_insert_ne by done.
        rewrite decide_False by (intros (_ & _ & ?); congruence).
        by rewrite app_nil_r, Hlevel.
    + replace sd with (opposite (Order.Side order)) in * by (by destruct sd, (Order.Side order)).
      rewrite sideLevels_setSide_opposite.
      rewrite decide_False by (intros (_ & ? & _); by destruct (Order.Side order)).
      by rewrite app_nil_r, Hlevel.
Qed.

Lemma bookRows_cons order rows :
  bookRows (order :: rows)
  = if goesToBook order then order :: bookRows rows else bookRows rows.
Proof.
  unfold bookRows. rewrite filter_cons. destruct (goesToBook order); by case_decide.
Qed.

Lemma loadRows_spec fl rows : ∀ n e loaded,
  loading_inv e →
  ∃ err e' j,
    loadRows fl n e rows loaded
    = Ret (err, e', (loaded + length (bookRows (take j rows)))%nat)
    ∧ Engine.heap e' = Engine.heap e ++ bookRows (take j rows)
    ∧ Engine.db e' = Engine.db e
    ∧ loading_inv e'
    ∧ (j ≤ length rows)%nat
    ∧ (∀ i, (i < j)%nat → fl (n + 2 * i)%nat = false ∧ fl (n + 2 * i + 1)%nat = false)
    ∧ match err with
      | None => j = length rows ∧ fl (n + 2 * j)%nat = false
      | Some ErrIterateOrders => fl (n + 2 * j)%nat = true
      | Some ErrScanOpenOrder =>
          (j < length rows)%nat ∧ fl (n + 2 * j)%nat = false
          ∧ fl (n + 2 * j + 1)%nat = true
      | Some ErrQueryOpenOrders => False
      end.
Proof.
  induction rows as [|order rest IH]; intros n e loaded Hinv.
  { simpl. destruct (fl n) eqn:Hn.
    - exists (Some ErrIterateOrders), e, 0%nat. simpl. rewrite !Nat.add_0_r, app_nil_r.
      split; [done|]. split; [done|]. split; [done|]. split; [done|]. split; [done|].
      split; [lia | done].
    - exists None, e, 0%nat. simpl. rewrite !Nat.add_0_r, app_nil_r.
      split; [done|]. split; [done|]. split; [done|]. split; [done|]. split; [done|].
      split; [lia | done]. }
  simpl. destruct (fl n) eqn:Hn.
  { exists (Some ErrIterateOrders), e, 0%nat. simpl. rewrite !Nat.add_0_r, app_nil_r.
    split; [done|]. split; [done|]. split; [done|]. split; [done|]. split; [lia|].
    split; [lia | done]. }
  destruct (fl (S n)) eqn:Hn1.
  { exists (Some ErrScanOpenOrder), e, 0%nat. simpl. rewrite !Nat.add_0_r, app_nil_r.
    split; [done|]. split; [done|]. split; [done|]. split; [done|]. split; [lia|].
    split; [lia|]. split; [lia|]. split; [done|]. by rewrite Nat.add_1_r. }
  assert (∀ j, (∀ i, (i < j)%nat → fl (S (S n) + 2 * i)%nat = false
                                  ∧ fl (S (S n) + 2 * i + 1)%nat = false) →
               ∀ i, (i < S j)%nat → fl (n + 2 * i)%nat = false
                                   ∧ fl (n + 2 * i + 1)%nat = false) as Hfl.
  { intros j Hall [|i] Hi.
    - rewrite Nat.add_0_r, Nat.add_1_r. by split.
    - replace (n + 2 * S i)%nat with (S (S n) + 2 * i)%nat by lia. apply Hall. lia. }
  assert (∀ (err : option LoadError) j,
            match err with
            | None => j = length rest ∧ fl (S (S n) + 2 * j)%nat = false
            | Some ErrIterateOrders => fl (S (S n) + 2 * j)%nat = true
            | Some ErrScanOpenOrder =>
                (j < length rest)%nat ∧ fl (S (S n) + 2 * j)%nat = false
                ∧ fl (S (S n) + 2 * j + 1)%nat = true
            | Some ErrQueryOpenOrders => False
            end →
            match err with
            | None => S j = length (order :: rest) ∧ fl (n + 2 * S j)%nat = false
            | Some ErrIterateOrders => fl (n + 2 * S j)%nat = true
            | Some ErrScanOpenOrder =>
                (S j < length (order :: rest))%nat ∧ fl (n + 2 * S j)%nat = false
                ∧ fl (n + 2 * S j + 1)%nat = true
            | Some ErrQueryOpenOrders => False
            end) as Hshift.
  { intros err j. replace (n + 2 * S j)%nat with (S (S n) + 2 * j)%nat by lia.
    destruct err as [[]|]; simpl; [done| |done|].
    - intros (? & ? & ?). split; [lia | done].
    - intros [-> ?]. done. }
  destruct (goesToBook order) eqn:Hgo.
  - destruct (getOrderBook (Engine.orderBooks e) (Order.Symbol order)) as [ob books] eqn:Hget.
    destruct (loading_step e order ob books Hinv Hgo Hget) as (ob' & Hadd & Hinv1).
    unfold alloc. rewrite Hadd. simpl.
    destruct (IH (S (S n)) _ (S loaded) Hinv1)
      as (err & e' & j & Hrun & Hheap & Hdb & Hinv' & Hj & Hok & Herr).
    exists err, e', (S j). rewrite firstn_cons, bookRows_cons, Hgo. cbn [length].
    replace (loaded + S (length (bookRows (take j rest))))%nat
      with (S loaded + length (bookRows (take j rest)))%nat by lia.
    split; [done|]. split; [by rewrite Hheap; simpl; rewrite <- app_assoc|].
    split; [done|]. split; [done|]. split; [lia|]. split; [by apply Hfl|].
    by apply Hshift.
  - destruct (IH (S (S n)) e loaded Hinv)
      as (err & e' & j & Hrun & Hheap & Hdb & Hinv' & Hj & Hok & Herr).
    exists err, e', (S j). rewrite firstn_cons, bookRows_cons, Hgo. cbn [length].
    split; [done|]. split; [done|]. split; [done|]. split; [done|]. split; [lia|].
    split; [by apply Hfl|]. by apply Hshift.
Qed.

(** ** The rows [LoadOpenOrders] selects *)

#[global] Instance order_older_total : Total order_older.
Proof. intros o1 o2. unfold order_older. lia. Qed.
#[global] Instance order_older_trans : Transitive order_older.
Proof. intros o1 o2 o3. unfold order_older. lia. Qed.

Lemma elem_of_selectOpenOrders db o :
  o ∈ selectOpenOrders db
  ↔ ∃ id row, DB.orders db !! id = Some row ∧ o = Order.setID id row
              ∧ (Order.Status row = OrderStatusOpen
                 ∨ Order.Status row = OrderStatusPartiallyFilled).
Proof.
  unfold selectOpenOrders. rewrite merge_sort_Permutation, list_elem_of_filter, list_elem_of_fmap.
  split.
  - intros [Hopen ([id row] & -> & Hrow%elem_of_map_to_list)]. exists id, row.
    split; [done|]. split; [done|]. unfold statusIsOpen in Hopen. simpl in Hopen.
    destruct row as [? ? ? ? ? ? ? ? st ? ?]; simpl in *. destruct st; auto; done.
  - intros (id & row & Hrow & -> & Hst). split.
    + unfold statusIsOpen. destruct row as [? ? ? ? ? ? ? ? st ? ?]; simpl in *.
      by destruct Hst as [-> | ->].
    + exists (id, row). split; [done|]. by apply elem_of_map_to_list.
Qed.

Lemma StronglySorted_filter {A} (R : relation A) (P : A → Prop) `{!∀ x, Decision (P x)} l :
  StronglySorted R l → StronglySorted R (filter P l).
Proof.
  induction 1 as [|x l Hs IH Hall]; [constructor|]. rewrite filter_cons.
  case_decide; [|done]. constructor; [done|].
  rewrite Forall_forall in Hall |- *. intros y [_ Hy]%list_elem_of_filter. by apply Hall.
Qed.

Lemma StronglySorted_lookup {A} (R : relation A) l i j x y :
  StronglySorted R l → l !! i = Some x → l !! j = Some y → (i < j)%nat → R x y.
Proof.
  intros Hs. revert i j. induction Hs as [|a l Hs IH Hall]; intros i j; [done|].
  destruct i as [|i], j as [|j]; simpl; try lia.
  - intros [= ->] Hy _. rewrite Forall_forall in Hall. apply Hall.
    by eapply list_elem_of_lookup_2.
  - intros Hx Hy Hij. apply (IH i j); [done | done | lia].
Qed.

Lemma selectOpenOrders_sorted db j :
  StronglySorted order_older (bookRows (take j (selectOpenOrders db))).
Proof.
  apply StronglySorted_filter.
  eapply (StronglySorted_app_1_l order_older _ (drop j (selectOpenOrders db))).
  rewrite take_drop. unfold selectOpenOrders. apply StronglySorted_merge_sort; apply _.
Qed.

(** Everything a call of [LoadOpenOrders] on a new engine does. *)
Lemma LoadOpenOrders_spec fl db :
  let rows := selectOpenOrders db in
  ∃ err e' j,
    LoadOpenOrders fl (NewEngine db) = Ret (err, e', length (Engine.heap e'))
    ∧ Engine.heap e' = bookRows (take j rows)
    ∧ Engine.db e' = db
    ∧ loading_inv e'
    ∧ (j ≤ length rows)%nat
    ∧ (err ≠ Some ErrQueryOpenOrders →
       fl 0%nat = false
       ∧ ∀ i, (i < j)%nat → fl (1 + 2 * i)%nat = false ∧ fl (2 + 2 * i)%nat = false)
    ∧ match err with
      | None => j = length rows ∧ ∀ i, (i ≤ 1 + 2 * length rows)%nat → fl i = false
      | Some ErrQueryOpenOrders => fl 0%nat = true ∧ j = 0%nat
      | Some ErrScanOpenOrder =>
          (j < length rows)%nat ∧ fl (1 + 2 * j)%nat = false ∧ fl (2 + 2 * j)%nat = true
      | Some ErrIterateOrders => fl (1 + 2 * j)%nat = true
      end.
Proof.
  intros rows. unfold LoadOpenOrders. destruct (fl 0%nat) eqn:H0.
  { exists (Some ErrQueryOpenOrders), (NewEngine db), 0%nat. simpl.
    split; [done|]. split; [done|]. split; [done|]. split; [apply loading_inv_new|].
    split; [lia|]. done. }
  simpl. fold rows.
  destruct (loadRows_spec fl rows 1 (NewEngine db) 0 (loading_inv_new db))
    as (err & e' & j & Hrun & Hheap & Hdb & Hinv & Hj & Hok & Herr).
  simpl in Hheap, Hdb, Hrun. rewrite Hrun. rewrite <- Hheap.
  assert (∀ i, (i < j)%nat → fl (1 + 2 * i)%nat = false ∧ fl (2 + 2 * i)%nat = false)
    as Hok'.
  { intros i Hi. destruct (Hok i Hi) as [H1 H2].
    by replace (1 + 2 * i + 1)%nat with (2 + 2 * i)%nat in H2 by lia. }
  exists err, e', j.
  split; [done|]. split; [done|]. split; [done|]. split; [done|]. split; [done|].
  split; [done|]. destruct err as [[]|]; [done| | done |].
  - destruct Herr as (? & ? & H2).
    by replace (1 + 2 * j + 1)%nat with (2 + 2 * j)%nat in H2 by lia.
  - destruct Herr as [-> Hlast]. split; [done|]. intros i Hi.
    destruct (decide (i = 0%nat)) as [->|Hi0]; [done|].
    destruct (decide (i = (1 + 2 * length rows)%nat)) as [->|Hne]; [done|].
    destruct (Nat.Even_or_Odd i) as [[k ->]|[k ->]].
    + destruct (Hok' (k - 1)%nat) as [_ H2]; [lia|].
      by replace (2 + 2 * (k - 1))%nat with (2 * k)%nat in H2 by lia.
    + destruct (Hok' k) as [H1 _]; [lia|].
      by replace (1 + 2 * k)%nat with (2 * k + 1)%nat in H1 by lia.
Qed.

Lemma books_hold_level h books s ob sd k pl :
  books_hold h books → books !! s = Some ob → sideLevels sd ob !! k = Some pl →
  pl = PriceLevel.mk k (levelQueue h s sd k).
Proof.
  intros Hhold Hs Hk. specialize (Hhold s sd k). unfold levelAt in Hhold.
  rewrite Hs in Hhold. simpl in Hhold. rewrite Hk in Hhold.
  destruct (levelQueue h s sd k); [done|]. by injection Hhold.
Qed.

Lemma books_hold_rests h books p o k :
  books_hold h books → h !! p = Some o → Order.Price o = Some k →
  ∃ ob pl, books !! Order.Symbol o = Some ob
           ∧ sideLevels (Order.Side o) ob !! k = Some pl ∧ p ∈ PriceLevel.Orders pl.
Proof.
  intros Hhold Hp Hk. specialize (Hhold (Order.Symbol o) (Order.Side o) k).
  assert (p ∈ levelQueue h (Order.Symbol o) (Order.Side o) k) as Hin.
  { apply elem_of_levelQueue. by exists o. }
  unfold levelAt in Hhold.
  destruct (levelQueue h (Order.Symbol o) (Order.Side o) k) as [|q l] eqn:Hq.
  { by apply elem_of_nil in Hin. }
  destruct (books !! Order.Symbol o) as [ob|]; [|done]. simpl in Hhold.
  exists ob, (PriceLevel.mk k (q :: l)). split; [done|]. by split.
Qed.

Lemma sorted_lt_NoDup (l : list nat) : StronglySorted lt l → NoDup l.
Proof.
  induction 1 as [|x l Hs IH Hall]; constructor; [|done].
  intros Hx. rewrite Forall_forall in Hall. specialize (Hall x Hx). lia.
Qed.

(** X24. What [LoadOpenOrders] builds on a new engine.  It reads the rows
    whose status is open or partially filled, the oldest first (creation
    time, then ID), and puts those that are limit orders with a price, each at
    a fresh address, into the book of their symbol, without matching them.
    The rows are taken up to the first failure: all of them when the call
    succeeds; those before the row whose scan fails ("failed to scan order");
    those before the row at which the iteration stops, which can be any row
    or the end of the rows, when [rows.Next()] fails ("error iterating
    orders"); none when the query fails.  The failure that ends the call is
    the first there is, and without one the call succeeds.  The count is the
    number of orders in memory.  The books satisfy the invariant of a book,
    each is under its symbol, no price is cached twice and no order rests
    twice; the orders of a level are exactly the loaded orders of that
    symbol, side and price; every loaded order rests at its level; and each
    level queues its orders oldest first. *)
Theorem LoadOpenOrders_rebuilds_the_books fl db :
  let rows := selectOpenOrders db in
  ∃ err e' j,
    LoadOpenOrders fl (NewEngine db) = Ret (err, e', length (Engine.heap e'))
    ∧ Engine.db e' = db
    ∧ Engine.heap e' = bookRows (take j rows)
    ∧ (j ≤ length rows)%nat
    ∧ (err ≠ Some ErrQueryOpenOrders →
       fl 0%nat = false
       ∧ ∀ i, (i < j)%nat → fl (1 + 2 * i)%nat = false ∧ fl (2 + 2 * i)%nat = false)
    ∧ match err with
      | None => j = length rows ∧ ∀ i, (i ≤ 1 + 2 * length rows)%nat → fl i = false
      | Some ErrQueryOpenOrders => fl 0%nat = true ∧ j = 0%nat
      | Some ErrScanOpenOrder =>
          (j < length rows)%nat ∧ fl (1 + 2 * j)%nat = false ∧ fl (2 + 2 * j)%nat = true
      | Some ErrIterateOrders => fl (1 + 2 * j)%nat = true
      end
    ∧ (∀ o, o ∈ rows ↔
         ∃ id row, DB.orders db !! id = Some row ∧ o = Order.setID id row
                   ∧ (Order.Status row = OrderStatusOpen
                      ∨ Order.Status row = OrderStatusPartiallyFilled))
    ∧ books_inv (Engine.heap e') (Engine.orderBooks e')
    ∧ (∀ s ob, Engine.orderBooks e' !! s = Some ob →
         OrderBook.Symbol ob = s ∧ prices_nodup ob ∧ book_nodup ob)
    ∧ (∀ s ob sd k pl p,
         Engine.orderBooks e' !! s = Some ob → sideLevels sd ob !! k = Some pl →
         (p ∈ PriceLevel.Orders pl
          ↔ ∃ o, Engine.heap e' !! p = Some o ∧ Order.Symbol o = s
                 ∧ Order.Side o = sd ∧ Order.Price o = Some k))
    ∧ (∀ p o, Engine.heap e' !! p = Some o →
         ∃ ob k pl, Engine.orderBooks e' !! Order.Symbol o = Some ob
                    ∧ Order.Price o = Some k
                    ∧ sideLevels (Order.Side o) ob !! k = Some pl
                    ∧ p ∈ PriceLevel.Orders pl)
    ∧ (∀ s ob sd k pl i1 i2 p1 p2 o1 o2,
         Engine.orderBooks e' !! s = Some ob → sideLevels sd ob !! k = Some pl →
         PriceLevel.Orders pl !! i1 = Some p1 → PriceLevel.Orders pl !! i2 = Some p2 →
         (i1 < i2)%nat →
         Engine.heap e' !! p1 = Some o1 → Engine.heap e' !! p2 = Some o2 →
         order_older o1 o2).
Proof.
  intros rows.
  destruct (LoadOpenOrders_spec fl db)
    as (err & e' & j & HL & Hheap & Hdb & Hinv & Hj & Hbefore & Herr).
  fold rows in Hheap, Hj, Herr. destruct Hinv as [Hbinv Hprices Hsymbol Hhold].
  exists err, e', j. split; [done|]. split; [done|]. split; [done|]. split; [done|].
  split; [done|]. split; [done|].
  split; [apply elem_of_selectOpenOrders|]. split; [done|].
  assert (∀ s ob sd k pl,
            Engine.orderBooks e' !! s = Some ob → sideLevels sd ob !! k = Some pl →
            PriceLevel.Orders pl = levelQueue (Engine.heap e') s sd k) as Hlevel.
  { intros s ob sd k pl Hs Hk. by rewrite (books_hold_level _ _ _ _ _ _ _ Hhold Hs Hk). }
  split; [|split; [|split]].
  - intros s ob Hs. split; [by eapply Hsymbol|]. split; [by eapply Hprices|].
    split; intros k pl Hk.
    + rewrite (Hlevel s ob OrderSideBuy k pl Hs Hk). apply sorted_lt_NoDup, levelQueue_sorted.
    + rewrite (Hlevel s ob OrderSideSell k pl Hs Hk). apply sorted_lt_NoDup, levelQueue_sorted.
  - intros s ob sd k pl p Hs Hk. rewrite (Hlevel s ob sd k pl Hs Hk).
    apply elem_of_levelQueue.
  - intros p o Hp.
    assert (∃ k, Order.Price o = Some k) as [k Hk].
    { assert (o ∈ bookRows (take j rows)) as Hin.
      { rewrite <- Hheap. by eapply list_elem_of_lookup_2. }
      apply list_elem_of_filter in Hin as [Hgo _]. unfold goesToBook in Hgo.
      destruct (Order.Type_ o); [|done]. destruct (Order.Price o) as [k|]; [|done].
      by exists k. }
    destruct (books_hold_rests _ _ _ _ _ Hhold Hp Hk) as (ob & pl & ? & ? & ?).
    by exists ob, k, pl.
  - intros s ob sd k pl i1 i2 p1 p2 o1 o2 Hs Hk Hi1 Hi2 Hlt Ho1 Ho2.
    rewrite (Hlevel s ob sd k pl Hs Hk) in Hi1, Hi2.
    pose proof (StronglySorted_lookup lt _ _ _ _ _ (levelQueue_sorted _ s sd k) Hi1 Hi2 Hlt)
      as Hp.
    eapply (StronglySorted_lookup order_older (Engine.heap e')); [|done|done|done].
    rewrite Hheap. apply selectOpenOrders_sorted.
Qed.

(** Two open orders in the store.  When the [rows.Next()] that fetches the
    second fails, the call ends with "error iterating orders" and the first
    order alone in the books; when the scan of the second fails, with "failed
    to scan order" and the same books; when only the [rows.Next()] after the
    last row fails, with "error iterating orders" and both orders loaded. *)
Example LoadOpenOrders_stops_at_any_row :
  let db := DB.mk {[ 1 := sellAt 1 50000 5; 2 := buyAt 2 49000 3 ]} [] 2 0 in
  (∃ e', LoadOpenOrders (failAt 3) (NewEngine db) = Ret (Some ErrIterateOrders, e', 1%nat)
         ∧ Engine.heap e' = [sellAt 1 50000 5])
  ∧ (∃ e', LoadOpenOrders (failAt 4) (NewEngine db) = Ret (Some ErrScanOpenOrder, e', 1%nat)
           ∧ Engine.heap e' = [sellAt 1 50000 5])
  ∧ (∃ e', LoadOpenOrders (failAt 5) (NewEngine db) = Ret (Some ErrIterateOrders, e', 2%nat)
           ∧ Engine.heap e' = [sellAt 1 50000 5; buyAt 2 49000 3])
  ∧ ∃ e', LoadOpenOrders noFaults (NewEngine db) = Ret (None, e', 2%nat)
          ∧ Engine.heap e' = [sellAt 1 50000 5; buyAt 2 49000 3].
Proof.
  intros db. repeat split; eexists; (split; [vm_compute; reflexivity | reflexivity]).
Qed.

(** ** A restart after an order was left over *)

(** The row of an order that [PlaceOrder] has left in the book. *)
Lemma PlaceOrder_leftover_row fl now executedAt e req order trades e' :
  engine_wf e →
  PlaceOrder fl now executedAt e req = Ret (inr (order, trades), e') →
  Order.Status order = OrderStatusOpen ∨ Order.Status order = OrderStatusPartiallyFilled →
  let inserted := Order.setID (DB.lastOrderID (Engine.db e) + 1) (newOrder now req) in
  DB.orders (Engine.db e') !! (DB.lastOrderID (Engine.db e) + 1) = Some inserted
  ∧ Order.ID order = DB.lastOrderID (Engine.db e) + 1
  ∧ CreateOrderRequest.Type_ req = OrderTypeLimit
  ∧ Order.RemainingQuantity order = CreateOrderRequest.Quantity req - tradedQuantity trades
  ∧ (Order.Status order = OrderStatusPartiallyFilled →
     Order.RemainingQuantity order < CreateOrderRequest.Quantity req).
Proof.
  intros Hwf HP Hstatus inserted.
  destruct (PlaceOrder_inv _ _ _ _ _ _ _ HP)
    as [[_ [err ?]] | [(_ & _ & _ & _ & [err ?])
                      | (ob & books & res & ob' & h' & ob'' & Hget & HM & Hb & Hh & Hc & _ & Hres)]];
    [done | done |].
  fold inserted in HM, Hres. destruct Hres as (-> & Horders & _ & _ & Horder).
  pose proof Hwf as [[Hbinv Hsound] _ _ Hids _].
  destruct (getOrderBook_inv _ _ _ _ _ Hbinv Hget) as (Hobinv & _).
  destruct (Match_engine (Engine.heap e) inserted ob executedAt Hobinv)
    as (res0 & ob0 & h0 & w' & ps & HM0 & _ & Hext & _ & _ & _ & Hlen & Hw' & Hsame & _
        & Hps & _ & Hleft & _).
  rewrite HM in HM0. injection HM0 as <- <- <-.
  assert (Order.ID inserted = DB.lastOrderID (Engine.db e) + 1) as Hid by done.
  assert (∀ p u, p ∈ ps → h' !! p = Some u → Order.ID u ≠ Order.ID inserted) as Hold.
  { apply (updated_ids_old e); [done | done | | done].
    intros p Hp. by destruct (Hps p Hp). }
  destruct (MatchResult.IncomingOrderLeft res) as [leftover|].
  - destruct Hleft as (-> & Hup & Hty & q & Hwq & Hq).
    destruct Horder as [_ Ho]. assert (order = w') as -> by congruence.
    split.
    { rewrite Horders, Hup, <- Hid, updatedRows_other, lookup_insert_eq by done. done. }
    split; [by destruct Hsame as (-> & _)|].
    split.
    { destruct Hsame as (_ & _ & _ & Hty' & _). rewrite Hty in Hty'. done. }
    rewrite Hwq. simpl in Hq.
    case_bool_decide as Hlt; simpl; (split; [done|]); [simpl in Hlt; lia | done].
  - destruct Hleft as (Hup & st & Hwst & Hst).
    destruct Horder as (_ & u & Hfind & ->).
    assert (Order.ID w' = Order.ID inserted) as Hidw by (by destruct Hsame).
    rewrite Hup, <- Hidw in Hfind.
    rewrite (findUpdated_last h' ps (length (Engine.heap e)) w') in Hfind; [| |done].
    2:{ intros p Hp. assert (is_Some (h' !! p)) as [u' Hu'].
        { apply lookup_lt_is_Some. destruct (Hps p Hp). lia. }
        exists u'. split; [done|]. rewrite Hidw. by eapply Hold. }
    injection Hfind as <-. simpl in Hstatus. rewrite Hwst in Hstatus. simpl in Hstatus.
    destruct Hst as [-> | ->]; by destruct Hstatus.
Qed.

(** X25. A restart forgets the fills of an order that was left over.  When a
    limit order with a price is partially filled on arrival, [PlaceOrder]
    leaves it in the book with what remains, but writes nothing to its row
    after the insert.  [LoadOpenOrders] on a new engine over that store then
    puts the order back at its level as the row has it: open, with the whole
    requested quantity, which is more than the order had left. *)
Theorem restart_forgets_the_fills_of_a_leftover fl now executedAt e req order trades e' k :
  engine_wf e →
  PlaceOrder fl now executedAt e req = Ret (inr (order, trades), e') →
  Order.Status order = OrderStatusPartiallyFilled →
  CreateOrderRequest.Price req = Some k →
  ∃ e'' p o ob pl,
    LoadOpenOrders noFaults (NewEngine (Engine.db e'))
    = Ret (None, e'', length (Engine.heap e''))
    ∧ Engine.heap e'' !! p = Some o
    ∧ Order.ID o = Order.ID order
    ∧ Engine.orderBooks e'' !! CreateOrderRequest.Symbol req = Some ob
    ∧ sideLevels (CreateOrderRequest.Side req) ob !! k = Some pl
    ∧ p ∈ PriceLevel.Orders pl
    ∧ Order.Status o = OrderStatusOpen
    ∧ Order.RemainingQuantity o = CreateOrderRequest.Quantity req
    ∧ Order.RemainingQuantity order = CreateOrderRequest.Quantity req - tradedQuantity trades
    ∧ Order.RemainingQuantity order < Order.RemainingQuantity o.
Proof.
  intros Hwf HP Hstatus Hprice.
  destruct (PlaceOrder_leftover_row _ _ _ _ _ _ _ _ Hwf HP (or_intror Hstatus))
    as (Hrow & Hid & Hty & Hrem & Hlt).
  set (inserted := Order.setID (DB.lastOrderID (Engine.db e) + 1) (newOrder now req)) in Hrow.
  destruct (LoadOpenOrders_spec noFaults (Engine.db e'))
    as (err & e'' & j & HL & Hheap & _ & [_ _ _ Hhold] & _ & _ & Herr).
  destruct err as [[]|]; [by destruct Herr | by destruct Herr as (_ & _ & ?) | done |].
  destruct Herr as [-> _]. rewrite firstn_all in Hheap.
  assert (inserted ∈ Engine.heap e'') as [p Hp]%list_elem_of_lookup_1.
  { rewrite Hheap. apply list_elem_of_filter. split.
    - unfold goesToBook, inserted. simpl. by rewrite Hty, Hprice.
    - apply elem_of_selectOpenOrders.
      exists (DB.lastOrderID (Engine.db e) + 1), inserted. split; [done|]. split; [done|].
      by left. }
  destruct (books_hold_rests _ _ _ _ k Hhold Hp) as (ob & pl & Hob & Hpl & Hin); [done|].
  exists e'', p, inserted, ob, pl. split; [done|]. split; [done|]. split; [by rewrite Hid|].
  split; [done|]. split; [done|]. split; [done|]. split; [done|]. split; [done|].
  split; [done|]. simpl. by apply Hlt.
Qed.

(** A buy of 10 at 50000 takes the 5 of the one ask and rests with 5; after a
    restart it rests with 10. *)
Lemma restart_forgets_the_fills_of_a_leftover_witness :
  ∃ order trades e',
    PlaceOrder noFaults 1 7 oneAskEngine (buyRequest 50000 10) = Ret (inr (order, trades), e')
    ∧ Order.Status order = OrderStatusPartiallyFilled
    ∧ Order.RemainingQuantity order = 5
    ∧ ∃ e'' p o,
        LoadOpenOrders noFaults (NewEngine (Engine.db e'))
        = Ret (None, e'', length (Engine.heap e''))
        ∧ Engine.heap e'' !! p = Some o
        ∧ Order.ID o = Order.ID order
        ∧ Order.Status o = OrderStatusOpen
        ∧ Order.RemainingQuantity o = 10.
Proof.
  assert (∃ order trades e',
            PlaceOrder noFaults 1 7 oneAskEngine (buyRequest 50000 10)
            = Ret (inr (order, trades), e')
            ∧ Order.Status order = OrderStatusPartiallyFilled
            ∧ Order.RemainingQuantity order = 5)
    as (order & trades & e' & HP & Hst & Hrem).
  { eexists _, _, _. split; [vm_compute; reflexivity|]. split; reflexivity. }
  exists order, trades, e'. split; [exact HP|]. split; [exact Hst|]. split; [exact Hrem|].
  destruct (restart_forgets_the_fills_of_a_leftover noFaults 1 7 oneAskEngine
              (buyRequest 50000 10) order trades e' 50000 oneAskEngine_wf HP Hst eq_refl)
    as (e'' & p & o & ob & pl & HL & Hp & Hid & _ & _ & _ & Hopen & Hq & _).
  exists e'', p, o. split; [exact HL|]. split; [exact Hp|]. split; [exact Hid|].
  split; [exact Hopen | exact Hq].
Defined.

(** * Further properties of the server *)

(** ** [handleOrderByID] *)

(** [CancelOrder] when no statement fails, by the row of the order. *)
Lemma CancelOrder_noFaults now e orderID :
  engine_inv e →
  match DB.orders (Engine.db e) !! orderID with
  | None => CancelOrder noFaults now e orderID = Ret (inl ErrOrderNotFound, e)
  | Some row =>
      if bool_decide (Order.Status row = OrderStatusFilled)
      then CancelOrder noFaults now e orderID = Ret (inl ErrAlreadyFilled, e)
      else if bool_decide (Order.Status row = OrderStatusCanceled)
      then CancelOrder noFaults now e orderID = Ret (inl ErrAlreadyCanceled, e)
      else if bool_decide (Order.RemainingQuantity row = 0)
      then CancelOrder noFaults now e orderID = Ret (inl ErrNoRemainingQuantity, e)
      else ∃ e', CancelOrder noFaults now e orderID
                 = Ret (inr (Order.setUpdatedAt now
                               (Order.setStatus OrderStatusCanceled
                                  (Order.setRemainingQuantity 0 row))), e')
  end.
Proof.
  intros [Hbinv _]. unfold CancelOrder, GetOrder. simpl.
  destruct (DB.orders (Engine.db e) !! orderID) as [row|] eqn:Hrow; [|done].
  case_bool_decide as Hfilled; [done|]. case_bool_decide as Hcanceled; [done|].
  case_bool_decide as Hrem; [done|]. simpl.
  destruct (getOrderBook _ _) as [ob books] eqn:Hget.
  destruct (getOrderBook_inv _ _ _ _ _ Hbinv Hget) as (Hobinv & _).
  destruct (Order.Price row) as [k|]; simpl; [|by eexists].
  destruct (RemoveOrder_total (Engine.heap e) ob orderID (Order.Side row) (Some k) Hobinv)
    as [[ob' b] ->].
  simpl. by eexists.
Qed.

(** X26. What [handleOrderByID] answers when the store does not fail.  Other
    methods than GET and DELETE get 405, an empty path and an ID that does not
    parse get 400, all without touching the engine.  A GET answers with the
    row of the order, or 404 when there is none.  A DELETE answers 404 when
    there is no row, 409 when the row is filled, canceled or has nothing
    remaining (in this order, with the engine untouched), and otherwise the
    ID of the row with status canceled. *)
Theorem handleOrderByID_answers cause now e method path :
  engine_inv e →
  ∃ reply e',
    handleOrderByID noFaults cause now e method path = Ret (reply, e')
    ∧ match method, path with
      | (MethodPost | MethodOther), _ => reply = ReplyError 405 "Method not allowed" ∧ e' = e
      | _, None => reply = ReplyError 400 "Order ID is required" ∧ e' = e
      | _, Some AtoiErr => reply = ReplyError 400 "Invalid order ID" ∧ e' = e
      | MethodGet, Some (AtoiOk orderID) =>
          e' = e
          ∧ reply = match DB.orders (Engine.db e) !! orderID with
                    | Some row => ReplyOrder row
                    | None => ReplyError 404 "Order not found"
                    end
      | MethodDelete, Some (AtoiOk orderID) =>
          match DB.orders (Engine.db e) !! orderID with
          | None => reply = ReplyError 404 "Order not found" ∧ e' = e
          | Some row =>
              if bool_decide (Order.Status row = OrderStatusFilled)
              then reply = ReplyError 409 "Order already filled" ∧ e' = e
              else if bool_decide (Order.Status row = OrderStatusCanceled)
              then reply = ReplyError 409 "Order already canceled" ∧ e' = e
              else if bool_decide (Order.RemainingQuantity row = 0)
              then reply = ReplyError 409 "Order has no remaining quantity" ∧ e' = e
              else reply = ReplyCanceled (Order.ID row) OrderStatusCanceled
                   ∧ (Order.Status <$> DB.orders (Engine.db e') !! orderID)
                     = Some OrderStatusCanceled
          end
      end.
Proof.
  intros Hinv. destruct method; try (by eexists _, _).
  - destruct path as [[orderID|]|]; try (by eexists _, _).
    unfold handleOrderByID, GetOrder. simpl.
    destruct (DB.orders (Engine.db e) !! orderID) as [row|]; by eexists _, _.
  - destruct path as [[orderID|]|]; try (by eexists _, _).
    unfold handleOrderByID. pose proof (CancelOrder_noFaults now e orderID Hinv) as HC.
    destruct (DB.orders (Engine.db e) !! orderID) as [row|] eqn:Hrow.
    2:{ rewrite HC. by eexists _, _. }
    case_bool_decide as Hfilled; [rewrite HC; by eexists _, _|].
    case_bool_decide as Hcanceled; [rewrite HC; by eexists _, _|].
    case_bool_decide as Hrem; [rewrite HC; by eexists _, _|].
    destruct HC as [e' HC]. rewrite HC. simpl. eexists _, e'. split; [done|].
    split; [done|].
    destruct (CancelOrder_outcomes _ _ _ _ _ _ HC)
      as [[_ (err & ? & _)] | [_ (row' & _ & _ & _ & _ & _ & _ & _ & _ & _ & _ & _ & Hres)]];
      [done|].
    destruct Hres as [-> ->]. done.
Qed.

Lemma handleOrderByID_answers_witness :
  engine_inv oneAskEngine
  ∧ ∃ e', handleOrderByID noFaults "" 9 oneAskEngine MethodDelete (Some (AtoiOk 1))
          = Ret (ReplyCanceled 1 OrderStatusCanceled, e')
          ∧ (Order.Status <$> DB.orders (Engine.db e') !! 1) = Some OrderStatusCanceled.
Proof.
  pose proof (wf_inv _ oneAskEngine_wf) as Hinv. split; [exact Hinv|].
  destruct (handleOrderByID_answers "" 9 oneAskEngine MethodDelete (Some (AtoiOk 1)) Hinv)
    as (reply & e' & Hrun & Hreply).
  simpl in Hreply. destruct Hreply as [-> Hrow]. by exists e'.
Defined.

(** The errors [CancelOrder] returns. *)
Lemma CancelOrder_errors fl now e orderID err e' :
  CancelOrder fl now e orderID = Ret (inl err, e') →
  match err with
  | ErrInsertOrder | ErrGetOrderID | ErrInsertTrade | ErrUpdateOrder _ => False
  | _ => True
  end.
Proof.
  unfold CancelOrder, GetOrder. destruct (fl 0%nat); [by intros [= <- <-]|].
  destruct (DB.orders (Engine.db e) !! orderID) as [row|] eqn:Hrow; [|by intros [= <- <-]].
  case_bool_decide as H1; [by intros [= <- <-]|].
  case_bool_decide as H2; [by intros [= <- <-]|].
  case_bool_decide as H3; [by intros [= <- <-]|].
  destruct (fl 1%nat); [by intros [= <- <-]|]. destruct (fl 2%nat); [by intros [= <- <-]|].
  cbn [orb]. destruct (fl 3%nat); [by intros [= <- <-]|].
  destruct (getOrderBook _ _) as [ob books].
  intros (ob' & _ & HC)%bind_Ret. destruct (fl 4%nat); [by injection HC as <- <-|done].
Qed.

(** The text put before the text of a store failure holds none of the
    phrases the handler looks for, whole or in part at its end. *)
Lemma contains_store_failure cause err phrase :
  match err with
  | ErrScanOrder | ErrBeginTransaction | ErrRecheckStatus | ErrUpdateStatus | ErrCommit =>
      phrase ∈ ["not found"; "already filled"; "already canceled"; "no remaining quantity";
                "cannot be canceled"] →
      contains (errorMessage cause err) phrase = contains cause phrase
  | _ => True
  end.
Proof.
  destruct err; try done; intros Hphrase;
    repeat (apply elem_of_cons in Hphrase as [->|Hphrase]; [
      unfold contains, errorMessage; cbv;
      match goal with
      | |- _ = match ?x with Some _ => _ | None => _ end => by destruct x
      end |]);
    by apply elem_of_nil in Hphrase.
Qed.

Lemma cancelErrorReply_store_failure cause err :
  match err with
  | ErrScanOrder | ErrBeginTransaction | ErrRecheckStatus | ErrUpdateStatus | ErrCommit =>
      cancelErrorReply (errorMessage cause err) = cancelErrorReply cause
  | _ => True
  end.
Proof.
  pose proof (contains_store_failure cause err) as H.
  destruct err; try done; unfold cancelErrorReply;
    rewrite !H by (rewrite !elem_of_cons; tauto); done.
Qed.

(** X27. How [handleOrderByID] answers a DELETE that [CancelOrder] refuses.
    The handler looks for phrases in the text of the error.  The errors the
    engine words itself get their code: 404 for an order that is not found,
    409 for one that is filled, canceled, without remaining quantity or not
    cancelable.  A failure of the store (the first read, [Begin], the read in
    the transaction, the update, [Commit]) is answered by the text of the
    store's own error alone: 500 when that text holds none of the phrases,
    but 404 when it holds "not found", and likewise 409 for the others,
    whatever the state of the order.  [CancelOrder] returns no other error. *)
Theorem handleOrderByID_delete_errors fl cause now e orderID err e' :
  CancelOrder fl now e orderID = Ret (inl err, e') →
  ∃ reply,
    handleOrderByID fl cause now e MethodDelete (Some (AtoiOk orderID)) = Ret (reply, e')
    ∧ match err with
      | ErrOrderNotFound => reply = ReplyError 404 "Order not found"
      | ErrAlreadyFilled => reply = ReplyError 409 "Order already filled"
      | ErrAlreadyCanceled => reply = ReplyError 409 "Order already canceled"
      | ErrNoRemainingQuantity => reply = ReplyError 409 "Order has no remaining quantity"
      | ErrCannotBeCanceled _ => reply = ReplyError 409 "Order cannot be canceled"
      | ErrScanOrder | ErrBeginTransaction | ErrRecheckStatus | ErrUpdateStatus | ErrCommit =>
          reply = cancelErrorReply cause
          ∧ (contains cause "not found" = true → reply = ReplyError 404 "Order not found")
          ∧ (contains cause "not found" = false → contains cause "already filled" = false →
             contains cause "already canceled" = false →
             contains cause "no remaining quantity" = false →
             contains cause "cannot be canceled" = false →
             reply = ReplyError 500 "Internal server error")
      | ErrInsertOrder | ErrGetOrderID | ErrInsertTrade | ErrUpdateOrder _ => False
      end.
Proof.
  intros HC. pose proof (CancelOrder_errors _ _ _ _ _ _ HC) as Herr.
  pose proof (cancelErrorReply_store_failure cause err) as Hstore.
  exists (cancelErrorReply (errorMessage cause err)).
  split; [unfold handleOrderByID; by rewrite HC|].
  destruct err as [| | | | | | | | | | | |status|]; try done;
    try (rewrite Hstore; split; [done|]; unfold cancelErrorReply;
         split; [by intros -> | by intros -> -> -> -> ->]).
  by destruct status.
Qed.

(** The cancel of order 1 fails at [Commit] with a store error whose text
    holds "not found": the answer is 404, though the order has a row. *)
Lemma handleOrderByID_delete_errors_witness :
  ∃ e', CancelOrder (failAt 4) 9 oneAskEngine 1 = Ret (inl ErrCommit, e')
        ∧ handleOrderByID (failAt 4) "savepoint not found" 9 oneAskEngine MethodDelete
            (Some (AtoiOk 1))
          = Ret (ReplyError 404 "Order not found", e')
        ∧ is_Some (DB.orders (Engine.db e') !! 1).
Proof.
  assert (∃ e', CancelOrder (failAt 4) 9 oneAskEngine 1 = Ret (inl ErrCommit, e')
                ∧ is_Some (DB.orders (Engine.db e') !! 1)) as (e' & HC & Hrow).
  { eexists. split; [vm_compute; reflexivity | by eexists]. }
  exists e'. split; [exact HC|].
  destruct (handleOrderByID_delete_errors (failAt 4) "savepoint not found" 9 oneAskEngine 1
              ErrCommit e' HC) as (reply & Hrun & _ & H404 & _).
  split; [|exact Hrow]. rewrite Hrun. f_equal. f_equal. by apply H404.
Defined.

(** * Further properties of the book query *)

Lemma totalRemaining_live (h : list Order.t) orders :
  (∀ p, p ∈ orders → ∃ o, h !! p = Some o ∧ 0 < Order.RemainingQuantity o) →
  0 ≤ totalRemaining h orders
  ∧ (orders ≠ [] → 0 < totalRemaining h orders)
  ∧ ∀ p o, p ∈ orders → h !! p = Some o → Order.RemainingQuantity o ≤ totalRemaining h orders.
Proof.
  induction orders as [|q rest IH]; intros Hall; simpl.
  - split; [done|]. split; [done|]. by intros p o ?%elem_of_nil.
  - destruct (Hall q) as (oq & Hq & Hpos); [by left|]. rewrite Hq. simpl.
    destruct IH as (Hnn & _ & Hle); [intros p Hp; apply Hall; by right|].
    split; [lia|]. split; [lia|].
    intros p o [->|Hp]%elem_of_cons Ho.
    + assert (o = oq) as -> by congruence. lia.
    + specialize (Hle p o Hp Ho). lia.
Qed.

(** X28. The quantities of the book query.  [GetOrderBookWithQuantities]
    returns, for the first [depth] cached prices of each side, the price with
    the remaining quantities of the orders of its level added up.  On an
    engine whose resting orders are live every quantity is positive and at
    least the remaining quantity of each order of the level.  The query
    leaves the heap and the books alone, except that asking for a symbol
    without a book creates an empty book for it. *)
Theorem GetOrderBookWithQuantities_level_totals e symbol depth :
  engine_wf e → engine_live e →
  ∃ bids asks books ob,
    GetOrderBookWithQuantities e symbol depth = Ret ((bids, asks), books)
    ∧ getOrderBook (Engine.orderBooks e) symbol = (ob, books)
    ∧ OrderBookLevel.Price <$> bids = take (Z.to_nat depth) (OrderBook.bidPrices ob)
    ∧ OrderBookLevel.Price <$> asks = take (Z.to_nat depth) (OrderBook.askPrices ob)
    ∧ (∀ sd l,
         l ∈ match sd with OrderSideBuy => bids | OrderSideSell => asks end →
         ∃ pl, sideLevels sd ob !! OrderBookLevel.Price l = Some pl
           ∧ OrderBookLevel.Quantity l
             = totalRemaining (Engine.heap e) (PriceLevel.Orders pl)
           ∧ 0 < OrderBookLevel.Quantity l
           ∧ ∀ p o, p ∈ PriceLevel.Orders pl → Engine.heap e !! p = Some o →
                    Order.RemainingQuantity o ≤ OrderBookLevel.Quantity l)
    ∧ match Engine.orderBooks e !! symbol with
      | Some ob0 => ob = ob0 ∧ books = Engine.orderBooks e
      | None =>
          ob = NewOrderBook symbol ∧ bids = [] ∧ asks = []
          ∧ books = <[symbol := NewOrderBook symbol]> (Engine.orderBooks e)
      end.
Proof.
  intros Hwf Hlive. pose proof Hwf as [[Hbinv _] _ _ _ _].
  destruct (getOrderBook (Engine.orderBooks e) symbol) as [ob books] eqn:Hget.
  destruct (getOrderBook_inv _ _ _ _ _ Hbinv Hget) as (Hobinv & _).
  destruct (getOrderBook_cases _ _ _ _ Hget) as (_ & _ & Hobcase).
  assert (book_live (Engine.heap e) ob) as Hoblive.
  { destruct Hobcase as [?| ->]; [by eapply Hlive | apply book_live_new]. }
  set (level := λ sd k,
         OrderBookLevel.mk k
           (from_option (λ pl, totalRemaining (Engine.heap e) (PriceLevel.Orders pl)) 0
              (sideLevels sd ob !! k))).
  set (out := λ sd, level sd <$> take (Z.to_nat depth) (sidePrices sd ob)).
  exists (out OrderSideBuy), (out OrderSideSell), books, ob.
  split; [|split; [done|]; split; [|split; [|split]]].
  - unfold GetOrderBookWithQuantities, GetTopLevels. rewrite Hget.
    destruct Hobinv as [Hb Ha].
    rewrite (topSide_inv _ _ _ _ _ depth Hb), (topSide_inv _ _ _ _ _ depth Ha).
    rewrite (levelsWithQuantities_spec _ _ _ _ _ _ Hb). simpl.
    rewrite (levelsWithQuantities_spec _ _ _ _ _ _ Ha). done.
  - unfold out. rewrite <- list_fmap_compose. by rewrite list_fmap_id.
  - unfold out. rewrite <- list_fmap_compose. by rewrite list_fmap_id.
  - intros sd l Hl.
    assert (l ∈ out sd) as Hin by (by destruct sd). clear Hl.
    apply list_elem_of_fmap in Hin as (k & -> & Hk).
    pose proof (book_inv_side _ ob sd Hobinv) as Hside.
    assert (k ∈ sidePrices sd ob) as Hk' by (by eapply subseteq_take).
    apply (si_keys _ _ _ _ _ Hside) in Hk' as [pl Hm].
    exists pl. unfold level. simpl. rewrite Hm. simpl. split; [done|]. split; [done|].
    destruct (totalRemaining_live (Engine.heap e) (PriceLevel.Orders pl)) as (_ & Hpos & Hle).
    { intros p Hp. destruct (Hoblive p) as (o & Ho & [Hq _] & _).
      - apply rests_in_sides. exists sd. by exists k, pl.
      - exists o. split; [done | lia]. }
    split; [|done]. apply Hpos. by eapply si_nonempty.
  - unfold getOrderBook in Hget.
    destruct (Engine.orderBooks e !! symbol) as [ob0|]; injection Hget as <- <-; [done|].
    split; [done|]. unfold out. simpl. by rewrite !take_nil.
Qed.

Lemma oneAskEngine_live : engine_live oneAskEngine.
Proof.
  intros s ob. simpl. intros [<- <-]%lookup_singleton_Some p Hp.
  apply rests_in_sides in Hp as [sd (k & pl & Hm & Hin)]. destruct sd; simpl in Hm.
  { by rewrite lookup_empty in Hm. }
  apply lookup_singleton_Some in Hm as [<- <-]. simpl in Hin.
  apply list_elem_of_singleton in Hin as ->. eexists. split; [reflexivity|].
  split; [simpl; lia | by left].
Qed.

(** The one ask of 5 at 50000 is one level with quantity 5; asking for a
    symbol without a book returns nothing and leaves an empty book behind. *)
Lemma GetOrderBookWithQuantities_level_totals_witness :
  (∃ books, GetOrderBookWithQuantities oneAskEngine "BTCUSD" 10
            = Ret (([], [OrderBookLevel.mk 50000 5]), books)
            ∧ books = Engine.orderBooks oneAskEngine)
  ∧ ∃ books, GetOrderBookWithQuantities oneAskEngine "ETHUSD" 10 = Ret (([], []), books)
             ∧ books = <["ETHUSD" := NewOrderBook "ETHUSD"]> (Engine.orderBooks oneAskEngine).
Proof.
  split.
  - destruct (GetOrderBookWithQuantities_level_totals oneAskEngine "BTCUSD" 10
                oneAskEngine_wf oneAskEngine_live)
      as (bids & asks & books & ob & HG & _ & _ & _ & _ & Hbooks).
    simpl in Hbooks. destruct Hbooks as [_ ->].
    exists (Engine.orderBooks oneAskEngine). split; [|done].
    rewrite HG. vm_compute in HG. by injection HG as <- <-.
  - destruct (GetOrderBookWithQuantities_level_totals oneAskEngine "ETHUSD" 10
                oneAskEngine_wf oneAskEngine_live)
      as (bids & asks & books & ob & HG & _ & _ & _ & _ & Hbooks).
    simpl in Hbooks. destruct Hbooks as (_ & -> & -> & ->). by eexists.
Defined.

(** * Further properties of the prices *)

Lemma valid_request_price req :
  validateCreateOrderRequest req = None → CreateOrderRequest.Type_ req = OrderTypeLimit →
  ∃ k, CreateOrderRequest.Price req = Some k ∧ 0 < k.
Proof.
  unfold validateCreateOrderRequest. case_bool_decide; [done|].
  destruct (_ || _); [done|]. intros Hv Hty. rewrite Hty in Hv.
  destruct (CreateOrderRequest.Price req) as [k|]; [|done].
  destruct (bool_decide (k = 0)) eqn:H0; [done|].
  destruct (bool_decide (k < 0)) eqn:H1; [done|].
  apply bool_decide_eq_false_1 in H0, H1. exists k. split; [done | lia].
Qed.

Lemma Match_trade_prices h incomingOrder ob executedAt res ob' h' :
  book_inv h ob →
  Match h incomingOrder ob executedAt = Ret (res, ob', h') →
  ∀ t, t ∈ MatchResult.Trades res →
    is_Some (sideLevels (opposite (Order.Side incomingOrder)) ob !! Trade.Price t).
Proof.
  intros Hinv HM.
  destruct (Match_facts h incomingOrder ob executedAt Hinv)
    as (st & q & HM' & Hw & _ & _ & _ & _ & Hkeys & _).
  rewrite HM in HM'. injection HM' as HM'. symmetry in HM'.
  destruct (finalize_cases _ _ _ _ _ _ Hw HM') as (-> & _).
  intros t Ht. rewrite sideLevels_opposite. by apply Hkeys.
Qed.

Lemma PlaceOrder_priced fl now executedAt e req result e' :
  engine_wf e → engine_priced e → validateCreateOrderRequest req = None →
  PlaceOrder fl now executedAt e req = Ret (result, e') →
  engine_priced e'
  ∧ match result with
    | inl _ => True
    | inr (_, trades) => ∀ t, t ∈ trades → 0 < Trade.Price t
    end.
Proof.
  intros Hwf Hpriced Hvalid HP.
  destruct (PlaceOrder_inv _ _ _ _ _ _ _ HP)
    as [[-> [err ->]] | [(Hb & _ & _ & _ & [err ->])
                        | (ob & books & res & ob' & h' & ob'' & Hget & HM & Hb & Hh & _ & Hob''
                           & Hres)]].
  - done.
  - split; [|done]. intros s ob sd k. rewrite Hb. apply Hpriced.
  - pose proof Hwf as [[Hbinv _] _ _ _ _].
    destruct (getOrderBook_inv _ _ _ _ _ Hbinv Hget) as (Hobinv & _).
    destruct (getOrderBook_cases _ _ _ _ Hget) as (_ & Hother & Hobcase).
    assert (∀ sd k, is_Some (sideLevels sd ob !! k) → 0 < k) as Hob.
    { intros sd k. destruct Hobcase as [Hob| ->]; [exact (Hpriced _ _ sd k Hob)|].
      destruct sd; simpl; rewrite lookup_empty; by intros [? ?]. }
    destruct (Match_engine (Engine.heap e)
                (Order.setID (DB.lastOrderID (Engine.db e) + 1) (newOrder now req))
                ob executedAt Hobinv)
      as (res0 & ob0 & h0 & w' & ps & HM0 & Hinv1 & _ & Hsub & _ & _ & _ & Hw' & Hsame & _
          & _ & _ & Hleft & _).
    rewrite HM in HM0. injection HM0 as <- <- <-.
    assert (∀ sd k, is_Some (sideLevels sd ob' !! k) → 0 < k) as Hob'.
    { intros sd k Hk. apply (Hob sd). destruct Hsub as (_ & [Hkb _] & [Hka _]).
      destruct sd; [by apply Hkb | by apply Hka]. }
    split.
    + intros s ob1 sd k. rewrite Hb.
      destruct (decide (s = CreateOrderRequest.Symbol req)) as [->|Hne].
      2:{ rewrite lookup_insert_ne, Hother by done. apply Hpriced. }
      rewrite lookup_insert_eq. intros [= <-].
      destruct Hob'' as [-> | (leftover & Hlo & Hadd)]; [apply Hob'|].
      rewrite Hlo in Hleft. destruct Hleft as (-> & _ & Hty & _).
      destruct Hsame as (_ & Hprice & _ & Hty' & _).
      destruct (valid_request_price req Hvalid Hty) as (k0 & Hk0 & Hpos).
      destruct (AddOrder_inv h' ob' _ w' Hinv1 Hw') as (ob3 & Hadd3 & _ & _ & Hkb & Hka & _).
      { by rewrite Hty'. }
      assert (ob3 = ob'') as -> by congruence.
      simpl in Hprice. rewrite Hk0 in Hprice.
      intros Hk. destruct sd; simpl in Hk.
      * apply Hkb in Hk as [[Hk _]|Hk]; [|by apply (Hob' OrderSideBuy)]. congruence.
      * apply Hka in Hk as [[Hk _]|Hk]; [|by apply (Hob' OrderSideSell)]. congruence.
    + destruct result as [err|[order trades]]; [done|]. destruct Hres as (-> & _).
      intros t Ht. eapply Hob. by eapply Match_trade_prices.
Qed.

Lemma CancelOrder_priced fl now e orderID result e' :
  engine_wf e → engine_priced e →
  CancelOrder fl now e orderID = Ret (result, e') → engine_priced e'.
Proof.
  intros Hwf Hpriced HC.
  destruct (CancelOrder_inv _ _ _ _ _ _ HC)
    as [[-> _] | (row & ob & books & ob' & _ & Hget & Hrm & Hb & _)]; [done|].
  pose proof Hwf as [[Hbinv _] _ _ _ _].
  destruct (getOrderBook_inv _ _ _ _ _ Hbinv Hget) as (Hobinv & _).
  destruct (getOrderBook_cases _ _ _ _ Hget) as (_ & Hother & Hobcase).
  assert (∀ sd k, is_Some (sideLevels sd ob !! k) → 0 < k) as Hob.
  { intros sd k. destruct Hobcase as [Hob| ->]; [exact (Hpriced _ _ sd k Hob)|].
    destruct sd; simpl; rewrite lookup_empty; by intros [? ?]. }
  intros s ob1 sd k. rewrite Hb.
  destruct (decide (s = Order.Symbol row)) as [->|Hne].
  2:{ rewrite lookup_insert_ne, Hother by done. apply Hpriced. }
  rewrite lookup_insert_eq. intros [= <-].
  destruct (Order.Price row) as [k0|]; [|subst ob'; apply Hob].
  destruct Hrm as [b Hrm].
  destruct (RemoveOrder_inv _ _ _ _ _ _ _ Hobinv Hrm) as (_ & (_ & [Hkb _] & [Hka _]) & _).
  intros Hk. apply (Hob sd). destruct sd; [by apply Hkb | by apply Hka].
Qed.

Lemma runOps_priced ops : ∀ e,
  engine_wf e → engine_priced e → Forall op_valid ops →
  ∃ e' new,
    runOps e ops = Ret e'
    ∧ engine_priced e'
    ∧ DB.trades (Engine.db e') = DB.trades (Engine.db e) ++ new
    ∧ Forall (λ t, 0 < Trade.Price t) new.
Proof.
  induction ops as [|op rest IH]; intros e Hwf Hpriced Hvalid; simpl.
  { exists e, []. rewrite app_nil_r. split; [done|]. split; [done|]. split; [done|].
    constructor. }
  apply Forall_cons in Hvalid as [Hv Hvs].
  assert (∃ e1 new1,
            runOp e op = Ret e1 ∧ engine_wf e1 ∧ engine_priced e1
            ∧ DB.trades (Engine.db e1) = DB.trades (Engine.db e) ++ new1
            ∧ Forall (λ t, 0 < Trade.Price t) new1)
    as (e1 & new1 & -> & Hwf1 & Hpriced1 & Ht1 & Hpos1).
  { destruct op as [fl now executedAt req | fl now orderID]; simpl.
    - destruct (PlaceOrder_outcome fl now executedAt e req (wf_inv _ Hwf))
        as (_ & _ & _ & _ & _ & _ & _ & result & e1 & HP & _).
      rewrite HP. destruct (PlaceOrder_wf _ _ _ _ _ _ _ Hwf HP) as [Hwf1 _].
      destruct (PlaceOrder_trades _ _ _ _ _ _ _ HP) as [_ Htr].
      destruct (PlaceOrder_priced _ _ _ _ _ _ _ Hwf Hpriced Hv HP) as [Hpriced1 Hprices].
      destruct result as [err|[order trades]].
      + exists e1, []. rewrite app_nil_r. split; [done|]. split; [done|]. split; [done|].
        split; [done | constructor].
      + destruct Htr as [Htr _].
        exists e1, (storedTrades (DB.lastTradeID (Engine.db e)) trades).
        split; [done|]. split; [done|]. split; [done|]. split; [done|].
        apply Forall_forall. intros t Ht.
        destruct (storedTrades_spec trades (DB.lastTradeID (Engine.db e))) as (_ & _ & Hstored).
        destruct (Hstored t Ht) as (_ & t0 & Ht0 & _ & _ & _ & ->). by apply Hprices.
    - destruct (CancelOrder_outcome fl now e orderID (wf_inv _ Hwf)) as (result & e1 & HC & _).
      rewrite HC. destruct (CancelOrder_wf _ _ _ _ _ _ Hwf HC) as (Hwf1 & _).
      destruct (CancelOrder_trades _ _ _ _ _ _ HC) as [Htr _].
      exists e1, []. rewrite app_nil_r. split; [done|]. split; [done|].
      split; [exact (CancelOrder_priced _ _ _ _ _ _ Hwf Hpriced HC)|].
      split; [done | constructor]. }
  simpl. destruct (IH e1 Hwf1 Hpriced1 Hvs) as (e' & new & Hrun & Hpriced' & Ht & Hpos).
  exists e', (new1 ++ new). split; [done|]. split; [done|].
  split; [by rewrite Ht, Ht1, app_assoc|]. by apply Forall_app.
Qed.

(** X29. Prices are positive.  For requests the server's validation lets
    through, with whatever store failures and cancels in between, starting
    from an engine without books: every level of every book is at a positive
    price, every resting order has a positive price, and every trade added to
    the trades table has a positive price.  Market orders may carry any price
    or none, but they never rest and a trade takes the price of the resting
    order. *)
Theorem prices_are_positive db ops :
  Forall op_valid ops →
  ∃ e new,
    runOps (NewEngine db) ops = Ret e
    ∧ DB.trades (Engine.db e) = DB.trades db ++ new
    ∧ (∀ t, t ∈ new → 0 < Trade.Price t)
    ∧ (∀ s ob sd k, Engine.orderBooks e !! s = Some ob →
                    is_Some (sideLevels sd ob !! k) → 0 < k)
    ∧ (∀ s ob p o, Engine.orderBooks e !! s = Some ob → rests_in ob p →
                   Engine.heap e !! p = Some o → ∃ k, Order.Price o = Some k ∧ 0 < k).
Proof.
  intros Hvalid.
  assert (engine_priced (NewEngine db)) as Hnew.
  { intros s ob sd k. simpl. by rewrite lookup_empty. }
  destruct (runOps_priced ops (NewEngine db) (engine_wf_new db) Hnew Hvalid)
    as (e & new & Hrun & Hpriced & Ht & Hpos).
  destruct (runOps_wf ops (NewEngine db) (engine_wf_new db))
    as (e0 & Hrun0 & [[Hbinv _] _ _ _ _] & _).
  assert (e0 = e) as -> by congruence.
  exists e, new. split; [done|]. split; [done|]. split; [by apply Forall_forall|].
  split; [done|].
  intros s ob p o Hob [sd (k & pl & Hm & Hin)]%rests_in_sides Ho.
  destruct (si_orders _ _ _ _ _ (book_inv_side _ _ sd (Hbinv _ _ Hob)) _ _ _ Hm Hin)
    as (o' & Ho' & Hpr & _).
  assert (o' = o) as -> by congruence. exists k. split; [done|].
  eapply Hpriced; [done|]. by eexists.
Qed.

Lemma prices_are_positive_witness :
  let ops := [OpPlaceOrder noFaults 1 1 (sellRequest 50000 5);
              OpPlaceOrder noFaults 2 2 (buyRequest 50100 3)] in
  Forall op_valid ops
  ∧ ∃ e, runOps (NewEngine (DB.mk ∅ [] 0 0)) ops = Ret e
      ∧ DB.trades (Engine.db e) = [Trade.mk 1 "BTCUSD" 2 1 50000 3 2]
      ∧ ∀ s ob sd k, Engine.orderBooks e !! s = Some ob →
                     is_Some (sideLevels sd ob !! k) → 0 < k.
Proof.
  intros ops. assert (Forall op_valid ops) as Hvalid by (repeat constructor).
  split; [exact Hvalid|].
  destruct (prices_are_positive (DB.mk ∅ [] 0 0) ops Hvalid)
    as (e & new & Hrun & _ & _ & Hlevels & _).
  exists e. split; [exact Hrun|]. split; [|exact Hlevels].
  pose proof Hrun as Hrun'. vm_compute in Hrun'. injection Hrun' as <-. reflexivity.
Defined.

(** * Further properties of the store *)

(** ** Status and remaining quantity of the rows *)

Lemma Match_updates_settled h incomingOrder ob executedAt res ob' h' :
  book_inv h ob → book_nodup ob → book_live h ob →
  0 < Order.RemainingQuantity incomingOrder ≤ Order.InitialQuantity incomingOrder →
  Order.Status incomingOrder = OrderStatusOpen →
  Match h incomingOrder ob executedAt = Ret (res, ob', h') →
  ∀ p, p ∈ MatchResult.UpdatedOrders res → ∃ o, h' !! p = Some o ∧ order_settled o.
Proof.
  intros Hinv Hnd Hlive Hqty Hopen HM0.
  assert (book_inv (h ++ [incomingOrder]) ob) as Hinv0
    by (eapply book_inv_heap_ext; [apply heap_ext_app | done]).
  assert (∀ p, rests_in ob p → (p < length h)%nat) as Hold.
  { intros p [sd' (k & pl & Hm & Hp)]%rests_in_sides.
    destruct (si_orders _ _ _ _ _ (book_inv_side h ob sd' Hinv) _ _ _ Hm Hp) as (o & Ho & _).
    by eapply lookup_lt_Some. }
  destruct (Match_facts h incomingOrder ob executedAt Hinv)
    as (st & q & HM & Hw & _ & Hrun & _).
  destruct (match_run_live _ _ _ _ _ Hrun incomingOrder Hinv0 Hnd)
    as (_ & (wB & HwB & HwBr) & ts & ps & _ & Hps & _ & Hupd).
  { intros p Hp. destruct (Hlive p Hp) as (o & Ho & Hol). exists o. split; [|done].
    simpl. by apply lookup_app_l_Some. }
  { simpl. by apply list_lookup_middle. }
  { lia. }
  { simpl. intros Hx%Hold. lia. }
  simpl in Hps. subst ps.
  assert (wB = Order.setRemainingQuantity q incomingOrder) as -> by congruence.
  simpl in HwBr.
  rewrite HM0 in HM. injection HM as Hfin. symmetry in Hfin.
  destruct (finalize_cases _ _ _ _ _ _ Hw Hfin) as (_ & _ & _ & Hsame & w' & Hw' & Hcases).
  assert (∀ p, p ∈ MatchState.updated st → p ≠ length h →
            ∃ o, h' !! p = Some o ∧ order_settled o) as Hold'.
  { intros p Hp Hpw. destruct (Hupd p Hp) as (o & Ho & Hr & Hst). exists o.
    split; [by rewrite Hsame|]. split; [done|]. rewrite Hst. unfold tradeStatus.
    split; intros Hz; [rewrite bool_decide_eq_true_2 by done; by left
                      | by rewrite bool_decide_eq_false_2]. }
  simpl in Hcases.
  destruct Hcases as [(Hz & _ & -> & ->) | [(Hnz & Hty & _ & -> & ->) | (Hnz & Hty & _ & -> & ->)]].
  - intros p Hp. destruct (decide (p = length h)) as [->|Hpw].
    + eexists. split; [exact Hw'|]. split; [simpl; lia|]. simpl. split; [by left | done].
    + apply elem_of_app in Hp as [Hp|Hp%list_elem_of_singleton]; [by apply Hold' | done].
  - intros p Hp. destruct (decide (p = length h)) as [->|Hpw]; [|by apply Hold'].
    eexists. split; [exact Hw'|].
    destruct (Hupd _ Hp) as (o & Ho & _ & Hst). rewrite Hw in Ho. injection Ho as <-.
    simpl in Hst. unfold tradeStatus in Hst. rewrite bool_decide_eq_false_2 in Hst by done.
    rewrite Hopen in Hst. done.
  - intros p Hp. destruct (decide (p = length h)) as [->|Hpw].
    + eexists. split; [exact Hw'|]. split; [simpl; lia|]. simpl. split; [by right | done].
    + apply elem_of_app in Hp as [Hp|Hp%list_elem_of_singleton]; [by apply Hold' | done].
Qed.

(** A row after the updates is as it was, or carries the fields of one of
    the updated orders with its ID. *)
Lemma updatedRows_cases (h : list Order.t) ps id : ∀ rows,
  updatedRows h ps rows !! id = rows !! id
  ∨ ∃ p u row, p ∈ ps ∧ h !! p = Some u ∧ Order.ID u = id ∧ rows !! id = Some row
               ∧ updatedRows h ps rows !! id = Some (updatedRow u row).
Proof.
  induction ps as [|p rest IH]; intros rows; simpl; [by left|].
  destruct (h !! p) as [u0|] eqn:Hu0; [|by left].
  destruct (IH (alter (updatedRow u0) (Order.ID u0) rows))
    as [Hsame | (q & u & row1 & Hq & Hu & Hid & Hrow1 & Hres)].
  - rewrite Hsame. destruct (decide (Order.ID u0 = id)) as [Heq|Hne].
    + subst id. rewrite lookup_alter_eq.
      destruct (rows !! Order.ID u0) as [row|] eqn:Hrow; [|by left].
      right. exists p, u0, row. split; [by left | done].
    + left. by rewrite lookup_alter_ne.
  - right. destruct (decide (Order.ID u0 = id)) as [Heq|Hne].
    + subst id. rewrite Heq, lookup_alter_eq in Hrow1.
      destruct (rows !! Order.ID u) as [row|] eqn:Hrow; [|done]. injection Hrow1 as <-.
      exists q, u, row. split; [by right|]. split; [done|]. split; [done|].
      rewrite <- Heq in Hrow. split; [by rewrite Heq in Hrow|]. rewrite Hres.
      by destruct row.
    + rewrite lookup_alter_ne in Hrow1 by done. exists q, u, row1.
      split; [by right|]. done.
Qed.

Lemma PlaceOrder_settled fl now executedAt e req result e' :
  engine_wf e → rows_agree e → engine_live e → rows_settled (Engine.db e) →
  0 < CreateOrderRequest.Quantity req →
  PlaceOrder fl now executedAt e req = Ret (result, e') →
  rows_settled (Engine.db e').
Proof.
  intros Hwf Hagree Hlive Hsettled Hqty HP.
  pose proof (PlaceOrder_rows _ _ _ _ _ _ _ Hwf Hagree HP) as [_ Hagree'].
  destruct (PlaceOrder_inv _ _ _ _ _ _ _ HP)
    as [[-> _] | [(_ & _ & [Ho _] & _)
                 | (ob & books & res & ob' & h' & ob'' & Hget & HM & _ & Hh & _ & _ & Hres)]].
  - done.
  - intros id row. rewrite Ho. apply Hsettled.
  - destruct result as [err|[order trades]].
    { destruct Hres as [Ho _]. intros id row. rewrite Ho. apply Hsettled. }
    destruct Hres as (_ & Horders & _).
    pose proof Hwf as [[Hbinv Hsound] _ _ _ _].
    destruct (getOrderBook_inv _ _ _ _ _ Hbinv Hget) as (Hobinv & _).
    destruct (getOrderBook_sound _ _ _ _ Hsound Hget) as ([_ Hobnd] & _).
    destruct (getOrderBook_cases _ _ _ _ Hget) as (_ & _ & Hobcase).
    assert (book_live (Engine.heap e) ob) as Hoblive.
    { destruct Hobcase as [?| ->]; [by eapply Hlive | apply book_live_new]. }
    assert (∀ p, p ∈ MatchResult.UpdatedOrders res → ∃ o, h' !! p = Some o ∧ order_settled o)
      as Hupd.
    { eapply (Match_updates_settled (Engine.heap e)); [done | done | done | | | done].
      - simpl. lia.
      - done. }
    intros id row' Hrow'. pose proof Hrow' as Hrow. rewrite Horders in Hrow.
    set (inserted := Order.setID (DB.lastOrderID (Engine.db e) + 1) (newOrder now req))
      in Hrow.
    destruct (updatedRows_cases h' (MatchResult.UpdatedOrders res) id
                (<[Order.ID inserted := inserted]> (DB.orders (Engine.db e))))
      as [Hsame | (p & u & row & Hp & Hu & Hid & _ & Hres)].
    + rewrite Hsame in Hrow. destruct (decide (id = Order.ID inserted)) as [->|Hne].
      * rewrite lookup_insert_eq in Hrow. by injection Hrow as <-.
      * rewrite lookup_insert_ne in Hrow by done. by eapply Hsettled.
    + rewrite Hres in Hrow. injection Hrow as <-.
      destruct (Hupd p Hp) as (u' & Hu' & Hrange & Hzero & Hpart).
      assert (u' = u) as -> by congruence.
      rewrite <- Hh in Hu. rewrite <- Hid in Hrow'.
      destruct (Hagree' p u _ Hu Hrow') as (_ & _ & _ & _ & Hinit & _).
      unfold row_settled. simpl in *. rewrite Hinit.
      destruct (decide (Order.RemainingQuantity u = 0)) as [Hz|Hnz].
      * destruct (Hzero Hz) as [-> | ->]; done.
      * rewrite (Hpart Hnz). lia.
Qed.

Lemma CancelOrder_settled fl now e orderID result e' :
  rows_settled (Engine.db e) →
  CancelOrder fl now e orderID = Ret (result, e') →
  rows_settled (Engine.db e').
Proof.
  intros Hsettled HC.
  destruct (CancelOrder_inv _ _ _ _ _ _ HC)
    as [[-> _] | (row & ob & books & ob' & _ & _ & _ & _ & _ & _ & Hres)]; [done|].
  destruct result as [err|order].
  { destruct Hres as [Ho _]. intros id row'. rewrite Ho. apply Hsettled. }
  destruct Hres as (_ & Ho & _). intros id row'. rewrite Ho.
  destruct (decide (id = orderID)) as [->|Hne].
  - rewrite lookup_alter_eq. destruct (DB.orders (Engine.db e) !! orderID); [|done].
    by intros [= <-].
  - rewrite lookup_alter_ne by done. apply Hsettled.
Qed.

Lemma runOps_settled ops : ∀ e,
  engine_wf e → rows_agree e → engine_live e → rows_settled (Engine.db e) →
  Forall op_valid ops →
  ∃ e', runOps e ops = Ret e' ∧ rows_settled (Engine.db e').
Proof.
  induction ops as [|op rest IH]; intros e Hwf Hagree Hlive Hsettled Hvalid; simpl.
  { by exists e. }
  apply Forall_cons in Hvalid as [Hv Hvs].
  assert (∃ e1, runOp e op = Ret e1 ∧ engine_wf e1 ∧ rows_agree e1 ∧ engine_live e1
                ∧ rows_settled (Engine.db e1))
    as (e1 & -> & Hwf1 & Hagree1 & Hlive1 & Hsettled1).
  { destruct op as [fl now executedAt req | fl now orderID]; simpl.
    - destruct (PlaceOrder_outcome fl now executedAt e req (wf_inv _ Hwf))
        as (_ & _ & _ & _ & _ & _ & _ & result & e1 & HP & _).
      rewrite HP. exists e1. split; [done|].
      pose proof (valid_request_quantity _ Hv) as Hqty.
      destruct (PlaceOrder_wf _ _ _ _ _ _ _ Hwf HP) as [Hwf1 _].
      split; [done|]. split; [exact (PlaceOrder_rows _ _ _ _ _ _ _ Hwf Hagree HP)|].
      split; [exact (PlaceOrder_live _ _ _ _ _ _ _ Hwf Hlive Hqty HP)|].
      exact (PlaceOrder_settled _ _ _ _ _ _ _ Hwf Hagree Hlive Hsettled Hqty HP).
    - destruct (CancelOrder_outcome fl now e orderID (wf_inv _ Hwf)) as (result & e1 & HC & _).
      rewrite HC. exists e1. split; [done|].
      destruct (CancelOrder_wf _ _ _ _ _ _ Hwf HC) as (Hwf1 & _ & _ & Hr1 & Hl1).
      split; [done|]. split; [by apply Hr1|]. split; [by apply Hl1|].
      exact (CancelOrder_settled _ _ _ _ _ _ Hsettled HC). }
  simpl. by apply IH.
Qed.

(** X30. Status and remaining quantity of the stored orders agree.  For
    requests the server's validation lets through, with whatever store
    failures and cancels in between, starting from an engine without books on
    a store whose rows have IDs up to its counter and agree in this way: a
    row that is open has its whole quantity remaining, a row that is
    partially filled has a positive remaining quantity of at most its initial
    quantity, and a row that is filled or canceled has nothing remaining. *)
Theorem stored_status_matches_remaining db ops :
  store_wf db → rows_settled db → Forall op_valid ops →
  ∃ e, runOps (NewEngine db) ops = Ret e
    ∧ ∀ id row, DB.orders (Engine.db e) !! id = Some row →
        match Order.Status row with
        | OrderStatusOpen => Order.RemainingQuantity row = Order.InitialQuantity row
        | OrderStatusPartiallyFilled =>
            0 < Order.RemainingQuantity row ≤ Order.InitialQuantity row
        | OrderStatusFilled | OrderStatusCanceled => Order.RemainingQuantity row = 0
        end.
Proof.
  intros Hstore Hsettled Hvalid.
  apply (runOps_settled ops (NewEngine db)); [apply engine_wf_new | | | done | done].
  - split; [done|]. intros p o row. simpl. by rewrite lookup_nil.
  - intros s ob. simpl. by rewrite lookup_empty.
Qed.

(** A sell of 5 and a buy of 3 that crosses it: the row of the sell is
    partially filled with 2, the row of the buy is filled with 0. *)
Lemma stored_status_matches_remaining_witness :
  let db := DB.mk ∅ [] 0 0 in
  let ops := [OpPlaceOrder noFaults 1 1 (sellRequest 50000 5);
              OpPlaceOrder noFaults 2 2 (buyRequest 50000 3)] in
  store_wf db ∧ rows_settled db ∧ Forall op_valid ops
  ∧ ∃ e row1 row2,
      runOps (NewEngine db) ops = Ret e
      ∧ DB.orders (Engine.db e) !! 1 = Some row1
      ∧ Order.Status row1 = OrderStatusPartiallyFilled
      ∧ 0 < Order.RemainingQuantity row1 ≤ Order.InitialQuantity row1
      ∧ DB.orders (Engine.db e) !! 2 = Some row2
      ∧ Order.Status row2 = OrderStatusFilled
      ∧ Order.RemainingQuantity row2 = 0.
Proof.
  intros db ops.
  assert (store_wf db) as Hstore by (intros id row; simpl; by rewrite lookup_empty).
  assert (rows_settled db) as Hsettled by (intros id row; simpl; by rewrite lookup_empty).
  assert (Forall op_valid ops) as Hvalid by (repeat constructor).
  split; [exact Hstore|]. split; [exact Hsettled|]. split; [exact Hvalid|].
  destruct (stored_status_matches_remaining db ops Hstore Hsettled Hvalid) as (e & Hrun & Hrows).
  pose proof Hrun as Hrun'. vm_compute in Hrun'. injection Hrun' as He.
  assert (∃ row1 row2, DB.orders (Engine.db e) !! 1 = Some row1
                       ∧ Order.Status row1 = OrderStatusPartiallyFilled
                       ∧ DB.orders (Engine.db e) !! 2 = Some row2
                       ∧ Order.Status row2 = OrderStatusFilled)
    as (row1 & row2 & H1 & Hs1 & H2 & Hs2).
  { rewrite <- He. eexists _, _. split; [reflexivity|]. split; [reflexivity|].
    split; reflexivity. }
  exists e, row1, row2. split; [exact Hrun|]. split; [exact H1|]. split; [exact Hs1|].
  pose proof (Hrows 1 row1 H1) as Hr1. rewrite Hs1 in Hr1.
  pose proof (Hrows 2 row2 H2) as Hr2. rewrite Hs2 in Hr2.
  split; [exact Hr1|]. split; [exact H2|]. split; [exact Hs2 | exact Hr2].
Defined.
